(** * py-lmdb, [lmdb/cpython.c]: handle layer over the LMDB engine

    A shallow embedding of the CPython extension module of py-lmdb.  The
    module wraps the engine's resources (environment, transaction, cursor,
    database) in Python objects which are linked in an intrusive
    parent/child tree so that closing a parent invalidates its children.

    What is modelled, and how:
    - the C heap of handle objects is a finite map from addresses to
      [lmdb_object] records (the [LmdbObject_HEAD] fields and the fields of
      the concrete struct);
    - every call into the engine ([mdb_*]) is recorded, in order, in a
      trace; what the engine answers is given by an [Engine], a function of
      the calls made so far, so that all statements hold for every engine;
    - the constants of [lmdb.h] and [errno.h] are fields of the class
      [lmdb_h];
    - the result of argument parsing (positional/keyword matching, type
      checks, buffer conversion) is an input: either the parse fails with
      an error or it supplies some of the fields of the argument struct,
      the others keeping the defaults of the struct initialiser;
    - reference counts and the cached memory views ([key_buf], [val_buf],
      [item_tup]) are not modelled, and objects are not deallocated, but
      for the transaction [env_cursor] releases when its cursor cannot be
      made, whose [tp_clear] is run; a view is represented by the bytes it
      shows when it is returned. *)

From Stdlib Require Import ZArith Lia List String.
From Stdlib.Strings Require Import Byte.
From stdpp Require Import base option list gmap strings.

Open Scope string_scope.
Open Scope Z_scope.
Open Scope list_scope.

(** ** The engine interface ([lmdb.h]) *)

Definition addr := nat.

(** A pointer to a handle object; [None] is [NULL]. *)
Abbreviation ptr := (option addr).

(** A pointer to an engine resource ([MDB_env *], [MDB_txn *],
    [MDB_cursor *]); [None] is [NULL]. *)
Abbreviation eptr := (option nat).

Definition bytes := list Byte.byte.

(** [MDB_val]: a size and a data pointer; [mv_data = None] is [NULL].  A
    pointer is written as the bytes it refers to when it is set: that the
    engine may rewrite the memory it owns, at a later write, is not
    modelled. *)
Record MDB_val := mk_val { mv_size : nat; mv_data : option bytes }.

(** The struct initialiser [{0, 0}]. *)
Definition val_null : MDB_val := mk_val 0 None.

(** The positioning modes of [enum MDB_cursor_op] this module uses. *)
Inductive MDB_cursor_op :=
| MDB_FIRST | MDB_LAST | MDB_NEXT | MDB_PREV
| MDB_SET_KEY | MDB_SET_RANGE | MDB_GET_CURRENT.

#[global] Instance MDB_cursor_op_eq_dec : EqDecision MDB_cursor_op.
Proof. solve_decision. Defined.

(** The numeric constants the module takes from [lmdb.h] and [errno.h]. *)
Class lmdb_h := {
  MDB_RDONLY : Z;
  MDB_REVERSEKEY : Z;
  MDB_DUPSORT : Z;
  MDB_CREATE : Z;
  MDB_NOOVERWRITE : Z;
  MDB_NODUPDATA : Z;
  MDB_APPEND : Z;
  MDB_KEYEXIST : Z;
  MDB_NOTFOUND : Z;
  EINVAL : Z
}.

(** The values of LMDB 0.9 and of Linux. *)
Definition lmdb_0_9 : lmdb_h := {|
  MDB_RDONLY := 0x20000;
  MDB_REVERSEKEY := 0x02;
  MDB_DUPSORT := 0x04;
  MDB_CREATE := 0x40000;
  MDB_NOOVERWRITE := 0x10;
  MDB_NODUPDATA := 0x20;
  MDB_APPEND := 0x20000;
  MDB_KEYEXIST := -30799;
  MDB_NOTFOUND := -30798;
  EINVAL := 22
|}.

(** What the module needs of the constants: the three write flags are
    single, distinct bits, and the two status codes are failures. *)
Definition put_flags_ok (K : lmdb_h) : Prop :=
  @MDB_NOOVERWRITE K ≠ 0 ∧ @MDB_NODUPDATA K ≠ 0 ∧ @MDB_APPEND K ≠ 0 ∧
  Z.land (@MDB_NODUPDATA K) (@MDB_NOOVERWRITE K) = 0 ∧
  Z.land (@MDB_NODUPDATA K) (@MDB_APPEND K) = 0 ∧
  Z.land (@MDB_NOOVERWRITE K) (@MDB_APPEND K) = 0.

Definition status_ok (K : lmdb_h) : Prop :=
  @MDB_KEYEXIST K ≠ 0 ∧ @MDB_NOTFOUND K ≠ 0.

(** [flags & F] as a C condition. *)
Definition flag_set (flags F : Z) : bool := negb (Z.eqb (Z.land flags F) 0).

(** The calls into the engine, with their input arguments. *)
Inductive engine_call :=
| mdb_env_close (env : eptr)
| mdb_env_info (env : eptr)
| mdb_env_stat (env : eptr)
| mdb_env_sync (env : eptr) (force : bool)
| mdb_env_get_path (env : eptr)
| mdb_txn_begin (env : eptr) (parent : eptr) (flags : Z)
| mdb_txn_commit (txn : eptr)
| mdb_txn_abort (txn : eptr)
| mdb_dbi_open (txn : eptr) (name : option string) (flags : Z)
| mdb_get (txn : eptr) (dbi : Z) (key : MDB_val)
| mdb_put (txn : eptr) (dbi : Z) (key data : MDB_val) (flags : Z)
| mdb_del (txn : eptr) (dbi : Z) (key : MDB_val) (data : option MDB_val)
| mdb_drop (txn : eptr) (dbi : Z) (del : bool)
| mdb_cursor_open (txn : eptr) (dbi : Z)
| mdb_cursor_close (curs : eptr)
| mdb_cursor_get (curs : eptr) (key data : MDB_val) (op : MDB_cursor_op)
| mdb_cursor_put (curs : eptr) (key data : MDB_val) (flags : Z)
| mdb_cursor_del (curs : eptr) (flags : Z)
| mdb_cursor_count (curs : eptr).

(** What a call hands back: the status code and the output arguments
    (a new resource, a dbi, a key/data pair, a count, a table of
    counters, a path), of which each call uses its own. *)
Record reply := mk_reply {
  rc : Z;
  out_ptr : nat;
  out_dbi : Z;
  out_key : MDB_val;
  out_data : MDB_val;
  out_count : Z;
  out_fields : list (string * Z);
  out_path : string
}.

(** The engine: its answer to a call, given the calls made before. *)
Class Engine := engine_reply : list engine_call → engine_call → reply.

(** ** Python values and exceptions *)

(** The three ways the module raises: [err_set] (the engine's status and
    what failed), [err_invalid] and [type_error].  [PyError] stands for an
    exception raised by the Python runtime itself. *)
Inductive error :=
| EngineError (what : string) (rc : Z)
| InvalidHandle
| TypeError (what : string)
| PyError (what : string).

Definition err_set (what : string) (rc : Z) : error := EngineError what rc.
Definition err_invalid : error := InvalidHandle.
Definition type_error (what : string) : error := TypeError what.

(** [IterObject]: not an [lmdb_object], it has a plain [PyObject_HEAD]. *)
Inductive val_func_t := cursor_key_f | cursor_value_f | cursor_item_f.

Record IterObject := mk_iter {
  i_curs : addr;
  i_started : bool;
  i_op : MDB_cursor_op;
  i_val_func : val_func_t
}.

(** The objects the module returns.  A list holds [True]/[False] only
    (the results of a batch), a dict maps keys to values ([gets]) or
    counter names to numbers ([stat], [info]). *)
Inductive pyobj :=
| Py_None
| Py_True
| Py_False
| PyBytes (s : bytes)
| PyBuffer (s : bytes)
| PyLong (n : Z)
| PyUnicode (s : string)
| PyTuple (a b : pyobj)
| PyList (l : list bool)
| PyDict (l : list (bytes * bytes))
| PyFields (l : list (string * Z))
| PyHandle (a : addr)
| PyIterator (it : IterObject).

(** What a method hands to the interpreter: an object, or [NULL] with an
    exception set. *)
Inductive pyresult :=
| Return (v : pyobj)
| Raise (e : error).

(** ** Handle objects *)

Record list_head := mk_list_head { prev : ptr; next : ptr }.

Record DbObject := mk_db {
  d_env : ptr;
  d_dbi : Z
}.

Record EnvObject := mk_env {
  e_env : eptr;
  e_main_db : ptr;
  e_readonly : bool
}.

Record TransObject := mk_trans {
  t_env : ptr;
  t_txn : eptr;
  t_buffers : bool
}.

Record CursorObject := mk_cursor {
  c_trans : ptr;
  c_positioned : bool;
  c_curs : eptr;
  c_key : MDB_val;
  c_val : MDB_val
}.

(** The concrete struct behind a [struct lmdb_object *], which is also
    what [Py_TYPE(o)] tells. *)
Inductive body_t :=
| BDb (d : DbObject)
| BEnv (e : EnvObject)
| BTrans (t : TransObject)
| BCursor (c : CursorObject).

(** [LmdbObject_HEAD] followed by the fields of the concrete struct. *)
Record lmdb_object := mk_object {
  siblings : list_head;
  children : list_head;
  valid : bool;
  body : body_t
}.

Definition list_head_null : list_head := mk_list_head None None.

(** [OBJECT_INIT] on a new object with the given fields. *)
Definition OBJECT_INIT (b : body_t) : lmdb_object :=
  mk_object list_head_null list_head_null true b.

Definition set_siblings_prev (p : ptr) (o : lmdb_object) : lmdb_object :=
  mk_object (mk_list_head p (next (siblings o))) (children o) (valid o) (body o).
Definition set_siblings_next (p : ptr) (o : lmdb_object) : lmdb_object :=
  mk_object (mk_list_head (prev (siblings o)) p) (children o) (valid o) (body o).
Definition set_children_next (p : ptr) (o : lmdb_object) : lmdb_object :=
  mk_object (siblings o) (mk_list_head (prev (children o)) p) (valid o) (body o).
Definition set_valid (b : bool) (o : lmdb_object) : lmdb_object :=
  mk_object (siblings o) (children o) b (body o).
Definition set_body (b : body_t) (o : lmdb_object) : lmdb_object :=
  mk_object (siblings o) (children o) (valid o) b.

(** ** The state and the monad of the module's functions *)

Record world := mk_world {
  heap : gmap addr lmdb_object;
  trace : list engine_call
}.

Inductive outcome (A : Type) : Type :=
| Done (a : A) (w : world)
| Fault
| OutOfFuel.
Arguments Done {A} a w.
Arguments Fault {A}.
Arguments OutOfFuel {A}.

(** A computation runs from a state to a value and a new state, or
    dereferences a [NULL] or wild pointer ([Fault]), or exhausts the
    bound on the depth of the invalidation cascade ([OutOfFuel]). *)
Definition M (A : Type) : Type := world → outcome A.

Definition ret {A} (a : A) : M A := fun w => Done a w.

Definition bind {A B} (m : M A) (f : A → M B) : M B :=
  fun w => match m w with
           | Done a w' => f a w'
           | Fault => Fault
           | OutOfFuel => OutOfFuel
           end.

Declare Scope m_scope.
Delimit Scope m_scope with M.
Notation "x <- m ;; k" := (bind m (fun x => k))
  (at level 100, m at next level, right associativity) : m_scope.
Notation "m ;;; k" := (bind m (fun _ => k))
  (at level 100, right associativity) : m_scope.
Open Scope m_scope.

Definition fault {A} : M A := fun _ => Fault.

(** Read the object a pointer refers to. *)
Definition load (p : ptr) : M lmdb_object :=
  fun w => match p with
           | Some a => match heap w !! a with
                       | Some o => Done o w
                       | None => Fault
                       end
           | None => Fault
           end.

Definition update (a : addr) (f : lmdb_object → lmdb_object) : M unit :=
  fun w => match heap w !! a with
           | Some o => Done tt (mk_world (<[a := f o]> (heap w)) (trace w))
           | None => Fault
           end.

(** [PyObject_New] followed by the initialisation of the object. *)
Definition PyObject_New (o : lmdb_object) : M addr :=
  fun w => let a := fresh (dom (heap w)) in
           Done a (mk_world (<[a := o]> (heap w)) (trace w)).

(** A call into the engine whose outputs are used. *)
Definition call `{Engine} (c : engine_call) : M reply :=
  fun w => Done (engine_reply (trace w) c) (mk_world (heap w) (trace w ++ [c])).

(** A call into the engine that returns nothing. *)
Definition call_void (c : engine_call) : M unit :=
  fun w => Done tt (mk_world (heap w) (trace w ++ [c])).

Definition as_db (o : lmdb_object) : M DbObject :=
  match body o with BDb d => ret d | _ => fault end.
Definition as_env (o : lmdb_object) : M EnvObject :=
  match body o with BEnv e => ret e | _ => fault end.
Definition as_trans (o : lmdb_object) : M TransObject :=
  match body o with BTrans t => ret t | _ => fault end.
Definition as_cursor (o : lmdb_object) : M CursorObject :=
  match body o with BCursor c => ret c | _ => fault end.

Definition load_db (p : ptr) : M DbObject := o <- load p ;; as_db o.
Definition load_env (p : ptr) : M EnvObject := o <- load p ;; as_env o.
Definition load_trans (p : ptr) : M TransObject := o <- load p ;; as_trans o.
Definition load_cursor (p : ptr) : M CursorObject := o <- load p ;; as_cursor o.

(** ** The invalidation tree *)

Definition link_child (parent child : addr) : M unit :=
  p <- load (Some parent) ;;
  let sibling := next (children p) in
  match sibling with
  | Some s =>
      update child (set_siblings_next sibling) ;;;
      update s (set_siblings_prev (Some child))
  | None => ret tt
  end ;;;
  update parent (set_children_next (Some child)).

Definition unlink_child (parent : ptr) (child : addr) : M unit :=
  match parent with
  | None => ret tt
  | Some pa =>
      c <- load (Some child) ;;
      let prev_ := prev (siblings c) in
      let next_ := next (siblings c) in
      match prev_ with
      | Some pv => update pv (set_siblings_next next_)
      | None =>
          p <- load (Some pa) ;;
          if decide (next (children p) = Some child)
          then update pa (set_children_next next_)
          else ret tt
      end ;;;
      match next_ with
      | Some nx => update nx (set_siblings_prev prev_)
      | None => ret tt
      end ;;;
      update child (set_siblings_prev None) ;;;
      update child (set_siblings_next None)
  end.

(** Assignments to the fields of the concrete structs. *)
Definition set_d_env (p : ptr) (o : lmdb_object) : lmdb_object :=
  match body o with
  | BDb d => set_body (BDb (mk_db p (d_dbi d))) o
  | _ => o
  end.
Definition set_e_env (p : eptr) (o : lmdb_object) : lmdb_object :=
  match body o with
  | BEnv e => set_body (BEnv (mk_env p (e_main_db e) (e_readonly e))) o
  | _ => o
  end.
Definition set_e_main_db (p : ptr) (o : lmdb_object) : lmdb_object :=
  match body o with
  | BEnv e => set_body (BEnv (mk_env (e_env e) p (e_readonly e))) o
  | _ => o
  end.
Definition set_t_env (p : ptr) (o : lmdb_object) : lmdb_object :=
  match body o with
  | BTrans t => set_body (BTrans (mk_trans p (t_txn t) (t_buffers t))) o
  | _ => o
  end.
Definition set_t_txn (p : eptr) (o : lmdb_object) : lmdb_object :=
  match body o with
  | BTrans t => set_body (BTrans (mk_trans (t_env t) p (t_buffers t))) o
  | _ => o
  end.
Definition set_c_trans (p : ptr) (o : lmdb_object) : lmdb_object :=
  match body o with
  | BCursor c =>
      set_body (BCursor (mk_cursor p (c_positioned c) (c_curs c) (c_key c) (c_val c))) o
  | _ => o
  end.
Definition set_c_key (k : MDB_val) (o : lmdb_object) : lmdb_object :=
  match body o with
  | BCursor c =>
      set_body (BCursor (mk_cursor (c_trans c) (c_positioned c) (c_curs c) k (c_val c))) o
  | _ => o
  end.
(** What [mdb_cursor_get] leaves in a cursor: the position flag and the
    key/data pair. *)
Definition set_c_position (pos : bool) (k v : MDB_val) (o : lmdb_object) : lmdb_object :=
  match body o with
  | BCursor c => set_body (BCursor (mk_cursor (c_trans c) pos (c_curs c) k v)) o
  | _ => o
  end.

(** [db_clear], the [tp_clear] of [_Database]. *)
Definition db_clear (self : addr) : M unit :=
  d <- load_db (Some self) ;;
  match d_env d with
  | Some _ =>
      unlink_child (d_env d) self ;;;
      update self (set_d_env None)
  | None => ret tt
  end ;;;
  update self (set_valid false).

(** [env_clear], the [tp_clear] of [Environment]; [inv] is [INVALIDATE]. *)
Definition env_clear (inv : addr → M unit) (self : addr) : M unit :=
  e <- load_env (Some self) ;;
  match e_env e with
  | Some _ =>
      inv self ;;;
      e' <- load_env (Some self) ;;
      call_void (mdb_env_close (e_env e')) ;;;
      update self (set_e_env None)
  | None => ret tt
  end ;;;
  e'' <- load_env (Some self) ;;
  match e_main_db e'' with
  | Some _ => update self (set_e_main_db None)
  | None => ret tt
  end.

(** [cursor_clear], the [tp_clear] of [Cursor]. *)
Definition cursor_clear (inv : addr → M unit) (self : addr) : M unit :=
  o <- load (Some self) ;;
  (if valid o then
     inv self ;;;
     c <- load_cursor (Some self) ;;
     unlink_child (c_trans c) self ;;;
     c' <- load_cursor (Some self) ;;
     call_void (mdb_cursor_close (c_curs c')) ;;;
     update self (set_valid false)
   else ret tt) ;;;
  update self (set_c_trans None).

(** [trans_clear], the [tp_clear] of [Transaction]. *)
Definition trans_clear (inv : addr → M unit) (self : addr) : M unit :=
  o <- load (Some self) ;;
  (if valid o then
     inv self ;;;
     t <- load_trans (Some self) ;;
     match t_txn t with
     | Some _ =>
         call_void (mdb_txn_abort (t_txn t)) ;;;
         update self (set_t_txn None)
     | None => ret tt
     end ;;;
     update self (set_valid false)
   else ret tt) ;;;
  t' <- load_trans (Some self) ;;
  unlink_child (t_env t') self ;;;
  update self (set_t_env None).

(** The call of the [tp_clear] slot of the type of [child]. *)
Definition tp_clear_with (inv : addr → M unit) (child : addr) : M unit :=
  o <- load (Some child) ;;
  match body o with
  | BDb _ => db_clear child
  | BEnv _ => env_clear inv child
  | BTrans _ => trans_clear inv child
  | BCursor _ => cursor_clear inv child
  end.

(** The loop of [invalidate], from the child it has reached.  A clear
    routine invalidates the children of its object in turn, so the loop
    is bounded by [fuel], which is spent on every child visited. *)
Fixpoint invalidate_from (fuel : nat) (child : ptr) : M unit :=
  match child with
  | None => ret tt
  | Some c =>
      match fuel with
      | O => fun _ => OutOfFuel
      | S n =>
          o <- load child ;;
          let next_ := next (siblings o) in
          tp_clear_with
            (fun p => po <- load (Some p) ;; invalidate_from n (next (children po))) c ;;;
          invalidate_from n next_
      end
  end.

Definition invalidate (fuel : nat) (parent : addr) : M unit :=
  po <- load (Some parent) ;;
  invalidate_from fuel (next (children po)).

Definition tp_clear (fuel : nat) (child : addr) : M unit :=
  tp_clear_with (invalidate fuel) child.

(** ** Argument parsing *)

(** What the interpreter hands to [parse_args]: arguments that do not
    parse (too many, duplicate or unknown ones, a value of the wrong
    type), or the values supplied for some of the fields. *)
Inductive call_args (A : Type) : Type :=
| Malformed (e : error)
| Args (a : A).
Arguments Malformed {A} e.
Arguments Args {A} a.

(** [parse_args]: the validity of the handle is checked before anything
    is parsed. *)
Definition parse_args {A} (valid : bool) (args : call_args A) : error + A :=
  if negb valid then inl err_invalid
  else match args with
       | Malformed e => inl e
       | Args a => inr a
       end.

(** [val_from_buffer] on a bytes object. *)
Definition val_from_buffer (b : bytes) : MDB_val := mk_val (length b) (Some b).

(** [string_from_val]: the [mv_size] bytes at [mv_data]. *)
Definition string_from_val (v : MDB_val) : bytes :=
  take (mv_size v) (default [] (mv_data v)).

(** A field of type [ARG_BUF] of a struct initialised to [{0, 0}]. *)
Definition arg_buf (b : option bytes) : MDB_val :=
  match b with
  | Some s => val_from_buffer s
  | None => val_null
  end.

(** A Python object where a buffer is expected. *)
Inductive pybuffer :=
| NotBuffer (e : error)
| Buffer (b : bytes).

(** An iterable: [PyObject_GetIter] fails, or the iterator yields the
    items and then stops, by exhaustion or with an exception. *)
Inductive pyiterable (A : Type) : Type :=
| NotIterable (e : error)
| Iterable (items : list A) (stop : option error).
Arguments NotIterable {A} e.
Arguments Iterable {A} items stop.

(** An element of the iterable of [puts]. *)
Inductive puts_item :=
| NotPair
| Pair (k v : pybuffer).

Record get_args := mk_get_args {
  ga_key : option bytes;
  ga_default : option pyobj;
  ga_db : ptr
}.

Record put_args := mk_put_args {
  pa_key : option bytes;
  pa_value : option bytes;
  pa_dupdata : option bool;
  pa_overwrite : option bool;
  pa_append : option bool;
  pa_db : ptr
}.

Record delete_args := mk_delete_args {
  da_key : option bytes;
  da_value : option bytes;
  da_db : ptr
}.

Record begin_args := mk_begin_args {
  ba_buffers : option bool;
  ba_write : option bool;
  ba_parent : ptr
}.

Record open_db_args := mk_open_db_args {
  oa_name : option string;
  oa_txn : ptr;
  oa_reverse_key : option bool;
  oa_dupsort : option bool;
  oa_create : option bool
}.

Record keys_args := mk_keys_args {
  ka_keys : option (pyiterable pybuffer);
  ka_db : ptr
}.

Record puts_args := mk_puts_args {
  ua_items : option (pyiterable puts_item);
  ua_dupdata : option bool;
  ua_overwrite : option bool;
  ua_append : option bool;
  ua_db : ptr
}.

Record env_cursor_args := mk_env_cursor_args {
  eca_buffers : option bool;
  eca_db : ptr
}.

Record drop_args := mk_drop_args {
  dra_db : ptr;
  dra_delete : option bool
}.

Record cursor_get_args := mk_cursor_get_args {
  cga_key : option bytes;
  cga_default : option pyobj
}.

Record cursor_put_args := mk_cursor_put_args {
  cpa_key : option bytes;
  cpa_val : option bytes;
  cpa_dupdata : option bool;
  cpa_overwrite : option bool;
  cpa_append : option bool
}.

Record iter_args := mk_iter_args {
  ia_keys : option bool;
  ia_values : option bool
}.

Record iter_from_args_t := mk_iter_from_args {
  ifa_key : option bytes;
  ifa_reverse : option bool
}.

Record cursor_new_args := mk_cursor_new_args {
  cna_db : ptr;
  cna_trans : ptr
}.

Record trans_new_args := mk_trans_new_args {
  tna_env : ptr;
  tna_parent : ptr;
  tna_write : option bool;
  tna_buffers : option bool
}.

(** ** The functions of the module *)

Section Cpython.
Context {K : lmdb_h} {E : Engine}.

(** *** Functionality shared between Transaction and Environment *)

Definition generic_get (valid : bool) (txn : eptr) (db : ptr) (buffers : bool)
    (args : call_args get_args) : M pyresult :=
  match parse_args valid args with
  | inl e => ret (Raise e)
  | inr a =>
      let key := arg_buf (ga_key a) in
      let default_ := default Py_None (ga_default a) in
      let db := match ga_db a with Some d => Some d | None => db end in
      match mv_data key with
      | None => ret (Raise (type_error "key must be given."))
      | Some _ =>
          d <- load_db db ;;
          r <- call (mdb_get txn (d_dbi d) key) ;;
          if decide (rc r ≠ 0) then
            if decide (rc r = MDB_NOTFOUND) then ret (Return default_)
            else ret (Raise (err_set "mdb_get" (rc r)))
          else if buffers then ret (Return (PyBuffer (string_from_val (out_data r))))
          else ret (Return (PyBytes (string_from_val (out_data r))))
      end
  end.

(** The flags [generic_put] computes from its arguments; [env_puts]
    computes its flags with the same three statements. *)
Definition put_flags (dupdata overwrite append : bool) : Z :=
  let flags := 0 in
  let flags := if negb dupdata then Z.lor flags MDB_NODUPDATA else flags in
  let flags := if negb overwrite then Z.lor flags MDB_NOOVERWRITE else flags in
  let flags := if append then Z.lor flags MDB_APPEND else flags in
  flags.

Definition generic_put (valid : bool) (txn : eptr) (db : ptr)
    (args : call_args put_args) : M pyresult :=
  match parse_args valid args with
  | inl e => ret (Raise e)
  | inr a =>
      let key := arg_buf (pa_key a) in
      let value := arg_buf (pa_value a) in
      let dupdata := default false (pa_dupdata a) in
      let overwrite := default true (pa_overwrite a) in
      let append := default false (pa_append a) in
      let db := match pa_db a with Some d => Some d | None => db end in
      let flags := put_flags dupdata overwrite append in
      d <- load_db db ;;
      r <- call (mdb_put txn (d_dbi d) key value flags) ;;
      if decide (rc r ≠ 0) then
        if decide (rc r = MDB_KEYEXIST) then ret (Return Py_False)
        else ret (Raise (err_set "mdb_put" (rc r)))
      else ret (Return Py_True)
  end.

Definition generic_delete (valid : bool) (txn : eptr) (db : ptr)
    (args : call_args delete_args) : M pyresult :=
  match parse_args valid args with
  | inl e => ret (Raise e)
  | inr a =>
      let key := arg_buf (da_key a) in
      let val := arg_buf (da_value a) in
      let db := match da_db a with Some d => Some d | None => db end in
      let val_ptr := if decide (mv_size val ≠ 0%nat) then Some val else None in
      d <- load_db db ;;
      r <- call (mdb_del txn (d_dbi d) key val_ptr) ;;
      if decide (rc r ≠ 0) then
        if decide (rc r = MDB_NOTFOUND) then ret (Return Py_False)
        else ret (Raise (err_set "mdb_del" (rc r)))
      else ret (Return Py_True)
  end.

(** [make_trans]; the new object is allocated once [mdb_txn_begin] has
    succeeded (the source allocates before the call and frees the object
    when the call fails). *)
Definition make_trans (env : addr) (parent : ptr) (write buffers : bool)
    : M (error + addr) :=
  eo <- load (Some env) ;;
  e <- as_env eo ;;
  if negb (valid eo) then ret (inl err_invalid)
  else
    pt <- match parent with
          | Some _ =>
              po <- load parent ;;
              p <- as_trans po ;;
              if negb (valid po) then ret (inl err_invalid)
              else ret (inr (t_txn p))
          | None => ret (inr None)
          end ;;
    match pt with
    | inl err => ret (inl err)
    | inr parent_txn =>
        if write && e_readonly e then
          ret (inl (err_set "Cannot start write transaction with read-only env" 0))
        else
          let flags := if write && negb (e_readonly e) then 0 else MDB_RDONLY in
          r <- call (mdb_txn_begin (e_env e) parent_txn flags) ;;
          if decide (rc r ≠ 0) then ret (inl (err_set "mdb_txn_begin" (rc r)))
          else
            self <- PyObject_New
                      (OBJECT_INIT (BTrans (mk_trans (Some env) (Some (out_ptr r)) buffers))) ;;
            link_child env self ;;;
            ret (inr self)
    end.

(** [make_cursor]. *)
Definition make_cursor (db : ptr) (trans : addr) : M (error + addr) :=
  to <- load (Some trans) ;;
  t <- as_trans to ;;
  if negb (valid to) then ret (inl err_invalid)
  else
    db <- match db with
          | Some _ => ret db
          | None => e <- load_env (t_env t) ;; ret (e_main_db e)
          end ;;
    d <- load_db db ;;
    r <- call (mdb_cursor_open (t_txn t) (d_dbi d)) ;;
    if decide (rc r ≠ 0) then ret (inl (err_set "mdb_cursor_open" (rc r)))
    else
      self <- PyObject_New
                (OBJECT_INIT (BCursor (mk_cursor (Some trans) false (Some (out_ptr r))
                                                 val_null val_null))) ;;
      link_child trans self ;;;
      ret (inr self).

Definition handle_result (r : error + addr) : pyresult :=
  match r with
  | inl e => Raise e
  | inr a => Return (PyHandle a)
  end.

(** *** Database *)

Definition db_from_name (env : addr) (txn : eptr) (name : option string) (flags : Z)
    : M (error + addr) :=
  r <- call (mdb_dbi_open txn name flags) ;;
  if decide (rc r ≠ 0) then ret (inl (err_set "mdb_dbi_open" (rc r)))
  else
    dbo <- PyObject_New (OBJECT_INIT (BDb (mk_db (Some env) (out_dbi r)))) ;;
    link_child env dbo ;;;
    ret (inr dbo).

(** [txn_db_from_name]; when the commit fails the new object is released,
    which runs [db_clear] on it. *)
Definition txn_db_from_name (env : addr) (name : option string) (flags : Z)
    : M (error + addr) :=
  e <- load_env (Some env) ;;
  let begin_flags :=
    if bool_decide (name = None) || e_readonly e then MDB_RDONLY else 0 in
  r <- call (mdb_txn_begin (e_env e) None begin_flags) ;;
  if decide (rc r ≠ 0) then ret (inl (err_set "mdb_txn_begin" (rc r)))
  else
    let txn := Some (out_ptr r) in
    dbo <- db_from_name env txn name flags ;;
    match dbo with
    | inl err =>
        call_void (mdb_txn_abort txn) ;;;
        ret (inl err)
    | inr d =>
        r' <- call (mdb_txn_commit txn) ;;
        if decide (rc r' ≠ 0) then
          db_clear d ;;;
          ret (inl (err_set "mdb_txn_commit" (rc r')))
        else ret (inr d)
    end.

(** *** Environment *)

Definition env_begin (self : addr) (args : call_args begin_args) : M pyresult :=
  o <- load (Some self) ;;
  match parse_args (valid o) args with
  | inl e => ret (Raise e)
  | inr a =>
      r <- make_trans self (ba_parent a) (default false (ba_write a))
                      (default false (ba_buffers a)) ;;
      ret (handle_result r)
  end.

Definition env_close (fuel : nat) (self : addr) : M pyresult :=
  o <- load (Some self) ;;
  (if valid o then
     invalidate fuel self ;;;
     update self (set_valid false) ;;;
     e <- load_env (Some self) ;;
     call_void (mdb_env_close (e_env e)) ;;;
     update self (set_e_env None)
   else ret tt) ;;;
  ret (Return Py_None).

(** [env_copy] is not implemented: it returns [NULL] in every case, with
    the exception of the failed parse or with none set, which the
    interpreter turns into a [SystemError]. *)
Definition env_copy (self : addr) (args : call_args unit) : M pyresult :=
  o <- load (Some self) ;;
  if negb (valid o) then ret (Raise err_invalid)
  else match args with
       | Malformed e => ret (Raise e)
       | Args _ => ret (Raise (PyError "error return without exception set"))
       end.

Definition env_info (self : addr) : M pyresult :=
  o <- load (Some self) ;;
  if negb (valid o) then ret (Raise err_invalid)
  else
    e <- as_env o ;;
    r <- call (mdb_env_info (e_env e)) ;;
    if decide (rc r ≠ 0) then ret (Raise (err_set "mdb_env_info" (rc r)))
    else ret (Return (PyFields (out_fields r))).

(** [env_open_db]: [parse_args] is called with [1] for the validity. *)
Definition env_open_db (self : addr) (args : call_args open_db_args) : M pyresult :=
  match parse_args true args with
  | inl e => ret (Raise e)
  | inr a =>
      let flags := 0 in
      let flags := if default false (oa_reverse_key a)
                   then Z.lor flags MDB_REVERSEKEY else flags in
      let flags := if default false (oa_dupsort a)
                   then Z.lor flags MDB_DUPSORT else flags in
      let flags := if default true (oa_create a)
                   then Z.lor flags MDB_CREATE else flags in
      match oa_txn a with
      | Some _ =>
          t <- load_trans (oa_txn a) ;;
          r <- db_from_name self (t_txn t) (oa_name a) flags ;;
          ret (handle_result r)
      | None =>
          r <- txn_db_from_name self (oa_name a) flags ;;
          ret (handle_result r)
      end
  end.

Definition env_path (self : addr) : M pyresult :=
  o <- load (Some self) ;;
  if negb (valid o) then ret (Raise err_invalid)
  else
    e <- as_env o ;;
    r <- call (mdb_env_get_path (e_env e)) ;;
    if decide (rc r ≠ 0) then ret (Raise (err_set "mdb_env_get_path" (rc r)))
    else ret (Return (PyUnicode (out_path r))).

Definition env_stat (self : addr) : M pyresult :=
  o <- load (Some self) ;;
  if negb (valid o) then ret (Raise err_invalid)
  else
    e <- as_env o ;;
    r <- call (mdb_env_stat (e_env e)) ;;
    if decide (rc r ≠ 0) then ret (Raise (err_set "mdb_env_stat" (rc r)))
    else ret (Return (PyFields (out_fields r))).

Definition env_sync (self : addr) (args : call_args (option bool)) : M pyresult :=
  o <- load (Some self) ;;
  match parse_args (valid o) args with
  | inl e => ret (Raise e)
  | inr a =>
      let force := default false a in
      e <- as_env o ;;
      r <- call (mdb_env_sync (e_env e) force) ;;
      if decide (rc r ≠ 0) then ret (Raise (err_set "mdb_env_sync" (rc r)))
      else ret (Return Py_None)
  end.

Definition env_get (self : addr) (args : call_args get_args) : M pyresult :=
  o <- load (Some self) ;;
  if negb (valid o) then ret (Raise err_invalid)
  else
    e <- as_env o ;;
    r <- call (mdb_txn_begin (e_env e) None MDB_RDONLY) ;;
    if decide (rc r ≠ 0) then ret (Raise (err_set "mdb_txn_begin" (rc r)))
    else
      let txn := Some (out_ptr r) in
      res <- generic_get true txn (e_main_db e) false args ;;
      call_void (mdb_txn_abort txn) ;;;
      ret res.

(** The loop of [env_gets] over the keys the iterator yields; the result
    is the exception that is pending when the loop is left, or the dict,
    written as the list of the insertions made, in their order (a later
    insertion of a key replaces an earlier one in the dict).  The keys
    that give a buffer are taken to be bytes objects, which can be
    hashed: a failure of [PyDict_SetItem] is left out, as are those of
    the allocator. *)
Fixpoint env_gets_loop (txn : eptr) (db : ptr) (keys : list pybuffer)
    (stop : option error) (dict : list (bytes * bytes))
    : M (error + list (bytes * bytes)) :=
  match keys with
  | [] => ret (match stop with Some e => inl e | None => inr dict end)
  | NotBuffer e :: _ => ret (inl e)
  | Buffer key :: rest =>
      d <- load_db db ;;
      r <- call (mdb_get txn (d_dbi d) (val_from_buffer key)) ;;
      if decide (rc r = 0) then
        env_gets_loop txn db rest stop (dict ++ [(key, string_from_val (out_data r))])
      else if decide (rc r ≠ MDB_NOTFOUND) then ret (inl (err_set "mdb_get" (rc r)))
      else env_gets_loop txn db rest stop dict
  end.

Definition env_gets (self : addr) (args : call_args keys_args) : M pyresult :=
  o <- load (Some self) ;;
  e <- as_env o ;;
  match parse_args (valid o) args with
  | inl err => ret (Raise err)
  | inr a =>
      let db := match ka_db a with Some d => Some d | None => e_main_db e end in
      match ka_keys a with
      | None => ret (Raise (type_error "keys must be given"))
      | Some (NotIterable err) => ret (Raise err)
      | Some (Iterable keys stop) =>
          r <- call (mdb_txn_begin (e_env e) None MDB_RDONLY) ;;
          if decide (rc r ≠ 0) then ret (Raise (err_set "mdb_txn_begin" (rc r)))
          else
            let txn := Some (out_ptr r) in
            res <- env_gets_loop txn db keys stop [] ;;
            call_void (mdb_txn_abort txn) ;;;
            match res with
            | inl err => ret (Raise err)
            | inr dict => ret (Return (PyDict dict))
            end
      end
  end.

Definition env_put (self : addr) (args : call_args put_args) : M pyresult :=
  o <- load (Some self) ;;
  if negb (valid o) then ret (Raise err_invalid)
  else
    e <- as_env o ;;
    r <- call (mdb_txn_begin (e_env e) None 0) ;;
    if decide (rc r ≠ 0) then ret (Raise (err_set "mdb_txn_begin" (rc r)))
    else
      let txn := Some (out_ptr r) in
      res <- generic_put true txn (e_main_db e) args ;;
      match res with
      | Return _ =>
          r' <- call (mdb_txn_commit txn) ;;
          if decide (rc r' ≠ 0) then ret (Raise (err_set "mdb_txn_commit" (rc r')))
          else ret res
      | Raise _ =>
          call_void (mdb_txn_abort txn) ;;;
          ret res
      end.

(** The loop of [env_puts] over the items the iterator yields; the result
    is the exception that is pending when the loop is left, or the list
    of the results. *)
Fixpoint env_puts_loop (txn : eptr) (db : ptr) (flags : Z) (items : list puts_item)
    (stop : option error) (list_ : list bool) : M (error + list bool) :=
  match items with
  | [] => ret (match stop with Some e => inl e | None => inr list_ end)
  | NotPair :: _ => ret (inl (type_error "puts() element type must be a 2-tuple."))
  | Pair (NotBuffer e) _ :: _ => ret (inl e)
  | Pair (Buffer _) (NotBuffer e) :: _ => ret (inl e)
  | Pair (Buffer key) (Buffer val) :: rest =>
      d <- load_db db ;;
      r <- call (mdb_put txn (d_dbi d) (val_from_buffer key) (val_from_buffer val) flags) ;;
      if decide (rc r = 0) then env_puts_loop txn db flags rest stop (list_ ++ [true])
      else if decide (rc r = MDB_KEYEXIST) then
        env_puts_loop txn db flags rest stop (list_ ++ [false])
      else ret (inl (err_set "mdb_put" (rc r)))
  end.

Definition env_puts (self : addr) (args : call_args puts_args) : M pyresult :=
  o <- load (Some self) ;;
  e <- as_env o ;;
  match parse_args (valid o) args with
  | inl err => ret (Raise err)
  | inr a =>
      let dupdata := default false (ua_dupdata a) in
      let overwrite := default true (ua_overwrite a) in
      let append := default false (ua_append a) in
      let db := match ua_db a with Some d => Some d | None => e_main_db e end in
      match ua_items a with
      | None => ret (Raise (type_error "items must be given"))
      | Some (NotIterable err) => ret (Raise err)
      | Some (Iterable items stop) =>
          r <- call (mdb_txn_begin (e_env e) None 0) ;;
          if decide (rc r ≠ 0) then ret (Raise (err_set "mdb_txn_begin" (rc r)))
          else
            let txn := Some (out_ptr r) in
            let flags := put_flags dupdata overwrite append in
            res <- env_puts_loop txn db flags items stop [] ;;
            match res with
            | inl err =>
                call_void (mdb_txn_abort txn) ;;;
                ret (Raise err)
            | inr list_ =>
                r' <- call (mdb_txn_commit txn) ;;
                if decide (rc r' ≠ 0) then ret (Raise (err_set "mdb_txn_commit" (rc r')))
                else ret (Return (PyList list_))
            end
      end
  end.

Definition env_delete (self : addr) (args : call_args delete_args) : M pyresult :=
  o <- load (Some self) ;;
  if negb (valid o) then ret (Raise err_invalid)
  else
    e <- as_env o ;;
    r <- call (mdb_txn_begin (e_env e) None 0) ;;
    if decide (rc r ≠ 0) then ret (Raise (err_set "mdb_txn_begin" (rc r)))
    else
      let txn := Some (out_ptr r) in
      res <- generic_delete true txn (e_main_db e) args ;;
      match res with
      | Return _ =>
          r' <- call (mdb_txn_commit txn) ;;
          if decide (rc r' ≠ 0) then ret (Raise (err_set "mdb_txn_commit" (rc r')))
          else ret res
      | Raise _ =>
          call_void (mdb_txn_abort txn) ;;;
          ret res
      end.

Fixpoint env_deletes_loop (txn : eptr) (db : ptr) (keys : list pybuffer)
    (stop : option error) (list_ : list bool) : M (error + list bool) :=
  match keys with
  | [] => ret (match stop with Some e => inl e | None => inr list_ end)
  | NotBuffer e :: _ => ret (inl e)
  | Buffer key :: rest =>
      d <- load_db db ;;
      r <- call (mdb_del txn (d_dbi d) (val_from_buffer key) None) ;;
      if decide (rc r = 0) then env_deletes_loop txn db rest stop (list_ ++ [true])
      else if decide (rc r = MDB_NOTFOUND) then
        env_deletes_loop txn db rest stop (list_ ++ [false])
      else ret (inl (err_set "mdb_del" (rc r)))
  end.

Definition env_deletes (self : addr) (args : call_args keys_args) : M pyresult :=
  o <- load (Some self) ;;
  e <- as_env o ;;
  match parse_args (valid o) args with
  | inl err => ret (Raise err)
  | inr a =>
      let db := match ka_db a with Some d => Some d | None => e_main_db e end in
      match ka_keys a with
      | None => ret (Raise (type_error "keys must be given"))
      | Some (NotIterable err) => ret (Raise err)
      | Some (Iterable keys stop) =>
          r <- call (mdb_txn_begin (e_env e) None 0) ;;
          if decide (rc r ≠ 0) then ret (Raise (err_set "mdb_txn_begin" (rc r)))
          else
            let txn := Some (out_ptr r) in
            res <- env_deletes_loop txn db keys stop [] ;;
            match res with
            | inl err =>
                call_void (mdb_txn_abort txn) ;;;
                ret (Raise err)
            | inr list_ =>
                r' <- call (mdb_txn_commit txn) ;;
                if decide (rc r' ≠ 0) then ret (Raise (err_set "mdb_txn_commit" (rc r')))
                else ret (Return (PyList list_))
            end
      end
  end.

(** [env_cursor].  When [make_cursor] fails, [Py_DECREF(trans)] drops the
    one reference to the new transaction: [trans_dealloc] runs [trans_clear]
    on it, which aborts and unlinks it, and frees the object, which stays
    in the heap, cleared, with nothing that refers to it. *)
Definition env_cursor (fuel : nat) (self : addr) (args : call_args env_cursor_args)
    : M pyresult :=
  o <- load (Some self) ;;
  e <- as_env o ;;
  match parse_args (valid o) args with
  | inl err => ret (Raise err)
  | inr a =>
      let buffers := default false (eca_buffers a) in
      let db := match eca_db a with Some d => Some d | None => e_main_db e end in
      trans <- make_trans self None false buffers ;;
      match trans with
      | inl err => ret (Raise err)
      | inr t =>
          cursor <- make_cursor db t ;;
          match cursor with
          | inl err => trans_clear (invalidate fuel) t ;;; ret (Raise err)
          | inr c => ret (Return (PyHandle c))
          end
      end
  end.

(** *** Cursors *)

Definition cursor_new (args : call_args cursor_new_args) : M pyresult :=
  match parse_args true args with
  | inl e => ret (Raise e)
  | inr a =>
      match cna_db a, cna_trans a with
      | Some _, Some t =>
          r <- make_cursor (cna_db a) t ;;
          ret (handle_result r)
      | _, _ => ret (Raise (type_error "db and transaction parameters required."))
      end
  end.

Definition cursor_count (self : addr) : M pyresult :=
  o <- load (Some self) ;;
  if negb (valid o) then ret (Raise err_invalid)
  else
    c <- as_cursor o ;;
    r <- call (mdb_cursor_count (c_curs c)) ;;
    if decide (rc r ≠ 0) then ret (Raise (err_set "mdb_cursor_count" (rc r)))
    else ret (Return (PyLong (out_count r))).

(** [_cursor_get_c]: [None] is the return value 0, [Some e] is -1 with
    the exception [e] set.  When the engine fails the sizes are zeroed
    and the data pointers are left as they are. *)
Definition _cursor_get_c (self : addr) (op : MDB_cursor_op) : M (option error) :=
  c <- load_cursor (Some self) ;;
  r <- call (mdb_cursor_get (c_curs c) (c_key c) (c_val c) op) ;;
  if decide (rc r ≠ 0) then
    update self (set_c_position false (mk_val 0 (mv_data (c_key c)))
                                      (mk_val 0 (mv_data (c_val c)))) ;;;
    if decide (rc r ≠ MDB_NOTFOUND) then
      if negb (bool_decide (rc r = EINVAL) && bool_decide (op = MDB_GET_CURRENT)) then
        ret (Some (err_set "mdb_cursor_get" (rc r)))
      else ret None
    else ret None
  else
    update self (set_c_position true (out_key r) (out_data r)) ;;;
    ret None.

Definition _cursor_get (self : addr) (op : MDB_cursor_op) : M pyresult :=
  e <- _cursor_get_c self op ;;
  match e with
  | Some err => ret (Raise err)
  | None =>
      c <- load_cursor (Some self) ;;
      ret (Return (if c_positioned c then Py_True else Py_False))
  end.

(** [cursor_delete]: what is returned, and the exception that is left set
    beside a returned object, if any.  The source drops the status of the
    final [_cursor_get_c]: when that call has set an exception, [Py_True]
    is returned with the exception still set. *)
Definition cursor_delete (self : addr) : M (pyresult * option error) :=
  o <- load (Some self) ;;
  if negb (valid o) then ret (Raise err_invalid, None)
  else
    c <- as_cursor o ;;
    if c_positioned c then
      r <- call (mdb_cursor_del (c_curs c) 0) ;;
      if decide (rc r ≠ 0) then ret (Raise (err_set "mdb_cursor_del" (rc r)), None)
      else
        e <- _cursor_get_c self MDB_GET_CURRENT ;;
        ret (Return Py_True, e)
    else ret (Return Py_False, None).

(** What the caller of a method gets when an object is returned with an
    exception set: CPython 3 checks the result of every call and raises a
    [SystemError] in its place. *)
Definition call_result (r : pyresult * option error) : pyresult :=
  match r with
  | (Return _, Some _) => Raise (PyError "returned a result with an error set")
  | (res, _) => res
  end.

Definition cursor_first (self : addr) : M pyresult :=
  o <- load (Some self) ;;
  if negb (valid o) then ret (Raise err_invalid)
  else _cursor_get self MDB_FIRST.

Definition cursor_value (self : addr) : M pyresult :=
  o <- load (Some self) ;;
  if negb (valid o) then ret (Raise err_invalid)
  else
    c <- as_cursor o ;;
    t <- load_trans (c_trans c) ;;
    if t_buffers t then ret (Return (PyBuffer (string_from_val (c_val c))))
    else ret (Return (PyBytes (string_from_val (c_val c)))).

Definition cursor_get (self : addr) (args : call_args cursor_get_args) : M pyresult :=
  o <- load (Some self) ;;
  if negb (valid o) then ret (Raise err_invalid)
  else
    match parse_args (valid o) args with
    | inl e => ret (Raise e)
    | inr a =>
        let key := arg_buf (cga_key a) in
        let default_ := default Py_None (cga_default a) in
        match mv_data key with
        | None => ret (Raise (type_error "key must be given."))
        | Some _ =>
            update self (set_c_key key) ;;;
            e <- _cursor_get_c self MDB_SET_KEY ;;
            match e with
            | Some err => ret (Raise err)
            | None =>
                c <- load_cursor (Some self) ;;
                if negb (c_positioned c) then ret (Return default_)
                else cursor_value self
            end
        end
    end.

Definition cursor_item (self : addr) : M pyresult :=
  o <- load (Some self) ;;
  if negb (valid o) then ret (Raise err_invalid)
  else
    c <- as_cursor o ;;
    t <- load_trans (c_trans c) ;;
    if t_buffers t then
      ret (Return (PyTuple (PyBuffer (string_from_val (c_key c)))
                           (PyBuffer (string_from_val (c_val c)))))
    else
      ret (Return (PyTuple (PyBytes (string_from_val (c_key c)))
                           (PyBytes (string_from_val (c_val c))))).

Definition cursor_key (self : addr) : M pyresult :=
  o <- load (Some self) ;;
  if negb (valid o) then ret (Raise err_invalid)
  else
    c <- as_cursor o ;;
    t <- load_trans (c_trans c) ;;
    if t_buffers t then ret (Return (PyBuffer (string_from_val (c_key c))))
    else ret (Return (PyBytes (string_from_val (c_key c)))).

Definition cursor_last (self : addr) : M pyresult :=
  o <- load (Some self) ;;
  if negb (valid o) then ret (Raise err_invalid)
  else _cursor_get self MDB_LAST.

Definition cursor_next (self : addr) : M pyresult :=
  o <- load (Some self) ;;
  if negb (valid o) then ret (Raise err_invalid)
  else _cursor_get self MDB_NEXT.

Definition cursor_prev (self : addr) : M pyresult :=
  o <- load (Some self) ;;
  if negb (valid o) then ret (Raise err_invalid)
  else _cursor_get self MDB_PREV.

(** The flags [cursor_put] computes from its arguments. *)
Definition cursor_put_flags (dupdata overwrite append : bool) : Z :=
  let flags := 0 in
  let flags := if negb dupdata then Z.lor flags MDB_NODUPDATA else flags in
  let flags := if negb overwrite then Z.lor flags MDB_NOOVERWRITE else flags in
  let flags := if negb append then Z.lor flags MDB_APPEND else flags in
  flags.

Definition cursor_put (self : addr) (args : call_args cursor_put_args) : M pyresult :=
  o <- load (Some self) ;;
  match parse_args (valid o) args with
  | inl e => ret (Raise e)
  | inr a =>
      let key := arg_buf (cpa_key a) in
      let val := arg_buf (cpa_val a) in
      let dupdata := default false (cpa_dupdata a) in
      let overwrite := default true (cpa_overwrite a) in
      let append := default false (cpa_append a) in
      let flags := cursor_put_flags dupdata overwrite append in
      c <- as_cursor o ;;
      r <- call (mdb_cursor_put (c_curs c) key val flags) ;;
      if decide (rc r ≠ 0) then
        if decide (rc r = MDB_KEYEXIST) then ret (Return Py_False)
        else ret (Raise (err_set "mdb_put" (rc r)))
      else ret (Return Py_True)
  end.

Definition cursor_set_key (self : addr) (arg : pybuffer) : M pyresult :=
  o <- load (Some self) ;;
  if negb (valid o) then ret (Raise err_invalid)
  else
    match arg with
    | NotBuffer e => ret (Raise e)
    | Buffer b =>
        update self (set_c_key (val_from_buffer b)) ;;;
        _cursor_get self MDB_SET_KEY
    end.

Definition cursor_set_range (self : addr) (arg : pybuffer) : M pyresult :=
  o <- load (Some self) ;;
  if negb (valid o) then ret (Raise err_invalid)
  else
    match arg with
    | NotBuffer e => ret (Raise e)
    | Buffer b =>
        update self (set_c_key (val_from_buffer b)) ;;;
        if decide (mv_size (val_from_buffer b) ≠ 0%nat) then _cursor_get self MDB_SET_RANGE
        else _cursor_get self MDB_FIRST
    end.

(** *** Cursor iteration *)

Definition iter_from_args (self : addr) (args : call_args iter_args)
    (pos_op op : MDB_cursor_op) : M pyresult :=
  o <- load (Some self) ;;
  match parse_args (valid o) args with
  | inl e => ret (Raise e)
  | inr a =>
      let keys := default true (ia_keys a) in
      let values := default true (ia_values a) in
      c <- as_cursor o ;;
      e <- (if negb (c_positioned c) then _cursor_get_c self pos_op else ret None) ;;
      match e with
      | Some err => ret (Raise err)
      | None =>
          let val_func :=
            if negb values then cursor_key_f
            else if negb keys then cursor_value_f
            else cursor_item_f in
          ret (Return (PyIterator (mk_iter self false op val_func)))
      end
  end.

(** [cursor_iter], the [tp_iter] of [Cursor]: no arguments at all. *)
Definition cursor_iter (self : addr) : M pyresult :=
  iter_from_args self (Args (mk_iter_args None None)) MDB_FIRST MDB_NEXT.

Definition cursor_iternext (self : addr) (args : call_args iter_args) : M pyresult :=
  iter_from_args self args MDB_FIRST MDB_NEXT.

Definition cursor_iterprev (self : addr) (args : call_args iter_args) : M pyresult :=
  iter_from_args self args MDB_LAST MDB_PREV.

Definition cursor_iter_from (self : addr) (args : call_args iter_from_args_t) : M pyresult :=
  o <- load (Some self) ;;
  match parse_args (valid o) args with
  | inl e => ret (Raise e)
  | inr a =>
      let key := arg_buf (ifa_key a) in
      let reverse := default false (ifa_reverse a) in
      e <- (if negb (bool_decide (mv_size key ≠ 0%nat)) && negb reverse
            then _cursor_get_c self MDB_FIRST
            else update self (set_c_key key) ;;; _cursor_get_c self MDB_SET_RANGE) ;;
      match e with
      | Some err => ret (Raise err)
      | None =>
          e' <- (if reverse then
                   c <- load_cursor (Some self) ;;
                   if negb (c_positioned c) then _cursor_get_c self MDB_LAST
                   else ret None
                 else ret None) ;;
          match e' with
          | Some err => ret (Raise err)
          | None =>
              let op := if reverse then MDB_PREV else MDB_NEXT in
              ret (Return (PyIterator (mk_iter self false op cursor_item_f)))
          end
      end
  end.

(** *** Iterators *)

(** What [tp_iternext] hands back: an object, [NULL] with no exception
    (the end of the sequence), or [NULL] with an exception. *)
Inductive iter_result :=
| Yield (v : pyobj)
| StopIteration
| IterRaise (e : error).

(** The call through the function pointer [val_func]. *)
Definition val_func (f : val_func_t) (curs : addr) : M pyresult :=
  match f with
  | cursor_key_f => cursor_key curs
  | cursor_value_f => cursor_value curs
  | cursor_item_f => cursor_item curs
  end.

(** [iter_next]; the iterator object is passed and handed back. *)
Definition iter_next (self : IterObject) : M (iter_result * IterObject) :=
  o <- load (Some (i_curs self)) ;;
  if negb (valid o) then ret (IterRaise err_invalid, self)
  else
    c <- as_cursor o ;;
    if negb (c_positioned c) then ret (StopIteration, self)
    else
      moved <- (if i_started self then
                  e <- _cursor_get_c (i_curs self) (i_op self) ;;
                  match e with
                  | Some err => ret (Some (IterRaise err))
                  | None =>
                      c' <- load_cursor (Some (i_curs self)) ;;
                      if negb (c_positioned c') then ret (Some StopIteration)
                      else ret None
                  end
                else ret None) ;;
      match moved with
      | Some r => ret (r, self)
      | None =>
          val <- val_func (i_val_func self) (i_curs self) ;;
          let self' := mk_iter (i_curs self) true (i_op self) (i_val_func self) in
          match val with
          | Return v => ret (Yield v, self')
          | Raise e => ret (IterRaise e, self')
          end
      end.

(** *** Transactions *)

(** [trans_new]: the test of [arg.env] comes before [parse_args], when
    [arg.env] still is the [NULL] of the initialiser. *)
Definition trans_new (args : call_args trans_new_args) : M pyresult :=
  let env : ptr := None in
  match env with
  | None => ret (Raise (type_error "'env' argument required"))
  | Some en =>
      match parse_args true args with
      | inl e => ret (Raise e)
      | inr a =>
          r <- make_trans en (tna_parent a) (default false (tna_write a))
                          (default false (tna_buffers a)) ;;
          ret (handle_result r)
      end
  end.

Definition trans_abort (fuel : nat) (self : addr) : M pyresult :=
  o <- load (Some self) ;;
  if negb (valid o) then ret (Raise err_invalid)
  else
    invalidate fuel self ;;;
    t <- load_trans (Some self) ;;
    call_void (mdb_txn_abort (t_txn t)) ;;;
    update self (set_t_txn None) ;;;
    update self (set_valid false) ;;;
    ret (Return Py_None).

Definition trans_commit (fuel : nat) (self : addr) : M pyresult :=
  o <- load (Some self) ;;
  if negb (valid o) then ret (Raise err_invalid)
  else
    invalidate fuel self ;;;
    t <- load_trans (Some self) ;;
    r <- call (mdb_txn_commit (t_txn t)) ;;
    update self (set_t_txn None) ;;;
    update self (set_valid false) ;;;
    if decide (rc r ≠ 0) then ret (Raise (err_set "mdb_txn_commit" (rc r)))
    else ret (Return Py_None).

Definition trans_cursor (self : addr) (args : call_args ptr) : M pyresult :=
  o <- load (Some self) ;;
  match parse_args (valid o) args with
  | inl e => ret (Raise e)
  | inr db =>
      t <- as_trans o ;;
      db <- match db with
            | Some _ => ret db
            | None => e <- load_env (t_env t) ;; ret (e_main_db e)
            end ;;
      r <- make_cursor db self ;;
      ret (handle_result r)
  end.

Definition trans_delete (self : addr) (args : call_args delete_args) : M pyresult :=
  o <- load (Some self) ;;
  t <- as_trans o ;;
  e <- load_env (t_env t) ;;
  generic_delete (valid o) (t_txn t) (e_main_db e) args.

Definition trans_drop (self : addr) (args : call_args drop_args) : M pyresult :=
  o <- load (Some self) ;;
  match parse_args (valid o) args with
  | inl e => ret (Raise e)
  | inr a =>
      let delete := default true (dra_delete a) in
      match dra_db a with
      | None => ret (Raise (type_error "'db' argument required."))
      | Some _ =>
          t <- as_trans o ;;
          d <- load_db (dra_db a) ;;
          r <- call (mdb_drop (t_txn t) (d_dbi d) delete) ;;
          if decide (rc r ≠ 0) then ret (Raise (err_set "mdb_drop" (rc r)))
          else ret (Return Py_None)
      end
  end.

Definition trans_get (self : addr) (args : call_args get_args) : M pyresult :=
  o <- load (Some self) ;;
  t <- as_trans o ;;
  e <- load_env (t_env t) ;;
  generic_get (valid o) (t_txn t) (e_main_db e) (t_buffers t) args.

Definition trans_put (self : addr) (args : call_args put_args) : M pyresult :=
  o <- load (Some self) ;;
  t <- as_trans o ;;
  e <- load_env (t_env t) ;;
  generic_put (valid o) (t_txn t) (e_main_db e) args.

Definition trans_enter (self : addr) : M pyresult :=
  o <- load (Some self) ;;
  if negb (valid o) then ret (Raise err_invalid)
  else ret (Return (PyHandle self)).

(** [trans_exit]; [exc_is_none] tells whether the first argument, the
    exception type, is [None]. *)
Definition trans_exit (fuel : nat) (self : addr) (exc_is_none : bool) : M pyresult :=
  o <- load (Some self) ;;
  if negb (valid o) then ret (Raise err_invalid)
  else if exc_is_none then trans_commit fuel self
  else trans_abort fuel self.

(** *** The method tables *)

(** The entries of [env_methods], with the arguments of a call. *)
Inductive env_method :=
| env_m_begin (args : call_args begin_args)
| env_m_close
| env_m_copy (args : call_args unit)
| env_m_info
| env_m_open_db (args : call_args open_db_args)
| env_m_path
| env_m_stat
| env_m_sync (args : call_args (option bool))
| env_m_get (args : call_args get_args)
| env_m_gets (args : call_args keys_args)
| env_m_put (args : call_args put_args)
| env_m_puts (args : call_args puts_args)
| env_m_delete (args : call_args delete_args)
| env_m_deletes (args : call_args keys_args)
| env_m_cursor (args : call_args env_cursor_args).

Definition env_methods (fuel : nat) (self : addr) (m : env_method) : M pyresult :=
  match m with
  | env_m_begin args => env_begin self args
  | env_m_close => env_close fuel self
  | env_m_copy args => env_copy self args
  | env_m_info => env_info self
  | env_m_open_db args => env_open_db self args
  | env_m_path => env_path self
  | env_m_stat => env_stat self
  | env_m_sync args => env_sync self args
  | env_m_get args => env_get self args
  | env_m_gets args => env_gets self args
  | env_m_put args => env_put self args
  | env_m_puts args => env_puts self args
  | env_m_delete args => env_delete self args
  | env_m_deletes args => env_deletes self args
  | env_m_cursor args => env_cursor fuel self args
  end.

(** The entries of [trans_methods]. *)
Inductive trans_method :=
| trans_m_enter
| trans_m_exit (exc_is_none : bool)
| trans_m_abort
| trans_m_commit
| trans_m_cursor (args : call_args ptr)
| trans_m_delete (args : call_args delete_args)
| trans_m_drop (args : call_args drop_args)
| trans_m_get (args : call_args get_args)
| trans_m_put (args : call_args put_args).

Definition trans_methods (fuel : nat) (self : addr) (m : trans_method) : M pyresult :=
  match m with
  | trans_m_enter => trans_enter self
  | trans_m_exit exc_is_none => trans_exit fuel self exc_is_none
  | trans_m_abort => trans_abort fuel self
  | trans_m_commit => trans_commit fuel self
  | trans_m_cursor args => trans_cursor self args
  | trans_m_delete args => trans_delete self args
  | trans_m_drop args => trans_drop self args
  | trans_m_get args => trans_get self args
  | trans_m_put args => trans_put self args
  end.

(** The entries of [cursor_methods], and the [tp_iter] slot. *)
Inductive cursor_method :=
| cursor_m_count
| cursor_m_delete
| cursor_m_first
| cursor_m_get (args : call_args cursor_get_args)
| cursor_m_item
| cursor_m_iternext (args : call_args iter_args)
| cursor_m_iterprev (args : call_args iter_args)
| cursor_m_key
| cursor_m_last
| cursor_m_next
| cursor_m_prev
| cursor_m_put (args : call_args cursor_put_args)
| cursor_m_set_key (arg : pybuffer)
| cursor_m_set_range (arg : pybuffer)
| cursor_m_value
| cursor_m_iter_from (args : call_args iter_from_args_t)
| cursor_m_iter.

Definition cursor_methods (self : addr) (m : cursor_method) : M pyresult :=
  match m with
  | cursor_m_count => cursor_count self
  | cursor_m_delete => r <- cursor_delete self ;; ret (call_result r)
  | cursor_m_first => cursor_first self
  | cursor_m_get args => cursor_get self args
  | cursor_m_item => cursor_item self
  | cursor_m_iternext args => cursor_iternext self args
  | cursor_m_iterprev args => cursor_iterprev self args
  | cursor_m_key => cursor_key self
  | cursor_m_last => cursor_last self
  | cursor_m_next => cursor_next self
  | cursor_m_prev => cursor_prev self
  | cursor_m_put args => cursor_put self args
  | cursor_m_set_key arg => cursor_set_key self arg
  | cursor_m_set_range arg => cursor_set_range self arg
  | cursor_m_value => cursor_value self
  | cursor_m_iter_from args => cursor_iter_from self args
  | cursor_m_iter => cursor_iter self
  end.

End Cpython.

(** A call of a public entry point of the module: a method of a handle,
    a step of an iterator ([tp_iternext]), or a constructor.  The method
    [next] that [iter_methods] gives to an iterator object is not among
    them: it is bound to [cursor_next], which reads the iterator object as
    a cursor.  Nor is the deallocation of an object by the interpreter. *)
Inductive public_call :=
| on_env (self : addr) (m : env_method)
| on_trans (self : addr) (m : trans_method)
| on_cursor (self : addr) (m : cursor_method)
| on_iter (self : IterObject)
| new_cursor (args : call_args cursor_new_args)
| new_trans (args : call_args trans_new_args).

Definition run_call {K : lmdb_h} {E : Engine} (fuel : nat) (c : public_call) : M unit :=
  match c with
  | on_env self m => env_methods fuel self m ;;; ret tt
  | on_trans self m => trans_methods fuel self m ;;; ret tt
  | on_cursor self m => cursor_methods self m ;;; ret tt
  | on_iter self => iter_next self ;;; ret tt
  | new_cursor args => cursor_new args ;;; ret tt
  | new_trans args => trans_new args ;;; ret tt
  end.

(** ** The shape of the invalidation tree *)

(** A handle and the handles linked below it, in the order of the
    sibling lists. *)
#[warnings="-register-all"]
Inductive tree := Node (a : addr) (kids : list tree).

Definition root (t : tree) : addr := match t with Node a _ => a end.
Definition kids (t : tree) : list tree := match t with Node _ ks => ks end.

Fixpoint nodes (t : tree) : list addr :=
  match t with
  | Node a ks => a :: flat_map nodes ks
  end.

Fixpoint tree_size (t : tree) : nat :=
  match t with
  | Node _ ks => S (list_sum (map tree_size ks))
  end.

(** The descendants of the root: the nodes below it. *)
Definition descendants (t : tree) : list addr := flat_map nodes (kids t).

(** [dll h p cur l]: from [cur] the [siblings.next] pointers run through
    exactly the objects [l], and the [siblings.prev] pointers run back,
    [p] being what the first one points back to. *)
Fixpoint dll (h : gmap addr lmdb_object) (p cur : ptr) (l : list addr) : Prop :=
  match l with
  | [] => cur = None
  | c :: l' =>
      cur = Some c ∧
      ∃ o, h !! c = Some o ∧ prev (siblings o) = p ∧
           dll h (Some c) (next (siblings o)) l'
  end.

(** [linked h p k]: the root of [k] is an object that was linked below
    [p] and has not been cleared yet: its owner pointer is [p]; a
    cursor is valid; a database has nothing below it, nor has a
    transaction that is no longer valid. *)
Definition linked (h : gmap addr lmdb_object) (p : addr) (k : tree) : Prop :=
  ∃ o, h !! root k = Some o ∧
    match body o with
    | BDb d => d_env d = Some p ∧ kids k = []
    | BEnv _ => False
    | BTrans t => t_env t = Some p ∧ (valid o = false → kids k = [])
    | BCursor c => c_trans c = Some p ∧ valid o = true
    end.

(** [shape h t]: the heap holds the tree [t]: the children list of every
    node is the list of the roots of its subtrees, each of them linked
    below the node. *)
Fixpoint shape (h : gmap addr lmdb_object) (t : tree) : Prop :=
  match t with
  | Node a ks =>
      (∃ o, h !! a = Some o ∧ dll h None (next (children o)) (map root ks)) ∧
      (fix all (l : list tree) : Prop :=
         match l with
         | [] => True
         | k :: l' => (linked h a k ∧ shape h k) ∧ all l'
         end) ks
  end.

Definition is_invalid (w : world) (a : addr) : Prop :=
  ∃ o, heap w !! a = Some o ∧ valid o = false.

Definition is_valid (w : world) (a : addr) : Prop :=
  ∃ o, heap w !! a = Some o ∧ valid o = true.

(** The calls a computation has added to the trace. *)
Definition new_calls (w w' : world) : list engine_call :=
  drop (length (trace w)) (trace w').

(** The flags of a call of one of the engine's two put primitives. *)
Definition put_call_flags (c : engine_call) : option Z :=
  match c with
  | mdb_put _ _ _ _ flags => Some flags
  | mdb_cursor_put _ _ _ flags => Some flags
  | _ => None
  end.

(** ** Engines and states to run the module on *)

Definition reply_rc (rc : Z) (p : nat) : reply :=
  mk_reply rc p 2 val_null val_null 0 [] "".

(** An engine that answers every call with the status [status] gives to
    it, and hands out the length of the trace as the new resource. *)
Definition engine_of (status : engine_call → Z) : Engine :=
  fun tr c => reply_rc (status c) (100 + length tr).

(** Every call succeeds. *)
Definition engine_ok : Engine := engine_of (fun _ => 0).

(** An environment without any data: reads and deletes find nothing, a
    cursor cannot be positioned, and [mdb_cursor_count] on a cursor that
    is not positioned is refused with [EINVAL], as LMDB does. *)
Definition engine_no_data : Engine :=
  engine_of (fun c =>
    match c with
    | mdb_get _ _ _ => @MDB_NOTFOUND lmdb_0_9
    | mdb_del _ _ _ _ => @MDB_NOTFOUND lmdb_0_9
    | mdb_cursor_get _ _ _ _ => @MDB_NOTFOUND lmdb_0_9
    | mdb_cursor_count _ => @EINVAL lmdb_0_9
    | _ => 0
    end).


(** The second put of a batch fails with [ENOSPC]-like status 28. *)
Definition engine_put_fails : Engine :=
  engine_of (fun c =>
    match c with
    | mdb_put _ _ _ _ _ => 28
    | _ => 0
    end).

(** An open environment at address 0 with its main database at address
    1, as [env_new] leaves them. *)
Definition w_open (readonly : bool) : world :=
  mk_world
    (<[0%nat := mk_object list_head_null (mk_list_head None (Some 1%nat)) true
                  (BEnv (mk_env (Some 7%nat) (Some 1%nat) readonly))]>
     (<[1%nat := mk_object list_head_null list_head_null true
                  (BDb (mk_db (Some 0%nat) 1))]> ∅))
    [].

(** The state of a computation that is expected to run through. *)
Definition state_of {A} (o : outcome A) (dflt : world) : world :=
  match o with
  | Done _ w => w
  | _ => dflt
  end.

Definition value_of {A} (o : outcome A) : option A :=
  match o with
  | Done a _ => Some a
  | _ => None
  end.


Definition w_txn : world :=
  state_of (env_begin (K := lmdb_0_9) (E := engine_ok) 0%nat
              (Args (mk_begin_args None (Some true) None)) (w_open false))
           (w_open false).

(** The state after [txn = env.begin(write=True); curs = txn.cursor()]:
    the transaction is at address 2 and the cursor at address 3. *)
Definition w_curs : world :=
  state_of (trans_cursor (E := engine_ok) 2%nat (Args None) w_txn) w_txn.

(** ** Relations between the states before and after a computation *)

(** [grows P w w']: from [w] to [w'] the trace has grown by calls which
    satisfy [P]. *)
Definition grows (P : engine_call → Prop) (w w' : world) : Prop :=
  ∃ l, trace w' = trace w ++ l ∧ Forall P l.

(** [steps R m]: whenever [m] runs through, the states before and after
    are related by [R]. *)
Definition steps {A} (R : world → world → Prop) (m : M A) : Prop :=
  ∀ w a w', m w = Done a w' → R w w'.

Class StepRel (R : world → world → Prop) := {
  step_refl : ∀ w, R w w;
  step_trans : ∀ w1 w2 w3, R w1 w2 → R w2 w3 → R w1 w3
}.

(** ** Puts *)

(** A put at the level of a transaction, an environment or a cursor
    that gives neither [dupdata] nor [overwrite]. *)
Definition put_by_default (c : public_call) : Prop :=
  match c with
  | on_trans _ (trans_m_put (Args a)) => pa_dupdata a = None ∧ pa_overwrite a = None
  | on_env _ (env_m_put (Args a)) => pa_dupdata a = None ∧ pa_overwrite a = None
  | on_env _ (env_m_puts (Args a)) => ua_dupdata a = None ∧ ua_overwrite a = None
  | on_cursor _ (cursor_m_put (Args a)) => cpa_dupdata a = None ∧ cpa_overwrite a = None
  | _ => False
  end.

Definition default_put_flags {K : lmdb_h} (f : Z) : Prop :=
  flag_set f MDB_NOOVERWRITE = false ∧ flag_set f MDB_NODUPDATA = true.

Definition put_ok {K : lmdb_h} (c : engine_call) : Prop :=
  ∀ f, put_call_flags c = Some f → default_put_flags f.

(** [txn.put(b"a", b"1")]. *)
Definition put_a_1 : public_call :=
  on_trans 2%nat
    (trans_m_put (Args (mk_put_args (Some ["a"%byte]) (Some ["1"%byte]) None None None None))).

(** [curs.put(b"a", b"1")] and [curs.put(b"a", b"1", append=True)]. *)
Definition cursor_put_a_1 (append : option bool) : call_args cursor_put_args :=
  Args (mk_cursor_put_args (Some ["a"%byte]) (Some ["1"%byte]) None None append).

Definition w_curs_put : world :=
  state_of (cursor_put (K := lmdb_0_9) (E := engine_ok) 3%nat (cursor_put_a_1 None) w_curs)
           w_curs.

(** The state after a call into the engine. *)
Definition called (c : engine_call) (w : world) : world :=
  mk_world (heap w) (trace w ++ [c]).

(** ** Transactions, cursors, iterators *)

(** [active_trans w self db t d]: [self] is a valid transaction with the
    fields [t], and [d] is the database a call with the argument [db]
    works on. *)
Definition active_trans (w : world) (self : addr) (db : ptr)
    (t : TransObject) (d : DbObject) : Prop :=
  ∃ o e, heap w !! self = Some o ∧ valid o = true ∧ body o = BTrans t ∧
    load_env (t_env t) w = Done e w ∧
    load_db (match db with Some x => Some x | None => e_main_db e end) w = Done d w.

(** [live_cursor w self c t]: [self] is a valid cursor with the fields
    [c], of the transaction [t]. *)
Definition live_cursor (w : world) (self : addr) (c : CursorObject) (t : TransObject) : Prop :=
  ∃ o, heap w !! self = Some o ∧ valid o = true ∧ body o = BCursor c ∧
       load_trans (c_trans c) w = Done t w.

(** An iterator once it has yielded. *)
Definition started (it : IterObject) : IterObject :=
  mk_iter (i_curs it) true (i_op it) (i_val_func it).

(** What the projection of an iterator shows of a key/data pair. *)
Definition projection (f : val_func_t) (buffers : bool) (k v : MDB_val) : pyobj :=
  let obj := if buffers then PyBuffer else PyBytes in
  match f with
  | cursor_key_f => obj (string_from_val k)
  | cursor_value_f => obj (string_from_val v)
  | cursor_item_f => PyTuple (obj (string_from_val k)) (obj (string_from_val v))
  end.

(** ** More engines and states *)

Definition is_key (s : bytes) (k : MDB_val) : bool :=
  bool_decide (Byte.to_N <$> string_from_val k = Byte.to_N <$> s).

(** A store that holds the key [a] and nothing else. *)
Definition engine_only_a : Engine :=
  engine_of (fun c =>
    match c with
    | mdb_get _ _ k => if is_key ["a"%byte] k then 0 else @MDB_NOTFOUND lmdb_0_9
    | mdb_put _ _ k _ flags =>
        if is_key ["a"%byte] k && flag_set flags (@MDB_NOOVERWRITE lmdb_0_9)
        then @MDB_KEYEXIST lmdb_0_9 else 0
    | mdb_del _ _ k _ => if is_key ["a"%byte] k then 0 else @MDB_NOTFOUND lmdb_0_9
    | _ => 0
    end).

Definition is_next (c : engine_call) : bool :=
  match c with
  | mdb_cursor_get _ _ _ MDB_NEXT => true
  | _ => false
  end.

(** A store that holds [a -> 1] and [b -> 2], walked by one cursor:
    [MDB_FIRST] lands on [a], the first [MDB_NEXT] on [b], and any later
    one finds nothing. *)
Definition engine_a_b : Engine :=
  fun tr c =>
    match c with
    | mdb_cursor_get _ _ _ MDB_FIRST =>
        mk_reply 0 0 0 (val_from_buffer ["a"%byte]) (val_from_buffer ["1"%byte]) 0 [] ""
    | mdb_cursor_get _ _ _ MDB_NEXT =>
        if existsb is_next tr
        then reply_rc (@MDB_NOTFOUND lmdb_0_9) 0
        else mk_reply 0 0 0 (val_from_buffer ["b"%byte]) (val_from_buffer ["2"%byte]) 0 [] ""
    | _ => reply_rc 0 (100 + length tr)
    end.

(** The state after [curs.first()] on that store. *)
Definition w_first : world :=
  state_of (cursor_first (K := lmdb_0_9) (E := engine_a_b) 3%nat w_curs) w_curs.

(** The iterator [iter(curs)] makes. *)
Definition it_3 : IterObject := mk_iter 3%nat false MDB_NEXT cursor_item_f.

(** The fields of the transaction and of the cursor in [w_first]. *)
Definition t_2 : TransObject := mk_trans (Some 0%nat) (Some 100%nat) false.
Definition c_3 : CursorObject :=
  mk_cursor (Some 2%nat) true (Some 101%nat)
            (val_from_buffer ["a"%byte]) (val_from_buffer ["1"%byte]).
Definition d_1 : DbObject := mk_db (Some 0%nat) 1.

(** [txn.get(b"b")], [txn.put(b"a", b"2", overwrite=False)] and
    [txn.delete(b"b")]. *)
Definition get_b : get_args := mk_get_args (Some ["b"%byte]) None None.
Definition put_a_2_no_overwrite : put_args :=
  mk_put_args (Some ["a"%byte]) (Some ["2"%byte]) None (Some false) None None.
Definition delete_b : delete_args := mk_delete_args (Some ["b"%byte]) None None.

(** ** Terminal operations and batches *)

(** The terminal operations of a transaction. *)
Definition terminal (m : trans_method) : Prop :=
  match m with
  | trans_m_abort | trans_m_commit | trans_m_exit _ => True
  | _ => False
  end.

(** An element of a batch that is no pair of buffers. *)
Definition malformed (it : puts_item) : Prop :=
  match it with
  | Pair (Buffer _) (Buffer _) => False
  | _ => True
  end.

Definition is_put (c : engine_call) : Prop :=
  match c with
  | mdb_put _ _ _ _ _ => True
  | _ => False
  end.

Definition is_commit (c : engine_call) : Prop :=
  match c with
  | mdb_txn_commit _ => True
  | _ => False
  end.

(** The engine answers the put [c], made after the calls [tr], with a
    failure: neither success nor [MDB_KEYEXIST], which is a result. *)
Definition put_refused {K : lmdb_h} {E : Engine} (tr : list engine_call)
    (c : engine_call) : Prop :=
  is_put c ∧ rc (engine_reply tr c) ≠ 0 ∧ rc (engine_reply tr c) ≠ MDB_KEYEXIST.

(** Among the calls [l], made after the calls [tr], there is a put the
    engine refuses. *)
Fixpoint refused_in {K : lmdb_h} {E : Engine} (tr l : list engine_call) : Prop :=
  match l with
  | [] => False
  | c :: l' => put_refused tr c ∨ refused_in (tr ++ [c]) l'
  end.

(** An element of the batch fails: it is malformed, or the iterator
    raises, or the engine refuses its put. *)
Definition batch_failed {K : lmdb_h} {E : Engine} (items : list puts_item)
    (stop : option error) (w w' : world) : Prop :=
  Exists malformed items ∨ is_Some stop ∨ refused_in (trace w) (new_calls w w').

(** The first put of a transaction succeeds and the second fails, with
    [MDB_MAP_FULL]. *)
Definition engine_second_put_fails : Engine :=
  fun tr c =>
    match c with
    | mdb_put _ _ _ _ _ =>
        if existsb (λ c', match c' with mdb_put _ _ _ _ _ => true | _ => false end) tr
        then reply_rc (-30792) 0
        else reply_rc 0 0
    | _ => reply_rc 0 (100 + length tr)
    end.

(** [env.puts([(b"a", b"1"), (b"b", b"2")])]. *)
Definition puts_a_b_items : list puts_item :=
  [Pair (Buffer ["a"%byte]) (Buffer ["1"%byte]); Pair (Buffer ["b"%byte]) (Buffer ["2"%byte])].
Definition puts_a_b : puts_args :=
  mk_puts_args (Some (Iterable puts_a_b_items None)) None None None None.

(** The state after [env.close()] on [w_curs], and after [txn.abort()]
    on it. *)
Definition w_closed : world :=
  state_of (env_close 10 0%nat w_curs) w_curs.
Definition w_aborted : world :=
  state_of (trans_abort 10 2%nat w_curs) w_curs.

(** ** The invalidation cascade *)

(** [cleared h h' p k nxt]: from the heap [h] to [h'] every object of the tree [k] has
    lost its validity, the root of [k] has been taken from the head of the children of
    [p], whose next child is [nxt], and nothing outside [k] has changed otherwise. *)
Definition cleared (h h' : gmap addr lmdb_object) (p : addr) (k : tree) (nxt : ptr) : Prop :=
  (∀ d, d ∈ nodes k → ∃ o', h' !! d = Some o' ∧ valid o' = false) ∧
  (∃ op, h !! p = Some op ∧ h' !! p = Some (set_children_next nxt op)) ∧
  (∀ n, nxt = Some n → ∃ on, h !! n = Some on ∧ h' !! n = Some (set_siblings_prev None on)) ∧
  (∀ x, x ∉ nodes k → x ≠ p → nxt ≠ Some x → h' !! x = h !! x).

(** What [tp_clear] does on the root of [k] when [k] is the first child of [p]: it runs
    through with fuel for the objects below the root and leaves [k] [cleared]. *)
Definition clear_spec (k : tree) : Prop :=
  ∀ fuel w p nxt oc,
    (list_sum (map tree_size (kids k)) <= fuel)%nat →
    shape (heap w) k → NoDup (nodes k) → linked (heap w) p k → (p ∉ nodes k) →
    heap w !! (root k) = Some oc → siblings oc = mk_list_head None nxt →
    (∃ op, heap w !! p = Some op ∧ next (children op) = Some (root k)) →
    (∀ n, nxt = Some n → (n ∉ nodes k) ∧ n ≠ p ∧ is_Some (heap w !! n)) →
    ∃ w', tp_clear fuel (root k) w = Done tt w' ∧ cleared (heap w) (heap w') p k nxt.

(** What the loop of [invalidate] does on the children [ks] of [a]: it runs through with
    fuel for the objects of [ks], none of them is valid afterwards, [a] has no child
    left, and nothing else has changed. *)
Definition loop_spec (ks : list tree) : Prop :=
  ∀ fuel w a oa,
    (list_sum (map tree_size ks) <= fuel)%nat →
    heap w !! a = Some oa →
    dll (heap w) None (next (children oa)) (map root ks) →
    Forall (λ k, linked (heap w) a k ∧ shape (heap w) k) ks →
    NoDup (a :: flat_map nodes ks) →
    ∃ w', invalidate_from fuel (next (children oa)) w = Done tt w' ∧
      (∀ d, d ∈ flat_map nodes ks → ∃ o', heap w' !! d = Some o' ∧ valid o' = false) ∧
      heap w' !! a = Some (set_children_next None oa) ∧
      (∀ x, x ∉ flat_map nodes ks → x ≠ a → heap w' !! x = heap w !! x).

(** [head_child w p c nxt op o]: in [w] the object [o] at [c] is the head of the
    children of [p], and [nxt] is what follows it. *)
Definition head_child (w : world) (p c : addr) (nxt : ptr) (op o : lmdb_object) : Prop :=
  heap w !! c = Some o ∧ siblings o = mk_list_head None nxt ∧
  heap w !! p = Some op ∧ next (children op) = Some c ∧ p ≠ c ∧
  ∀ n, nxt = Some n → n ≠ c ∧ n ≠ p ∧ is_Some (heap w !! n).

(** [unlinked_dead w w' p c nxt op]: from [w] to [w'] the object at [c] has been
    unlinked from the children of [p] and has lost its validity, and nothing else has changed. *)
Definition unlinked_dead (w w' : world) (p c : addr) (nxt : ptr) (op : lmdb_object) : Prop :=
  (∃ o', heap w' !! c = Some o' ∧ valid o' = false) ∧
  heap w' !! p = Some (set_children_next nxt op) ∧
  (∀ n on, nxt = Some n → heap w !! n = Some on →
     heap w' !! n = Some (set_siblings_prev None on)) ∧
  (∀ x, x ≠ c → x ≠ p → nxt ≠ Some x → heap w' !! x = heap w !! x).

(** [valid_mono w w']: every object of [w] still is an object of [w'], and one that
    was not valid is not valid. *)
Definition valid_mono (w w' : world) : Prop :=
  ∀ a o, heap w !! a = Some o →
    ∃ o', heap w' !! a = Some o' ∧ (valid o = false → valid o' = false).

(** A write that does not make an object valid. *)
Definition keeps_invalid (f : lmdb_object → lmdb_object) : Prop :=
  ∀ o, valid o = false → valid (f o) = false.

(** The methods of an environment that test the validity of the handle. *)
Definition env_checked (m : env_method) : Prop :=
  match m with
  | env_m_close | env_m_open_db _ => False
  | _ => True
  end.

(** The methods of a transaction that read [self->env->main_db]. *)
Definition reads_env (m : trans_method) : Prop :=
  match m with
  | trans_m_get _ | trans_m_put _ | trans_m_delete _ => True
  | _ => False
  end.

(** [close] on the environment [a], or a terminal operation on the transaction [a]. *)
Definition terminal_call (w : world) (c : public_call) (a : addr) : Prop :=
  match c with
  | on_env self env_m_close => self = a ∧ ∃ o e, heap w !! a = Some o ∧ body o = BEnv e
  | on_trans self m => self = a ∧ terminal m ∧ ∃ o t, heap w !! a = Some o ∧ body o = BTrans t
  | _ => False
  end.

(** A sequence of public calls, one after the other. *)
Fixpoint run_calls {K : lmdb_h} {E : Engine} (fuel : nat) (cs : list public_call) : M unit :=
  match cs with
  | [] => ret tt
  | c :: cs => run_call fuel c ;;; run_calls fuel cs
  end.

(** What an operation on a handle that is not valid is expected to do: it raises
    [InvalidHandle] and leaves the state as it is. For an environment these are the
    methods that test the handle; for a transaction, [get], [put] and [delete] read
    [self->env->main_db] before the test and are covered while [self->env] is set. *)
Definition fails_invalid {K : lmdb_h} {E : Engine} (fuel : nat) (w : world) (d : addr) : Prop :=
  ∃ o, heap w !! d = Some o ∧ valid o = false ∧
    (∀ e m, body o = BEnv e → env_checked m →
       env_methods fuel d m w = Done (Raise InvalidHandle) w) ∧
    (∀ t m, body o = BTrans t → (reads_env m → ∃ e, load_env (t_env t) w = Done e w) →
       trans_methods fuel d m w = Done (Raise InvalidHandle) w) ∧
    (∀ cu, body o = BCursor cu →
       (∀ m, cursor_methods d m w = Done (Raise InvalidHandle) w) ∧
       (∀ it, i_curs it = d → iter_next it w = Done (IterRaise InvalidHandle, it) w)).

(** The invalidation tree of [w_curs]: the environment 0 with the transaction 2, which
    has the cursor 3, and the main database 1. *)
Definition tree_2 : tree := Node 2%nat [Node 3%nat []].
Definition tree_0 : tree := Node 0%nat [tree_2; Node 1%nat []].

(** The state after [child = env.begin(write=True, parent=txn)] on [w_txn], the child
    being at address 3, and the state after [txn.abort()] on it. *)
Definition w_nested : world :=
  state_of (env_begin (K := lmdb_0_9) (E := engine_ok) 0%nat
              (Args (mk_begin_args None (Some true) (Some 2%nat))) w_txn) w_txn.
Definition w_nested_aborted : world :=
  state_of (trans_abort 10 2%nat w_nested) w_nested.

(** ** The sibling lists *)

(** What the [siblings.prev] of the element after a run [l] of a sibling list points
    to: the last element of [l], or [p], what the first one points back to. *)
Definition last_ptr (p : ptr) (l : list addr) : ptr :=
  match last l with
  | Some q => Some q
  | None => p
  end.

(** [same_but_links o o']: [o'] is [o] up to its links into the tree. *)
Definition same_but_links (o o' : lmdb_object) : Prop :=
  valid o' = valid o ∧ body o' = body o.

(** The state [w_txn] with a new, initialised transaction object, at address 3, that is
    not linked yet. *)
Definition w_new : world :=
  state_of (PyObject_New (OBJECT_INIT (BTrans (mk_trans (Some 0%nat) (Some 101%nat) false)))
              w_txn) w_txn.

(** ** New handles in the invalidation tree *)

(** The object a handle was linked below: the [env] of a database or a transaction,
    the [trans] of a cursor. *)
Definition owner (o : lmdb_object) : ptr :=
  match body o with
  | BDb d => d_env d
  | BEnv _ => None
  | BTrans t => t_env t
  | BCursor c => c_trans c
  end.

(** The tree with a new leaf [new] as the first child of the node [p]. *)
Fixpoint graft (p new : addr) (t : tree) : tree :=
  match t with
  | Node a ks =>
      Node a ((if decide (a = p) then [Node new []] else []) ++ map (graft p new) ks)
  end.

(** [grafted h h' p new]: from the heap [h] to [h'] the new object [new] has been linked
    as the first child of the valid handle [p], and nothing has changed but the links
    of [p] to its children and the sibling links of the children of [p]. *)
Definition grafted (h h' : gmap addr lmdb_object) (p new : addr) : Prop :=
  (∀ x o, h !! x = Some o → x ≠ p →
     ∃ o', h' !! x = Some o' ∧ children o' = children o ∧ same_but_links o o' ∧
           (owner o ≠ Some p → siblings o' = siblings o)) ∧
  (∃ op op', h !! p = Some op ∧ h' !! p = Some op' ∧ siblings op' = siblings op ∧
     same_but_links op op' ∧ valid op = true ∧ (∀ d, body op ≠ BDb d) ∧
     ∀ ks, shape h (Node p ks) → dll h' None (next (children op')) (new :: map root ks)) ∧
  (linked h' p (Node new []) ∧ shape h' (Node new [])).

(** The transaction [make_trans] hands to the engine as the parent. *)
Definition begin_parent (w : world) (parent : ptr) (ptxn : eptr) : Prop :=
  match parent with
  | None => ptxn = None
  | Some p => ∃ po pt, heap w !! p = Some po ∧ valid po = true ∧ body po = BTrans pt ∧
                       ptxn = t_txn pt
  end.

(** ** The transactions of the one-shot operations of an environment *)

(** A read, a put or a delete in the transaction [txn]. *)
Definition data_call (txn : eptr) (c : engine_call) : Prop :=
  match c with
  | mdb_get t _ _ | mdb_put t _ _ _ _ | mdb_del t _ _ _ => t = txn
  | _ => False
  end.

Definition is_return (r : pyresult) : Prop :=
  match r with
  | Return _ => True
  | Raise _ => False
  end.

(** [calls_only P w w']: from [w] to [w'] the heap is the same and the trace has grown
    by calls which satisfy [P]. *)
Definition calls_only (P : engine_call → Prop) (w w' : world) : Prop :=
  heap w' = heap w ∧ ∃ l, trace w' = trace w ++ l ∧ Forall P l.

(** [own_txn env flags commits w w' r]: what a one-shot operation that has run from [w]
    to [w'] with the result [r] has asked of the engine.  Nothing, and it has raised;
    or a transaction that the engine refused, and it has raised that; or a transaction
    [txn], begun with [flags], reads or writes in [txn], and last the end of [txn]:
    its abort, or, if the operation [commits], its commit when the reads or writes
    gave a result, which then is returned unless the commit fails. *)
Definition own_txn {E : Engine} (env : eptr) (flags : Z) (commits : bool)
    (w w' : world) (r : pyresult) : Prop :=
  let begin := mdb_txn_begin env None flags in
  let r0 := engine_reply (trace w) begin in
  let txn := Some (out_ptr r0) in
  (new_calls w w' = [] ∧ ¬ is_return r) ∨
  (new_calls w w' = [begin] ∧ rc r0 ≠ 0 ∧ r = Raise (err_set "mdb_txn_begin" (rc r0))) ∨
  (rc r0 = 0 ∧ ∃ body, Forall (data_call txn) body ∧
     ((new_calls w w' = begin :: body ++ [mdb_txn_abort txn] ∧
       (commits = true → ¬ is_return r)) ∨
      (commits = true ∧ new_calls w w' = begin :: body ++ [mdb_txn_commit txn] ∧
       let rcm := engine_reply (trace w ++ begin :: body) (mdb_txn_commit txn) in
       if decide (rc rcm = 0) then is_return r
       else r = Raise (err_set "mdb_txn_commit" (rc rcm))))).

(** The one-shot operations: the flags their transaction is begun with, whether they
    commit it, and the database argument. *)
Definition one_shot {K : lmdb_h} (m : env_method) : option (Z * bool * ptr) :=
  match m with
  | env_m_get args =>
      Some (MDB_RDONLY, false, match args with Args a => ga_db a | _ => None end)
  | env_m_gets args =>
      Some (MDB_RDONLY, false, match args with Args a => ka_db a | _ => None end)
  | env_m_put args => Some (0, true, match args with Args a => pa_db a | _ => None end)
  | env_m_puts args => Some (0, true, match args with Args a => ua_db a | _ => None end)
  | env_m_delete args => Some (0, true, match args with Args a => da_db a | _ => None end)
  | env_m_deletes args => Some (0, true, match args with Args a => ka_db a | _ => None end)
  | _ => None
  end.

(** ** The results of a batch *)

(** The answers of the engine to the calls [l], made one after the other after the
    calls [tr]. *)
Fixpoint replies {E : Engine} (tr l : list engine_call) : list reply :=
  match l with
  | [] => []
  | c :: l' => engine_reply tr c :: replies (tr ++ [c]) l'
  end.


(** The bytes of a key that is a buffer. *)
Definition key_bytes (k : pybuffer) : option bytes :=
  match k with
  | Buffer b => Some b
  | NotBuffer _ => None
  end.

(** The entry of the dict of [env_gets] for a key and the answer to its [mdb_get]. *)
Definition found (kr : bytes * reply) : option (bytes * bytes) :=
  if decide (rc kr.2 = 0) then Some (kr.1, string_from_val (out_data kr.2)) else None.


(** The read [env_gets] and the delete [env_deletes] make for a key. *)
Definition key_get (txn : eptr) (dbi : Z) (k : pybuffer) : option engine_call :=
  b ← key_bytes k; Some (mdb_get txn dbi (val_from_buffer b)).

(** ** The moves of a cursor *)

(** The call a method that moves the cursor makes for a cursor with the fields [c]. *)
Definition move (m : cursor_method) (c : CursorObject) : option engine_call :=
  match m with
  | cursor_m_first => Some (mdb_cursor_get (c_curs c) (c_key c) (c_val c) MDB_FIRST)
  | cursor_m_last => Some (mdb_cursor_get (c_curs c) (c_key c) (c_val c) MDB_LAST)
  | cursor_m_next => Some (mdb_cursor_get (c_curs c) (c_key c) (c_val c) MDB_NEXT)
  | cursor_m_prev => Some (mdb_cursor_get (c_curs c) (c_key c) (c_val c) MDB_PREV)
  | cursor_m_set_key (Buffer b) =>
      Some (mdb_cursor_get (c_curs c) (val_from_buffer b) (c_val c) MDB_SET_KEY)
  | cursor_m_set_range (Buffer b) =>
      Some (mdb_cursor_get (c_curs c) (val_from_buffer b) (c_val c)
              (match b with [] => MDB_FIRST | _ => MDB_SET_RANGE end))
  | _ => None
  end.

(** What a move returns for the answer [r] of the engine. *)
Definition move_result {K : lmdb_h} (r : reply) : pyresult :=
  if decide (rc r = 0) then Return Py_True
  else if decide (rc r = MDB_NOTFOUND) then Return Py_False
  else Raise (err_set "mdb_cursor_get" (rc r)).

(** What [_cursor_get_c] returns for the answer [r] of the engine to a call with the
    operator [op]: a failure of the engine other than [MDB_NOTFOUND] is an exception,
    but for [EINVAL] on [MDB_GET_CURRENT]. *)
Definition get_c_status {K : lmdb_h} (op : MDB_cursor_op) (r : reply) : option error :=
  if decide (rc r = 0) then None
  else if decide (rc r = MDB_NOTFOUND) then None
  else if bool_decide (rc r = EINVAL) && bool_decide (op = MDB_GET_CURRENT) then None
  else Some (err_set "mdb_cursor_get" (rc r)).

(** What [key()], [value()] and [item()] show after a move with the answer [r]. *)
Definition shown (f : val_func_t) (buffers : bool) (r : reply) : pyobj :=
  if decide (rc r = 0) then projection f buffers (out_key r) (out_data r)
  else projection f buffers val_null val_null.

(** [env.put(b"a", b"1")], [env.gets([b"a", b"b"])] and [env.deletes([b"a", b"b"])]. *)
Definition env_put_a_1 : env_method :=
  env_m_put (Args (mk_put_args (Some ["a"%byte]) (Some ["1"%byte]) None None None None)).
Definition keys_a_b : keys_args :=
  mk_keys_args (Some (Iterable [Buffer ["a"%byte]; Buffer ["b"%byte]] None)) None.

(** ** Argument parsing in detail *)

(** [parse_args] as the source has it, on the positional arguments and the keyword
    arguments of a call.  Python is taken to be Python 3. *)
Module Parse.

(** [enum string_id], in the order of its declaration. *)
Inductive string_id :=
| APPEND_S | BUFFERS_S | CREATE_S | DB_S | DEFAULT_S | DELETE_S | DUPDATA_S | DUPSORT_S
| FORCE_S | ITEMS_S | ITERITEMS_S | KEY_S | KEYS_S | MAP_ASYNC_S | MAP_SIZE_S | MAX_DBS_S
| MAX_READERS_S | METASYNC_S | MODE_S | NAME_S | OVERWRITE_S | PARENT_S | PATH_S
| READONLY_S | REVERSE_S | REVERSE_KEY_S | SUBDIR_S | SYNC_S | TXN_S | VALUE_S | VALUES_S
| WRITE_S | WRITEMAP_S.

(** The value of an enumerator. *)
Definition id_value (i : string_id) : nat :=
  match i with
  | APPEND_S => 0 | BUFFERS_S => 1 | CREATE_S => 2 | DB_S => 3 | DEFAULT_S => 4
  | DELETE_S => 5 | DUPDATA_S => 6 | DUPSORT_S => 7 | FORCE_S => 8 | ITEMS_S => 9
  | ITERITEMS_S => 10 | KEY_S => 11 | KEYS_S => 12 | MAP_ASYNC_S => 13 | MAP_SIZE_S => 14
  | MAX_DBS_S => 15 | MAX_READERS_S => 16 | METASYNC_S => 17 | MODE_S => 18 | NAME_S => 19
  | OVERWRITE_S => 20 | PARENT_S => 21 | PATH_S => 22 | READONLY_S => 23 | REVERSE_S => 24
  | REVERSE_KEY_S => 25 | SUBDIR_S => 26 | SYNC_S => 27 | TXN_S => 28 | VALUE_S => 29
  | VALUES_S => 30 | WRITE_S => 31 | WRITEMAP_S => 32
  end%nat.

Definition STRING_ID_COUNT : nat := 33.

(** The string literal [strings]: the keywords, each followed by a NUL. *)
Definition NUL : string := String Ascii.zero EmptyString.

Definition strings : string :=
  ("append" ++ NUL ++ "buffers" ++ NUL ++ "create" ++ NUL ++ "db" ++ NUL ++
   "default" ++ NUL ++ "delete" ++ NUL ++ "dupdata" ++ NUL ++ "dupsort" ++ NUL ++
   "force" ++ NUL ++ "items" ++ NUL ++ "iteritems" ++ NUL ++ "key" ++ NUL ++
   "keys" ++ NUL ++ "map_async" ++ NUL ++ "map_size" ++ NUL ++ "max_dbs" ++ NUL ++
   "max_readers" ++ NUL ++ "metasync" ++ NUL ++ "mode" ++ NUL ++ "name" ++ NUL ++
   "overwrite" ++ NUL ++ "parent" ++ NUL ++ "path" ++ NUL ++ "readonly" ++ NUL ++
   "reverse" ++ NUL ++ "reverse_key" ++ NUL ++ "subdir" ++ NUL ++ "sync" ++ NUL ++
   "txn" ++ NUL ++ "value" ++ NUL ++ "values" ++ NUL ++ "write" ++ NUL ++
   "writemap" ++ NUL)%string.

(** The C string at the start of [s], and what follows its NUL. *)
Fixpoint c_string (s : string) : string :=
  match s with
  | EmptyString => EmptyString
  | String c s' => if Ascii.eqb c Ascii.zero then EmptyString else String c (c_string s')
  end.

Fixpoint after_nul (s : string) : string :=
  match s with
  | EmptyString => EmptyString
  | String c s' => if Ascii.eqb c Ascii.zero then s' else after_nul s'
  end.

(** The loop of the module initialisation that fills [string_tbl]:
    [cur += strlen(cur) + 1]. *)
Fixpoint intern (n : nat) (cur : string) : list string :=
  match n with
  | O => []
  | S n' => c_string cur :: intern n' (after_nul cur)
  end.

Definition string_tbl (i : string_id) : string :=
  nth (id_value i) (intern STRING_ID_COUNT strings) EmptyString.

(** [enum arg_type] and [struct argspec]; the offset is the number of the field of
    the struct that the argument goes to. *)
Inductive arg_type :=
| ARG_OBJ | ARG_DB | ARG_TRANS | ARG_BOOL | ARG_BUF | ARG_STR | ARG_INT | ARG_SIZE.

Record argspec := mk_argspec {
  a_type : arg_type;
  a_string_id : string_id;
  a_offset : nat
}.

(** The objects a call can pass: [None], [True], [False], an [int], an object as
    [val_from_buffer] sees it ([bytes], [str], or another object with or without the
    buffer interface), a [_Database], a [Transaction], and any other object, which
    is no number. *)
Inductive pyval :=
| VNone
| VTrue
| VFalse
| VInt (n : Z)
| VBuf (b : pybuffer)
| VDb (a : addr)
| VTrans (a : addr)
| VObj (n : nat).

(** The fields of the argument structs: a [PyObject *], [DbObject *] or
    [TransObject *], an [int], a [size_t], an [MDB_val], a [char *]. *)
Inductive field :=
| FObj (o : option pyval)
| FInt (n : Z)
| FSize (n : Z)
| FBuf (v : MDB_val)
| FStr (s : option bytes).

Definition INT_MAX : Z := 2147483647.
Definition SIZE_MAX : Z := 18446744073709551615.

(** [val_from_buffer] on an object. *)
Definition as_buffer (v : pyval) : pybuffer :=
  match v with
  | VBuf b => b
  | _ => NotBuffer (PyError "expected an object with the buffer interface")
  end.

(** The [int] an object is, [bool] being a subclass of [int]. *)
Definition int_value (v : pyval) : option Z :=
  match v with
  | VInt n => Some n
  | VTrue => Some 1
  | VFalse => Some 0
  | _ => None
  end.

(** [parse_ulong]; [PyLong_AsUnsignedLongLongMask] reduces modulo [2^64]. *)
Definition parse_ulong (obj : pyval) (max : Z) : error + Z :=
  match int_value obj with
  | None => inl (PyError "'>=' not supported")
  | Some n =>
      if negb (0 <=? n) then inl (type_error "Integer argument must be >= 0")
      else if negb (n <=? max) then inl (type_error "Integer argument exceeds limit.")
      else inr (n mod 2 ^ 64)
  end.

(** The conversion of a [uint64_t] to [int]. *)
Definition to_int (l : Z) : Z := (l + 2 ^ 31) mod 2 ^ 32 - 2 ^ 31.

(** [parse_arg]. *)
Definition parse_arg (spec : argspec) (val : pyval) (out : list field)
    : error + list field :=
  let dst := a_offset spec in
  match val with
  | VNone => inr out
  | _ =>
      match a_type spec with
      | ARG_OBJ => inr (<[dst := FObj (Some val)]> out)
      | ARG_DB =>
          match val with
          | VDb _ => inr (<[dst := FObj (Some val)]> out)
          | _ => inl (type_error "invalid type")
          end
      | ARG_TRANS =>
          match val with
          | VTrans _ => inr (<[dst := FObj (Some val)]> out)
          | _ => inl (type_error "invalid type")
          end
      | ARG_BOOL =>
          inr (<[dst := FInt (match val with VTrue => 1 | _ => 0 end)]> out)
      | ARG_BUF =>
          match as_buffer val with
          | NotBuffer e => inl e
          | Buffer b => inr (<[dst := FBuf (val_from_buffer b)]> out)
          end
      | ARG_STR =>
          match as_buffer val with
          | NotBuffer e => inl e
          | Buffer b => inr (<[dst := FStr (Some b)]> out)
          end
      | ARG_INT =>
          match parse_ulong val INT_MAX with
          | inl e => inl e
          | inr l => inr (<[dst := FInt (to_int l)]> out)
          end
      | ARG_SIZE =>
          match parse_ulong val SIZE_MAX with
          | inl e => inl e
          | inr l => inr (<[dst := FSize (l mod 2 ^ 64)]> out)
          end
      end
  end.

(** The loop of [parse_args] over the positional arguments, from the argument [i];
    it runs to the smaller of the two sizes.  [set] is an [unsigned]. *)
Fixpoint positional (specs : list argspec) (vals : list pyval) (i : nat) (set : Z)
    (out : list field) {struct vals} : error + (Z * list field) :=
  match vals, specs with
  | v :: vals', s :: specs' =>
      match parse_arg s v out with
      | inl e => inl e
      | inr out' =>
          positional specs' vals' (S i)
            (Z.lor set (Z.shiftl 1 (Z.of_nat i)) mod 2 ^ 32) out'
      end
  | _, _ => inr (set, out)
  end.

(** What [PyBytes_AS_STRING] reads at an interned [str]: the macro does not look at
    the type of its argument. *)
Class PyBytes := PyBytes_AS_STRING : string → string.

(** The keyword of a spec: [string_tbl[spec->string_id]]. *)
Definition name (s : argspec) : string := string_tbl (a_string_id s).

(** The loop of [parse_args] over the specs, from the spec [i], which looks each
    keyword up in the dict; [c] counts the keywords found. *)
Fixpoint keywords `{PyBytes} (specs : list argspec) (kwds : gmap string pyval) (size : nat)
    (i c : nat) (set : Z) (out : list field) : error + (nat * list field) :=
  match specs with
  | [] => inr (c, out)
  | s :: specs' =>
      if decide (c = size) then inr (c, out)
      else
        let kwd := name s in
        match kwds !! kwd with
        | Some val =>
            if negb (Z.land set (Z.shiftl 1 (Z.of_nat i)) =? 0)
            then inl (TypeError ("duplicate argument: " ++ PyBytes_AS_STRING kwd)%string)
            else
              match parse_arg s val out with
              | inl e => inl e
              | inr out' => keywords specs' kwds size (S i) (S c) set out'
              end
        | None => keywords specs' kwds size (S i) c set out
        end
  end.

(** [parse_args]; [args] and [kwds] are [None] for a [NULL] pointer. *)
Definition parse_args `{PyBytes} (valid : bool) (argspec : list argspec)
    (args : option (list pyval)) (kwds : option (gmap string pyval))
    (out : list field) : error + list field :=
  if negb valid then inl err_invalid
  else
    let specsize := length argspec in
    match
      match args with
      | Some vals =>
          if decide (specsize < length vals)%nat
          then inl (type_error "too many positional arguments.")
          else positional argspec vals 0 0 out
      | None => inr (0, out)
      end
    with
    | inl e => inl e
    | inr (set, out1) =>
        match kwds with
        | Some d =>
            match keywords argspec d (size d) 0 0 set out1 with
            | inl e => inl e
            | inr (c, out2) =>
                if decide (c ≠ size d) then inl (type_error "unrecognized keyword argument")
                else inr out2
            end
        | None => inr out1
        end
    end.

(** The limit and the field of the two integer types. *)
Definition int_limit (t : arg_type) : Z :=
  match t with ARG_SIZE => SIZE_MAX | _ => INT_MAX end.

Definition int_field (t : arg_type) (n : Z) : field :=
  match t with ARG_SIZE => FSize n | _ => FInt n end.

(** The keywords of the specs. *)
Definition names (specs : list argspec) : list string := name <$> specs.

(** The object a call gives by keyword for a spec, [None] if it gives none. *)
Definition given (kwds : gmap string pyval) (s : argspec) : pyval :=
  default VNone (kwds !! name s).

End Parse.

#[global] Instance byte_eq_dec : EqDecision Byte.byte := Byte.byte_eq_dec.
#[global] Instance error_eq_dec : EqDecision error.
Proof. solve_decision. Defined.
#[global] Instance pybuffer_eq_dec : EqDecision pybuffer.
Proof. solve_decision. Defined.
#[global] Instance pyval_eq_dec : EqDecision Parse.pyval.
Proof. solve_decision. Defined.

(** The argument struct and the argspec of [env_begin]. *)
Definition env_begin_arg : list Parse.field :=
  [Parse.FInt 0; Parse.FInt 0; Parse.FObj None].

Definition env_begin_argspec : list Parse.argspec :=
  [Parse.mk_argspec Parse.ARG_BOOL Parse.BUFFERS_S 0;
   Parse.mk_argspec Parse.ARG_BOOL Parse.WRITE_S 1;
   Parse.mk_argspec Parse.ARG_TRANS Parse.PARENT_S 2].

(** What [env_begin] gets from [parse_args] for the arguments of a call. *)
Definition env_begin_args `{Parse.PyBytes} (args : option (list Parse.pyval))
    (kwds : option (gmap string Parse.pyval)) : call_args begin_args :=
  match Parse.parse_args true env_begin_argspec args kwds env_begin_arg with
  | inl e => Malformed e
  | inr [Parse.FInt buffers; Parse.FInt write; Parse.FObj parent] =>
      Args (mk_begin_args (Some (negb (buffers =? 0))) (Some (negb (write =? 0)))
              (match parent with Some (Parse.VTrans a) => Some a | _ => None end))
  | inr _ => Malformed (PyError "")
  end.

(** An interpreter in which the macro reads the characters of the keyword. *)
Definition py_reads_chars : Parse.PyBytes := λ s, s.

(** ** Opening a database *)

(** The flags [env_open_db] passes to [mdb_dbi_open]. *)
Definition open_db_flags `{lmdb_h} (a : open_db_args) : Z :=
  Z.lor (Z.lor (if default false (oa_reverse_key a) then MDB_REVERSEKEY else 0)
               (if default false (oa_dupsort a) then MDB_DUPSORT else 0))
        (if default true (oa_create a) then MDB_CREATE else 0).

(** A [_Database] object after [db_clear]. *)
Definition cleared_db (dbi : Z) : lmdb_object :=
  mk_object list_head_null list_head_null false (BDb (mk_db None dbi)).

(** An engine whose [mdb_txn_commit] fails, with [EIO]. *)
Definition engine_commit_fails : Engine :=
  engine_of (fun c => match c with mdb_txn_commit _ => 5 | _ => 0 end).

(** [env.open_db('sub')]. *)
Definition open_db_sub : open_db_args :=
  mk_open_db_args (Some "sub"%string) None None None None.

(** ** What a cascade releases *)

(** The calls of the engine that [tp_clear] on the root of [k] makes in the heap [h]:
    nothing for an object that is not valid; otherwise what the clearing of the
    children makes, in the order of the children list, and then
    [mdb_cursor_close] for a cursor and, for a transaction whose [txn] is set,
    [mdb_txn_abort]. *)
Fixpoint releases (h : gmap addr lmdb_object) (k : tree) : list engine_call :=
  match k with
  | Node c cks =>
      match h !! c with
      | Some o =>
          if valid o then
            flat_map (releases h) cks ++
            match body o with
            | BTrans t =>
                match t_txn t with
                | Some _ => [mdb_txn_abort (t_txn t)]
                | None => []
                end
            | BCursor cu => [mdb_cursor_close (c_curs cu)]
            | _ => []
            end
          else []
      | None => []
      end
  end.

(** What the trace shows of [tp_clear] on the root of [k], the first child of [p], and
    of the loop of [invalidate] on the children [ks] of [a]. *)
Definition clear_trace (k : tree) : Prop :=
  ∀ fuel w p nxt oc w',
    (list_sum (map tree_size (kids k)) <= fuel)%nat →
    shape (heap w) k → NoDup (nodes k) → linked (heap w) p k → (p ∉ nodes k) →
    heap w !! (root k) = Some oc → siblings oc = mk_list_head None nxt →
    (∃ op, heap w !! p = Some op ∧ next (children op) = Some (root k)) →
    (∀ n, nxt = Some n → (n ∉ nodes k) ∧ n ≠ p ∧ is_Some (heap w !! n)) →
    tp_clear fuel (root k) w = Done tt w' →
    trace w' = trace w ++ releases (heap w) k.

Definition loop_trace (ks : list tree) : Prop :=
  ∀ fuel w a oa w',
    (list_sum (map tree_size ks) <= fuel)%nat →
    heap w !! a = Some oa →
    dll (heap w) None (next (children oa)) (map root ks) →
    Forall (λ k, linked (heap w) a k ∧ shape (heap w) k) ks →
    NoDup (a :: flat_map nodes ks) →
    invalidate_from fuel (next (children oa)) w = Done tt w' →
    trace w' = trace w ++ flat_map (releases (heap w)) ks.

(** ** The start of an iteration *)

(** The projection [iter_from_args] chooses for [keys] and [values]. *)
Definition chosen_func (a : iter_args) : val_func_t :=
  if negb (default true (ia_values a)) then cursor_key_f
  else if negb (default true (ia_keys a)) then cursor_value_f
  else cursor_item_f.

(** The first step of an iterator with the projection [f] on a cursor that the answer
    [r] of the engine has positioned, or has not. *)
Definition first_step {K : lmdb_h} (f : val_func_t) (buffers : bool) (r : reply)
    (it : IterObject) : iter_result * IterObject :=
  if decide (rc r = 0)
  then (Yield (projection f buffers (out_key r) (out_data r)), started it)
  else (StopIteration, it).

(** ** Bytes in and out *)

(** [txn.put(k, v)] and [txn.get(k)]. *)
Definition put_k_v (k v : bytes) : put_args :=
  mk_put_args (Some k) (Some v) None None None None.

Definition get_k (k : bytes) : get_args := mk_get_args (Some k) None None.

(** A store that holds what the last [mdb_put] of the trace has stored, under its key,
    and nothing else. *)
Definition engine_last_put : Engine :=
  fun tr c =>
    match c with
    | mdb_get _ _ k =>
        match last tr with
        | Some (mdb_put _ _ k' v _) =>
            if bool_decide (string_from_val k' = string_from_val k)
            then mk_reply 0 0 0 k' v 0 [] ""
            else reply_rc (@MDB_NOTFOUND lmdb_0_9) 0
        | _ => reply_rc (@MDB_NOTFOUND lmdb_0_9) 0
        end
    | _ => reply_rc 0 (100 + length tr)
    end.

(** An engine that fails, with [EIO], to read the current pair of a cursor. *)
Definition engine_reread_fails : Engine :=
  engine_of (fun c =>
    match c with
    | mdb_cursor_get _ _ _ MDB_GET_CURRENT => 5
    | _ => 0
    end).

(** * Properties *)

(** ** Flags *)

Lemma flag_set_0 F : flag_set 0 F = false.
Proof. unfold flag_set. now rewrite Z.land_0_l. Qed.

Lemma flag_set_lor_same x F : F ≠ 0 → flag_set (Z.lor x F) F = true.
Proof.
  intros HF. unfold flag_set.
  assert (Hl : Z.land (Z.lor x F) F = F).
  { apply Z.bits_inj'. intros n _.
    rewrite Z.land_spec, Z.lor_spec. destruct (Z.testbit x n), (Z.testbit F n); reflexivity. }
  rewrite Hl. destruct (Z.eqb_spec F 0); [contradiction | reflexivity].
Qed.

Lemma flag_set_lor_other x A F : Z.land A F = 0 → flag_set (Z.lor x A) F = flag_set x F.
Proof.
  intros HA. unfold flag_set.
  now rewrite Z.land_lor_distr_l, HA, Z.lor_0_r.
Qed.

(** ** Running the monad *)

Lemma bind_inv {A B} (m : M A) (f : A → M B) w b w' :
  bind m f w = Done b w' → ∃ a w1, m w = Done a w1 ∧ f a w1 = Done b w'.
Proof. unfold bind. destruct (m w); [eauto | discriminate | discriminate]. Qed.

Lemma bind_Done {A B} (m : M A) (f : A → M B) w a w1 :
  m w = Done a w1 → bind m f w = f a w1.
Proof. unfold bind. now intros ->. Qed.

Lemma load_inv p w o w' :
  load p w = Done o w' → ∃ a, p = Some a ∧ heap w !! a = Some o ∧ w' = w.
Proof.
  unfold load. destruct p as [a|]; [|discriminate].
  destruct (heap w !! a) eqn:Hl; [|discriminate].
  intros [= <- <-]. eauto.
Qed.

Lemma load_Some a w o : heap w !! a = Some o → load (Some a) w = Done o w.
Proof. unfold load. now intros ->. Qed.

Lemma update_inv a f w u w' :
  update a f w = Done u w' →
  ∃ o, heap w !! a = Some o ∧ w' = mk_world (<[a := f o]> (heap w)) (trace w).
Proof.
  unfold update. destruct (heap w !! a) eqn:Hl; [|discriminate].
  intros [= <- <-]. eauto.
Qed.

Lemma update_Some a f w o :
  heap w !! a = Some o → update a f w = Done tt (mk_world (<[a := f o]> (heap w)) (trace w)).
Proof. unfold update. now intros ->. Qed.

Lemma as_db_inv o w d w' : as_db o w = Done d w' → body o = BDb d ∧ w' = w.
Proof. unfold as_db. destruct (body o); try discriminate. now intros [= <- <-]. Qed.
Lemma as_env_inv o w e w' : as_env o w = Done e w' → body o = BEnv e ∧ w' = w.
Proof. unfold as_env. destruct (body o); try discriminate. now intros [= <- <-]. Qed.
Lemma as_trans_inv o w t w' : as_trans o w = Done t w' → body o = BTrans t ∧ w' = w.
Proof. unfold as_trans. destruct (body o); try discriminate. now intros [= <- <-]. Qed.
Lemma as_cursor_inv o w c w' : as_cursor o w = Done c w' → body o = BCursor c ∧ w' = w.
Proof. unfold as_cursor. destruct (body o); try discriminate. now intros [= <- <-]. Qed.

Lemma load_db_inv p w d w' :
  load_db p w = Done d w' →
  ∃ a o, p = Some a ∧ heap w !! a = Some o ∧ body o = BDb d ∧ w' = w.
Proof.
  unfold load_db. intros H. apply bind_inv in H as (o & w1 & H1 & H2).
  apply load_inv in H1 as (a & -> & Ha & ->). apply as_db_inv in H2 as [Hb ->]. eauto 6.
Qed.
Lemma load_env_inv p w e w' :
  load_env p w = Done e w' →
  ∃ a o, p = Some a ∧ heap w !! a = Some o ∧ body o = BEnv e ∧ w' = w.
Proof.
  unfold load_env. intros H. apply bind_inv in H as (o & w1 & H1 & H2).
  apply load_inv in H1 as (a & -> & Ha & ->). apply as_env_inv in H2 as [Hb ->]. eauto 6.
Qed.
Lemma load_trans_inv p w t w' :
  load_trans p w = Done t w' →
  ∃ a o, p = Some a ∧ heap w !! a = Some o ∧ body o = BTrans t ∧ w' = w.
Proof.
  unfold load_trans. intros H. apply bind_inv in H as (o & w1 & H1 & H2).
  apply load_inv in H1 as (a & -> & Ha & ->). apply as_trans_inv in H2 as [Hb ->]. eauto 6.
Qed.
Lemma load_cursor_inv p w c w' :
  load_cursor p w = Done c w' →
  ∃ a o, p = Some a ∧ heap w !! a = Some o ∧ body o = BCursor c ∧ w' = w.
Proof.
  unfold load_cursor. intros H. apply bind_inv in H as (o & w1 & H1 & H2).
  apply load_inv in H1 as (a & -> & Ha & ->). apply as_cursor_inv in H2 as [Hb ->]. eauto 6.
Qed.

Lemma load_db_Some a w o d :
  heap w !! a = Some o → body o = BDb d → load_db (Some a) w = Done d w.
Proof. intros H Hb. unfold load_db. rewrite (bind_Done _ _ _ _ _ (load_Some _ _ _ H)).
  unfold as_db. now rewrite Hb. Qed.
Lemma load_env_Some a w o e :
  heap w !! a = Some o → body o = BEnv e → load_env (Some a) w = Done e w.
Proof. intros H Hb. unfold load_env. rewrite (bind_Done _ _ _ _ _ (load_Some _ _ _ H)).
  unfold as_env. now rewrite Hb. Qed.
Lemma load_trans_Some a w o t :
  heap w !! a = Some o → body o = BTrans t → load_trans (Some a) w = Done t w.
Proof. intros H Hb. unfold load_trans. rewrite (bind_Done _ _ _ _ _ (load_Some _ _ _ H)).
  unfold as_trans. now rewrite Hb. Qed.
Lemma load_cursor_Some a w o c :
  heap w !! a = Some o → body o = BCursor c → load_cursor (Some a) w = Done c w.
Proof. intros H Hb. unfold load_cursor. rewrite (bind_Done _ _ _ _ _ (load_Some _ _ _ H)).
  unfold as_cursor. now rewrite Hb. Qed.

Lemma ret_inv {A} (a b : A) w w' : ret a w = Done b w' → a = b ∧ w = w'.
Proof. unfold ret. now intros [= -> ->]. Qed.

Lemma call_inv `{Engine} c w r w' :
  call c w = Done r w' →
  r = engine_reply (trace w) c ∧ w' = mk_world (heap w) (trace w ++ [c]).
Proof. unfold call. now intros [= <- <-]. Qed.

Lemma call_void_inv c w u w' :
  call_void c w = Done u w' → w' = mk_world (heap w) (trace w ++ [c]).
Proof. unfold call_void. now intros [= <-]. Qed.

(** Take a finished computation apart, one step at a time. *)
Ltac minv H :=
  lazymatch type of H with
  | bind _ _ _ = Done _ _ =>
      let a := fresh "a" in
      let w1 := fresh "w" in
      let H1 := fresh "H" in
      apply bind_inv in H as (a & w1 & H1 & H); minv H1; cbv beta in H; try minv H
  | load_db _ _ = Done _ _ =>
      apply load_db_inv in H as (? & ? & ? & ? & ? & ?); simplify_eq
  | load_env _ _ = Done _ _ =>
      apply load_env_inv in H as (? & ? & ? & ? & ? & ?); simplify_eq
  | load_trans _ _ = Done _ _ =>
      apply load_trans_inv in H as (? & ? & ? & ? & ? & ?); simplify_eq
  | load_cursor _ _ = Done _ _ =>
      apply load_cursor_inv in H as (? & ? & ? & ? & ? & ?); simplify_eq
  | load _ _ = Done _ _ => apply load_inv in H as (? & ? & ? & ?); simplify_eq
  | as_db _ _ = Done _ _ => apply as_db_inv in H as (? & ?); simplify_eq
  | as_env _ _ = Done _ _ => apply as_env_inv in H as (? & ?); simplify_eq
  | as_trans _ _ = Done _ _ => apply as_trans_inv in H as (? & ?); simplify_eq
  | as_cursor _ _ = Done _ _ => apply as_cursor_inv in H as (? & ?); simplify_eq
  | update _ _ _ = Done _ _ => apply update_inv in H as (? & ? & ?); simplify_eq
  | ret _ _ = Done _ _ => apply ret_inv in H as (? & ?); simplify_eq
  | call _ _ = Done _ _ => apply call_inv in H as (? & ?); simplify_eq
  | call_void _ _ = Done _ _ => apply call_void_inv in H; simplify_eq
  | fault _ = Done _ _ => discriminate H
  | _ => idtac
  end.

(** Split on what the computation in [H] branches on. *)
Ltac mcase H :=
  lazymatch type of H with
  | (match ?x with _ => _ end) _ = Done _ _ => destruct x eqn:?; simpl in H
  end.

Ltac mrun H := minv H; repeat (mcase H; minv H).

Section Properties.
Context {K : lmdb_h} {E : Engine}.

Lemma put_flags_default_bits append :
  put_flags_ok K →
  flag_set (put_flags false true append) MDB_NOOVERWRITE = false ∧
  flag_set (put_flags false true append) MDB_NODUPDATA = true.
Proof.
  intros (Ho & Hd & Ha & Hdo & Hda & Hoa). unfold put_flags. simpl. split.
  - destruct append.
    + rewrite flag_set_lor_other by (rewrite Z.land_comm; exact Hoa).
      rewrite flag_set_lor_other by exact Hdo. apply flag_set_0.
    + rewrite flag_set_lor_other by exact Hdo. apply flag_set_0.
  - destruct append.
    + rewrite flag_set_lor_other by (rewrite Z.land_comm; exact Hda).
      now apply flag_set_lor_same.
    + now apply flag_set_lor_same.
Qed.

Lemma cursor_put_flags_default_bits append :
  put_flags_ok K →
  flag_set (cursor_put_flags false true append) MDB_NOOVERWRITE = false ∧
  flag_set (cursor_put_flags false true append) MDB_NODUPDATA = true.
Proof.
  intros (Ho & Hd & Ha & Hdo & Hda & Hoa). unfold cursor_put_flags. simpl. split.
  - destruct append; simpl.
    + rewrite flag_set_lor_other by exact Hdo. apply flag_set_0.
    + rewrite flag_set_lor_other by (rewrite Z.land_comm; exact Hoa).
      rewrite flag_set_lor_other by exact Hdo. apply flag_set_0.
  - destruct append; simpl.
    + now apply flag_set_lor_same.
    + rewrite flag_set_lor_other by (rewrite Z.land_comm; exact Hda).
      now apply flag_set_lor_same.
Qed.

Lemma put_flags_append_bit dupdata overwrite append :
  put_flags_ok K →
  flag_set (put_flags dupdata overwrite append) MDB_APPEND = append.
Proof.
  intros (Ho & Hd & Ha & Hdo & Hda & Hoa). unfold put_flags.
  destruct append; simpl.
  - now apply flag_set_lor_same.
  - destruct overwrite, dupdata; simpl;
      rewrite ?(flag_set_lor_other _ _ _ Hoa), ?(flag_set_lor_other _ _ _ Hda);
      apply flag_set_0.
Qed.

Lemma cursor_put_flags_append_bit dupdata overwrite append :
  put_flags_ok K →
  flag_set (cursor_put_flags dupdata overwrite append) MDB_APPEND = negb append.
Proof.
  intros (Ho & Hd & Ha & Hdo & Hda & Hoa). unfold cursor_put_flags.
  destruct append; simpl.
  - destruct overwrite, dupdata; simpl;
      rewrite ?(flag_set_lor_other _ _ _ Hoa), ?(flag_set_lor_other _ _ _ Hda);
      apply flag_set_0.
  - now apply flag_set_lor_same.
Qed.

End Properties.

(** ** Computations and the relations they keep *)

Lemma grows_refl P w : grows P w w.
Proof. exists []. now rewrite app_nil_r. Qed.

Lemma grows_trans P w1 w2 w3 : grows P w1 w2 → grows P w2 w3 → grows P w1 w3.
Proof.
  intros (l1 & H1 & F1) (l2 & H2 & F2). exists (l1 ++ l2).
  rewrite H2, H1, app_assoc. split; [reflexivity | now apply Forall_app].
Qed.

#[global] Instance grows_StepRel P : StepRel (grows P).
Proof. split; [apply grows_refl | apply grows_trans]. Qed.

Lemma grows_new_calls P w w' : grows P w w' → Forall P (new_calls w w').
Proof.
  intros (l & H & F). unfold new_calls. rewrite H.
  now rewrite drop_app_length.
Qed.

Section Steps.
Context (R : world → world → Prop) `{!StepRel R}.

Lemma steps_ret {A} (a : A) : steps R (ret a).
Proof. intros w b w' H. apply ret_inv in H as [_ <-]. apply step_refl. Qed.

Lemma steps_bind {A B} (m : M A) (f : A → M B) :
  steps R m → (∀ a, steps R (f a)) → steps R (bind m f).
Proof.
  intros Hm Hf w b w' H. apply bind_inv in H as (a & w1 & H1 & H2).
  eapply step_trans; [eapply Hm | eapply Hf]; eauto.
Qed.

Lemma steps_fault {A} : steps R (@fault A).
Proof. intros w a w' H. discriminate H. Qed.

Lemma steps_load p : steps R (load p).
Proof. intros w a w' H. apply load_inv in H as (? & ? & ? & ->). apply step_refl. Qed.

Lemma steps_as_db o : steps R (as_db o).
Proof. intros w a w' H. apply as_db_inv in H as (? & ->). apply step_refl. Qed.
Lemma steps_as_env o : steps R (as_env o).
Proof. intros w a w' H. apply as_env_inv in H as (? & ->). apply step_refl. Qed.
Lemma steps_as_trans o : steps R (as_trans o).
Proof. intros w a w' H. apply as_trans_inv in H as (? & ->). apply step_refl. Qed.
Lemma steps_as_cursor o : steps R (as_cursor o).
Proof. intros w a w' H. apply as_cursor_inv in H as (? & ->). apply step_refl. Qed.

Lemma steps_load_db p : steps R (load_db p).
Proof. apply steps_bind; [apply steps_load | apply steps_as_db]. Qed.
Lemma steps_load_env p : steps R (load_env p).
Proof. apply steps_bind; [apply steps_load | apply steps_as_env]. Qed.
Lemma steps_load_trans p : steps R (load_trans p).
Proof. apply steps_bind; [apply steps_load | apply steps_as_trans]. Qed.
Lemma steps_load_cursor p : steps R (load_cursor p).
Proof. apply steps_bind; [apply steps_load | apply steps_as_cursor]. Qed.

End Steps.

Lemma steps_grows_update P a f : steps (grows P) (update a f).
Proof.
  intros w u w' H. apply update_inv in H as (o & _ & ->).
  exists []. simpl. now rewrite app_nil_r.
Qed.

Lemma steps_grows_new P o : steps (grows P) (PyObject_New o).
Proof. intros w a w' [= <- <-]. exists []. simpl. now rewrite app_nil_r. Qed.

Lemma steps_grows_call `{Engine} P c : P c → steps (grows P) (call c).
Proof.
  intros Hc w r w' H'. apply call_inv in H' as (_ & ->).
  exists [c]. simpl. split; [reflexivity | now constructor].
Qed.

Lemma steps_grows_call_void P c : P c → steps (grows P) (call_void c).
Proof.
  intros Hc w r w' H'. apply call_void_inv in H' as ->.
  exists [c]. simpl. split; [reflexivity | now constructor].
Qed.

(** One step of a proof of [steps]: follow the structure of the
    computation. *)
Ltac steps_step :=
  lazymatch goal with
  | |- StepRel _ => tc_solve
  | |- steps _ (bind _ _) => apply steps_bind; [ | | intros ? ]
  | |- steps _ (ret _) => apply steps_ret
  | |- steps _ fault => apply steps_fault
  | |- steps _ (load _) => apply steps_load
  | |- steps _ (as_db _) => apply steps_as_db
  | |- steps _ (as_env _) => apply steps_as_env
  | |- steps _ (as_trans _) => apply steps_as_trans
  | |- steps _ (as_cursor _) => apply steps_as_cursor
  | |- steps _ (load_db _) => apply steps_load_db
  | |- steps _ (load_env _) => apply steps_load_env
  | |- steps _ (load_trans _) => apply steps_load_trans
  | |- steps _ (load_cursor _) => apply steps_load_cursor
  | |- steps (grows _) (update _ _) => apply steps_grows_update
  | |- steps (grows _) (PyObject_New _) => apply steps_grows_new
  | |- steps (grows _) (call _) => apply steps_grows_call
  | |- steps (grows _) (call_void _) => apply steps_grows_call_void
  | |- steps _ (match parse_args ?v _ with _ => _ end) =>
      unfold parse_args; destruct v; simpl
  | |- steps _ (match ?x with _ => _ end) => destruct x
  | |- steps _ (let _ := _ in _) => cbv zeta
  end.

Ltac steps_tac := repeat steps_step.

(** ** The flags of a put (C2, C3) *)

Section Puts.
Context {K : lmdb_h} {E : Engine}.

Lemma env_puts_loop_grows P txn db flags items stop acc :
  (∀ dbi k d, P (mdb_put txn dbi k d flags)) →
  steps (grows P) (env_puts_loop txn db flags items stop acc).
Proof.
  intros HP. revert acc. induction items as [|it items IH]; intros acc; simpl.
  - steps_tac.
  - steps_tac; try apply HP; try apply IH.
Qed.

Lemma put_by_default_grows fuel c :
  put_flags_ok K → put_by_default c → steps (grows put_ok) (run_call fuel c).
Proof.
  intros HK Hc.
  assert (Hg : ∀ ap f, put_flags false true ap = f → default_put_flags f).
  { intros ap f <-. now apply put_flags_default_bits. }
  assert (Hg' : ∀ ap f, cursor_put_flags false true ap = f → default_put_flags f).
  { intros ap f <-. now apply cursor_put_flags_default_bits. }
  destruct c as [self m|self m|self m| | |]; try contradiction;
    destruct m; try contradiction; destruct args as [e|a]; try contradiction;
    destruct Hc as [Hd Ho]; simpl;
    unfold env_put, env_puts, trans_put, cursor_put, generic_put;
    steps_tac; try apply env_puts_loop_grows; intros;
    try (intros f [= <-]; rewrite Hd, Ho; simpl; eauto); try (intros f [=]).
Qed.

(** C2, as the code has it: a put at the level of a transaction, an
    environment ([put], [puts]) or a cursor that gives neither [dupdata]
    nor [overwrite] passes to the engine's put primitive flags in which
    the no-overwrite flag is clear (an existing key may be overwritten)
    and the no-duplicate-data flag is set ([dupdata] defaults to
    false). *)
Theorem put_default_flags fuel c w w' :
  put_flags_ok K → put_by_default c →
  run_call fuel c w = Done tt w' →
  ∀ call f, call ∈ new_calls w w' → put_call_flags call = Some f →
    flag_set f MDB_NOOVERWRITE = false ∧ flag_set f MDB_NODUPDATA = true.
Proof.
  intros HK Hc H call f Hin Hf.
  pose proof (put_by_default_grows fuel c HK Hc w tt w' H) as HG.
  apply grows_new_calls in HG. rewrite Forall_forall in HG.
  exact (HG call Hin f Hf).
Qed.

(** What [cursor_put] hands to the engine. *)
Lemma cursor_put_calls self a w r w' :
  is_valid w self → cursor_put self (Args a) w = Done r w' →
  ∃ curs,
    new_calls w w' =
      [mdb_cursor_put curs (arg_buf (cpa_key a)) (arg_buf (cpa_val a))
         (cursor_put_flags (default false (cpa_dupdata a)) (default true (cpa_overwrite a))
                           (default false (cpa_append a)))].
Proof.
  intros (o & Ho & Hv) H. unfold cursor_put in H.
  rewrite (bind_Done _ _ _ _ _ (load_Some _ _ _ Ho)) in H.
  unfold parse_args in H. rewrite Hv in H. simpl in H.
  mrun H; exists (c_curs a0); unfold new_calls; simpl; now rewrite drop_app_length.
Qed.

(** C3, on the cursor: [cursor_put] passes [MDB_APPEND] exactly when the
    caller did not ask for [append]. *)
Theorem cursor_put_append_inverted self a w r w' :
  put_flags_ok K → is_valid w self →
  cursor_put self (Args a) w = Done r w' →
  ∃ curs key data flags,
    new_calls w w' = [mdb_cursor_put curs key data flags] ∧
    flag_set flags MDB_APPEND = negb (default false (cpa_append a)).
Proof.
  intros HK Hv H. destruct (cursor_put_calls self a w r w' Hv H) as (curs & Hc).
  eexists _, _, _, _. split; [exact Hc|]. now apply cursor_put_flags_append_bit.
Qed.

(** The puts of a transaction do what the claim says: [MDB_APPEND] is
    passed exactly when [append] is true. *)
Lemma trans_put_append self a w r w' :
  put_flags_ok K → is_valid w self →
  trans_put self (Args a) w = Done r w' →
  ∃ txn dbi key data flags,
    new_calls w w' = [mdb_put txn dbi key data flags] ∧
    flag_set flags MDB_APPEND = default false (pa_append a).
Proof.
  intros HK (o & Ho & Hv) H. unfold trans_put in H.
  rewrite (bind_Done _ _ _ _ _ (load_Some _ _ _ Ho)) in H.
  unfold generic_put, parse_args in H. rewrite Hv in H.
  mrun H; simpl in *; simplify_eq;
    eexists _, _, _, _, _; unfold new_calls; simpl; rewrite drop_app_length;
    (split; [reflexivity | now apply put_flags_append_bit]).
Qed.

End Puts.

Lemma lmdb_0_9_put_flags_ok : put_flags_ok lmdb_0_9.
Proof. unfold put_flags_ok. simpl. repeat split; (reflexivity || discriminate). Qed.

Lemma put_default_flags_witness :
  put_flags_ok lmdb_0_9 ∧ put_by_default put_a_1 ∧
  ∃ w', run_call (K := lmdb_0_9) (E := engine_ok) 0 put_a_1 w_txn = Done tt w' ∧
    new_calls w_txn w' ≠ [] ∧
    ∀ call f, call ∈ new_calls w_txn w' → put_call_flags call = Some f →
      flag_set f (@MDB_NOOVERWRITE lmdb_0_9) = false ∧
      flag_set f (@MDB_NODUPDATA lmdb_0_9) = true.
Proof.
  split; [exact lmdb_0_9_put_flags_ok|]. split; [split; reflexivity|].
  eexists. split; [vm_compute; reflexivity|]. split; [vm_compute; discriminate|].
  apply (put_default_flags (K := lmdb_0_9) (E := engine_ok) 0 put_a_1).
  - exact lmdb_0_9_put_flags_ok.
  - split; reflexivity.
  - vm_compute; reflexivity.
Defined.

(** C2 as it is stated fails: [txn.put(b"a", b"1")] reaches the engine
    with the no-duplicate-data flag set. *)
Lemma put_default_flags_counterexample :
  put_by_default put_a_1 ∧
  ∃ w', run_call (K := lmdb_0_9) (E := engine_ok) 0 put_a_1 w_txn = Done tt w' ∧
    new_calls w_txn w' =
      [mdb_put (Some 100%nat) 1 (val_from_buffer ["a"%byte]) (val_from_buffer ["1"%byte]) 0x20] ∧
    @MDB_NODUPDATA lmdb_0_9 = 0x20 ∧
    flag_set 0x20 (@MDB_NODUPDATA lmdb_0_9) = true.
Proof.
  split; [split; reflexivity|].
  eexists. split; [vm_compute; reflexivity|]. repeat split.
Qed.

Lemma cursor_put_append_inverted_witness :
  put_flags_ok lmdb_0_9 ∧ is_valid w_curs 3%nat ∧
  cursor_put (K := lmdb_0_9) (E := engine_ok) 3%nat (cursor_put_a_1 None) w_curs
    = Done (Return Py_True) w_curs_put ∧
  ∃ curs key data flags,
    new_calls w_curs w_curs_put = [mdb_cursor_put curs key data flags] ∧
    flag_set flags (@MDB_APPEND lmdb_0_9) = negb (default false None).
Proof.
  split; [exact lmdb_0_9_put_flags_ok|].
  assert (Hv : is_valid w_curs 3%nat) by (eexists; split; vm_compute; reflexivity).
  split; [exact Hv|].
  assert (Hr : cursor_put (K := lmdb_0_9) (E := engine_ok) 3%nat (cursor_put_a_1 None) w_curs
               = Done (Return Py_True) w_curs_put) by (vm_compute; reflexivity).
  split; [exact Hr|].
  exact (cursor_put_append_inverted (K := lmdb_0_9) (E := engine_ok) 3%nat
           (mk_cursor_put_args (Some ["a"%byte]) (Some ["1"%byte]) None None None) w_curs
           _ _ lmdb_0_9_put_flags_ok Hv Hr).
Defined.

(** Run a computation forward on what is known of the state. *)
Ltac mgo :=
  repeat (progress (
    cbv [bind ret load load_db load_env load_trans load_cursor
         as_db as_env as_trans as_cursor fault call call_void update];
    simpl;
    repeat match goal with
           | |- context [<[?a := _]> _ !! ?a] => rewrite lookup_insert_eq
           | H : ?a ≠ ?b |- context [<[?a := _]> _ !! ?b] =>
               rewrite (lookup_insert_ne _ a b) by exact H
           | H : ?x = _ |- context [?x] => progress rewrite H
           end)).

Lemma new_calls_called c w h : new_calls w (mk_world h (trace w ++ [c])) = [c].
Proof. unfold new_calls. simpl. now rewrite drop_app_length. Qed.

Lemma lmdb_0_9_status_ok : status_ok lmdb_0_9.
Proof. split; discriminate. Qed.

(** ** Not found is a value (C4) *)

Section NotFound.
Context {K : lmdb_h} {E : Engine}.

Lemma generic_get_not_found txn db buffers a d k w :
  status_ok K →
  load_db (match ga_db a with Some x => Some x | None => db end) w = Done d w →
  ga_key a = Some k →
  rc (engine_reply (trace w) (mdb_get txn (d_dbi d) (val_from_buffer k))) = MDB_NOTFOUND →
  generic_get true txn db buffers (Args a) w =
    Done (Return (default Py_None (ga_default a)))
         (called (mdb_get txn (d_dbi d) (val_from_buffer k)) w).
Proof.
  intros [_ HN] Hd Hk Hrc. unfold generic_get, parse_args. simpl. rewrite Hk. simpl.
  rewrite (bind_Done _ _ _ _ _ Hd).
  unfold bind, call. rewrite Hrc.
  destruct (decide (MDB_NOTFOUND ≠ 0)); [|contradiction].
  destruct (decide (MDB_NOTFOUND = MDB_NOTFOUND)); [|contradiction]. reflexivity.
Qed.

Lemma generic_put_key_exists txn db a d w :
  status_ok K →
  load_db (match pa_db a with Some x => Some x | None => db end) w = Done d w →
  let c := mdb_put txn (d_dbi d) (arg_buf (pa_key a)) (arg_buf (pa_value a))
             (put_flags (default false (pa_dupdata a)) (default true (pa_overwrite a))
                        (default false (pa_append a))) in
  rc (engine_reply (trace w) c) = MDB_KEYEXIST →
  generic_put true txn db (Args a) w = Done (Return Py_False) (called c w).
Proof.
  intros [HN _] Hd c Hrc. unfold generic_put, parse_args. simpl.
  rewrite (bind_Done _ _ _ _ _ Hd).
  unfold bind, call. fold c. rewrite Hrc.
  destruct (decide (MDB_KEYEXIST ≠ 0)); [|contradiction].
  destruct (decide (MDB_KEYEXIST = MDB_KEYEXIST)); [|contradiction]. reflexivity.
Qed.

Lemma generic_delete_not_found txn db a d w :
  status_ok K →
  load_db (match da_db a with Some x => Some x | None => db end) w = Done d w →
  let val := arg_buf (da_value a) in
  let c := mdb_del txn (d_dbi d) (arg_buf (da_key a))
             (if decide (mv_size val ≠ 0%nat) then Some val else None) in
  rc (engine_reply (trace w) c) = MDB_NOTFOUND →
  generic_delete true txn db (Args a) w = Done (Return Py_False) (called c w).
Proof.
  intros [_ HN] Hd val c Hrc. unfold generic_delete, parse_args. simpl.
  rewrite (bind_Done _ _ _ _ _ Hd).
  unfold bind, call. fold val. fold c. rewrite Hrc.
  destruct (decide (MDB_NOTFOUND ≠ 0)); [|contradiction].
  destruct (decide (MDB_NOTFOUND = MDB_NOTFOUND)); [|contradiction]. reflexivity.
Qed.

(** C4: in an active transaction, a get of a key the engine does not
    find returns the default of the caller ([None] when none is given),
    a put the engine refuses because the key exists returns [False], and
    a delete of a key or pair the engine does not find returns [False];
    none of them raises. *)
Theorem not_found_is_a_value self t d w :
  status_ok K →
  (∀ a k,
     active_trans w self (ga_db a) t d → ga_key a = Some k →
     let c := mdb_get (t_txn t) (d_dbi d) (val_from_buffer k) in
     rc (engine_reply (trace w) c) = MDB_NOTFOUND →
     trans_get self (Args a) w = Done (Return (default Py_None (ga_default a))) (called c w)) ∧
  (∀ a,
     active_trans w self (pa_db a) t d →
     let c := mdb_put (t_txn t) (d_dbi d) (arg_buf (pa_key a)) (arg_buf (pa_value a))
                (put_flags (default false (pa_dupdata a)) (default true (pa_overwrite a))
                           (default false (pa_append a))) in
     rc (engine_reply (trace w) c) = MDB_KEYEXIST →
     trans_put self (Args a) w = Done (Return Py_False) (called c w)) ∧
  (∀ a,
     active_trans w self (da_db a) t d →
     let val := arg_buf (da_value a) in
     let c := mdb_del (t_txn t) (d_dbi d) (arg_buf (da_key a))
                (if decide (mv_size val ≠ 0%nat) then Some val else None) in
     rc (engine_reply (trace w) c) = MDB_NOTFOUND →
     trans_delete self (Args a) w = Done (Return Py_False) (called c w)).
Proof.
  intros HK. repeat split.
  - intros a k (o & e & Ho & Hv & Hb & He & Hd) c Hrc.
    unfold trans_get. rewrite (bind_Done _ _ _ _ _ (load_Some _ _ _ Ho)).
    unfold as_trans. rewrite Hb. unfold bind at 1. unfold ret at 1.
    rewrite (bind_Done _ _ _ _ _ He). rewrite Hv. now apply generic_get_not_found.
  - intros a (o & e & Ho & Hv & Hb & He & Hd) c Hrc.
    unfold trans_put. rewrite (bind_Done _ _ _ _ _ (load_Some _ _ _ Ho)).
    unfold as_trans. rewrite Hb. unfold bind at 1. unfold ret at 1.
    rewrite (bind_Done _ _ _ _ _ He). rewrite Hv. now apply generic_put_key_exists.
  - intros a (o & e & Ho & Hv & Hb & He & Hd) val c Hrc.
    unfold trans_delete. rewrite (bind_Done _ _ _ _ _ (load_Some _ _ _ Ho)).
    unfold as_trans. rewrite Hb. unfold bind at 1. unfold ret at 1.
    rewrite (bind_Done _ _ _ _ _ He). rewrite Hv. now apply generic_delete_not_found.
Qed.

(** ** Delete with an empty value (C9) *)

Lemma generic_delete_empty v txn db key db' :
  generic_delete v txn db (Args (mk_delete_args key (Some []) db')) =
    generic_delete v txn db (Args (mk_delete_args key None db')).
Proof.
  unfold generic_delete, parse_args. destruct v; simpl; [|reflexivity].
  destruct (decide (0%nat ≠ 0%nat)); [contradiction | reflexivity].
Qed.

(** C9: a delete on a transaction or an environment that is given an
    empty value does what the same delete without a value does, and the
    data pointer the engine gets is [NULL], which asks it to remove all
    the duplicates of the key.  On a valid transaction the delete is the
    one call [mdb_del] with that pointer.  On a valid environment whose
    [mdb_txn_begin] succeeds, the calls are the begin, [mdb_del] in the
    new transaction with that pointer, and the commit, or the abort when
    the delete has failed. *)
Theorem delete_empty_value self key db w :
  trans_delete self (Args (mk_delete_args key (Some []) db)) w =
    trans_delete self (Args (mk_delete_args key None db)) w ∧
  env_delete self (Args (mk_delete_args key (Some []) db)) w =
    env_delete self (Args (mk_delete_args key None db)) w ∧
  (∀ r w', is_valid w self →
     trans_delete self (Args (mk_delete_args key (Some []) db)) w = Done r w' →
     ∃ txn dbi, new_calls w w' = [mdb_del txn dbi (arg_buf key) None]) ∧
  (∀ t d, active_trans w self db t d →
     let del := mdb_del (t_txn t) (d_dbi d) (arg_buf key) None in
     let r := engine_reply (trace w) del in
     trans_delete self (Args (mk_delete_args key (Some []) db)) w =
       Done (if decide (rc r = 0) then Return Py_True
             else if decide (rc r = MDB_NOTFOUND) then Return Py_False
             else Raise (err_set "mdb_del" (rc r))) (called del w)) ∧
  (∀ o e d,
     heap w !! self = Some o → valid o = true → body o = BEnv e →
     load_db (match db with Some x => Some x | None => e_main_db e end) w = Done d w →
     let begin := mdb_txn_begin (e_env e) None 0 in
     let r0 := engine_reply (trace w) begin in
     let txn := Some (out_ptr r0) in
     let del := mdb_del txn (d_dbi d) (arg_buf key) None in
     let r := engine_reply (trace w ++ [begin]) del in
     let commit := mdb_txn_commit txn in
     let r' := engine_reply (trace w ++ [begin; del]) commit in
     rc r0 = 0 →
     env_delete self (Args (mk_delete_args key (Some []) db)) w =
       if decide (rc r = 0 ∨ rc r = MDB_NOTFOUND) then
         Done (if decide (rc r' ≠ 0) then Raise (err_set "mdb_txn_commit" (rc r'))
               else Return (if decide (rc r = 0) then Py_True else Py_False))
              (mk_world (heap w) (trace w ++ [begin; del; commit]))
       else
         Done (Raise (err_set "mdb_del" (rc r)))
              (mk_world (heap w) (trace w ++ [begin; del; mdb_txn_abort txn]))).
Proof.
  split; [|split; [|split; [|split]]].
  - unfold trans_delete, bind.
    destruct (load (Some self) w); try reflexivity.
    destruct (as_trans a w0); try reflexivity.
    destruct (load_env (t_env a0) w1); try reflexivity.
    now rewrite generic_delete_empty.
  - unfold env_delete, bind.
    repeat match goal with
           | |- match ?x with _ => _ end = match ?x with _ => _ end =>
               destruct x; try reflexivity
           | |- (if ?x then _ else _) _ = (if ?x then _ else _) _ =>
               destruct x; try reflexivity
           end.
  - intros r w' (o & Ho & Hv) H. unfold trans_delete in H.
    rewrite (bind_Done _ _ _ _ _ (load_Some _ _ _ Ho)) in H.
    unfold generic_delete, parse_args in H. rewrite Hv in H.
    mrun H; simpl in *; simplify_eq;
      eexists _, _; unfold new_calls; simpl; now rewrite drop_app_length.
  - intros t d (o & e & Ho & Hv & Hb & He & Hd) del r.
    unfold trans_delete. rewrite (bind_Done _ _ _ _ _ (load_Some _ _ _ Ho)).
    unfold as_trans. rewrite Hb. unfold bind at 1. unfold ret at 1.
    rewrite (bind_Done _ _ _ _ _ He). rewrite Hv.
    unfold generic_delete, parse_args. cbn [negb da_key da_value da_db arg_buf val_null mv_size].
    rewrite decide_False by (intros Hne; now apply Hne).
    rewrite (bind_Done _ _ _ _ _ Hd). unfold bind, call. fold del. fold r. unfold called.
    destruct (decide (rc r ≠ 0)) as [Hrc|Hrc].
    + rewrite (decide_False (P := rc r = 0)) by exact Hrc.
      destruct (decide (rc r = MDB_NOTFOUND)); reflexivity.
    + rewrite (decide_True (P := rc r = 0)); [reflexivity|].
      destruct (decide (rc r = 0)); [assumption | contradiction].
  - intros o e d Ho Hv Hb Hd begin r0 txn del r commit r' Hr0.
    assert (Hd1 : load_db (match db with Some x => Some x | None => e_main_db e end)
                    (mk_world (heap w) (trace w ++ [begin])) =
                  Done d (mk_world (heap w) (trace w ++ [begin]))).
    { apply load_db_inv in Hd as (a & od & Ha & Hod & Hbd & _). rewrite Ha.
      eapply load_db_Some; eauto. }
    unfold env_delete. rewrite (bind_Done _ _ _ _ _ (load_Some _ _ _ Ho)). rewrite Hv.
    cbn [negb]. unfold as_env. rewrite Hb. unfold bind at 1. unfold ret at 1.
    unfold bind at 1. unfold call at 1. fold begin. fold r0.
    rewrite decide_False by (rewrite Hr0; intros Hne; now apply Hne).
    cbv zeta. fold txn.
    unfold generic_delete, parse_args. cbn [negb da_key da_value da_db arg_buf val_null mv_size].
    rewrite decide_False by (intros Hne; now apply Hne).
    unfold bind at 1. unfold bind at 1. rewrite Hd1. unfold bind at 1. unfold call at 1.
    cbn [heap trace]. fold del. fold r.
    assert (Htr : (trace w ++ [begin]) ++ [del] = trace w ++ [begin; del])
      by now rewrite <- app_assoc.
    destruct (decide (rc r ≠ 0)) as [Hrc|Hrc].
    + destruct (decide (rc r = MDB_NOTFOUND)) as [Hnf|Hnf].
      * rewrite decide_True by (right; exact Hnf).
        unfold ret at 1. unfold bind, call. cbn [heap trace]. rewrite Htr. fold commit. fold r'.
        rewrite (decide_False (P := rc r = 0)) by exact Hrc.
        destruct (decide (rc r' ≠ 0)); unfold ret; cbn [heap trace];
          now rewrite <- app_assoc.
      * rewrite decide_False by (intros [?|?]; contradiction).
        unfold ret at 1. unfold bind, call_void, ret. cbn [heap trace].
        now rewrite Htr, <- app_assoc.
    + assert (Hz : rc r = 0) by (destruct (decide (rc r = 0)); [assumption | contradiction]).
      rewrite decide_True by (left; exact Hz).
      unfold ret at 1. unfold bind, call. cbn [heap trace]. rewrite Htr. fold commit. fold r'.
      rewrite (decide_True (P := rc r = 0)) by exact Hz.
      destruct (decide (rc r' ≠ 0)); unfold ret; cbn [heap trace];
        now rewrite <- app_assoc.
Qed.

(** ** A write transaction on a read-only environment (C10) *)

(** C10, on the constructor: [Transaction(...)] raises a [TypeError]
    whatever it is given, the environment included, because [trans_new]
    tests [arg.env] before the arguments are parsed. *)
Theorem trans_new_type_error args w :
  trans_new args w = Done (Raise (TypeError "'env' argument required")) w.
Proof. reflexivity. Qed.

(** [begin(write=True)] itself does what C10 says: on a valid read-only
    environment, with no parent or a valid one, it raises the engine
    error of [make_trans] and neither calls the engine nor changes the
    state. *)
Lemma env_begin_readonly_write self o e a w :
  heap w !! self = Some o → valid o = true → body o = BEnv e →
  e_readonly e = true → ba_write a = Some true →
  (ba_parent a = None ∨
   ∃ p po pt, ba_parent a = Some p ∧ heap w !! p = Some po ∧
              valid po = true ∧ body po = BTrans pt) →
  env_begin self (Args a) w =
    Done (Raise (EngineError "Cannot start write transaction with read-only env" 0)) w.
Proof.
  intros Ho Hv Hb Hr Hw Hp. unfold env_begin, make_trans, parse_args.
  destruct Hp as [Hp | (p & po & pt & Hp & Hpo & Hpv & Hpb)]; mgo; reflexivity.
Qed.

(** ** The count of a cursor (C7) *)

(** C7, as the code has it: [count()] on a valid cursor hands back what
    [mdb_cursor_count] reports, the count when the engine succeeds and
    an engine error when it fails, whether the cursor is positioned or
    not: there is no case of its own for a cursor that is not
    positioned. *)
Theorem cursor_count_asks_engine self o c w :
  heap w !! self = Some o → valid o = true → body o = BCursor c →
  let call := mdb_cursor_count (c_curs c) in
  let r := engine_reply (trace w) call in
  cursor_count self w =
    Done (if decide (rc r ≠ 0) then Raise (EngineError "mdb_cursor_count" (rc r))
          else Return (PyLong (out_count r)))
         (called call w).
Proof.
  intros Ho Hv Hb call r. unfold cursor_count. mgo.
  fold call. fold r. now destruct (decide (rc r ≠ 0)).
Qed.

End NotFound.

(** [w_txn] holds an active transaction at address 2 on the main
    database. *)
Lemma w_txn_active : active_trans w_txn 2%nat None t_2 d_1.
Proof. eexists _, _. repeat split; vm_compute; reflexivity. Qed.

Lemma not_found_is_a_value_witness :
  status_ok lmdb_0_9 ∧ active_trans w_txn 2%nat None t_2 d_1 ∧
  (∃ w', trans_get (K := lmdb_0_9) (E := engine_only_a) 2%nat (Args get_b) w_txn
           = Done (Return Py_None) w') ∧
  (∃ w', trans_put (K := lmdb_0_9) (E := engine_only_a) 2%nat (Args put_a_2_no_overwrite) w_txn
           = Done (Return Py_False) w') ∧
  (∃ w', trans_delete (K := lmdb_0_9) (E := engine_only_a) 2%nat (Args delete_b) w_txn
           = Done (Return Py_False) w').
Proof.
  split; [exact lmdb_0_9_status_ok|]. split; [exact w_txn_active|].
  destruct (not_found_is_a_value (K := lmdb_0_9) (E := engine_only_a) 2%nat t_2 d_1 w_txn
              lmdb_0_9_status_ok) as (Hget & Hput & Hdel).
  split; [|split].
  - eexists. apply (Hget get_b ["b"%byte] w_txn_active eq_refl). vm_compute; reflexivity.
  - eexists. apply (Hput put_a_2_no_overwrite w_txn_active). vm_compute; reflexivity.
  - eexists. apply (Hdel delete_b w_txn_active). vm_compute; reflexivity.
Defined.

Lemma delete_empty_value_witness :
  trans_delete (K := lmdb_0_9) (E := engine_ok) 2%nat
    (Args (mk_delete_args (Some ["a"%byte]) (Some []) None)) w_txn
  = Done (Return Py_True)
      (called (mdb_del (Some 100%nat) 1 (val_from_buffer ["a"%byte]) None) w_txn) ∧
  env_delete (K := lmdb_0_9) (E := engine_ok) 0%nat
    (Args (mk_delete_args (Some ["a"%byte]) (Some []) None)) (w_open false)
  = Done (Return Py_True)
      (mk_world (heap (w_open false))
         [mdb_txn_begin (Some 7%nat) None 0;
          mdb_del (Some 100%nat) 1 (val_from_buffer ["a"%byte]) None;
          mdb_txn_commit (Some 100%nat)]).
Proof.
  split.
  - destruct (delete_empty_value (K := lmdb_0_9) (E := engine_ok) 2%nat (Some ["a"%byte])
                None w_txn) as (_ & _ & _ & H & _).
    exact (H t_2 d_1 w_txn_active).
  - destruct (delete_empty_value (K := lmdb_0_9) (E := engine_ok) 0%nat (Some ["a"%byte])
                None (w_open false)) as (_ & _ & _ & _ & H).
    apply (H (mk_object list_head_null (mk_list_head None (Some 1%nat)) true
                (BEnv (mk_env (Some 7%nat) (Some 1%nat) false)))
             (mk_env (Some 7%nat) (Some 1%nat) false) d_1).
    + vm_compute; reflexivity.
    + reflexivity.
    + reflexivity.
    + vm_compute; reflexivity.
    + reflexivity.
Defined.

(** [begin(write=True)] on a read-only environment. *)
Example env_begin_readonly_write_example :
  env_begin (K := lmdb_0_9) (E := engine_ok) 0%nat
    (Args (mk_begin_args None (Some true) None)) (w_open true)
  = Done (Raise (EngineError "Cannot start write transaction with read-only env" 0))
         (w_open true).
Proof. vm_compute; reflexivity. Qed.

(** C7 as it is stated fails: on the cursor of [w_curs], which is not
    positioned, [count()] raises what the engine answers, [EINVAL]; it
    does not return 0. *)
Lemma cursor_count_counterexample :
  (∃ t, live_cursor w_curs 3%nat
          (mk_cursor (Some 2%nat) false (Some 101%nat) val_null val_null) t) ∧
  cursor_count (E := engine_no_data) 3%nat w_curs
  = Done (Raise (EngineError "mdb_cursor_count" 22))
         (called (mdb_cursor_count (Some 101%nat)) w_curs) ∧
  Raise (EngineError "mdb_cursor_count" 22) ≠ Return (PyLong 0).
Proof.
  split; [|split].
  - eexists. eexists. repeat split; vm_compute; reflexivity.
  - vm_compute; reflexivity.
  - discriminate.
Qed.

Lemma cursor_count_asks_engine_witness :
  ∃ o c, heap w_first !! 3%nat = Some o ∧ valid o = true ∧ body o = BCursor c ∧
    cursor_count (E := engine_ok) 3%nat w_first
    = Done (Return (PyLong 0)) (called (mdb_cursor_count (c_curs c)) w_first).
Proof.
  eexists _, c_3.
  assert (Ho : heap w_first !! 3%nat =
               Some (mk_object list_head_null list_head_null true (BCursor c_3)))
    by (vm_compute; reflexivity).
  split; [exact Ho|]. split; [reflexivity|]. split; [reflexivity|].
  exact (cursor_count_asks_engine (E := engine_ok) 3%nat _ c_3 w_first Ho eq_refl eq_refl).
Defined.

(** ** Cursors and their iterators *)

Section Iterators.
Context {K : lmdb_h} {E : Engine}.

Lemma live_cursor_trans w self c t :
  live_cursor w self c t →
  ∃ o ta to, heap w !! self = Some o ∧ valid o = true ∧ body o = BCursor c ∧
    c_trans c = Some ta ∧ ta ≠ self ∧ heap w !! ta = Some to ∧ body to = BTrans t.
Proof.
  intros (o & Ho & Hv & Hb & Ht).
  apply load_trans_inv in Ht as (ta & to & Hc & Hto & Hbt & _).
  exists o, ta, to. repeat split; try assumption. intros ->. congruence.
Qed.

Lemma val_func_live f self c t w :
  live_cursor w self c t →
  val_func f self w = Done (Return (projection f (t_buffers t) (c_key c) (c_val c))) w.
Proof.
  intros H. apply live_cursor_trans in H as (o & ta & to & Ho & Hv & Hb & Hc & Hne & Hto & Hbt).
  destruct f; simpl; unfold cursor_key, cursor_value, cursor_item; mgo;
    now destruct (t_buffers t).
Qed.

Lemma live_cursor_moved w self c t o pos k v c0 :
  live_cursor w self c t → heap w !! self = Some o →
  live_cursor (mk_world (<[self := set_c_position pos k v o]> (heap w)) (trace w ++ [c0]))
    self (mk_cursor (c_trans c) pos (c_curs c) k v) t.
Proof.
  intros H Ho'.
  apply live_cursor_trans in H as (o' & ta & to & Ho & Hv & Hb & Hc & Hne & Hto & Hbt).
  assert (o' = o) as -> by congruence.
  exists (set_c_position pos k v o). unfold set_c_position. rewrite Hb. simpl.
  rewrite lookup_insert_eq. repeat split; try assumption.
  rewrite Hc. eapply load_trans_Some; [|exact Hbt]. simpl.
  rewrite lookup_insert_ne by congruence. exact Hto.
Qed.

Lemma iter_from_args_new self args pos_op op w it w' :
  iter_from_args self args pos_op op w = Done (Return (PyIterator it)) w' →
  i_curs it = self ∧ i_started it = false ∧ i_op it = op.
Proof.
  intros H. unfold iter_from_args in H. mrun H; auto.
Qed.

End Iterators.

Lemma w_first_live : live_cursor w_first 3%nat c_3 t_2.
Proof. eexists. repeat split; vm_compute; reflexivity. Qed.

(** Take every finished computation among the hypotheses apart. *)
Ltac mstep :=
  match goal with
  | H : bind _ _ _ = Done _ _ |- _ => minv H
  | H : ret _ _ = Done _ _ |- _ => minv H
  | H : load _ _ = Done _ _ |- _ => minv H
  | H : load_db _ _ = Done _ _ |- _ => minv H
  | H : load_env _ _ = Done _ _ |- _ => minv H
  | H : load_trans _ _ = Done _ _ |- _ => minv H
  | H : load_cursor _ _ = Done _ _ |- _ => minv H
  | H : update _ _ _ = Done _ _ |- _ => minv H
  | H : call _ _ = Done _ _ |- _ => minv H
  | H : call_void _ _ = Done _ _ |- _ => minv H
  | H : (match ?x with _ => _ end) _ = Done _ _ |- _ =>
      destruct x eqn:?; simpl in H; try discriminate H
  end.

Ltac mall := repeat mstep.

Lemma valid_set_e_env p o : valid (set_e_env p o) = valid o.
Proof. unfold set_e_env. now destruct (body o). Qed.

Lemma valid_set_t_txn p o : valid (set_t_txn p o) = valid o.
Proof. unfold set_t_txn. now destruct (body o). Qed.

(** ** A terminal operation, twice (C5) *)

Section Terminal.
Context {K : lmdb_h} {E : Engine}.

Lemma env_close_invalid fuel self w r w1 :
  env_close fuel self w = Done r w1 → is_invalid w1 self.
Proof.
  intros H. unfold env_close in H. mall; simpl in *.
  - rewrite lookup_insert_eq in *. simplify_eq.
    eexists. split; [apply lookup_insert_eq|]. now rewrite valid_set_e_env.
  - eexists. split; [eassumption|]. assumption.
Qed.

Lemma trans_abort_invalid fuel self w r w1 :
  trans_abort fuel self w = Done r w1 → is_invalid w1 self.
Proof.
  intros H. unfold trans_abort in H. mall; simpl in *.
  - eexists. split; [eassumption|]. now destruct (valid a).
  - eexists. split; [apply lookup_insert_eq|]. reflexivity.
Qed.

Lemma trans_commit_invalid fuel self w r w1 :
  trans_commit fuel self w = Done r w1 → is_invalid w1 self.
Proof.
  intros H. unfold trans_commit in H. mall; simpl in *;
    try (eexists; split; [apply lookup_insert_eq|reflexivity]).
  eexists. split; [eassumption|]. now destruct (valid a).
Qed.

Lemma terminal_invalid fuel self m w r w1 :
  terminal m → trans_methods fuel self m w = Done r w1 → is_invalid w1 self.
Proof.
  intros Hm H. destruct m; try contradiction; simpl in H.
  - unfold trans_exit in H. minv H. mcase H; [|mcase H].
    + minv H. eexists. split; [eassumption|]. now destruct (valid a).
    + eapply trans_commit_invalid; eauto.
    + eapply trans_abort_invalid; eauto.
  - eapply trans_abort_invalid; eauto.
  - eapply trans_commit_invalid; eauto.
Qed.

(** C5: once a terminal operation has run on a handle, a second one
    leaves the state as it is, the trace included, so the engine is not
    asked to release anything again: [close] on an environment returns
    [None], and [abort], [commit] or [__exit__] on a transaction raise
    the invalid-handle error. *)
Theorem terminal_twice fuel fuel' self w r w1 :
  (env_close fuel self w = Done r w1 →
   env_close fuel' self w1 = Done (Return Py_None) w1) ∧
  (∀ m1 m2, terminal m1 → terminal m2 →
     trans_methods fuel self m1 w = Done r w1 →
     trans_methods fuel' self m2 w1 = Done (Raise InvalidHandle) w1).
Proof.
  split.
  - intros H. apply env_close_invalid in H as (o & Ho & Hv).
    unfold env_close. mgo. reflexivity.
  - intros m1 m2 H1 H2 H. apply (terminal_invalid _ _ _ _ _ _ H1) in H as (o & Ho & Hv).
    destruct m2; try contradiction; simpl;
      unfold trans_exit, trans_abort, trans_commit; mgo; reflexivity.
Qed.

End Terminal.

(** [env.close()] twice and [txn.abort()] then [txn.commit()], from the
    state with a transaction and a cursor: the first call releases the
    resources, bottom-up, the second calls nothing. *)
Lemma terminal_twice_witness :
  env_close 10 0%nat w_curs = Done (Return Py_None) w_closed ∧
  new_calls w_curs w_closed =
    [mdb_cursor_close (Some 101%nat); mdb_txn_abort (Some 100%nat); mdb_env_close (Some 7%nat)] ∧
  env_close 0 0%nat w_closed = Done (Return Py_None) w_closed ∧
  trans_methods (K := lmdb_0_9) (E := engine_ok) 10 2%nat trans_m_abort w_curs
    = Done (Return Py_None) w_aborted ∧
  new_calls w_curs w_aborted = [mdb_cursor_close (Some 101%nat); mdb_txn_abort (Some 100%nat)] ∧
  trans_methods (K := lmdb_0_9) (E := engine_ok) 0 2%nat trans_m_commit w_aborted
    = Done (Raise InvalidHandle) w_aborted.
Proof.
  assert (H1 : env_close 10 0%nat w_curs = Done (Return Py_None) w_closed)
    by (vm_compute; reflexivity).
  assert (H2 : trans_methods (K := lmdb_0_9) (E := engine_ok) 10 2%nat trans_m_abort w_curs
               = Done (Return Py_None) w_aborted) by (vm_compute; reflexivity).
  split; [exact H1|]. split; [vm_compute; reflexivity|].
  split; [exact (proj1 (terminal_twice (K := lmdb_0_9) (E := engine_ok) 10 0 0%nat w_curs _ _) H1)|].
  split; [exact H2|]. split; [vm_compute; reflexivity|].
  exact (proj2 (terminal_twice (K := lmdb_0_9) (E := engine_ok) 10 0 2%nat w_curs _ _)
           trans_m_abort trans_m_commit I I H2).
Defined.

(** ** A batch of puts that fails (C6) *)

Section Batch.
Context {K : lmdb_h} {E : Engine}.

Lemma refused_in_app tr l1 l2 :
  refused_in tr (l1 ++ l2) ↔ refused_in tr l1 ∨ refused_in (tr ++ l1) l2.
Proof.
  revert tr. induction l1 as [|c l1 IH]; intros tr; simpl.
  - rewrite app_nil_r. tauto.
  - rewrite IH. rewrite <- app_assoc. simpl. tauto.
Qed.

Lemma load_db_heap db w d w1 :
  load_db db w = Done d w → heap w1 = heap w → load_db db w1 = Done d w1.
Proof.
  intros H Hh. apply load_db_inv in H as (a & o & -> & Ho & Hb & _).
  eapply load_db_Some; [|exact Hb]. now rewrite Hh.
Qed.

Lemma env_puts_loop_total txn db flags items stop acc w d :
  load_db db w = Done d w →
  ∃ res w', env_puts_loop txn db flags items stop acc w = Done res w'.
Proof.
  revert acc w. induction items as [|it items IH]; intros acc w Hd; simpl.
  - eauto.
  - destruct it as [|[e|k] [e'|v]]; try (unfold ret; eauto; fail).
    rewrite (bind_Done _ _ _ _ _ Hd). unfold bind, call.
    repeat case_decide; try apply IH; try (unfold ret; eauto; fail);
      eapply load_db_heap; eauto.
Qed.

Lemma env_puts_total self o e a items stop w d :
  heap w !! self = Some o → valid o = true → body o = BEnv e →
  ua_items a = Some (Iterable items stop) →
  load_db (match ua_db a with Some x => Some x | None => e_main_db e end) w = Done d w →
  ∃ r w', env_puts self (Args a) w = Done r w'.
Proof.
  intros Ho Hv Hb Hi Hd. unfold env_puts, parse_args. mgo.
  case_decide; [eauto|].
  match goal with
  | |- context [env_puts_loop ?t ?db ?f ?its ?st ?acc ?w1] =>
      destruct (env_puts_loop_total t db f its st acc w1 d) as (res & w2 & Hl);
        [eapply load_db_heap; eauto | rewrite Hl]
  end.
  destruct res; mgo; [eauto|]. case_decide; eauto.
Qed.

Lemma env_puts_loop_inv txn db flags items stop acc w res w' :
  env_puts_loop txn db flags items stop acc w = Done res w' →
  heap w' = heap w ∧
  ∃ l, trace w' = trace w ++ l ∧ Forall is_put l ∧
    (∀ list_, res = inr list_ →
       ¬ Exists malformed items ∧ stop = None ∧ ¬ refused_in (trace w) l).
Proof.
  revert acc w. induction items as [|it items IH]; intros acc w H; simpl in H.
  - minv H. split; [reflexivity|]. exists []. rewrite app_nil_r. repeat split; auto.
    + intros Hex. inversion Hex.
    + destruct stop; [discriminate | reflexivity].
  - assert (Hbad : malformed it → ∀ e, Done (inl e) w = Done res w' →
       heap w' = heap w ∧ ∃ l, trace w' = trace w ++ l ∧ Forall is_put l ∧
        (∀ list_, res = inr list_ →
           ¬ Exists malformed (it :: items) ∧ stop = None ∧ ¬ refused_in (trace w) l)).
    { intros _ e [= <- <-]. split; [reflexivity|]. exists []. rewrite app_nil_r.
      repeat split; auto; discriminate. }
    destruct it as [|[e|k] v]; [now apply (Hbad I _ H) | now apply (Hbad I _ H) |].
    destruct v as [e|v]; [now apply (Hbad I _ H)|]. clear Hbad.
    minv H.
    set (c := mdb_put txn (d_dbi a) (val_from_buffer k) (val_from_buffer v) flags) in *.
    mcase H; [|mcase H].
    + apply IH in H as (Hh & l & Ht & Hl & Hres). simpl in *.
      split; [exact Hh|]. exists (c :: l). rewrite Ht, <- app_assoc. simpl.
      split; [reflexivity|]. split; [constructor; [exact I | exact Hl]|].
      intros list_ Hr. destruct (Hres _ Hr) as (Hm & Hs & Hrf). repeat split; auto.
      * intros Hex. inversion Hex; subst; [contradiction | auto].
      * intros [(_ & Hz & _) | Hrf']; [contradiction | auto].
    + apply IH in H as (Hh & l & Ht & Hl & Hres). simpl in *.
      split; [exact Hh|]. exists (c :: l). rewrite Ht, <- app_assoc. simpl.
      split; [reflexivity|]. split; [constructor; [exact I | exact Hl]|].
      intros list_ Hr. destruct (Hres _ Hr) as (Hm & Hs & Hrf). repeat split; auto.
      * intros Hex. inversion Hex; subst; [contradiction | auto].
      * intros [(_ & _ & Hz) | Hrf']; [contradiction | auto].
    + minv H. simpl. split; [reflexivity|]. exists [c]. split; [reflexivity|].
      split; [repeat constructor|]. discriminate.
Qed.

(** C6: [env.puts] on a valid environment returns, and when an element
    of the batch fails (it is no pair of buffers, the iterator raises,
    or the engine refuses its put) the call raises, no commit is among
    the calls it has made, and the last of them is the abort of the
    transaction it has begun; with the transaction aborted the engine
    keeps none of the puts of the batch. *)
Theorem env_puts_failure_aborts self o e a items stop d w :
  heap w !! self = Some o → valid o = true → body o = BEnv e →
  ua_items a = Some (Iterable items stop) →
  load_db (match ua_db a with Some x => Some x | None => e_main_db e end) w = Done d w →
  (∃ r w', env_puts self (Args a) w = Done r w') ∧
  ∀ r w', env_puts self (Args a) w = Done r w' →
    batch_failed items stop w w' →
    let r0 := engine_reply (trace w) (mdb_txn_begin (e_env e) None 0) in
    (∃ err, r = Raise err) ∧
    heap w' = heap w ∧
    Forall (λ c, ¬ is_commit c) (new_calls w w') ∧
    (rc r0 = 0 → last (new_calls w w') = Some (mdb_txn_abort (Some (out_ptr r0)))).
Proof.
  intros Ho Hv Hb Hi Hd. split; [eapply env_puts_total; eauto|].
  intros r w' H Hf r0. unfold env_puts in H.
  rewrite (bind_Done _ _ _ _ _ (load_Some _ _ _ Ho)) in H.
  unfold as_env in H. rewrite Hb in H. unfold bind at 1 in H. unfold ret at 1 in H.
  unfold parse_args in H. rewrite Hv in H. simpl in H. rewrite Hi in H.
  minv H. fold r0 in H.
  set (cb := mdb_txn_begin (e_env e) None 0) in *.
  mcase H.
  - minv H. split; [eauto|]. split; [reflexivity|]. rewrite new_calls_called.
    split; [repeat constructor; auto | intros Hz; contradiction].
  - assert (Hz : rc r0 = 0) by (destruct (decide (rc r0 = 0)); [assumption | contradiction]).
    apply bind_inv in H as (res & w2 & Hloop & H).
    apply env_puts_loop_inv in Hloop as (Hh & l & Ht & Hl & Hres). simpl in *.
    destruct res as [err|list_]; simpl in H.
    + minv H. split; [eauto|]. split; [exact Hh|].
      unfold new_calls. simpl. rewrite Ht, <- !app_assoc, drop_app_length. simpl.
      split.
      * constructor; [auto|]. apply Forall_app. split.
        -- eapply Forall_impl; [exact Hl|]. intros c Hc Hcc. destruct c; contradiction.
        -- repeat constructor; auto.
      * intros _. change (cb :: l ++ [mdb_txn_abort (Some (out_ptr r0))])
          with ((cb :: l) ++ [mdb_txn_abort (Some (out_ptr r0))]).
        now rewrite last_snoc.
    + exfalso. destruct (Hres _ eq_refl) as (Hm & Hs & Hrf).
      destruct Hf as [Hf | [Hf | Hf]]; [contradiction | subst; now destruct Hf |].
      assert (Hnew : ∃ l2, new_calls w w' = cb :: l ++ l2 ∧ Forall (λ c, ¬ is_put c) l2).
      { minv H. mcase H; minv H; unfold new_calls; simpl;
          rewrite Ht, <- !app_assoc, drop_app_length;
          simpl; eexists; (split; [reflexivity|]); repeat constructor; auto. }
      destruct Hnew as (l2 & Hnew & Hl2). rewrite Hnew in Hf. simpl in Hf.
      destruct Hf as [(Hp & _) | Hf]; [contradiction|].
      apply refused_in_app in Hf as [Hf | Hf]; [contradiction|].
      clear -Hf Hl2. revert Hf. generalize ((trace w ++ [cb]) ++ l).
      induction Hl2 as [|c l2 Hc _ IH]; intros tr; simpl; [tauto|].
      intros [(Hp & _) | Hf]; [contradiction | eauto].
Qed.

End Batch.

(** [env.puts([(b"a", b"1"), (b"b", b"2")])] when the engine takes the
    first put and refuses the second: the call raises and the
    transaction, with the first put in it, is aborted. *)
Lemma env_puts_failure_aborts_witness :
  ∃ w', env_puts (K := lmdb_0_9) (E := engine_second_put_fails) 0%nat (Args puts_a_b)
          (w_open false)
        = Done (Raise (EngineError "mdb_put" (-30792))) w' ∧
    batch_failed (K := lmdb_0_9) (E := engine_second_put_fails) puts_a_b_items None
      (w_open false) w' ∧
    new_calls (w_open false) w' =
      [mdb_txn_begin (Some 7%nat) None 0;
       mdb_put (Some 100%nat) 1 (val_from_buffer ["a"%byte]) (val_from_buffer ["1"%byte]) 0x20;
       mdb_put (Some 100%nat) 1 (val_from_buffer ["b"%byte]) (val_from_buffer ["2"%byte]) 0x20;
       mdb_txn_abort (Some 100%nat)] ∧
    Forall (λ c, ¬ is_commit c) (new_calls (w_open false) w').
Proof.
  eexists.
  assert (Hrun : env_puts (K := lmdb_0_9) (E := engine_second_put_fails) 0%nat (Args puts_a_b)
                   (w_open false)
                 = Done (Raise (EngineError "mdb_put" (-30792)))
                     (state_of (env_puts (K := lmdb_0_9) (E := engine_second_put_fails) 0%nat
                                  (Args puts_a_b) (w_open false)) (w_open false)))
    by (vm_compute; reflexivity).
  split; [exact Hrun|].
  assert (Hfail : batch_failed (K := lmdb_0_9) (E := engine_second_put_fails) puts_a_b_items None
            (w_open false)
            (state_of (env_puts (K := lmdb_0_9) (E := engine_second_put_fails) 0%nat
                         (Args puts_a_b) (w_open false)) (w_open false))).
  { right. right. vm_compute. right. right. left. repeat split; discriminate. }
  split; [exact Hfail|]. split; [vm_compute; reflexivity|].
  destruct (env_puts_failure_aborts (K := lmdb_0_9) (E := engine_second_put_fails) 0%nat
              _ (mk_env (Some 7%nat) (Some 1%nat) false) puts_a_b puts_a_b_items None
              d_1 (w_open false) eq_refl eq_refl eq_refl eq_refl eq_refl) as (_ & H).
  exact (proj1 (proj2 (proj2 (H _ _ Hrun Hfail)))).
Defined.


(** ** Invalidation trees *)

Lemma tree_ind' (P : tree → Prop) :
  (∀ a ks, Forall P ks → P (Node a ks)) → ∀ t, P t.
Proof.
  intros H. fix IH 1. intros [a ks]. apply H.
  induction ks as [|k ks IHks]; constructor; [apply IH | exact IHks].
Qed.

Lemma shape_unfold h a ks :
  shape h (Node a ks) ↔
  (∃ o, h !! a = Some o ∧ dll h None (next (children o)) (map root ks)) ∧
  Forall (λ k, linked h a k ∧ shape h k) ks.
Proof.
  simpl. split; intros [H1 H2]; (split; [exact H1|]).
  - clear H1. induction ks as [|k ks IH]; [constructor|]. destruct H2 as [Hk Hks].
    constructor; [exact Hk | exact (IH Hks)].
  - clear H1. induction H2 as [|k ks Hk _ IH]; [exact I | split; [exact Hk | exact IH]].
Qed.

Lemma elem_of_flat_map {A B} (f : A → list B) (l : list A) (y : B) :
  y ∈ flat_map f l ↔ ∃ x, x ∈ l ∧ y ∈ f x.
Proof.
  induction l as [|a l IH]; simpl.
  - split; [intros H; inversion H | intros (x & H & _); inversion H].
  - rewrite elem_of_app, IH. split.
    + intros [H | (x & H1 & H2)]; [exists a; split; [left | exact H] | exists x; split; [now right | exact H2]].
    + intros (x & H1 & H2). apply elem_of_cons in H1 as [-> | H1]; [now left | right; eauto].
Qed.

Lemma root_in_nodes k : root k ∈ nodes k.
Proof. destruct k; simpl; left. Qed.

Lemma dll_frame h h' p cur l :
  (∀ x, x ∈ l → h' !! x = h !! x) → dll h p cur l → dll h' p cur l.
Proof.
  revert p cur. induction l as [|c l IH]; intros p cur Hf; simpl; [auto|].
  intros (-> & o & Ho & Hp & Hd). split; [reflexivity|]. exists o.
  rewrite Hf by (left). split; [exact Ho|]. split; [exact Hp|].
  apply IH; [|exact Hd]. intros x Hx. apply Hf. now right.
Qed.

Lemma linked_frame h h' p k :
  (∀ o, h !! root k = Some o → ∃ o', h' !! root k = Some o' ∧ valid o' = valid o ∧ body o' = body o) →
  linked h p k → linked h' p k.
Proof.
  intros Hf (o & Ho & Hl). destruct (Hf o Ho) as (o' & Ho' & Hv & Hb).
  exists o'. split; [exact Ho'|]. now rewrite Hb, Hv.
Qed.

Lemma shape_frame h h' t :
  (∀ x, x ∈ nodes t → h' !! x = h !! x) → shape h t → shape h' t.
Proof.
  induction t as [a ks IH] using tree_ind'. intros Hf.
  rewrite Forall_forall in IH. rewrite !shape_unfold. intros [(o & Ho & Hd) Hks]. split.
  - exists o. rewrite Hf by (simpl; left). split; [exact Ho|].
    eapply dll_frame; [|exact Hd]. intros x Hx. apply Hf. simpl. right.
    apply list_elem_of_fmap in Hx as (k & -> & Hk). apply elem_of_flat_map.
    exists k. split; [exact Hk | apply root_in_nodes].
  - rewrite Forall_forall in *. intros k Hk. destruct (Hks k Hk) as [Hl Hs].
    assert (Hsub : ∀ x, x ∈ nodes k → h' !! x = h !! x).
    { intros x Hx. apply Hf. simpl. right. apply elem_of_flat_map. eauto. }
    split.
    + eapply linked_frame; [|exact Hl]. intros o' Ho'. exists o'.
      rewrite Hsub by apply root_in_nodes. auto.
    + apply IH; auto.
Qed.

(** The root may change in its sibling links. *)
Lemma shape_frame_root h h' a ks :
  (∀ o, h !! a = Some o → ∃ o', h' !! a = Some o' ∧ children o' = children o) →
  (∀ x, x ∈ flat_map nodes ks → h' !! x = h !! x) →
  shape h (Node a ks) → shape h' (Node a ks).
Proof.
  intros Ha Hf. rewrite !shape_unfold. intros [(o & Ho & Hd) Hks]. split.
  - destruct (Ha o Ho) as (o' & Ho' & Hc). exists o'. split; [exact Ho'|]. rewrite Hc.
    eapply dll_frame; [|exact Hd]. intros x Hx. apply Hf.
    apply list_elem_of_fmap in Hx as (k & -> & Hk). apply elem_of_flat_map.
    exists k. split; [exact Hk | apply root_in_nodes].
  - rewrite Forall_forall in *. intros k Hk. destruct (Hks k Hk) as [Hl Hs].
    assert (Hsub : ∀ x, x ∈ nodes k → h' !! x = h !! x).
    { intros x Hx. apply Hf. apply elem_of_flat_map. eauto. }
    split.
    + eapply linked_frame; [|exact Hl]. intros o' Ho'. exists o'.
      rewrite Hsub by apply root_in_nodes. auto.
    + apply (shape_frame h); auto.
Qed.

Lemma set_children_next_id p o : next (children o) = p → set_children_next p o = o.
Proof. destruct o as [s [cp cn] v b]. simpl. now intros ->. Qed.

Lemma unlink_head_spec w p c oc op nxt :
  heap w !! c = Some oc → siblings oc = mk_list_head None nxt →
  heap w !! p = Some op → next (children op) = Some c → p ≠ c →
  (∀ n, nxt = Some n → n ≠ c ∧ n ≠ p ∧ is_Some (heap w !! n)) →
  ∃ w', unlink_child (Some p) c w = Done tt w' ∧ trace w' = trace w ∧
    heap w' !! c = Some (set_siblings_next None (set_siblings_prev None oc)) ∧
    heap w' !! p = Some (set_children_next nxt op) ∧
    (∀ n on, nxt = Some n → heap w !! n = Some on →
       heap w' !! n = Some (set_siblings_prev None on)) ∧
    (∀ x, x ≠ c → x ≠ p → nxt ≠ Some x → heap w' !! x = heap w !! x).
Proof.
  intros Hc Hs Hp Hn Hpc Hnxt. unfold unlink_child.
  assert (Hcp : c ≠ p) by congruence.
  destruct nxt as [n|].
  - destruct (Hnxt n eq_refl) as (Hnc & Hnp & on & Hon).
    assert (Hpn : p ≠ n) by congruence. assert (Hcn : c ≠ n) by congruence.
    mgo. rewrite decide_True by reflexivity. mgo.
    eexists. split; [reflexivity|]. simpl. split; [reflexivity|].
    split; [now rewrite lookup_insert_eq|].
    split; [rewrite !lookup_insert_ne by congruence; now rewrite lookup_insert_eq|].
    split.
    + intros n' on' [= <-] Hon'. rewrite !lookup_insert_ne by congruence.
      rewrite lookup_insert_eq. congruence.
    + intros x Hxc Hxp Hxn. rewrite !lookup_insert_ne by congruence. reflexivity.
  - mgo. rewrite decide_True by reflexivity. mgo.
    eexists. split; [reflexivity|]. simpl. split; [reflexivity|].
    split; [now rewrite lookup_insert_eq|].
    split; [rewrite !lookup_insert_ne by congruence; now rewrite lookup_insert_eq|].
    split; [intros n' on' [=]|].
    intros x Hxc Hxp Hxn. rewrite !lookup_insert_ne by congruence. reflexivity.
Qed.

(** ** The loop of [invalidate] and [tp_clear] *)

Lemma invalidate_from_S n c :
  invalidate_from (S n) (Some c) =
    (o <- load (Some c) ;; tp_clear n c ;;; invalidate_from n (next (siblings o))).
Proof. reflexivity. Qed.

Lemma kids_after_clear h h1 a c nxt ks :
  dll h (Some c) nxt (map root ks) →
  Forall (λ k, linked h a k ∧ shape h k) ks →
  NoDup (flat_map nodes ks) →
  (∀ n, nxt = Some n → ∃ on, h !! n = Some on ∧ h1 !! n = Some (set_siblings_prev None on)) →
  (∀ x, x ∈ flat_map nodes ks → nxt ≠ Some x → h1 !! x = h !! x) →
  dll h1 None nxt (map root ks) ∧ Forall (λ k, linked h1 a k ∧ shape h1 k) ks.
Proof.
  intros Hd Hks Hnd Hn Hf. destruct ks as [|k2 ks2]; simpl in *.
  - split; [exact Hd | constructor].
  - destruct Hd as (-> & o2 & Ho2 & Hp2 & Hd).
    destruct (Hn _ eq_refl) as (on & Hon & Hon1). assert (on = o2) as -> by congruence.
    apply NoDup_app in Hnd as (Hnd2 & Hdisj & Hndr).
    assert (Hrest : ∀ x, x ∈ flat_map nodes ks2 → h1 !! x = h !! x).
    { intros x Hx. apply Hf; [apply elem_of_app; now right|].
      intros [= Heq]. apply (Hdisj (root k2)); [apply root_in_nodes | now rewrite Heq]. }
    split.
    + split; [reflexivity|]. exists (set_siblings_prev None o2). split; [exact Hon1|].
      split; [reflexivity|]. simpl. eapply dll_frame; [|exact Hd].
      intros x Hx. apply Hrest. apply list_elem_of_fmap in Hx as (k & -> & Hk).
      apply elem_of_flat_map. exists k. split; [exact Hk | apply root_in_nodes].
    + inversion Hks as [|? ? [Hl2 Hs2] Hks2]; subst. constructor.
      * split.
        -- eapply linked_frame; [|exact Hl2]. intros o Ho.
           assert (o = o2) as -> by congruence. eauto.
        -- destruct k2 as [n cks]. simpl in *. apply (shape_frame_root h); [| |exact Hs2].
           ++ intros o Ho. assert (o = o2) as -> by congruence. eauto.
           ++ intros x Hx. apply Hf; [right; apply elem_of_app; now left|].
              intros [= Heq]. apply NoDup_cons in Hnd2 as [Hnin _]. now subst.
      * rewrite Forall_forall in *. intros k Hk. destruct (Hks2 k Hk) as [Hl Hs].
        assert (Hsub : ∀ x, x ∈ nodes k → h1 !! x = h !! x).
        { intros x Hx. apply Hrest. apply elem_of_flat_map. eauto. }
        split.
        -- eapply linked_frame; [|exact Hl]. intros o Ho. exists o.
           rewrite Hsub by apply root_in_nodes. auto.
        -- apply (shape_frame h); auto.
Qed.

Lemma loop_from_clear ks : Forall clear_spec ks → loop_spec ks.
Proof.
  induction 1 as [|k ks Hk _ IH]; intros fuel w a oa Hfuel Ha Hd Hks Hnd.
  - simpl in Hd. rewrite Hd. exists w. split; [now destruct fuel|]. split.
    + intros d Hd'. inversion Hd'.
    + split; [rewrite set_children_next_id by exact Hd; exact Ha | auto].
  - simpl in Hd. destruct Hd as (Hcur & oc & Hoc & Hprev & Hd). rewrite Hcur.
    inversion Hks as [|? ? [Hl Hs] Hks']; subst.
    simpl in Hnd. apply NoDup_cons in Hnd as [Hanin Hnd].
    pose proof Hnd as Hnd0. apply NoDup_app in Hnd as (Hndk & Hdisj & Hndr).
    assert (Hank : a ∉ nodes k) by (intros Hin; apply Hanin, elem_of_app; now left).
    simpl in Hfuel. assert (Hsz : (1 ≤ tree_size k)%nat) by (destruct k; simpl; lia).
    destruct fuel as [|n]; [lia|].
    assert (Hfk : (list_sum (map tree_size (kids k)) ≤ n)%nat) by (destruct k; simpl in *; lia).
    set (nxt := next (siblings oc)) in *.
    assert (Hnxt : ∀ n', nxt = Some n' → (n' ∉ nodes k) ∧ n' ≠ a ∧ is_Some (heap w !! n')).
    { intros n' Hn'. rewrite Hn' in Hd. destruct ks as [|k2 ks2]; simpl in Hd; [discriminate|].
      destruct Hd as ([= ->] & o2 & Ho2 & _).
      assert (Hin : root k2 ∈ flat_map nodes (k2 :: ks2))
        by (simpl; apply elem_of_app; left; apply root_in_nodes).
      split; [intros Hk'; exact (Hdisj _ Hk' Hin)|].
      split; [intros Heq; apply Hanin; rewrite <- Heq; apply elem_of_app; now right | eauto]. }
    destruct (Hk n w a nxt oc Hfk Hs Hndk Hl Hank Hoc) as (w1 & Hrun & Hdead & Hpa & Hpn & Hfr).
    { destruct (siblings oc) as [pv nx]; simpl in *; now subst. }
    { exists oa. split; [exact Ha | exact Hcur]. }
    { exact Hnxt. }
    destruct Hpa as (oa' & Hoa' & Ha1). assert (oa' = oa) as -> by congruence.
    destruct (kids_after_clear (heap w) (heap w1) a (root k) nxt ks Hd Hks' Hndr Hpn)
      as (Hd1 & Hks1).
    { intros x Hx Hxn. apply Hfr; [intros Hk'; exact (Hdisj _ Hk' Hx) | | exact Hxn].
      intros ->. apply Hanin, elem_of_app; now right. }
    destruct (IH n w1 a (set_children_next nxt oa)) as (w2 & Hrun2 & Hdead2 & Ha2 & Hfr2);
      [lia | exact Ha1 | exact Hd1 | exact Hks1 | |].
    { apply NoDup_cons. split; [|exact Hndr]. intros Hin. apply Hanin, elem_of_app; now right. }
    exists w2. split.
    { rewrite invalidate_from_S. rewrite (bind_Done _ _ _ _ _ (load_Some _ _ _ Hoc)).
      rewrite (bind_Done _ _ _ _ _ Hrun). exact Hrun2. }
    split; [|split].
    + intros d Hin. simpl in Hin. apply elem_of_app in Hin as [Hin | Hin]; [|auto].
      destruct (Hdead d Hin) as (o' & Ho' & Hv'). exists o'. split; [|exact Hv'].
      rewrite Hfr2; [exact Ho' | intros Hin'; exact (Hdisj _ Hin Hin') | ].
      intros ->. contradiction.
    + rewrite Ha2. reflexivity.
    + intros x Hx Hxa. simpl in Hx. rewrite Hfr2; [| intros Hin; apply Hx, elem_of_app; now right | exact Hxa].
      apply Hfr; [intros Hin; apply Hx, elem_of_app; now left | exact Hxa |].
      intros Hn'. destruct (Hnxt _ Hn') as (_ & _ & _).
      rewrite Hn' in Hd. destruct ks as [|k2 ks2]; simpl in Hd; [discriminate|].
      destruct Hd as ([= ->] & _). apply Hx, elem_of_app. right. simpl.
      apply elem_of_app. left. apply root_in_nodes.
Qed.

#[global] Arguments unlink_child : simpl never.
#[global] Arguments invalidate_from : simpl never.

Lemma tp_clear_unfold fuel c w o :
  heap w !! c = Some o →
  tp_clear fuel c w =
    match body o with
    | BDb _ => db_clear c w
    | BEnv _ => env_clear (invalidate fuel) c w
    | BTrans _ => trans_clear (invalidate fuel) c w
    | BCursor _ => cursor_clear (invalidate fuel) c w
    end.
Proof.
  intros Ho. unfold tp_clear, tp_clear_with.
  rewrite (bind_Done _ _ _ _ _ (load_Some _ _ _ Ho)). now destruct (body o).
Qed.

Lemma invalidate_unfold fuel c w o :
  heap w !! c = Some o →
  invalidate fuel c w = invalidate_from fuel (next (children o)) w.
Proof.
  intros Ho. unfold invalidate. now rewrite (bind_Done _ _ _ _ _ (load_Some _ _ _ Ho)).
Qed.

(** Unlink the head child in a state reached by writes to the child itself. *)
Ltac unlink_here Hh :=
  match goal with
  | |- context [unlink_child (Some ?p) ?c ?w2] =>
      let w3 := fresh "w" in
      let Hrun := fresh "Hunlink" in
      let Hc := fresh "Hc3" in
      let Hp := fresh "Hp3" in
      let Hn := fresh "Hn3" in
      let Hx := fresh "Hx3" in
      let Hoc := fresh in let Hsib := fresh in let Hop := fresh in
      let Hopc := fresh in let Hpc := fresh in let Hnxt := fresh in
      pose proof Hh as (Hoc & Hsib & Hop & Hopc & Hpc & Hnxt);
      edestruct (unlink_head_spec w2 p c) as (w3 & Hrun & _ & Hc & Hp & Hn & Hx);
      [ cbn [heap trace]; rewrite ?lookup_insert_eq; first [reflexivity | eassumption]
      | cbn [heap trace]; first [eassumption | reflexivity]
      | cbn [heap trace]; rewrite ?lookup_insert_ne by congruence; eassumption
      | eassumption
      | assumption
      | let n := fresh "n" in let Hn' := fresh in
        intros n Hn'; destruct (Hnxt n Hn') as (? & ? & ?);
        cbn [heap trace]; rewrite ?lookup_insert_ne by congruence; auto
      | rewrite Hrun; clear Hoc Hsib Hop Hopc Hnxt ]
  end.

Ltac finish_dead :=
  eexists; split; [reflexivity|]; unfold unlinked_dead; cbn [heap trace];
  split; [eexists; split; [rewrite ?lookup_insert_eq; reflexivity | reflexivity]|];
  split; [rewrite ?lookup_insert_ne by congruence; eassumption|];
  split;
  [ let n := fresh "n" in let on := fresh "on" in let Hn := fresh in let Hon := fresh in
    intros n on Hn Hon;
    match goal with Hh : head_child _ _ _ _ _ _ |- _ =>
      destruct Hh as (_ & _ & _ & _ & _ & Hh); destruct (Hh n Hn) as (? & ? & ?) end;
    rewrite ?lookup_insert_ne by congruence;
    match goal with Hn3 : ∀ n on, _ = Some n → _ → _ |- _ => apply Hn3; [exact Hn|] end;
    cbn [heap trace]; rewrite ?lookup_insert_ne by congruence; exact Hon
  | let x := fresh "x" in intros x ? ? ?;
    rewrite ?lookup_insert_ne by congruence;
    match goal with Hx3 : ∀ x, x ≠ _ → _ → _ → _ |- _ => rewrite Hx3 by assumption end;
    cbn [heap trace]; rewrite ?lookup_insert_ne by congruence; reflexivity ].

Section Clear.

Lemma db_clear_spec w p c nxt op o d :
  head_child w p c nxt op o → body o = BDb d → d_env d = Some p →
  ∃ w', db_clear c w = Done tt w' ∧ unlinked_dead w w' p c nxt op.
Proof.
  intros Hh Hb He. pose proof Hh as (Ho & _).
  destruct o as [sib ch vl bd]. simpl in *. subst bd. destruct d as [de di]. simpl in *. subst de.
  unfold db_clear. mgo. unlink_here Hh. mgo. unfold set_d_env, set_valid. simpl.
  finish_dead.
Qed.

Lemma trans_clear_invalid_spec inv w p c nxt op o t :
  head_child w p c nxt op o → body o = BTrans t → t_env t = Some p → valid o = false →
  ∃ w', trans_clear inv c w = Done tt w' ∧ unlinked_dead w w' p c nxt op.
Proof.
  intros Hh Hb He Hv. pose proof Hh as (Ho & _).
  destruct o as [sib ch vl bd]. simpl in *. subst bd vl. destruct t as [te tx tb]. simpl in *. subst te.
  unfold trans_clear. mgo. unlink_here Hh. mgo. unfold set_t_env. simpl.
  finish_dead.
Qed.

Lemma trans_clear_valid_spec inv w w1 p c nxt op o0 o t :
  heap w !! c = Some o0 → valid o0 = true → inv c w = Done tt w1 →
  head_child w1 p c nxt op o → body o = BTrans t → t_env t = Some p →
  ∃ w', trans_clear inv c w = Done tt w' ∧ unlinked_dead w1 w' p c nxt op.
Proof.
  intros Ho0 Hv0 Hinv Hh Hb He. pose proof Hh as (Ho & _).
  destruct o as [sib ch vl bd]. simpl in *. subst bd. destruct t as [te tx tb]. simpl in *. subst te.
  unfold trans_clear. mgo.
  destruct tx as [tx|]; mgo; unfold set_t_txn, set_valid; simpl; mgo;
    unlink_here Hh; mgo; unfold set_t_env; simpl; finish_dead.
Qed.

Lemma cursor_clear_valid_spec inv w w1 p c nxt op o0 o cu :
  heap w !! c = Some o0 → valid o0 = true → inv c w = Done tt w1 →
  head_child w1 p c nxt op o → body o = BCursor cu → c_trans cu = Some p →
  ∃ w', cursor_clear inv c w = Done tt w' ∧ unlinked_dead w1 w' p c nxt op.
Proof.
  intros Ho0 Hv0 Hinv Hh Hb He. pose proof Hh as (Ho & _).
  destruct o as [sib ch vl bd]. simpl in *. subst bd.
  destruct cu as [ct cp cc ck cv]. simpl in *. subst ct.
  unfold cursor_clear. mgo. unlink_here Hh. mgo.
  match goal with Hc3 : heap _ !! c = Some _ |- _ => unfold set_siblings_next, set_siblings_prev in Hc3; simpl in Hc3 end.
  mgo. unfold set_valid, set_c_trans; simpl. finish_dead.
Qed.

End Clear.

Lemma cleared_combine h w1 w' p c cks nxt op :
  (∀ d, d ∈ flat_map nodes cks → ∃ o', heap w1 !! d = Some o' ∧ valid o' = false) →
  (∀ x, x ∉ flat_map nodes cks → x ≠ c → heap w1 !! x = h !! x) →
  h !! p = Some op → p ≠ c → p ∉ flat_map nodes cks → c ∉ flat_map nodes cks →
  (∀ n, nxt = Some n → (n ∉ nodes (Node c cks)) ∧ is_Some (h !! n)) →
  unlinked_dead w1 w' p c nxt op → cleared h (heap w') p (Node c cks) nxt.
Proof.
  intros Hdead Hfr Hop Hpc Hpk Hck Hnxt (Hc & Hp & Hn & Hx).
  split; [|split; [|split]].
  - intros d Hd. simpl in Hd. apply elem_of_cons in Hd as [-> | Hd]; [exact Hc|].
    destruct (Hdead d Hd) as (o' & Ho' & Hv). exists o'. split; [|exact Hv].
    rewrite Hx; [exact Ho' | intros ->; contradiction | intros ->; contradiction |].
    intros Heq. destruct (Hnxt d Heq) as (Hnk & _). apply Hnk. simpl. now right.
  - exists op. split; [exact Hop | exact Hp].
  - intros n Heq. destruct (Hnxt n Heq) as (Hnk & on & Hon). exists on. split; [exact Hon|].
    apply Hn; [exact Heq|]. rewrite Hfr; [exact Hon | |].
    + intros Hin. apply Hnk. simpl. now right.
    + intros ->. apply Hnk. simpl. now left.
  - intros x Hxk Hxp Hxn.
    assert (x ≠ c) by (intros ->; apply Hxk; simpl; now left).
    rewrite Hx by assumption. apply Hfr; [|assumption].
    intros Hin. apply Hxk. simpl. now right.
Qed.

Lemma clear_from_loop c cks : loop_spec cks → clear_spec (Node c cks).
Proof.
  intros Hloop fuel w p nxt oc Hfuel Hs Hnd Hl Hp Hoc Hsib (op & Hop & Hopc) Hnxt.
  simpl in Hoc, Hfuel, Hopc.
  apply shape_unfold in Hs as [(oc' & Hoc' & Hd) Hks].
  assert (oc' = oc) as -> by congruence.
  destruct Hl as (oc' & Hoc'' & Hl). simpl in Hoc''. assert (oc' = oc) as -> by congruence.
  simpl in Hnd. pose proof Hnd as Hnd0. apply NoDup_cons in Hnd as [Hcnin Hndk].
  assert (Hpc : p ≠ c) by (intros ->; apply Hp; simpl; left).
  assert (Hpk : p ∉ flat_map nodes cks) by (intros Hin; apply Hp; simpl; now right).
  assert (Hnc : ∀ n, nxt = Some n → n ≠ c ∧ n ≠ p ∧ is_Some (heap w !! n)).
  { intros n Hn. destruct (Hnxt n Hn) as (Hnk & Hnp & Hsome).
    split; [intros ->; apply Hnk; simpl; now left | auto]. }
  assert (Hnxt2 : ∀ n, nxt = Some n → (n ∉ nodes (Node c cks)) ∧ is_Some (heap w !! n)).
  { intros n Hn. destruct (Hnxt n Hn) as (Hnk & Hnp & Hsome). auto. }
  assert (Hh : head_child w p c nxt op oc) by (repeat split; auto; apply Hnc; auto).
  assert (Hvalid : valid oc = true →
    ∃ w1, invalidate fuel c w = Done tt w1 ∧
      head_child w1 p c nxt op (set_children_next None oc) ∧
      (∀ d, d ∈ flat_map nodes cks → ∃ o', heap w1 !! d = Some o' ∧ valid o' = false) ∧
      (∀ x, x ∉ flat_map nodes cks → x ≠ c → heap w1 !! x = heap w !! x)).
  { intros Hv.
    destruct (Hloop fuel w c oc Hfuel Hoc Hd Hks Hnd0) as (w1 & Hrun1 & Hdead & Hc1 & Hfr1).
    exists w1. split; [now rewrite (invalidate_unfold _ _ _ _ Hoc)|].
    split; [|auto]. split; [exact Hc1|]. split; [exact Hsib|].
    split; [rewrite Hfr1; auto|]. split; [exact Hopc|]. split; [exact Hpc|].
    intros n Hn. destruct (Hnxt n Hn) as (Hnk & Hnp & Hsome).
    split; [intros ->; apply Hnk; simpl; now left|]. split; [exact Hnp|].
    rewrite Hfr1; [exact Hsome | intros Hin; apply Hnk; simpl; now right |].
    intros ->; apply Hnk; simpl; now left. }
  rewrite (tp_clear_unfold _ _ _ _ Hoc).
  destruct (body oc) as [d|e|t|cu] eqn:Hb; [| contradiction | |].
  - destruct Hl as [Hde Hk]. simpl in Hk. subst cks.
    destruct (db_clear_spec w p c nxt op oc d Hh Hb Hde) as (w' & Hrun & Hdead).
    exists w'. split; [exact Hrun|].
    eapply (cleared_combine (heap w) w); eauto. intros d' Hd'. inversion Hd'.
  - destruct Hl as [Hte Hk]. destruct (valid oc) eqn:Hv.
    + destruct (Hvalid eq_refl) as (w1 & Hinv & Hh1 & Hdead1 & Hfr1).
      destruct (trans_clear_valid_spec _ w w1 p c nxt op oc _ t Hoc Hv Hinv Hh1 Hb Hte)
        as (w' & Hrun & Hdead).
      exists w'. split; [exact Hrun|]. eapply (cleared_combine (heap w) w1); eauto.
    + simpl in Hk. rewrite (Hk eq_refl) in *.
      destruct (trans_clear_invalid_spec (invalidate fuel) w p c nxt op oc t Hh Hb Hte Hv)
        as (w' & Hrun & Hdead).
      exists w'. split; [exact Hrun|].
      eapply (cleared_combine (heap w) w); eauto. intros d' Hd'. inversion Hd'.
  - destruct Hl as [Hte Hv].
    destruct (Hvalid Hv) as (w1 & Hinv & Hh1 & Hdead1 & Hfr1).
    destruct (cursor_clear_valid_spec _ w w1 p c nxt op oc _ cu Hoc Hv Hinv Hh1 Hb Hte)
      as (w' & Hrun & Hdead).
    exists w'. split; [exact Hrun|]. eapply (cleared_combine (heap w) w1); eauto.
Qed.

Lemma clear_spec_all t : clear_spec t.
Proof.
  induction t as [a ks IH] using tree_ind'. apply clear_from_loop, loop_from_clear, IH.
Qed.

Lemma loop_spec_all ks : loop_spec ks.
Proof. apply loop_from_clear. apply Forall_forall. intros k _. apply clear_spec_all. Qed.

(** ** The valid flag is never set again *)

#[global] Instance valid_mono_StepRel : StepRel valid_mono.
Proof.
  split.
  - intros w a o Ho. eauto.
  - intros w1 w2 w3 H12 H23 a o Ho.
    destruct (H12 a o Ho) as (o2 & Ho2 & Hv2). destruct (H23 a o2 Ho2) as (o3 & Ho3 & Hv3).
    eauto.
Qed.

Lemma steps_vm_update a f : keeps_invalid f → steps valid_mono (update a f).
Proof.
  intros Hf w u w' H. apply update_inv in H as (o & Ho & ->). intros b ob Hb. simpl.
  destruct (decide (a = b)) as [->|Hne].
  - rewrite lookup_insert_eq. assert (ob = o) as -> by congruence. eauto.
  - rewrite lookup_insert_ne by exact Hne. eauto.
Qed.

Lemma steps_vm_new o : steps valid_mono (PyObject_New o).
Proof.
  intros w a w' [= <- <-] b ob Hb. simpl.
  rewrite lookup_insert_ne; [eauto|]. intros Heq.
  apply (is_fresh (dom (heap w))). rewrite Heq. apply elem_of_dom. eauto.
Qed.

Lemma steps_vm_call `{Engine} c : steps valid_mono (call c).
Proof. intros w r w' H'. apply call_inv in H' as (_ & ->). intros a o Ho. simpl. eauto. Qed.

Lemma steps_vm_call_void c : steps valid_mono (call_void c).
Proof. intros w r w' H'. apply call_void_inv in H' as ->. intros a o Ho. simpl. eauto. Qed.

Lemma steps_out_of_fuel {A} R : steps R (fun _ => @OutOfFuel A).
Proof. intros w a w' H. discriminate H. Qed.

Ltac keeps_tac :=
  let o := fresh "o" in
  intros o; destruct o as [? ? ? []]; simpl; intros; first [assumption | reflexivity].

Ltac vstep :=
  first
    [ steps_step
    | apply steps_vm_update; [keeps_tac]
    | apply steps_vm_new
    | apply steps_vm_call
    | apply steps_vm_call_void
    | apply steps_out_of_fuel
    | assumption ].

Ltac vsteps := repeat vstep.

Section Mono.
Context {K : lmdb_h} {E : Engine}.

Lemma steps_vm_link_child p c : steps valid_mono (link_child p c).
Proof. unfold link_child. vsteps. Qed.

Lemma steps_vm_unlink_child p c : steps valid_mono (unlink_child p c).
Proof. unfold unlink_child. vsteps. Qed.

Lemma steps_vm_tp_clear_with inv c :
  (∀ a, steps valid_mono (inv a)) → steps valid_mono (tp_clear_with inv c).
Proof.
  intros Hinv. pose proof steps_vm_unlink_child.
  unfold tp_clear_with, db_clear, env_clear, trans_clear, cursor_clear. vsteps; try apply Hinv; auto.
Qed.

Lemma steps_vm_invalidate_from fuel c : steps valid_mono (invalidate_from fuel c).
Proof.
  revert c. induction fuel as [|n IH]; intros [c|].
  - change (steps valid_mono (fun _ => @OutOfFuel unit)). apply steps_out_of_fuel.
  - change (steps valid_mono (ret tt)). vsteps.
  - rewrite invalidate_from_S. vsteps; [|apply IH].
    apply steps_vm_tp_clear_with. intros ?. unfold invalidate. vsteps. apply IH.
  - change (steps valid_mono (ret tt)). vsteps.
Qed.

Lemma steps_vm_invalidate fuel a : steps valid_mono (invalidate fuel a).
Proof. unfold invalidate. vsteps. apply steps_vm_invalidate_from. Qed.

Lemma steps_vm_env_gets_loop txn db keys stop dict :
  steps valid_mono (env_gets_loop txn db keys stop dict).
Proof. revert dict. induction keys as [|k keys IH]; intros dict; simpl; vsteps; apply IH. Qed.

Lemma steps_vm_env_puts_loop txn db flags items stop acc :
  steps valid_mono (env_puts_loop txn db flags items stop acc).
Proof. revert acc. induction items as [|k items IH]; intros acc; simpl; vsteps; apply IH. Qed.

Lemma steps_vm_env_deletes_loop txn db keys stop acc :
  steps valid_mono (env_deletes_loop txn db keys stop acc).
Proof. revert acc. induction keys as [|k keys IH]; intros acc; simpl; vsteps; apply IH. Qed.

Lemma steps_vm_run_call fuel c : steps valid_mono (run_call fuel c).
Proof.
  pose proof steps_vm_link_child. pose proof steps_vm_unlink_child.
  pose proof steps_vm_invalidate. pose proof steps_vm_env_gets_loop.
  pose proof steps_vm_env_puts_loop. pose proof steps_vm_env_deletes_loop.
  destruct c as [self m|self m|self m|it|args|args]; simpl; try destruct m; simpl;
    repeat (progress (
      unfold env_begin, env_close, env_copy, env_info, env_open_db, env_path, env_stat, env_sync,
        env_get, env_gets, env_put, env_puts, env_delete, env_deletes, env_cursor,
        make_trans, make_cursor, db_from_name, txn_db_from_name, db_clear, trans_clear,
        generic_get, generic_put, generic_delete,
        trans_enter, trans_exit, trans_abort, trans_commit, trans_cursor, trans_delete,
        trans_drop, trans_get, trans_put, trans_new,
        cursor_new, cursor_count, cursor_delete, cursor_first, cursor_get, cursor_item,
        cursor_iternext, cursor_iterprev, cursor_key, cursor_last, cursor_next, cursor_prev,
        cursor_put, cursor_set_key, cursor_set_range, cursor_value, cursor_iter_from,
        cursor_iter, iter_from_args, _cursor_get, _cursor_get_c, iter_next, val_func;
      vsteps)); auto.
Qed.

End Mono.

(** ** Handles that are not valid *)

Section Invalid.
Context {K : lmdb_h} {E : Engine}.

Lemma invalid_env_methods fuel self o e m w :
  heap w !! self = Some o → valid o = false → body o = BEnv e → env_checked m →
  env_methods fuel self m w = Done (Raise InvalidHandle) w.
Proof.
  intros Ho Hv Hb Hm. destruct m; try contradiction; simpl;
    unfold env_begin, env_copy, env_info, env_path, env_stat, env_sync, env_get, env_gets,
      env_put, env_puts, env_delete, env_deletes, env_cursor, parse_args;
    mgo; reflexivity.
Qed.

Lemma invalid_trans_methods fuel self o t m w :
  heap w !! self = Some o → valid o = false → body o = BTrans t →
  (reads_env m → ∃ e, load_env (t_env t) w = Done e w) →
  trans_methods fuel self m w = Done (Raise InvalidHandle) w.
Proof.
  intros Ho Hv Hb Hm. destruct m; simpl;
    unfold trans_enter, trans_exit, trans_abort, trans_commit, trans_cursor, trans_drop,
      parse_args; try (mgo; reflexivity);
    destruct (Hm I) as (e & He);
    unfold trans_delete, trans_get, trans_put;
    rewrite (bind_Done _ _ _ _ _ (load_Some _ _ _ Ho));
    unfold as_trans; rewrite Hb; unfold bind at 1; unfold ret at 1;
    rewrite (bind_Done _ _ _ _ _ He);
    unfold generic_delete, generic_get, generic_put, parse_args; now rewrite Hv.
Qed.

Lemma invalid_cursor_methods self o cu m w :
  heap w !! self = Some o → valid o = false → body o = BCursor cu →
  cursor_methods self m w = Done (Raise InvalidHandle) w.
Proof.
  intros Ho Hv Hb. destruct m; simpl;
    unfold cursor_count, cursor_delete, cursor_first, cursor_get, cursor_item, cursor_iternext,
      cursor_iterprev, cursor_key, cursor_last, cursor_next, cursor_prev, cursor_put,
      cursor_set_key, cursor_set_range, cursor_value, cursor_iter_from, cursor_iter,
      iter_from_args, parse_args;
    mgo; reflexivity.
Qed.

Lemma invalid_iter_next it o w :
  heap w !! i_curs it = Some o → valid o = false →
  iter_next it w = Done (IterRaise InvalidHandle, it) w.
Proof. intros Ho Hv. unfold iter_next. mgo. reflexivity. Qed.

Lemma invalidate_root fuel t w :
  shape (heap w) t → NoDup (nodes t) → (tree_size t <= fuel)%nat →
  ∃ w1 o, invalidate fuel (root t) w = Done tt w1 ∧
    heap w !! (root t) = Some o ∧
    heap w1 !! (root t) = Some (set_children_next None o) ∧
    ∀ d, d ∈ descendants t → is_invalid w1 d.
Proof.
  destruct t as [a ks]. intros Hs Hnd Hf. apply shape_unfold in Hs as [(o & Ho & Hd) Hks].
  simpl in Hf.
  destruct (loop_spec_all ks fuel w a o) as (w1 & Hrun & Hdead & Ha & _); auto; [lia|].
  exists w1, o. simpl. rewrite (invalidate_unfold _ _ _ _ Ho). auto.
Qed.

Lemma cascade fuel c t w :
  terminal_call w c (root t) → is_valid w (root t) →
  shape (heap w) t → NoDup (nodes t) → (tree_size t <= fuel)%nat →
  ∃ w', run_call fuel c w = Done tt w' ∧ ∀ d, d ∈ nodes t → is_invalid w' d.
Proof.
  intros Hc (o & Ho & Hv) Hs Hnd Hf.
  destruct (invalidate_root fuel t w Hs Hnd Hf) as (w1 & o' & Hinv & Ho' & Ho1 & Hdead).
  assert (o' = o) as -> by congruence.
  assert (Hroot : ∀ d, d ∈ nodes t → d = root t ∨ d ∈ descendants t).
  { destruct t as [a ks]. simpl. intros d Hd. apply elem_of_cons in Hd. tauto. }
  assert (Hrd : root t ∉ descendants t).
  { destruct t as [a ks]. simpl in *. now apply NoDup_cons in Hnd as [? _]. }
  assert (Hfin : ∀ w' f, (∀ ob, valid (f ob) = false) →
     heap w' = <[root t := f (set_children_next None o)]> (heap w1) →
     ∀ d, d ∈ nodes t → is_invalid w' d).
  { intros w' f Hf' Hw' d Hd. unfold is_invalid. rewrite Hw'.
    destruct (Hroot d Hd) as [-> | Hdd].
    - rewrite lookup_insert_eq. eauto.
    - rewrite lookup_insert_ne by (intros <-; contradiction). exact (Hdead d Hdd). }
  destruct o as [sib ch vl bd]. simpl in Hv. subst vl.
  destruct c as [self m|self m| | | |]; try contradiction.
  - destruct m; try contradiction. destruct Hc as (-> & oe & e & Hoe & Hbe).
    assert (oe = mk_object sib ch true bd) as -> by congruence. simpl in Hbe. subst bd.
    simpl. unfold env_close. mgo. unfold set_valid, set_e_env, set_children_next. simpl. mgo.
    eexists. split; [reflexivity|].
    apply (Hfin _ (λ ob, set_e_env None (set_valid false ob))); [intros ob; now rewrite valid_set_e_env|].
    simpl. rewrite insert_insert_eq. reflexivity.
  - destruct Hc as (-> & Hm & ot & tr & Hot & Hbt).
    assert (ot = mk_object sib ch true bd) as -> by congruence. simpl in Hbt. subst bd.
    assert (Habort : ∃ w', (trans_abort fuel (root t) ;;; ret tt) w = Done tt w' ∧
                       ∀ d, d ∈ nodes t → is_invalid w' d).
    { unfold trans_abort. mgo. unfold set_valid, set_t_txn, set_children_next. simpl. mgo.
      eexists. split; [reflexivity|].
      apply (Hfin _ (λ ob, set_valid false (set_t_txn None ob))); [reflexivity|].
      simpl. rewrite insert_insert_eq. reflexivity. }
    assert (Hcommit : ∃ w', (trans_commit fuel (root t) ;;; ret tt) w = Done tt w' ∧
                       ∀ d, d ∈ nodes t → is_invalid w' d).
    { unfold trans_commit. mgo. unfold set_valid, set_t_txn, set_children_next. simpl. mgo.
      case_decide; mgo; (eexists; split; [reflexivity|]);
      apply (Hfin _ (λ ob, set_valid false (set_t_txn None ob))); try reflexivity;
      simpl; rewrite insert_insert_eq; reflexivity. }
    destruct m; try contradiction; simpl; auto.
    unfold trans_exit. destruct exc_is_none.
    + destruct Hcommit as (w' & Hr & Hd). exists w'. split; [|exact Hd].
      revert Hr. mgo. auto.
    + destruct Habort as (w' & Hr & Hd). exists w'. split; [|exact Hd].
      revert Hr. mgo. auto.
Qed.

Lemma steps_vm_run_calls fuel cs : steps valid_mono (run_calls fuel cs).
Proof.
  induction cs as [|c cs IH]; simpl; vsteps; first [apply steps_vm_run_call | apply IH].
Qed.

Lemma invalid_fails fuel w d : is_invalid w d → fails_invalid fuel w d.
Proof.
  intros (o & Ho & Hv). exists o. split; [exact Ho|]. split; [exact Hv|].
  split; [|split].
  - intros e m Hb Hm. eapply invalid_env_methods; eauto.
  - intros t m Hb Hm. eapply invalid_trans_methods; eauto.
  - intros cu Hb. split.
    + intros m. eapply invalid_cursor_methods; eauto.
    + intros it <-. eapply invalid_iter_next; eauto.
Qed.

(** The cascade, and the operations that test the handle.  Let [c] be [close] on a valid
    environment or [abort], [commit] or [__exit__] on a valid transaction, and [t] the
    tree of the handles linked below that handle.  Then [c] runs through, and after it
    and after any further public calls [cs] that run through, every handle [d] of [t],
    the handle of [c] and all its descendants, is not valid, and these operations on [d]
    raise [InvalidHandle] and change nothing: the methods of an environment other than
    [close] and [open_db], the methods of a transaction, [get], [put] and [delete] as
    long as the transaction still has its environment (it has after its own [abort] or
    [commit], and not after the cascade from the environment), and the methods of a
    cursor and the [next] of an iterator over it. *)
Theorem invalid_handles fuel c t w :
  terminal_call w c (root t) → is_valid w (root t) →
  shape (heap w) t → NoDup (nodes t) → (tree_size t <= fuel)%nat →
  ∃ w1, run_call fuel c w = Done tt w1 ∧
    ∀ cs w', run_calls fuel cs w1 = Done tt w' →
      ∀ d, d ∈ nodes t → fails_invalid fuel w' d.
Proof.
  intros Hc Hv Hs Hnd Hf.
  destruct (cascade fuel c t w Hc Hv Hs Hnd Hf) as (w1 & Hrun & Hdead).
  exists w1. split; [exact Hrun|]. intros cs w' Hcs d Hd.
  apply invalid_fails. destruct (Hdead d Hd) as (o & Ho & Hvo).
  destruct (steps_vm_run_calls fuel cs _ _ _ Hcs d o Ho) as (o' & Ho' & Hv').
  exists o'. auto.
Qed.

End Invalid.

(** [env.close()] on [w_curs], whose tree is [tree_0]. *)
Lemma invalid_handles_witness :
  ∃ w1,
    run_call (K := lmdb_0_9) (E := engine_ok) 10 (on_env 0%nat env_m_close) w_curs
      = Done tt w1 ∧
    ∀ cs w', run_calls (K := lmdb_0_9) (E := engine_ok) 10 cs w1 = Done tt w' →
      ∀ d, d ∈ nodes tree_0 → fails_invalid (K := lmdb_0_9) (E := engine_ok) 10 w' d.
Proof.
  apply (invalid_handles (K := lmdb_0_9) (E := engine_ok)
           10 (on_env 0%nat env_m_close) tree_0 w_curs).
  - simpl. split; [reflexivity|]. eexists _, _. split; vm_compute; reflexivity.
  - eexists. split; vm_compute; reflexivity.
  - simpl. unfold linked. simpl.
    repeat first [ split | eexists | reflexivity | (vm_compute; reflexivity)
                 | discriminate | exact I ].
  - apply (bool_decide_unpack _). vm_compute. exact I.
  - simpl. lia.
Defined.


(** ** The sibling lists *)

Lemma world_eq w w' : heap w' = heap w → trace w' = trace w → w' = w.
Proof. destruct w, w'. simpl. now intros -> ->. Qed.

Lemma dll_frame_siblings h h' p cur l :
  (∀ x o, x ∈ l → h !! x = Some o → ∃ o', h' !! x = Some o' ∧ siblings o' = siblings o) →
  dll h p cur l → dll h' p cur l.
Proof.
  revert p cur. induction l as [|c l IH]; intros p cur Hf; simpl; [auto|].
  intros (-> & o & Ho & Hp & Hd). split; [reflexivity|].
  destruct (Hf c o) as (o' & Ho' & Hs); [left | exact Ho |].
  exists o'. rewrite Hs. split; [exact Ho'|]. split; [exact Hp|].
  apply IH; [|exact Hd]. intros x ox Hx. apply Hf. now right.
Qed.

Lemma dll_in_heap h p cur l x : dll h p cur l → x ∈ l → is_Some (h !! x).
Proof.
  revert p cur. induction l as [|c l IH]; intros p cur; simpl; [intros _ Hx; inversion Hx|].
  intros (_ & o & Ho & _ & Hd) Hx. apply elem_of_cons in Hx as [-> | Hx]; eauto.
Qed.

Lemma last_ptr_cons p a l : last_ptr p (a :: l) = last_ptr (Some a) l.
Proof.
  unfold last_ptr. destruct l as [|b l]; [reflexivity|]. rewrite last_cons_cons.
  destruct (last (b :: l)) eqn:E; [reflexivity|]. apply last_None in E. discriminate.
Qed.

(** The links of an element in the middle of a sibling list. *)
Lemma dll_mid h p cur l1 c l2 :
  dll h p cur (l1 ++ c :: l2) →
  ∃ oc, h !! c = Some oc ∧ prev (siblings oc) = last_ptr p l1 ∧
        next (siblings oc) = head l2.
Proof.
  revert p cur. induction l1 as [|a l1 IH]; intros p cur; simpl.
  - intros (_ & oc & Hoc & Hp & Hd). exists oc. split; [exact Hoc|]. split; [exact Hp|].
    destruct l2 as [|n l2]; simpl in *; [exact Hd | exact (proj1 Hd)].
  - intros (_ & oa & _ & _ & Hd). destruct (IH _ _ Hd) as (oc & Hoc & Hp & Hn).
    exists oc. rewrite last_ptr_cons. auto.
Qed.

Lemma last_in {A} (l : list A) x : last l = Some x → x ∈ l.
Proof.
  induction l as [|a l IH]; [discriminate|]. destruct l as [|b l].
  - intros [= ->]. left.
  - rewrite last_cons_cons. intros H. right. auto.
Qed.

(** A sibling list from which the element [c] is taken out, the neighbours being
    linked to each other. *)
Lemma dll_remove h h' p cur l1 c l2 :
  dll h p cur (l1 ++ c :: l2) →
  NoDup (l1 ++ c :: l2) →
  (∀ x o, x ∈ l1 ++ l2 → h !! x = Some o →
     ∃ o', h' !! x = Some o' ∧
       prev (siblings o') =
         (if decide (head l2 = Some x) then last_ptr p l1 else prev (siblings o)) ∧
       next (siblings o') =
         (if decide (last l1 = Some x) then head l2 else next (siblings o))) →
  dll h' p (match l1 with [] => head l2 | _ => cur end) (l1 ++ l2).
Proof.
  revert p cur. induction l1 as [|a l1 IH]; intros p cur Hd Hnd Hf.
  - simpl in *. destruct Hd as (-> & oc & Hoc & Hp & Hd).
    apply NoDup_cons in Hnd as [Hc Hnd].
    destruct l2 as [|n l2]; simpl in *; [reflexivity|].
    destruct Hd as (Hn & on & Hon & Hpn & Hd). split; [reflexivity|].
    destruct (Hf n on) as (o' & Ho' & Hp' & Hn'); [left | exact Hon |].
    rewrite decide_True in Hp' by reflexivity.
    try (rewrite decide_False in Hn' by discriminate).
    exists o'. split; [exact Ho'|]. split; [exact Hp'|]. rewrite Hn'.
    apply NoDup_cons in Hnd as [Hnn Hnd].
    eapply dll_frame_siblings; [|exact Hd]. intros x ox Hx Hox.
    destruct (Hf x ox) as (ox' & Hox' & Hpx & Hnx); [now right | exact Hox |].
    rewrite decide_False in Hpx by (intros [= ->]; contradiction).
    try (rewrite decide_False in Hnx by discriminate).
    exists ox'. split; [exact Hox'|]. destruct (siblings ox'), (siblings ox). simpl in *.
    congruence.
  - simpl in Hd. destruct Hd as (-> & oa & Hoa & Hpa & Hd).
    simpl in Hnd. apply NoDup_cons in Hnd as [Ha Hnd].
    assert (Ha1 : a ∉ l1) by (intros H; apply Ha, elem_of_app; now left).
    assert (Ha2 : a ∉ l2) by (intros H; apply Ha, elem_of_app; right; now right).
    simpl. split; [reflexivity|].
    destruct (Hf a oa) as (oa' & Hoa' & Hpa' & Hna'); [left | exact Hoa |].
    rewrite decide_False in Hpa'.
    2:{ intros Hh. apply Ha2. destruct l2; [discriminate|]. injection Hh as ->. left. }
    exists oa'. split; [exact Hoa'|]. split; [congruence|].
    assert (Htail : ∀ x o, x ∈ l1 ++ l2 → h !! x = Some o →
      ∃ o', h' !! x = Some o' ∧
        prev (siblings o') =
          (if decide (head l2 = Some x) then last_ptr (Some a) l1 else prev (siblings o)) ∧
        next (siblings o') =
          (if decide (last l1 = Some x) then head l2 else next (siblings o))).
    { intros x o Hx Ho. destruct (Hf x o) as (o' & Ho' & Hp' & Hn'); [now right | exact Ho |].
      exists o'. split; [exact Ho'|]. rewrite last_ptr_cons in Hp'. split; [exact Hp'|].
      rewrite Hn'. assert (x ≠ a).
      { intros ->. apply elem_of_app in Hx as [?|?]; contradiction. }
      destruct l1 as [|b l1]; [|now rewrite last_cons_cons].
      simpl. rewrite decide_False by congruence.
      try (rewrite decide_False by discriminate). reflexivity. }
    specialize (IH (Some a) (next (siblings oa)) Hd Hnd Htail).
    rewrite Hna'. destruct l1 as [|b l1].
    + simpl. rewrite decide_True by reflexivity. exact IH.
    + rewrite decide_False; [exact IH|]. rewrite last_cons_cons. intros Hl.
      apply Ha1. now apply last_in.
Qed.

Ltac lk := repeat first [rewrite lookup_insert_eq | rewrite lookup_insert_ne by congruence].

Lemma head_in {A} (l : list A) x : head l = Some x → x ∈ l.
Proof. destruct l; [discriminate|]. intros [= ->]. left. Qed.

Lemma unlink_child_spec w p c op l1 l2 :
  heap w !! p = Some op →
  dll (heap w) None (next (children op)) (l1 ++ c :: l2) →
  NoDup (p :: l1 ++ c :: l2) →
  ∃ w' op' oc oc',
    unlink_child (Some p) c w = Done tt w' ∧ trace w' = trace w ∧
    heap w' !! p = Some op' ∧ siblings op' = siblings op ∧ same_but_links op op' ∧
    dll (heap w') None (next (children op')) (l1 ++ l2) ∧
    heap w !! c = Some oc ∧ heap w' !! c = Some oc' ∧
    siblings oc' = list_head_null ∧
    (∀ x o, heap w !! x = Some o → x ≠ p →
       ∃ o', heap w' !! x = Some o' ∧ children o' = children o ∧ same_but_links o o' ∧
             (x ∉ l1 ++ c :: l2 → o' = o)).
Proof.
  intros Hp Hd Hnd. apply NoDup_cons in Hnd as [Hpl Hnd].
  destruct (dll_mid _ _ _ _ _ _ Hd) as (oc & Hoc & Hprev & Hnext).
  assert (Hpc : p ≠ c) by (intros ->; apply Hpl, elem_of_app; right; left).
  assert (Hcp : c ≠ p) by congruence.
  assert (Hin : ∀ x, x ∈ l1 ++ l2 → x ≠ c ∧ x ≠ p ∧ is_Some (heap w !! x)).
  { intros x Hx. assert (Hx' : x ∈ l1 ++ c :: l2).
    { apply elem_of_app in Hx as [?|?]; apply elem_of_app; [now left | right; now right]. }
    split; [|split; [intros ->; contradiction | eapply dll_in_heap; eauto]].
    intros ->. apply NoDup_app in Hnd as (_ & Hdisj & Hnd2).
    apply NoDup_cons in Hnd2 as [Hc2 _].
    apply elem_of_app in Hx as [Hx|Hx]; [apply (Hdisj _ Hx); left | contradiction]. }
  unfold unlink_child, last_ptr in *.
  destruct (last l1) as [q|] eqn:Hlast; destruct (head l2) as [n|] eqn:Hhead.
  all: try (assert (Hq : q ∈ l1 ++ l2) by (apply elem_of_app; left; now apply last_in);
            destruct (Hin q Hq) as (Hqc & Hqp & oq & Hoq)).
  all: try (assert (Hn : n ∈ l1 ++ l2) by (apply elem_of_app; right; now apply head_in);
            destruct (Hin n Hn) as (Hnc & Hnp & on & Hon)).
  all: try (assert (Hhd : next (children op) = Some c)
              by (pose proof Hlast as Hl; apply last_None in Hl; rewrite Hl in Hd;
                  exact (proj1 Hd))).
  all: try (assert (Hqn : q ≠ n);
    [ intros ->; apply NoDup_app in Hnd as (_ & Hdisj & _);
      apply (Hdisj n); [now apply last_in | right; now apply head_in] |]).
  all: try (assert (p ≠ n) by congruence); try (assert (p ≠ q) by congruence);
    try (assert (n ≠ q) by congruence); try (assert (c ≠ n) by congruence);
    try (assert (c ≠ q) by congruence).
  all: mgo; try (rewrite decide_True by reflexivity); mgo.
  all: eexists _, _, oc, _; split; [reflexivity|]; cbn [heap trace].
  all: split; [reflexivity|].
  all: split; [lk; first [eassumption | reflexivity]|].
  all: split; [reflexivity|].
  all: split; [split; reflexivity|].
  all: split;
    [ match goal with
      | |- dll ?h' _ _ _ =>
          pose proof (dll_remove (heap w) h' None (next (children op)) l1 c l2) as Hrem
      end
    | split; [reflexivity|]; split; [lk; reflexivity|]; split; [reflexivity|];
      intros x o Hox Hxp;
      assert (Hcin : c ∈ l1 ++ c :: l2) by (apply elem_of_app; right; left);
      try (assert (Hqin : q ∈ l1 ++ c :: l2) by (apply elem_of_app; left; now apply last_in));
      try (assert (Hnin : n ∈ l1 ++ c :: l2)
             by (apply elem_of_app; right; right; now apply head_in));
      destruct (decide (x = c)) as [->|Hxc];
        [ assert (o = oc) as -> by congruence; lk; eexists; split; [reflexivity|];
          split; [reflexivity|]; split; [split; reflexivity|]; intros Hx; contradiction |];
      try (destruct (decide (x = q)) as [->|Hxq];
        [ assert (o = oq) as -> by congruence; lk; eexists; split; [reflexivity|];
          split; [reflexivity|]; split; [split; reflexivity|]; intros Hx; contradiction |]);
      try (destruct (decide (x = n)) as [->|Hxn];
        [ assert (o = on) as -> by congruence; lk; eexists; split; [reflexivity|];
          split; [reflexivity|]; split; [split; reflexivity|]; intros Hx; contradiction |]);
      lk; exists o; split; [exact Hox|]; split; [reflexivity|]; split; [split; reflexivity|];
      reflexivity ].
  all: specialize (Hrem Hd Hnd).
  all: match type of Hrem with
       | ?P → _ => assert (Hpw : P); [clear Hrem | specialize (Hrem Hpw)]
       end.
  all: try (intros x o Hx Ho; destruct (Hin x Hx) as (Hxc & Hxp & _);
            unfold last_ptr; rewrite Hlast, Hhead;
            repeat case_decide; simplify_eq; lk;
            (eexists; split; [first [eassumption | reflexivity]|]); simpl; auto; fail).
  all: first
    [ destruct l1; [discriminate Hlast | exact Hrem]
    | apply last_None in Hlast; subst l1; simpl in *; rewrite Hhead in Hrem; exact Hrem ].
Qed.

Lemma link_child_spec w p c op oc l :
  heap w !! p = Some op → heap w !! c = Some oc → siblings oc = list_head_null →
  dll (heap w) None (next (children op)) l → NoDup (p :: c :: l) →
  ∃ w' op' oc',
    link_child p c w = Done tt w' ∧ trace w' = trace w ∧
    heap w' !! p = Some op' ∧ siblings op' = siblings op ∧ same_but_links op op' ∧
    dll (heap w') None (next (children op')) (c :: l) ∧
    heap w' !! c = Some oc' ∧ prev (siblings oc') = None ∧
    (∀ x o, heap w !! x = Some o → x ≠ p →
       ∃ o', heap w' !! x = Some o' ∧ children o' = children o ∧ same_but_links o o' ∧
             (x ∉ c :: l → o' = o)).
Proof.
  intros Hp Hc Hs Hd Hnd. apply NoDup_cons in Hnd as [Hpl Hnd].
  apply NoDup_cons in Hnd as [Hcl Hnd].
  assert (Hpc : p ≠ c) by (intros ->; apply Hpl; left).
  assert (Hcp : c ≠ p) by congruence.
  unfold link_child. destruct l as [|s l]; simpl in Hd.
  - mgo. eexists _, _, _. split; [reflexivity|]. cbn [heap trace].
    split; [reflexivity|]. split; [lk; reflexivity|]. split; [reflexivity|].
    split; [split; reflexivity|].
    split.
    { simpl. split; [reflexivity|]. exists oc. lk. rewrite Hs. simpl. auto. }
    split; [lk; exact Hc|]. split; [now rewrite Hs|].
    intros x o Hox Hxp. lk. exists o. split; [exact Hox|]. split; [reflexivity|].
    split; [split; reflexivity | reflexivity].
  - destruct Hd as (Hn & os & Hos & Hps & Hd).
    assert (Hsp : s ≠ p) by (intros ->; apply Hpl; right; left).
    assert (Hsc : s ≠ c) by (intros ->; apply Hcl; left).
    assert (p ≠ s) by congruence. assert (c ≠ s) by congruence.
    apply NoDup_cons in Hnd as [Hsl Hnd].
    mgo. eexists _, _, _. split; [reflexivity|]. cbn [heap trace].
    split; [reflexivity|]. split; [lk; reflexivity|]. split; [reflexivity|].
    split; [split; reflexivity|].
    split.
    { simpl. split; [reflexivity|]. eexists. lk. split; [reflexivity|]. simpl.
      split; [now rewrite Hs|]. split; [reflexivity|]. eexists. lk.
      split; [reflexivity|]. simpl. split; [reflexivity|].
      eapply dll_frame; [|exact Hd]. intros x Hx.
      assert (x ≠ p) by (intros ->; apply Hpl; right; now right).
      assert (x ≠ c) by (intros ->; apply Hcl; now right).
      assert (x ≠ s) by (intros ->; contradiction). lk. reflexivity. }
    split; [lk; reflexivity|]. split; [simpl; now rewrite Hs|].
    intros x o Hox Hxp.
    destruct (decide (x = c)) as [->|Hxc];
      [ assert (o = oc) as -> by congruence; lk; eexists; split; [reflexivity|];
        split; [reflexivity|]; split; [split; reflexivity|]; intros Hx; exfalso; apply Hx;
        left |].
    destruct (decide (x = s)) as [->|Hxs];
      [ assert (o = os) as -> by congruence; lk; eexists; split; [reflexivity|];
        split; [reflexivity|]; split; [split; reflexivity|]; intros Hx; exfalso; apply Hx;
        right; left |].
    lk. exists o. split; [exact Hox|]. split; [reflexivity|].
    split; [split; reflexivity | reflexivity].
Qed.

(** X1: [link_child] puts a new child, whose own links are clear, at the head of the
    children of the parent: the sibling list of the parent, well formed before, is the
    child followed by the old list.  The engine is not called, and every object keeps
    its validity and its fields; only the sibling links of the child and of the old
    head and the child pointer of the parent are written. *)
Theorem link_child_head w p c op oc l :
  heap w !! p = Some op → heap w !! c = Some oc → siblings oc = list_head_null →
  dll (heap w) None (next (children op)) l → NoDup (p :: c :: l) →
  ∃ w' op' oc',
    link_child p c w = Done tt w' ∧ trace w' = trace w ∧
    heap w' !! p = Some op' ∧ siblings op' = siblings op ∧ same_but_links op op' ∧
    dll (heap w') None (next (children op')) (c :: l) ∧
    heap w' !! c = Some oc' ∧ prev (siblings oc') = None ∧
    (∀ x o, heap w !! x = Some o → x ≠ p →
       ∃ o', heap w' !! x = Some o' ∧ children o' = children o ∧ same_but_links o o' ∧
             (x ∉ c :: l → o' = o)).
Proof. apply link_child_spec. Qed.

(** X2: [unlink_child] takes a child out of the sibling list of its parent wherever it
    stands, at the head, in the middle or at the end: the list stays well formed and is
    the old one without the child, and the links of the child are cleared.  Every
    object keeps its validity and its fields, and objects outside the list are not
    written. *)
Theorem unlink_child_removes w p c op l1 l2 :
  heap w !! p = Some op →
  dll (heap w) None (next (children op)) (l1 ++ c :: l2) →
  NoDup (p :: l1 ++ c :: l2) →
  ∃ w' op' oc oc',
    unlink_child (Some p) c w = Done tt w' ∧ trace w' = trace w ∧
    heap w' !! p = Some op' ∧ siblings op' = siblings op ∧ same_but_links op op' ∧
    dll (heap w') None (next (children op')) (l1 ++ l2) ∧
    heap w !! c = Some oc ∧ heap w' !! c = Some oc' ∧
    siblings oc' = list_head_null ∧
    (∀ x o, heap w !! x = Some o → x ≠ p →
       ∃ o', heap w' !! x = Some o' ∧ children o' = children o ∧ same_but_links o o' ∧
             (x ∉ l1 ++ c :: l2 → o' = o)).
Proof. apply unlink_child_spec. Qed.

Lemma link_unlink_spec w p c op oc l :
  heap w !! p = Some op → heap w !! c = Some oc → siblings oc = list_head_null →
  dll (heap w) None (next (children op)) l → NoDup (p :: c :: l) →
  (link_child p c ;;; unlink_child (Some p) c) w = Done tt w.
Proof.
  intros Hp Hc Hs Hd Hnd. apply NoDup_cons in Hnd as [Hpl Hnd].
  apply NoDup_cons in Hnd as [Hcl Hnd].
  assert (Hpc : p ≠ c) by (intros ->; apply Hpl; left).
  assert (Hcp : c ≠ p) by congruence.
  unfold link_child, unlink_child. destruct l as [|s l]; simpl in Hd.
  - mgo. rewrite decide_True by reflexivity. mgo. f_equal.
    apply world_eq; [|reflexivity]. cbn [heap]. apply map_eq. intros x.
    destruct (decide (x = c)) as [->|]; [|destruct (decide (x = p)) as [->|]]; lk.
    + rewrite Hc. f_equal. destruct oc as [[] ? ? ?]. simpl in Hs. now inversion Hs.
    + rewrite Hp. f_equal. destruct op as [? [] ? ?]. simpl in *. now subst.
    + reflexivity.
  - destruct Hd as (Hn & os & Hos & Hps & Hd).
    assert (Hsp : s ≠ p) by (intros ->; apply Hpl; right; left).
    assert (Hsc : s ≠ c) by (intros ->; apply Hcl; left).
    assert (p ≠ s) by congruence. assert (c ≠ s) by congruence.
    mgo. rewrite decide_True by reflexivity. mgo. f_equal.
    apply world_eq; [|reflexivity]. cbn [heap]. apply map_eq. intros x.
    destruct (decide (x = c)) as [->|]; [|destruct (decide (x = p)) as [->|];
      [|destruct (decide (x = s)) as [->|]]]; lk.
    + rewrite Hc. f_equal. destruct oc as [[] ? ? ?]. simpl in Hs. now inversion Hs.
    + rewrite Hp. f_equal. destruct op as [? [] ? ?]. simpl in *. now subst.
    + rewrite Hos. f_equal. destruct os as [[] ? ? ?]. simpl in *. now subst.
    + reflexivity.
Qed.

(** X3: [link_child] followed by [unlink_child] of the same child leaves the state as it
    was. *)
Theorem link_unlink_round_trip w p c op oc l :
  heap w !! p = Some op → heap w !! c = Some oc → siblings oc = list_head_null →
  dll (heap w) None (next (children op)) l → NoDup (p :: c :: l) →
  (link_child p c ;;; unlink_child (Some p) c) w = Done tt w.
Proof. apply link_unlink_spec. Qed.

(** X4: a second [unlink_child] of the same child changes nothing: unlinking twice
    is unlinking once. *)
Theorem unlink_child_twice w p c op l1 l2 :
  heap w !! p = Some op →
  dll (heap w) None (next (children op)) (l1 ++ c :: l2) →
  NoDup (p :: l1 ++ c :: l2) →
  (unlink_child (Some p) c ;;; unlink_child (Some p) c) w = unlink_child (Some p) c w.
Proof.
  intros Hp Hd Hnd.
  destruct (unlink_child_spec w p c op l1 l2 Hp Hd Hnd)
    as (w' & op' & oc & oc' & Hrun & Htr & Hp' & _ & _ & Hd' & Hc & Hc' & Hs' & _).
  unfold bind at 1. rewrite Hrun.
  assert (Hhd : next (children op') ≠ Some c).
  { intros Heq. rewrite Heq in Hd'. apply NoDup_cons in Hnd as [_ Hnd].
    apply NoDup_app in Hnd as (_ & Hdisj & Hnd2). apply NoDup_cons in Hnd2 as [Hc2 _].
    destruct l1 as [|a l1]; simpl in Hd'.
    - destruct l2 as [|n l2]; simpl in Hd'; [discriminate|].
      destruct Hd' as ([= Heq'] & _). apply Hc2. rewrite Heq'. left.
    - destruct Hd' as ([= Heq'] & _). apply (Hdisj a); [left | rewrite <- Heq'; left]. }
  unfold unlink_child. mgo. rewrite decide_False by exact Hhd. mgo.
  f_equal. apply world_eq; [|cbn [trace]; congruence]. cbn [heap]. apply map_eq. intros x.
  destruct (decide (x = c)) as [->|]; lk; [|reflexivity].
  rewrite Hc'. f_equal. destruct oc' as [[] ? ? ?]. simpl in Hs'. now inversion Hs'.
Qed.

Ltac by_computation :=
  repeat first [ split | eexists | reflexivity | (vm_compute; reflexivity)
               | (apply (bool_decide_unpack _); vm_compute; exact I) ].

Lemma unlink_child_removes_witness :
  ∃ w' op' oc oc',
    unlink_child (Some 0%nat) 2%nat w_nested = Done tt w' ∧ trace w' = trace w_nested ∧
    heap w' !! 0%nat = Some op' ∧
    dll (heap w') None (next (children op')) [3%nat; 1%nat] ∧
    heap w_nested !! 2%nat = Some oc ∧ heap w' !! 2%nat = Some oc' ∧
    siblings oc' = list_head_null.
Proof.
  destruct (unlink_child_removes w_nested 0%nat 2%nat
              (mk_object list_head_null (mk_list_head None (Some 3%nat)) true
                 (BEnv (mk_env (Some 7%nat) (Some 1%nat) false)))
              [3%nat] [1%nat])
    as (w' & op' & oc & oc' & H1 & H2 & H3 & _ & _ & H4 & H5 & H6 & H7 & _).
  - vm_compute; reflexivity.
  - simpl. by_computation.
  - apply (bool_decide_unpack _). vm_compute. exact I.
  - exists w', op', oc, oc'. auto 10.
Defined.

Lemma link_child_head_witness :
  ∃ w' op' oc',
    link_child 0%nat 3%nat w_new = Done tt w' ∧ trace w' = trace w_new ∧
    heap w' !! 0%nat = Some op' ∧
    dll (heap w') None (next (children op')) [3%nat; 2%nat; 1%nat] ∧
    heap w' !! 3%nat = Some oc'.
Proof.
  destruct (link_child_head w_new 0%nat 3%nat
              (mk_object list_head_null (mk_list_head None (Some 2%nat)) true
                 (BEnv (mk_env (Some 7%nat) (Some 1%nat) false)))
              (OBJECT_INIT (BTrans (mk_trans (Some 0%nat) (Some 101%nat) false)))
              [2%nat; 1%nat])
    as (w' & op' & oc' & H1 & H2 & H3 & _ & _ & H4 & H5 & _).
  - vm_compute; reflexivity.
  - vm_compute; reflexivity.
  - reflexivity.
  - simpl. by_computation.
  - apply (bool_decide_unpack _). vm_compute. exact I.
  - exists w', op', oc'. auto 10.
Defined.

Lemma link_unlink_round_trip_witness :
  (link_child 0%nat 3%nat ;;; unlink_child (Some 0%nat) 3%nat) w_new = Done tt w_new.
Proof.
  apply (link_unlink_round_trip w_new 0%nat 3%nat
           (mk_object list_head_null (mk_list_head None (Some 2%nat)) true
              (BEnv (mk_env (Some 7%nat) (Some 1%nat) false)))
           (OBJECT_INIT (BTrans (mk_trans (Some 0%nat) (Some 101%nat) false)))
           [2%nat; 1%nat]).
  - vm_compute; reflexivity.
  - vm_compute; reflexivity.
  - reflexivity.
  - simpl. by_computation.
  - apply (bool_decide_unpack _). vm_compute. exact I.
Defined.

Lemma unlink_child_twice_witness :
  (unlink_child (Some 0%nat) 2%nat ;;; unlink_child (Some 0%nat) 2%nat) w_nested
  = unlink_child (Some 0%nat) 2%nat w_nested.
Proof.
  apply (unlink_child_twice w_nested 0%nat 2%nat
           (mk_object list_head_null (mk_list_head None (Some 3%nat)) true
              (BEnv (mk_env (Some 7%nat) (Some 1%nat) false)))
           [3%nat] [1%nat]).
  - vm_compute; reflexivity.
  - simpl. by_computation.
  - apply (bool_decide_unpack _). vm_compute. exact I.
Defined.

(** ** New handles in the invalidation tree *)

#[global] Arguments link_child : simpl never.

Lemma root_graft p new t : root (graft p new t) = root t.
Proof. now destruct t. Qed.

Lemma map_root_graft p new ks : map root (map (graft p new) ks) = map root ks.
Proof. rewrite map_map. apply map_ext. intros k. apply root_graft. Qed.

Lemma linked_owner h a k o : linked h a k → h !! root k = Some o → owner o = Some a.
Proof.
  intros (o' & Ho' & Hl) Ho. rewrite Ho in Ho'. injection Ho' as <-. unfold owner.
  destruct (body o); [apply Hl | contradiction | apply Hl | apply Hl].
Qed.

Lemma shape_in_heap h t x : shape h t → x ∈ nodes t → is_Some (h !! x).
Proof.
  induction t as [a ks IH] using tree_ind'. rewrite shape_unfold.
  intros [(o & Ho & _) Hks] Hx. simpl in Hx. apply elem_of_cons in Hx as [-> | Hx]; [eauto|].
  apply elem_of_flat_map in Hx as (k & Hk & Hx). rewrite Forall_forall in IH, Hks.
  apply (IH k); [exact Hk | apply Hks; exact Hk | exact Hx].
Qed.

Lemma shape_at h t p : shape h t → p ∈ nodes t → ∃ ks, shape h (Node p ks).
Proof.
  induction t as [a ks IH] using tree_ind'. intros Hs Hp. simpl in Hp.
  apply elem_of_cons in Hp as [-> | Hp]; [eauto|].
  apply elem_of_flat_map in Hp as (k & Hk & Hp). rewrite Forall_forall in IH.
  apply shape_unfold in Hs as [_ Hks]. rewrite Forall_forall in Hks.
  apply (IH k Hk); [apply (Hks k Hk) | exact Hp].
Qed.

Lemma dll_functional h p cur l l' : dll h p cur l → dll h p cur l' → l = l'.
Proof.
  revert p cur l'. induction l as [|c l IH]; intros p cur [|c' l']; simpl.
  - reflexivity.
  - intros -> (? & _). discriminate.
  - intros (-> & _) ?. discriminate.
  - intros (-> & o & Ho & _ & Hd) ([= <-] & o' & Ho' & _ & Hd').
    assert (o' = o) as -> by congruence. f_equal. eapply IH; eauto.
Qed.

Lemma shape_graft h h' p new t :
  grafted h h' p new → shape h t → shape h' (graft p new t).
Proof.
  intros (Hfr & (op & op' & Hop & Hop' & Hsp & (Hvp & Hbp) & Hv & Hnd & Hdll) & Hnew).
  induction t as [a ks IH] using tree_ind'. intros Hs.
  pose proof Hs as Hs0. apply shape_unfold in Hs as [(o & Ho & Hd) Hks].
  simpl. apply shape_unfold. rewrite map_app, map_root_graft.
  assert (Hkids : Forall (λ k, linked h' a k ∧ shape h' k) (map (graft p new) ks)).
  { apply Forall_map. rewrite Forall_forall in *. intros k Hk.
    destruct (Hks k Hk) as [Hl Hsk]. split; [|apply IH; auto].
    destruct Hl as (ok & Hok & Hl). unfold linked. rewrite root_graft.
    destruct (decide (root k = p)) as [Heq|Hne].
    - rewrite Heq in *. assert (ok = op) as -> by congruence.
      exists op'. split; [exact Hop'|]. rewrite Hbp, Hvp.
      destruct (body op) as [d|e|tr|cu]; [now destruct (Hnd d) | exact Hl | |exact Hl].
      split; [apply Hl | congruence].
    - destruct (Hfr _ _ Hok Hne) as (ok' & Hok' & _ & (Hvk & Hbk) & _).
      exists ok'. split; [exact Hok'|]. rewrite Hbk, Hvk.
      assert (Hkk : kids k = [] → kids (graft p new k) = []).
      { destruct k as [r kk]. simpl in *. intros ->. now rewrite decide_False by exact Hne. }
      destruct (body ok) as [d|e|tr|cu]; [| exact Hl | | exact Hl].
      + split; [apply Hl | apply Hkk, Hl].
      + split; [apply Hl|]. intros Hf. apply Hkk. now apply Hl. }
  destruct (decide (a = p)) as [->|Hne].
  - assert (o = op) as -> by congruence. split.
    + exists op'. split; [exact Hop'|]. simpl. apply (Hdll ks Hs0).
    + simpl. constructor; [exact Hnew | exact Hkids].
  - destruct (Hfr _ _ Ho Hne) as (o' & Ho' & Hc' & _ & _). split; [|exact Hkids].
    exists o'. split; [exact Ho'|]. rewrite Hc'. simpl.
    eapply dll_frame_siblings; [|exact Hd]. intros x ox Hx Hox.
    apply list_elem_of_fmap in Hx as (k & -> & Hk). rewrite Forall_forall in Hks.
    destruct (Hks k Hk) as [Hl _].
    pose proof (linked_owner _ _ _ _ Hl Hox) as Hown.
    destruct (decide (root k = p)) as [Heq|Hne'].
    + rewrite Heq in *. assert (ox = op) as -> by congruence. eauto.
    + destruct (Hfr _ _ Hox Hne') as (ox' & Hox' & _ & _ & Hsib).
      exists ox'. split; [exact Hox'|]. apply Hsib. congruence.
Qed.

Lemma roots_sublist ks : sublist (map root ks) (flat_map nodes ks).
Proof.
  induction ks as [|[a kk] ks IH]; simpl; [constructor|].
  apply sublist_skip. now apply sublist_inserts_l.
Qed.

Lemma NoDup_kid ks k : NoDup (flat_map nodes ks) → k ∈ ks → NoDup (nodes k).
Proof.
  induction ks as [|k' ks IH]; simpl; intros Hnd Hk; [inversion Hk|].
  apply NoDup_app in Hnd as (H1 & _ & H2).
  apply elem_of_cons in Hk as [-> | Hk]; auto.
Qed.

(** The subtree at a node of a tree. *)
Lemma shape_sub h t p :
  shape h t → p ∈ nodes t →
  ∃ ks, shape h (Node p ks) ∧ (∀ x, x ∈ nodes (Node p ks) → x ∈ nodes t) ∧
        (NoDup (nodes t) → NoDup (nodes (Node p ks))).
Proof.
  induction t as [a ks IH] using tree_ind'. intros Hs Hp. simpl in Hp.
  apply elem_of_cons in Hp as [-> | Hp]; [eauto|].
  apply elem_of_flat_map in Hp as (k & Hk & Hp). rewrite Forall_forall in IH.
  apply shape_unfold in Hs as [_ Hks]. rewrite Forall_forall in Hks.
  destruct (IH k Hk (proj2 (Hks k Hk)) Hp) as (ks' & Hs' & Hsub & Hnd').
  exists ks'. split; [exact Hs'|]. split.
  - intros x Hx. simpl. right. apply elem_of_flat_map. eauto.
  - intros Hnd. apply Hnd'. simpl in Hnd. apply NoDup_cons in Hnd as [_ Hnd].
    eapply NoDup_kid; eauto.
Qed.

Lemma link_child_grafts w p c op oc t :
  heap w !! p = Some op → valid op = true → (∀ d, body op ≠ BDb d) →
  heap w !! c = Some oc → siblings oc = list_head_null → children oc = list_head_null →
  valid oc = true → owner oc = Some p → (∀ e, body oc ≠ BEnv e) →
  shape (heap w) t → NoDup (nodes t) → p ∈ nodes t → (c ∉ nodes t) →
  ∃ w', link_child p c w = Done tt w' ∧ trace w' = trace w ∧
    grafted (heap w) (heap w') p c ∧
    (∃ oc', heap w' !! c = Some oc' ∧ same_but_links oc oc').
Proof.
  intros Hp Hvp Hbp Hc Hsc Hcc Hvc Hoc Hbc Hs Hnd Hpt Hct.
  destruct (shape_sub _ _ _ Hs Hpt) as (ks & Hsp & Hsub & Hndp). specialize (Hndp Hnd).
  pose proof Hsp as Hsp0. apply shape_unfold in Hsp as [(op0 & Hop0 & Hdl) Hks].
  assert (op0 = op) as -> by congruence.
  assert (Hcp : c ∉ nodes (Node p ks)) by (intros Hin; apply Hct, Hsub, Hin).
  assert (Hnd3 : NoDup (p :: c :: map root ks)).
  { simpl in Hndp, Hcp. apply NoDup_cons in Hndp as [Hpk Hndk].
    pose proof (roots_sublist ks) as Hsl.
    apply NoDup_cons. split.
    - intros Hin. apply elem_of_cons in Hin as [-> | Hin]; [apply Hcp; left|].
      apply Hpk. eapply elem_of_sublist; eauto.
    - apply NoDup_cons. split; [|eapply sublist_NoDup; eauto].
      intros Hin. apply Hcp. right. eapply elem_of_sublist; eauto. }
  destruct (link_child_spec w p c op oc (map root ks) Hp Hc Hsc Hdl Hnd3)
    as (w' & op' & oc' & Hrun & Htr & Hp' & Hsibp & Hsbp & Hd' & Hc' & Hpc' & Hoth).
  assert (Hpc : c ≠ p) by (intros ->; apply Hcp; left).
  destruct (Hoth c oc Hc Hpc) as (oc'' & Hc'' & Hcc' & Hsbc & _).
  assert (oc'' = oc') as -> by congruence.
  exists w'. split; [exact Hrun|]. split; [exact Htr|]. split; [|eauto].
  split; [|split].
  - intros x o Hox Hxp. destruct (Hoth x o Hox Hxp) as (o' & Ho' & Hch & Hsb & Hsame).
    exists o'. split; [exact Ho'|]. split; [exact Hch|]. split; [exact Hsb|].
    intros Hown. rewrite Hsame; [reflexivity|]. intros Hin.
    apply elem_of_cons in Hin as [-> | Hin]; [congruence|].
    apply list_elem_of_fmap in Hin as (k & -> & Hk). rewrite Forall_forall in Hks.
    apply Hown. eapply linked_owner; [apply (Hks k Hk) | exact Hox].
  - exists op, op'. split; [exact Hp|]. split; [exact Hp'|].
    split; [exact Hsibp|]. split; [exact Hsbp|]. split; [exact Hvp|]. split; [exact Hbp|].
    intros ks' Hs'. apply shape_unfold in Hs' as [(op0 & Hop0' & Hdl') _].
    assert (op0 = op) as -> by congruence.
    rewrite (dll_functional _ _ _ _ _ Hdl' Hdl). exact Hd'.
  - destruct Hsbc as [Hv' Hb']. split.
    + exists oc'. split; [exact Hc'|]. unfold owner in Hoc. rewrite Hb'.
      destruct (body oc) as [d|e|tr|cu]; [| now destruct (Hbc e) | |].
      * split; [exact Hoc | reflexivity].
      * split; [exact Hoc | reflexivity].
      * split; [exact Hoc | congruence].
    + apply shape_unfold. split; [|constructor]. exists oc'. split; [exact Hc'|].
      rewrite Hcc', Hcc. reflexivity.
Qed.

Lemma nodes_graft_kids p new ks :
  NoDup (flat_map nodes ks) →
  Forall (λ k, NoDup (nodes k) →
               nodes (graft p new k) ≡ₚ
                 (if decide (p ∈ nodes k) then [new] else []) ++ nodes k) ks →
  flat_map nodes (map (graft p new) ks) ≡ₚ
    (if decide (p ∈ flat_map nodes ks) then [new] else []) ++ flat_map nodes ks.
Proof.
  induction ks as [|k ks IH]; intros Hnd Hall; simpl.
  - first [reflexivity | rewrite decide_False; [reflexivity | intros H; inversion H]].
  - simpl in Hnd. apply Forall_cons in Hall as [Hk Hks].
    pose proof Hnd as Hnd0. apply NoDup_app in Hnd as (Hn1 & Hdisj & Hn2).
    rewrite (Hk Hn1), (IH Hn2 Hks).
    destruct (decide (p ∈ nodes k)) as [H1|H1];
      destruct (decide (p ∈ flat_map nodes ks)) as [H2|H2].
    + destruct (Hdisj p H1 H2).
    + rewrite decide_True by (apply elem_of_app; now left). simpl. reflexivity.
    + rewrite decide_True by (apply elem_of_app; now right). simpl.
      now rewrite Permutation_middle.
    + rewrite decide_False; [reflexivity|]. intros H. apply elem_of_app in H. tauto.
Qed.

Lemma nodes_graft p new t :
  NoDup (nodes t) →
  nodes (graft p new t) ≡ₚ (if decide (p ∈ nodes t) then [new] else []) ++ nodes t.
Proof.
  induction t as [a ks IH] using tree_ind'. intros Hnd. simpl in *.
  apply NoDup_cons in Hnd as [Ha Hnd].
  rewrite flat_map_app, (nodes_graft_kids p new ks Hnd IH).
  destruct (decide (a = p)) as [->|Hne].
  - destruct (decide (p ∈ flat_map nodes ks)) as [H|_]; [contradiction|].
    destruct (decide (p ∈ p :: flat_map nodes ks)) as [_|H]; [|exfalso; apply H; left].
    simpl. apply perm_swap.
  - simpl. destruct (decide (p ∈ flat_map nodes ks)) as [H|H];
      destruct (decide (p ∈ a :: flat_map nodes ks)) as [H'|H'].
    + simpl. apply perm_swap.
    + exfalso. apply H'. now right.
    + apply elem_of_cons in H' as [->|H']; [now destruct Hne | contradiction].
    + reflexivity.
Qed.

Lemma NoDup_graft p new t :
  NoDup (nodes t) → (new ∉ nodes t) → NoDup (nodes (graft p new t)).
Proof.
  intros Hnd Hnew. rewrite (nodes_graft p new t Hnd).
  destruct (decide (p ∈ nodes t)); simpl; [|exact Hnd].
  apply NoDup_cons. auto.
Qed.

Lemma fresh_not_in_heap (h : gmap addr lmdb_object) : h !! fresh (dom h) = None.
Proof. apply not_elem_of_dom. apply is_fresh. Qed.

(** A new object, initialised but not linked yet, can be linked below a valid handle
    of the tree. *)
Lemma new_child_grafts w tr p op b t :
  heap w !! p = Some op → valid op = true → (∀ d, body op ≠ BDb d) →
  owner (OBJECT_INIT b) = Some p → (∀ e, b ≠ BEnv e) →
  shape (heap w) t → NoDup (nodes t) → p ∈ nodes t →
  let new := fresh (dom (heap w)) in
  ∃ w', link_child p new (mk_world (<[new := OBJECT_INIT b]> (heap w)) tr) = Done tt w' ∧
    trace w' = tr ∧ heap w !! new = None ∧
    (∃ on, heap w' !! new = Some on ∧ valid on = true ∧ body on = b) ∧
    shape (heap w') (graft p new t) ∧ NoDup (nodes (graft p new t)).
Proof.
  intros Hp Hvp Hbp Hown Hbe Hs Hnd Hpt new.
  pose proof (fresh_not_in_heap (heap w)) as Hnew. fold new in Hnew.
  assert (Hnt : new ∉ nodes t).
  { intros Hin. destruct (shape_in_heap _ _ _ Hs Hin) as (? & ?). congruence. }
  assert (Hpn : p ≠ new) by (intros ->; congruence).
  set (w1 := mk_world (<[new := OBJECT_INIT b]> (heap w)) tr).
  assert (Hs1 : shape (heap w1) t).
  { apply (shape_frame (heap w)); [|exact Hs]. intros x Hx. simpl.
    apply lookup_insert_ne. intros <-. contradiction. }
  destruct (link_child_grafts w1 p new op (OBJECT_INIT b) t)
    as (w' & Hrun & Htr & Hg & (on & Hon & Hv & Hb)); auto.
  { simpl. now rewrite lookup_insert_ne by congruence. }
  { simpl. apply lookup_insert_eq. }
  exists w'. split; [exact Hrun|]. split; [exact Htr|]. split; [exact Hnew|].
  split; [eauto|]. split; [eapply shape_graft; eauto | now apply NoDup_graft].
Qed.

Section Grafts.
Context {K : lmdb_h} {E : Engine}.

(** X5: [env.begin()] on a valid environment, when [mdb_txn_begin] succeeds, makes one
    call of the engine (with no flags for a write transaction, with [MDB_RDONLY]
    otherwise, and with the transaction of the parent if one is given) and returns a new
    handle, valid, that holds the transaction the engine has returned.  The handle is
    the first child of the environment, also when a parent is given, and the
    invalidation tree stays well formed and free of duplicates. *)
Theorem env_begin_grafts self o e a ptxn t w :
  heap w !! self = Some o → valid o = true → body o = BEnv e →
  begin_parent w (ba_parent a) ptxn →
  (e_readonly e = true → default false (ba_write a) = false) →
  let c := mdb_txn_begin (e_env e) ptxn
             (if default false (ba_write a) then 0 else MDB_RDONLY) in
  let r := engine_reply (trace w) c in
  rc r = 0 →
  shape (heap w) t → NoDup (nodes t) → self ∈ nodes t →
  ∃ new w',
    env_begin self (Args a) w = Done (Return (PyHandle new)) w' ∧
    heap w !! new = None ∧ trace w' = trace w ++ [c] ∧
    (∃ on, heap w' !! new = Some on ∧ valid on = true ∧
       body on = BTrans (mk_trans (Some self) (Some (out_ptr r))
                                  (default false (ba_buffers a)))) ∧
    shape (heap w') (graft self new t) ∧ NoDup (nodes (graft self new t)).
Proof.
  intros Ho Hv Hb Hpar Hro c r Hrc Hs Hnd Hin.
  assert (Hbd : ∀ d, body o ≠ BDb d) by (intros d; rewrite Hb; discriminate).
  destruct (new_child_grafts w (trace w ++ [c]) self o
              (BTrans (mk_trans (Some self) (Some (out_ptr r))
                                (default false (ba_buffers a)))) t)
    as (w' & Hrun & Htr & Hnew & Hon & Hsh & Hnd'); auto.
  exists (fresh (dom (heap w))), w'. split; [|auto 6].
  unfold env_begin, make_trans, parse_args.
  assert (Hflags : (if default false (ba_write a) && negb (e_readonly e)
                    then 0 else MDB_RDONLY)
                   = (if default false (ba_write a) then 0 else MDB_RDONLY)).
  { destruct (default false (ba_write a)), (e_readonly e); try reflexivity.
    now specialize (Hro eq_refl). }
  assert (Hwr : default false (ba_write a) && e_readonly e = false).
  { destruct (default false (ba_write a)), (e_readonly e); try reflexivity.
    now specialize (Hro eq_refl). }
  unfold begin_parent in Hpar.
  destruct (ba_parent a) as [pa|] eqn:Hpa;
    [destruct Hpar as (po & pt & Hpo & Hvo & Hbo & ->)| subst ptxn].
  all: mgo; rewrite ?Hflags; fold c; fold r;
    try (rewrite decide_False by (rewrite Hrc; auto)).
  all: unfold PyObject_New; simpl; fold c; fold r. all: rewrite Hrun; reflexivity.
Qed.

(** X6: [txn.cursor()] on a valid transaction, when [mdb_cursor_open] succeeds, makes
    that one call and returns a new handle, valid and not positioned, that is the first
    child of the transaction; the invalidation tree stays well formed and free of
    duplicates. *)
Theorem trans_cursor_grafts self db tr d t w :
  active_trans w self db tr d →
  let c := mdb_cursor_open (t_txn tr) (d_dbi d) in
  let r := engine_reply (trace w) c in
  rc r = 0 →
  shape (heap w) t → NoDup (nodes t) → self ∈ nodes t →
  ∃ new w',
    trans_cursor self (Args db) w = Done (Return (PyHandle new)) w' ∧
    heap w !! new = None ∧ trace w' = trace w ++ [c] ∧
    (∃ on, heap w' !! new = Some on ∧ valid on = true ∧
       body on = BCursor (mk_cursor (Some self) false (Some (out_ptr r))
                                    val_null val_null)) ∧
    shape (heap w') (graft self new t) ∧ NoDup (nodes (graft self new t)).
Proof.
  intros (o & e & Ho & Hv & Hb & He & Hd) c r Hrc Hs Hnd Hin.
  assert (Hbd : ∀ d', body o ≠ BDb d') by (intros d'; rewrite Hb; discriminate).
  destruct (new_child_grafts w (trace w ++ [c]) self o
              (BCursor (mk_cursor (Some self) false (Some (out_ptr r))
                                  val_null val_null)) t)
    as (w' & Hrun & Htr & Hnew & Hon & Hsh & Hnd'); auto.
  exists (fresh (dom (heap w))), w'. split; [|auto 6].
  apply load_env_inv in He as (ea & eo & Hte & Heo & Hbe & _).
  apply load_db_inv in Hd as (da & do & Hdb & Hdo & Hbdo & _).
  unfold trans_cursor, make_cursor, parse_args.
  destruct db as [db|]; simpl in Hdb.
  all: mgo; fold c; fold r; try (rewrite decide_False by (rewrite Hrc; auto)).
  all: unfold PyObject_New; simpl; fold c; fold r; rewrite Hrun; reflexivity.
Qed.

End Grafts.

(** The tree of [w_open] and of [w_txn]. *)
Lemma env_begin_grafts_witness :
  ∃ new w',
    env_begin (K := lmdb_0_9) (E := engine_ok) 0%nat
      (Args (mk_begin_args None (Some true) None)) (w_open false)
      = Done (Return (PyHandle new)) w' ∧
    is_valid w' new ∧
    shape (heap w') (graft 0%nat new (Node 0%nat [Node 1%nat []])).
Proof.
  destruct (env_begin_grafts (K := lmdb_0_9) (E := engine_ok) 0%nat
              (mk_object list_head_null (mk_list_head None (Some 1%nat)) true
                 (BEnv (mk_env (Some 7%nat) (Some 1%nat) false)))
              (mk_env (Some 7%nat) (Some 1%nat) false)
              (mk_begin_args None (Some true) None) None
              (Node 0%nat [Node 1%nat []]) (w_open false))
    as (new & w' & H1 & _ & _ & (on & H2 & H3 & _) & H4 & _).
  - vm_compute; reflexivity.
  - reflexivity.
  - reflexivity.
  - reflexivity.
  - simpl. discriminate.
  - reflexivity.
  - simpl. unfold linked. simpl. by_computation.
  - apply (bool_decide_unpack _). vm_compute. exact I.
  - simpl. left.
  - exists new, w'. split; [exact H1|]. split; [exists on; auto | exact H4].
Defined.

Lemma trans_cursor_grafts_witness :
  ∃ new w',
    trans_cursor (E := engine_ok) 2%nat (Args None) w_txn
      = Done (Return (PyHandle new)) w' ∧
    is_valid w' new ∧
    shape (heap w') (graft 2%nat new (Node 0%nat [Node 2%nat []; Node 1%nat []])).
Proof.
  destruct (trans_cursor_grafts (E := engine_ok) 2%nat None t_2 d_1
              (Node 0%nat [Node 2%nat []; Node 1%nat []]) w_txn)
    as (new & w' & H1 & _ & _ & (on & H2 & H3 & _) & H4 & _).
  - unfold active_trans. by_computation.
  - reflexivity.
  - simpl. unfold linked. simpl. by_computation.
  - apply (bool_decide_unpack _). vm_compute. exact I.
  - simpl. right. left.
  - exists new, w'. split; [exact H1|]. split; [exists on; auto | exact H4].
Defined.

(** ** The transactions of the one-shot operations of an environment *)

#[global] Instance calls_only_StepRel P : StepRel (calls_only P).
Proof.
  split.
  - intros w. split; [reflexivity|]. exists []. now rewrite app_nil_r.
  - intros w1 w2 w3 (Hh1 & l1 & Ht1 & Hl1) (Hh2 & l2 & Ht2 & Hl2).
    split; [congruence|]. exists (l1 ++ l2). rewrite Ht2, Ht1, app_assoc.
    split; [reflexivity | now apply Forall_app].
Qed.

Lemma steps_co_call `{Engine} P c : P c → steps (calls_only P) (call c).
Proof.
  intros Hc w r w' H'. apply call_inv in H' as (_ & ->). split; [reflexivity|].
  exists [c]. simpl. auto.
Qed.

Lemma steps_co_call_void P c : P c → steps (calls_only P) (call_void c).
Proof.
  intros Hc w r w' H'. apply call_void_inv in H' as ->. split; [reflexivity|].
  exists [c]. simpl. auto.
Qed.

Ltac costep :=
  first
    [ steps_step
    | apply steps_co_call
    | apply steps_co_call_void
    | assumption ].

Ltac costeps := repeat costep.

Lemma new_calls_app w w' l : trace w' = trace w ++ l → new_calls w w' = l.
Proof. intros H. unfold new_calls. rewrite H. apply drop_app_length. Qed.

Section OneShot.
Context {K : lmdb_h} {E : Engine}.

Lemma steps_co_generic_get txn db buffers args :
  steps (calls_only (data_call txn)) (generic_get true txn db buffers args).
Proof. unfold generic_get. costeps; reflexivity. Qed.

Lemma steps_co_generic_put txn db args :
  steps (calls_only (data_call txn)) (generic_put true txn db args).
Proof. unfold generic_put. costeps; reflexivity. Qed.

Lemma steps_co_generic_delete txn db args :
  steps (calls_only (data_call txn)) (generic_delete true txn db args).
Proof. unfold generic_delete. costeps; reflexivity. Qed.

Lemma steps_co_env_gets_loop txn db keys stop dict :
  steps (calls_only (data_call txn)) (env_gets_loop txn db keys stop dict).
Proof.
  revert dict. induction keys as [|k keys IH]; intros dict; simpl; costeps;
    first [reflexivity | apply IH].
Qed.

Lemma steps_co_env_puts_loop txn db flags items stop acc :
  steps (calls_only (data_call txn)) (env_puts_loop txn db flags items stop acc).
Proof.
  revert acc. induction items as [|k items IH]; intros acc; simpl; costeps;
    first [reflexivity | apply IH].
Qed.

Lemma steps_co_env_deletes_loop txn db keys stop acc :
  steps (calls_only (data_call txn)) (env_deletes_loop txn db keys stop acc).
Proof.
  revert acc. induction keys as [|k keys IH]; intros acc; simpl; costeps;
    first [reflexivity | apply IH].
Qed.

Lemma own_txn_none env flags commits w r :
  ¬ is_return r → own_txn env flags commits w w r.
Proof. intros Hr. left. split; [|exact Hr]. apply new_calls_app. now rewrite app_nil_r. Qed.

Lemma own_txn_refused env flags commits w :
  let begin := mdb_txn_begin env None flags in
  let r0 := engine_reply (trace w) begin in
  rc r0 ≠ 0 →
  own_txn env flags commits w (called begin w) (Raise (err_set "mdb_txn_begin" (rc r0))).
Proof.
  intros begin r0 Hrc. right. left. split; [|auto]. now apply new_calls_app.
Qed.

Lemma own_txn_abort env flags commits w w2 r :
  let begin := mdb_txn_begin env None flags in
  let r0 := engine_reply (trace w) begin in
  let txn := Some (out_ptr r0) in
  ¬ rc r0 ≠ 0 → calls_only (data_call txn) (called begin w) w2 →
  (commits = true → ¬ is_return r) →
  heap (called (mdb_txn_abort txn) w2) = heap w ∧
  own_txn env flags commits w (called (mdb_txn_abort txn) w2) r.
Proof.
  intros begin r0 txn Hrc (Hh & l & Ht & Hl) Hr. split; [exact Hh|].
  right. right. split; [destruct (decide (rc r0 = 0)); tauto|]. exists l.
  split; [exact Hl|]. left. split; [|exact Hr]. apply new_calls_app. simpl.
  rewrite Ht. simpl. now rewrite <- !app_assoc.
Qed.

Lemma own_txn_commit env flags w w2 v :
  let begin := mdb_txn_begin env None flags in
  let r0 := engine_reply (trace w) begin in
  let txn := Some (out_ptr r0) in
  let rcm := engine_reply (trace w2) (mdb_txn_commit txn) in
  ¬ rc r0 ≠ 0 → calls_only (data_call txn) (called begin w) w2 →
  heap (called (mdb_txn_commit txn) w2) = heap w ∧
  own_txn env flags true w (called (mdb_txn_commit txn) w2)
    (if decide (rc rcm ≠ 0) then Raise (err_set "mdb_txn_commit" (rc rcm))
     else Return v).
Proof.
  intros begin r0 txn rcm Hrc (Hh & l & Ht & Hl). split; [exact Hh|].
  right. right. split; [destruct (decide (rc r0 = 0)); tauto|]. exists l.
  split; [exact Hl|]. right. split; [reflexivity|]. split.
  - apply new_calls_app. simpl. rewrite Ht. simpl. now rewrite <- !app_assoc.
  - simpl. assert (Htr : trace w ++ begin :: l = trace w2).
    { rewrite Ht. simpl. now rewrite <- app_assoc. }
    subst rcm. rewrite <- Htr. cbv zeta. subst txn r0 begin.
    repeat case_decide; try tauto; first [exact I | reflexivity].
Qed.

Lemma env_get_own_txn self o e args w r w' :
  heap w !! self = Some o → body o = BEnv e →
  env_get self args w = Done r w' →
  heap w' = heap w ∧ own_txn (e_env e) MDB_RDONLY false w w' r.
Proof.
  intros Ho Hb H. unfold env_get in H.
  rewrite (bind_Done _ _ _ _ _ (load_Some _ _ _ Ho)) in H.
  destruct (valid o); simpl in H.
  2:{ minv H. split; [reflexivity|]. apply own_txn_none. simpl. tauto. }
  unfold as_env in H. rewrite Hb in H. unfold bind at 1 in H. unfold ret at 1 in H.
  minv H. mcase H.
  - minv H. split; [reflexivity|]. now apply own_txn_refused.
  - apply bind_inv in H as (res & w2 & Hbody & H). minv H.
    apply steps_co_generic_get in Hbody.
    apply (own_txn_abort (e_env e) MDB_RDONLY false w w2); auto.
Qed.

Ltac one_shot_prelude H Ho Hb :=
  rewrite (bind_Done _ _ _ _ _ (load_Some _ _ _ Ho)) in H;
  unfold as_env in H; rewrite Hb in H.

Lemma env_put_own_txn self o e args w r w' :
  heap w !! self = Some o → body o = BEnv e →
  env_put self args w = Done r w' →
  heap w' = heap w ∧ own_txn (e_env e) 0 true w w' r.
Proof.
  intros Ho Hb H. unfold env_put in H.
  rewrite (bind_Done _ _ _ _ _ (load_Some _ _ _ Ho)) in H.
  destruct (valid o); simpl in H.
  2:{ minv H. split; [reflexivity|]. apply own_txn_none. simpl. tauto. }
  unfold as_env in H. rewrite Hb in H. unfold bind at 1 in H. unfold ret at 1 in H.
  minv H. mcase H.
  - minv H. split; [reflexivity|]. now apply own_txn_refused.
  - apply bind_inv in H as (res & w2 & Hbody & H).
    apply steps_co_generic_put in Hbody. destruct res as [v|err].
    + minv H. mcase H; minv H;
        pose proof (own_txn_commit (e_env e) 0 w w2 v n Hbody) as Hc; cbv zeta in Hc;
        [rewrite decide_True in Hc by assumption | rewrite decide_False in Hc by assumption];
        exact Hc.
    + minv H. apply (own_txn_abort (e_env e) 0 true w w2); auto.
Qed.

Lemma env_delete_own_txn self o e args w r w' :
  heap w !! self = Some o → body o = BEnv e →
  env_delete self args w = Done r w' →
  heap w' = heap w ∧ own_txn (e_env e) 0 true w w' r.
Proof.
  intros Ho Hb H. unfold env_delete in H.
  rewrite (bind_Done _ _ _ _ _ (load_Some _ _ _ Ho)) in H.
  destruct (valid o); simpl in H.
  2:{ minv H. split; [reflexivity|]. apply own_txn_none. simpl. tauto. }
  unfold as_env in H. rewrite Hb in H. unfold bind at 1 in H. unfold ret at 1 in H.
  minv H. mcase H.
  - minv H. split; [reflexivity|]. now apply own_txn_refused.
  - apply bind_inv in H as (res & w2 & Hbody & H).
    apply steps_co_generic_delete in Hbody. destruct res as [v|err].
    + minv H. mcase H; minv H;
        pose proof (own_txn_commit (e_env e) 0 w w2 v n Hbody) as Hc; cbv zeta in Hc;
        [rewrite decide_True in Hc by assumption | rewrite decide_False in Hc by assumption];
        exact Hc.
    + minv H. apply (own_txn_abort (e_env e) 0 true w w2); auto.
Qed.

Ltac batch_prelude H Ho Hb :=
  rewrite (bind_Done _ _ _ _ _ (load_Some _ _ _ Ho)) in H;
  unfold as_env in H; rewrite Hb in H; unfold bind at 1 in H; unfold ret at 1 in H;
  unfold parse_args in H;
  repeat (mcase H; try (minv H; split; [reflexivity|]; apply own_txn_none; simpl; tauto)).

Lemma env_gets_own_txn self o e args w r w' :
  heap w !! self = Some o → body o = BEnv e →
  env_gets self args w = Done r w' →
  heap w' = heap w ∧ own_txn (e_env e) MDB_RDONLY false w w' r.
Proof.
  intros Ho Hb H. unfold env_gets in H. batch_prelude H Ho Hb.
  minv H. mcase H.
  - minv H. split; [reflexivity|]. now apply own_txn_refused.
  - apply bind_inv in H as (res & w2 & Hbody & H).
    apply steps_co_env_gets_loop in Hbody. minv H.
    destruct res; minv H; apply (own_txn_abort (e_env e) MDB_RDONLY false w w2); auto.
Qed.

Lemma env_puts_own_txn self o e args w r w' :
  heap w !! self = Some o → body o = BEnv e →
  env_puts self args w = Done r w' →
  heap w' = heap w ∧ own_txn (e_env e) 0 true w w' r.
Proof.
  intros Ho Hb H. unfold env_puts in H. batch_prelude H Ho Hb.
  minv H. mcase H.
  - minv H. split; [reflexivity|]. now apply own_txn_refused.
  - apply bind_inv in H as (res & w2 & Hbody & H).
    apply steps_co_env_puts_loop in Hbody. destruct res as [err|l].
    + minv H. apply (own_txn_abort (e_env e) 0 true w w2); auto.
    + minv H. mcase H; minv H;
        pose proof (own_txn_commit (e_env e) 0 w w2 (PyList l) n Hbody) as Hc;
        cbv zeta in Hc;
        [rewrite decide_True in Hc by assumption | rewrite decide_False in Hc by assumption];
        exact Hc.
Qed.

Lemma env_deletes_own_txn self o e args w r w' :
  heap w !! self = Some o → body o = BEnv e →
  env_deletes self args w = Done r w' →
  heap w' = heap w ∧ own_txn (e_env e) 0 true w w' r.
Proof.
  intros Ho Hb H. unfold env_deletes in H. batch_prelude H Ho Hb.
  minv H. mcase H.
  - minv H. split; [reflexivity|]. now apply own_txn_refused.
  - apply bind_inv in H as (res & w2 & Hbody & H).
    apply steps_co_env_deletes_loop in Hbody. destruct res as [err|l].
    + minv H. apply (own_txn_abort (e_env e) 0 true w w2); auto.
    + minv H. mcase H; minv H;
        pose proof (own_txn_commit (e_env e) 0 w w2 (PyList l) n Hbody) as Hc;
        cbv zeta in Hc;
        [rewrite decide_True in Hc by assumption | rewrite decide_False in Hc by assumption];
        exact Hc.
Qed.

Lemma env_gets_loop_total txn db keys stop acc w d :
  load_db db w = Done d w →
  ∃ res w', env_gets_loop txn db keys stop acc w = Done res w'.
Proof.
  revert acc w. induction keys as [|k keys IH]; intros acc w Hd; simpl.
  - eauto.
  - destruct k as [e|k]; try (unfold ret; eauto; fail).
    rewrite (bind_Done _ _ _ _ _ Hd). unfold bind, call.
    repeat case_decide; try apply IH; try (unfold ret; eauto; fail);
      eapply load_db_heap; eauto.
Qed.

Lemma env_deletes_loop_total txn db keys stop acc w d :
  load_db db w = Done d w →
  ∃ res w', env_deletes_loop txn db keys stop acc w = Done res w'.
Proof.
  revert acc w. induction keys as [|k keys IH]; intros acc w Hd; simpl.
  - eauto.
  - destruct k as [e|k]; try (unfold ret; eauto; fail).
    rewrite (bind_Done _ _ _ _ _ Hd). unfold bind, call.
    repeat case_decide; try apply IH; try (unfold ret; eauto; fail);
      eapply load_db_heap; eauto.
Qed.

Ltac loop_total lem d :=
  match goal with
  | |- context [?loop ?t ?db ?its ?st ?acc ?w1] =>
      destruct (lem t db its st acc w1 d) as (res_ & w2_ & Hl);
        [eapply load_db_Some; simpl; eauto | rewrite Hl]
  | |- context [?loop ?t ?db ?f ?its ?st ?acc ?w1] =>
      destruct (lem t db f its st acc w1 d) as (res_ & w2_ & Hl);
        [eapply load_db_Some; simpl; eauto | rewrite Hl]
  end.

Ltac sum_case :=
  match goal with
  | |- context [match ?r with inl _ => _ | inr _ => _ end] => destruct r
  end.

Lemma env_one_shot_total fuel self o e m flags commits db d w :
  heap w !! self = Some o → body o = BEnv e →
  one_shot m = Some (flags, commits, db) →
  load_db (match db with Some x => Some x | None => e_main_db e end) w = Done d w →
  ∃ r w', env_methods fuel self m w = Done r w'.
Proof.
  intros Ho Hb Hm Hd. apply load_db_inv in Hd as (da & do & Hda & Hdo & Hbd & _).
  destruct m; try discriminate; injection Hm as <- <- <-; simpl;
    unfold env_get, env_gets, env_put, env_puts, env_delete, env_deletes,
      generic_get, generic_put, generic_delete, parse_args;
    destruct args as [err|a]; destruct (valid o) eqn:Hv; mgo; eauto;
    repeat (case_decide; mgo; eauto).
  - destruct (mv_data (arg_buf (ga_key a))); mgo; eauto.
    repeat (case_decide; mgo; eauto).
  - destruct (ka_keys a) as [[err|keys stop]|]; mgo; eauto.
    case_decide; mgo; eauto.
    loop_total env_gets_loop_total d. mgo. sum_case; eauto.
  - destruct (ua_items a) as [[err|items stop]|]; mgo; eauto.
    case_decide; mgo; eauto.
    loop_total env_puts_loop_total d. mgo. sum_case; mgo; eauto.
    case_decide; eauto.
  - destruct (ka_keys a) as [[err|keys stop]|]; mgo; eauto.
    case_decide; mgo; eauto.
    loop_total env_deletes_loop_total d. mgo. sum_case; mgo; eauto.
    case_decide; eauto.
Qed.

(** X8: the one-shot operations of an environment, [get], [gets], [put], [puts],
    [delete] and [deletes], return whenever the database is there, leave all handles as
    they are, and never leave a transaction open: the transaction they begin (read-only
    for [get] and [gets]) is ended by their last call, by an abort for [get] and [gets]
    and after a failure, by a commit otherwise, and a failed commit is raised. *)
Theorem env_one_shot_txn fuel self o e m flags commits db d w :
  heap w !! self = Some o → body o = BEnv e →
  one_shot m = Some (flags, commits, db) →
  load_db (match db with Some x => Some x | None => e_main_db e end) w = Done d w →
  (∃ r w', env_methods fuel self m w = Done r w') ∧
  ∀ r w', env_methods fuel self m w = Done r w' →
    heap w' = heap w ∧ own_txn (e_env e) flags commits w w' r.
Proof.
  intros Ho Hb Hm Hd. split; [eapply env_one_shot_total; eauto|].
  intros r w' H. destruct m; try discriminate; injection Hm as <- <- <-; simpl in H.
  - eapply env_get_own_txn; eauto.
  - eapply env_gets_own_txn; eauto.
  - eapply env_put_own_txn; eauto.
  - eapply env_puts_own_txn; eauto.
  - eapply env_delete_own_txn; eauto.
  - eapply env_deletes_own_txn; eauto.
Qed.

End OneShot.

(** ** The results of a batch *)

Section BatchResults.
Context {K : lmdb_h} {E : Engine}.



Lemma env_gets_loop_results txn db keys stop acc w l w' d :
  load_db db w = Done d w →
  env_gets_loop txn db keys stop acc w = Done (inr l) w' →
  let calls := omap (key_get txn (d_dbi d)) keys in
  trace w' = trace w ++ calls ∧ length calls = length keys ∧
  l = acc ++ omap found (zip (omap key_bytes keys) (replies (trace w) calls)).
Proof.
  revert acc w. induction keys as [|k keys IH]; intros acc w Hd H; simpl in *.
  - destruct stop; minv H. now rewrite !app_nil_r.
  - destruct k as [e|k]; try (minv H; discriminate).
    rewrite (bind_Done _ _ _ _ _ Hd) in H. minv H. simpl.
    set (c := mdb_get txn (d_dbi d) (val_from_buffer k)) in *.
    assert (Hd' : load_db db (called c w) = Done d (called c w))
      by (eapply load_db_heap; eauto).
    mcase H; [|mcase H; [minv H; discriminate|]].
    + destruct (IH _ _ Hd' H) as (Ht & Hlen & Hl). simpl in Ht.
      rewrite Ht, Hl, <- !app_assoc. simpl. unfold found at 2. simpl.
      rewrite decide_True by assumption. auto.
    + destruct (IH _ _ Hd' H) as (Ht & Hlen & Hl). simpl in Ht.
      rewrite Ht, Hl, <- !app_assoc. simpl. unfold found at 2. simpl.
      rewrite decide_False by assumption. auto.
Qed.

Ltac results_prelude H Ho Hb o :=
  rewrite (bind_Done _ _ _ _ _ (load_Some _ _ _ Ho)) in H;
  unfold as_env in H; rewrite Hb in H; unfold bind at 1 in H; unfold ret at 1 in H;
  unfold parse_args in H;
  destruct (valid o); simpl in H; [|minv H; discriminate].



(** X11: when [env.gets] returns, it has begun a read-only transaction, made one
    [mdb_get] for each key, in order, and aborted; the dict it returns is built, in the
    order of the keys, from the keys the engine has found and their data, and a key
    that is not found is left out. *)
Theorem env_gets_results self o e a keys stop d v w w' :
  heap w !! self = Some o → body o = BEnv e →
  ka_keys a = Some (Iterable keys stop) →
  load_db (match ka_db a with Some x => Some x | None => e_main_db e end) w = Done d w →
  env_gets self (Args a) w = Done (Return v) w' →
  let begin := mdb_txn_begin (e_env e) None MDB_RDONLY in
  let txn := Some (out_ptr (engine_reply (trace w) begin)) in
  let calls := omap (key_get txn (d_dbi d)) keys in
  new_calls w w' = begin :: calls ++ [mdb_txn_abort txn] ∧
  length calls = length keys ∧
  v = PyDict (omap found (zip (omap key_bytes keys) (replies (trace w ++ [begin]) calls))).
Proof.
  intros Ho Hb Hi Hd H begin txn calls. unfold env_gets in H.
  results_prelude H Ho Hb o. rewrite Hi in H. minv H. fold begin in H. fold txn in H.
  mcase H; [minv H; try discriminate|].
  apply bind_inv in H as (res & w2 & Hloop & H).
  destruct res as [err|l]; [minv H; try discriminate|].
  eapply env_gets_loop_results in Hloop as (Ht & Hlen & Hl);
    [|eapply load_db_heap; eauto].
  minv H. simpl in *.
  split; [|split; [exact Hlen | reflexivity]].
  apply new_calls_app. simpl. rewrite Ht. now rewrite <- !app_assoc.
Qed.

End BatchResults.

(** ** The moves of a cursor *)

Lemma projection_empty f buffers d d' :
  projection f buffers (mk_val 0 d) (mk_val 0 d') = projection f buffers val_null val_null.
Proof. reflexivity. Qed.

Section Moves.
Context {K : lmdb_h} {E : Engine}.

Lemma live_cursor_set_key w self c t o k :
  live_cursor w self c t → heap w !! self = Some o →
  live_cursor (mk_world (<[self := set_c_key k o]> (heap w)) (trace w))
    self (mk_cursor (c_trans c) (c_positioned c) (c_curs c) k (c_val c)) t.
Proof.
  intros H Ho'.
  apply live_cursor_trans in H as (o' & ta & to & Ho & Hv & Hb & Hc & Hne & Hto & Hbt).
  assert (o' = o) as -> by congruence.
  exists (set_c_key k o). unfold set_c_key. rewrite Hb. simpl.
  rewrite lookup_insert_eq. repeat split; try assumption.
  rewrite Hc. eapply load_trans_Some; [|exact Hbt]. simpl.
  rewrite lookup_insert_ne by congruence. exact Hto.
Qed.

Lemma _cursor_get_c_spec self c t op w :
  live_cursor w self c t →
  let call := mdb_cursor_get (c_curs c) (c_key c) (c_val c) op in
  let r := engine_reply (trace w) call in
  ∃ w' c', _cursor_get_c self op w = Done (get_c_status op r) w' ∧
    trace w' = trace w ++ [call] ∧
    live_cursor w' self c' t ∧ c_curs c' = c_curs c ∧
    c_positioned c' = bool_decide (rc r = 0) ∧
    (rc r = 0 → c_key c' = out_key r ∧ c_val c' = out_data r) ∧
    (∀ f, val_func f self w' = Done (Return (shown f (t_buffers t) r)) w').
Proof.
  intros Hl call r. pose proof Hl as (o & Ho & Hv & Hb & _).
  unfold _cursor_get_c, get_c_status, shown. mgo. fold call. fold r.
  destruct (decide (rc r ≠ 0)) as [Hrc|Hrc]; mgo.
  - pose proof (live_cursor_moved w _ c t o false
                  (mk_val 0 (mv_data (c_key c))) (mk_val 0 (mv_data (c_val c))) call Hl Ho)
      as Hl'.
    pose proof (λ f, val_func_live f _ _ _ _ Hl') as Hval. simpl in Hval.
    rewrite (decide_False (P := rc r = 0)) by exact Hrc.
    unfold set_c_position in *. rewrite Hb in *. simpl in *.
    assert (Hend : ∀ st : option error,
      ∃ w' c',
        Done st (mk_world (<[self := set_body (BCursor (mk_cursor (c_trans c) false (c_curs c)
                   (mk_val 0 (mv_data (c_key c))) (mk_val 0 (mv_data (c_val c))))) o]> (heap w))
                   (trace w ++ [call])) = Done st w' ∧
        trace w' = trace w ++ [call] ∧ live_cursor w' self c' t ∧ c_curs c' = c_curs c ∧
        c_positioned c' = bool_decide (rc r = 0) ∧
        (rc r = 0 → c_key c' = out_key r ∧ c_val c' = out_data r) ∧
        (∀ f, val_func f self w' =
              Done (Return (if decide (rc r = 0)
                            then projection f (t_buffers t) (out_key r) (out_data r)
                            else projection f (t_buffers t) val_null val_null)) w')).
    { intros st. eexists _, _. split; [reflexivity|]. split; [reflexivity|].
      split; [exact Hl'|]. split; [reflexivity|].
      split; [simpl; now rewrite bool_decide_eq_false_2|]. split; [intros; contradiction|].
      intros f. rewrite decide_False by exact Hrc. apply Hval. }
    destruct (decide (rc r ≠ MDB_NOTFOUND)) as [Hnf|Hnf]; mgo.
    + rewrite (decide_False (P := rc r = MDB_NOTFOUND)) by exact Hnf.
      destruct (bool_decide (rc r = EINVAL) && bool_decide (op = MDB_GET_CURRENT));
        simpl; apply Hend.
    + assert (Hnf' : rc r = MDB_NOTFOUND)
        by (destruct (decide (rc r = MDB_NOTFOUND)); [assumption | contradiction]).
      rewrite (decide_True (P := rc r = MDB_NOTFOUND)) by exact Hnf'. apply Hend.
  - assert (Hz : rc r = 0) by (destruct (decide (rc r = 0)); [assumption | contradiction]).
    pose proof (live_cursor_moved w _ c t o true (out_key r) (out_data r) call Hl Ho) as Hl'.
    pose proof (λ f, val_func_live f _ _ _ _ Hl') as Hval. simpl in Hval.
    rewrite (decide_True (P := rc r = 0)) by exact Hz.
    unfold set_c_position in *. rewrite Hb in *. simpl in *.
    eexists _, _. split; [reflexivity|]. split; [reflexivity|]. split; [exact Hl'|].
    split; [reflexivity|]. split; [simpl; now rewrite bool_decide_eq_true_2|].
    split; [auto|].
    intros f. rewrite decide_True by exact Hz. apply Hval.
Qed.

Lemma _cursor_get_spec self c t op w :
  live_cursor w self c t → op ≠ MDB_GET_CURRENT →
  let call := mdb_cursor_get (c_curs c) (c_key c) (c_val c) op in
  let r := engine_reply (trace w) call in
  ∃ w' c', _cursor_get self op w = Done (move_result r) w' ∧
    trace w' = trace w ++ [call] ∧
    live_cursor w' self c' t ∧ c_curs c' = c_curs c ∧
    c_positioned c' = bool_decide (rc r = 0) ∧
    (∀ f, val_func f self w' = Done (Return (shown f (t_buffers t) r)) w').
Proof.
  intros Hl Hop call r.
  destruct (_cursor_get_c_spec self c t op w Hl)
    as (w' & c' & Hrun & Htr & Hl' & Hc' & Hpos & _ & Hval).
  fold call in Hrun, Htr. fold r in Hrun, Hpos, Hval.
  exists w', c'. split; [|auto]. unfold _cursor_get.
  rewrite (bind_Done _ _ _ _ _ Hrun). pose proof Hl' as (o' & Ho' & Hv' & Hb' & _).
  unfold get_c_status, move_result.
  rewrite (bool_decide_eq_false_2 (op = MDB_GET_CURRENT)) by exact Hop.
  rewrite andb_false_r.
  destruct (decide (rc r = 0)) as [Hz|Hz].
  - rewrite bool_decide_eq_true_2 in Hpos by exact Hz. mgo. rewrite ?Hpos. reflexivity.
  - rewrite bool_decide_eq_false_2 in Hpos by exact Hz.
    destruct (decide (rc r = MDB_NOTFOUND)); mgo; rewrite ?Hpos; reflexivity.
Qed.

#[local] Arguments _cursor_get : simpl never.

(** X12: [first], [last], [next], [prev], [set_key] and [set_range] on a valid cursor
    make one call of [mdb_cursor_get]; [set_range] with an empty key asks for
    [MDB_FIRST].  When the engine finds a pair the method returns [True], the cursor is
    positioned and [key()], [value()] and [item()] show that pair; when it finds none
    the method returns [False], and on any other failure it raises; in both cases the
    cursor is not positioned and [key()], [value()] and [item()] show empty strings. *)
Theorem cursor_move self c t m call w :
  live_cursor w self c t → move m c = Some call →
  let r := engine_reply (trace w) call in
  ∃ w' c', cursor_methods self m w = Done (move_result r) w' ∧
    new_calls w w' = [call] ∧
    live_cursor w' self c' t ∧ c_curs c' = c_curs c ∧
    c_positioned c' = bool_decide (rc r = 0) ∧
    (∀ f, val_func f self w' = Done (Return (shown f (t_buffers t) r)) w').
Proof.
  intros Hl Hm r. pose proof Hl as (o & Ho & Hv & Hb & _).
  assert (Hfin : ∀ w1 c1 op,
    live_cursor w1 self c1 t → trace w1 = trace w → op ≠ MDB_GET_CURRENT →
    c_curs c1 = c_curs c →
    call = mdb_cursor_get (c_curs c1) (c_key c1) (c_val c1) op →
    ∃ w' c', _cursor_get self op w1 = Done (move_result r) w' ∧
      new_calls w w' = [call] ∧
      live_cursor w' self c' t ∧ c_curs c' = c_curs c ∧
      c_positioned c' = bool_decide (rc r = 0) ∧
      (∀ f, val_func f self w' = Done (Return (shown f (t_buffers t) r)) w')).
  { intros w1 c1 op Hl1 Ht1 Hop Hcc Hcall.
    destruct (_cursor_get_spec self c1 t op w1 Hl1 Hop)
      as (w' & c' & Hrun & Htr & Hl' & Hc' & Hpos & Hval).
    rewrite Ht1, <- Hcall in *. fold r in Hrun, Hpos, Hval.
    exists w', c'. split; [exact Hrun|]. split; [now apply new_calls_app|].
    split; [exact Hl'|]. split; [congruence|]. auto. }
  destruct m; try discriminate; simpl in Hm; simpl.
  - injection Hm as <-. unfold cursor_first. mgo.
    apply (Hfin w c MDB_FIRST); first [assumption | reflexivity | discriminate].
  - injection Hm as <-. unfold cursor_last. mgo.
    apply (Hfin w c MDB_LAST); first [assumption | reflexivity | discriminate].
  - injection Hm as <-. unfold cursor_next. mgo.
    apply (Hfin w c MDB_NEXT); first [assumption | reflexivity | discriminate].
  - injection Hm as <-. unfold cursor_prev. mgo.
    apply (Hfin w c MDB_PREV); first [assumption | reflexivity | discriminate].
  - destruct arg as [e|b]; [discriminate|]. injection Hm as <-.
    pose proof (live_cursor_set_key w self c t o (val_from_buffer b) Hl Ho) as Hsk.
    unfold cursor_set_key. mgo.
    apply (Hfin _ _ MDB_SET_KEY Hsk); first [reflexivity | discriminate].
  - destruct arg as [e|b]; [discriminate|]. injection Hm as <-.
    pose proof (live_cursor_set_key w self c t o (val_from_buffer b) Hl Ho) as Hsk.
    unfold cursor_set_range. mgo.
    destruct b as [|b0 b]; simpl.
    + apply (Hfin _ _ MDB_FIRST Hsk); first [reflexivity | discriminate].
    + apply (Hfin _ _ MDB_SET_RANGE Hsk); first [reflexivity | discriminate].
Qed.

#[local] Arguments _cursor_get_c : simpl never.
#[local] Arguments cursor_value : simpl never.

Lemma live_cursor_called w self c t call :
  live_cursor w self c t → live_cursor (called call w) self c t.
Proof.
  intros H. apply live_cursor_trans in H as (o & ta & to & Ho & Hv & Hb & Hc & Hne & Hto & Hbt).
  exists o. repeat split; try assumption. rewrite Hc. eapply load_trans_Some; eauto.
Qed.

(** X13: [delete()] on a cursor that is not positioned returns [False] and does not call
    the engine.  On a positioned cursor it calls [mdb_cursor_del]; a failure is raised;
    after a success it reads the current pair again with [MDB_GET_CURRENT] and returns
    [True] whatever that second call answers, the cursor being positioned exactly when
    the second call has found a pair.  When the second call fails, but for [MDB_NOTFOUND]
    and [EINVAL], the exception it has set is left set beside the [True] that is
    returned. *)
Theorem cursor_delete_spec self c t w :
  live_cursor w self c t →
  let del := mdb_cursor_del (c_curs c) 0 in
  let r := engine_reply (trace w) del in
  let cur := mdb_cursor_get (c_curs c) (c_key c) (c_val c) MDB_GET_CURRENT in
  let r' := engine_reply (trace w ++ [del]) cur in
  (c_positioned c = false → cursor_delete self w = Done (Return Py_False, None) w) ∧
  (c_positioned c = true → rc r ≠ 0 →
     cursor_delete self w =
       Done (Raise (err_set "mdb_cursor_del" (rc r)), None) (called del w)) ∧
  (c_positioned c = true → rc r = 0 →
     ∃ w' c',
       cursor_delete self w =
         Done (Return Py_True,
               if decide (rc r' = 0) then None
               else if decide (rc r' = MDB_NOTFOUND) then None
               else if decide (rc r' = EINVAL) then None
               else Some (err_set "mdb_cursor_get" (rc r'))) w' ∧
       new_calls w w' = [del; cur] ∧ live_cursor w' self c' t ∧
       c_positioned c' = bool_decide (rc r' = 0)).
Proof.
  intros Hl del r cur r'. pose proof Hl as (o & Ho & Hv & Hb & _).
  split; [|split].
  - intros Hp. unfold cursor_delete. mgo. reflexivity.
  - intros Hp Hrc. unfold cursor_delete. mgo. fold del. fold r.
    now rewrite decide_True by exact Hrc.
  - intros Hp Hrc. unfold cursor_delete. mgo. fold del. fold r.
    rewrite decide_False by (rewrite Hrc; auto).
    destruct (_cursor_get_c_spec self c t MDB_GET_CURRENT (called del w))
      as (w' & c' & Hrun & Htr & Hl' & _ & Hpos & _); [now apply live_cursor_called|].
    simpl in Htr, Hpos. fold cur in Hrun, Htr. fold r' in Hrun, Hpos.
    unfold called in Hrun. mgo. fold cur. fold r'.
    exists w', c'. split.
    { unfold get_c_status. rewrite (bool_decide_eq_true_2 (MDB_GET_CURRENT = _)) by reflexivity.
      rewrite andb_true_r. repeat f_equal.
      destruct (decide (rc r' = 0)); [reflexivity|].
      destruct (decide (rc r' = MDB_NOTFOUND)); [reflexivity|].
      destruct (decide (rc r' = EINVAL)) as [He|He].
      - now rewrite bool_decide_eq_true_2 by exact He.
      - now rewrite bool_decide_eq_false_2 by exact He. }
    split; [|auto]. apply new_calls_app. rewrite Htr. now rewrite <- app_assoc.
Qed.

(** X14: [cursor.get(key, default)] without a key raises a [TypeError] and does not
    call the engine.  With a key it makes one call of [mdb_cursor_get] with
    [MDB_SET_KEY]: it returns the data when the key is found, the default when it is
    not, leaving the cursor not positioned, and raises on any other failure. *)
Theorem cursor_get_spec self c t a w :
  live_cursor w self c t →
  (cga_key a = None →
     cursor_get self (Args a) w = Done (Raise (type_error "key must be given.")) w) ∧
  (∀ key, cga_key a = Some key →
     let call := mdb_cursor_get (c_curs c) (val_from_buffer key) (c_val c) MDB_SET_KEY in
     let r := engine_reply (trace w) call in
     ∃ w' c',
       cursor_get self (Args a) w =
         Done (if decide (rc r = 0) then
                 Return (projection cursor_value_f (t_buffers t) (out_key r) (out_data r))
               else if decide (rc r = MDB_NOTFOUND) then
                 Return (default Py_None (cga_default a))
               else Raise (err_set "mdb_cursor_get" (rc r))) w' ∧
       new_calls w w' = [call] ∧ live_cursor w' self c' t ∧
       c_positioned c' = bool_decide (rc r = 0)).
Proof.
  intros Hl. pose proof Hl as (o & Ho & Hv & Hb & _). split.
  - intros Hk. unfold cursor_get, parse_args. mgo. reflexivity.
  - intros key Hk call r.
    pose proof (live_cursor_set_key w self c t o (val_from_buffer key) Hl Ho) as Hsk.
    destruct (_cursor_get_c_spec self _ t MDB_SET_KEY _ Hsk)
      as (w' & c' & Hrun & Htr & Hl' & _ & Hpos & _ & Hval).
    simpl in Hrun, Htr, Hpos, Hval. fold call in Hrun, Htr. fold r in Hrun, Hpos, Hval.
    exists w', c'. split; [|split; [now apply new_calls_app | auto]].
    pose proof Hl' as (o' & Ho' & Hv' & Hb' & _).
    specialize (Hval cursor_value_f). unfold shown in Hval. unfold get_c_status in Hrun.
    unfold cursor_get, parse_args. subst r call.
    match goal with
    | |- context [decide (?x = 0)] => destruct (decide (x = 0)) as [Hz|Hz]
    end.
    + rewrite bool_decide_eq_true_2 in Hpos by exact Hz. simpl in Hval. mgo. reflexivity.
    + rewrite bool_decide_eq_false_2 in Hpos by exact Hz. clear Hval.
      case_decide; mgo; rewrite ?andb_false_r; mgo; reflexivity.
Qed.

End Moves.

Lemma env_one_shot_txn_witness :
  ∃ r w', env_methods (K := lmdb_0_9) (E := engine_ok) 10 0%nat env_put_a_1 (w_open false)
            = Done r w' ∧
          own_txn (E := engine_ok) (Some 7%nat) 0 true (w_open false) w' r.
Proof.
  destruct (env_one_shot_txn (K := lmdb_0_9) (E := engine_ok) 10 0%nat
              (mk_object list_head_null (mk_list_head None (Some 1%nat)) true
                 (BEnv (mk_env (Some 7%nat) (Some 1%nat) false)))
              (mk_env (Some 7%nat) (Some 1%nat) false)
              env_put_a_1 0 true None d_1 (w_open false))
    as [(r & w' & Hrun) Hall].
  - vm_compute; reflexivity.
  - reflexivity.
  - reflexivity.
  - vm_compute; reflexivity.
  - exists r, w'. split; [exact Hrun | exact (proj2 (Hall r w' Hrun))].
Defined.



Lemma env_gets_results_witness :
  ∃ w', env_gets (K := lmdb_0_9) (E := engine_only_a) 0%nat (Args keys_a_b) (w_open false)
          = Done (Return (PyDict [(["a"%byte], [])])) w' ∧
        length (new_calls (w_open false) w') = 4%nat.
Proof.
  pose proof (env_gets_results (K := lmdb_0_9) (E := engine_only_a) 0%nat
                (mk_object list_head_null (mk_list_head None (Some 1%nat)) true
                   (BEnv (mk_env (Some 7%nat) (Some 1%nat) false)))
                (mk_env (Some 7%nat) (Some 1%nat) false)
                keys_a_b [Buffer ["a"%byte]; Buffer ["b"%byte]] None d_1
                (PyDict [(["a"%byte], [])]) (w_open false)
                (state_of (env_gets (K := lmdb_0_9) (E := engine_only_a) 0%nat
                             (Args keys_a_b) (w_open false)) (w_open false))) as H.
  cbv zeta in H. destruct H as (Hcalls & _ & _).
  - vm_compute; reflexivity.
  - reflexivity.
  - reflexivity.
  - vm_compute; reflexivity.
  - vm_compute; reflexivity.
  - exists (state_of (env_gets (K := lmdb_0_9) (E := engine_only_a) 0%nat (Args keys_a_b) (w_open false)) (w_open false)). split; [vm_compute; reflexivity|]. rewrite Hcalls. reflexivity.
Defined.

Lemma cursor_move_witness :
  ∃ w' c', cursor_methods (K := lmdb_0_9) (E := engine_no_data) 3%nat cursor_m_first w_curs
             = Done (Return Py_False) w' ∧
           live_cursor w' 3%nat c' t_2 ∧ c_positioned c' = false ∧
           cursor_key 3%nat w' = Done (Return (PyBytes [])) w'.
Proof.
  destruct (cursor_move (K := lmdb_0_9) (E := engine_no_data) 3%nat
              (mk_cursor (Some 2%nat) false (Some 101%nat) val_null val_null) t_2
              cursor_m_first
              (mdb_cursor_get (Some 101%nat) val_null val_null MDB_FIRST) w_curs)
    as (w' & c' & Hrun & _ & Hl & _ & Hpos & Hval).
  - unfold live_cursor. by_computation.
  - reflexivity.
  - exists w', c'. split; [exact Hrun|]. split; [exact Hl|]. split; [exact Hpos|].
    exact (Hval cursor_key_f).
Defined.

(** [curs.delete()] on the cursor of [w_first], which is on [(a, 1)], with an engine
    that deletes the pair and then fails, with [EIO], to read the position: [True] is
    returned with the error of [mdb_cursor_get] set, and the cursor is not positioned. *)
Lemma cursor_delete_spec_witness :
  ∃ w' c',
    cursor_delete (K := lmdb_0_9) (E := engine_reread_fails) 3%nat w_first
      = Done (Return Py_True, Some (err_set "mdb_cursor_get" 5)) w' ∧
    length (new_calls w_first w') = 2%nat ∧
    live_cursor w' 3%nat c' t_2 ∧ c_positioned c' = false.
Proof.
  destruct (cursor_delete_spec (K := lmdb_0_9) (E := engine_reread_fails) 3%nat c_3 t_2
              w_first) as (_ & _ & H).
  - unfold live_cursor. by_computation.
  - destruct H as (w' & c' & Hrun & Hcalls & Hl & Hpos); [reflexivity | reflexivity |].
    exists w', c'. split; [exact Hrun|]. split; [now rewrite Hcalls|].
    split; [exact Hl | exact Hpos].
Defined.

Lemma cursor_get_spec_witness :
  ∃ w' c', cursor_get (K := lmdb_0_9) (E := engine_no_data) 3%nat
             (Args (mk_cursor_get_args (Some ["b"%byte]) (Some (PyLong 7)))) w_curs
             = Done (Return (PyLong 7)) w' ∧
           live_cursor w' 3%nat c' t_2 ∧ c_positioned c' = false.
Proof.
  destruct (cursor_get_spec (K := lmdb_0_9) (E := engine_no_data) 3%nat
              (mk_cursor (Some 2%nat) false (Some 101%nat) val_null val_null) t_2
              (mk_cursor_get_args (Some ["b"%byte]) (Some (PyLong 7))) w_curs)
    as [_ H].
  - unfold live_cursor. by_computation.
  - destruct (H ["b"%byte] eq_refl) as (w' & c' & Hrun & _ & Hl & Hpos).
    exists w', c'. split; [exact Hrun|]. split; [exact Hl | exact Hpos].
Defined.

(** ** Argument parsing in detail *)

Lemma land_bit set i :
  Z.land set (Z.shiftl 1 (Z.of_nat i)) = 0 ↔ Z.testbit set (Z.of_nat i) = false.
Proof.
  rewrite Z.shiftl_1_l. split; intros H.
  - apply (f_equal (λ x, Z.testbit x (Z.of_nat i))) in H.
    rewrite Z.land_spec, Z.pow2_bits_true, Z.bits_0, andb_true_r in H by lia. exact H.
  - apply Z.bits_inj'. intros n Hn. rewrite Z.land_spec, Z.bits_0, Z.pow2_bits_eqb by lia.
    destruct (Z.eqb_spec (Z.of_nat i) n) as [<-|]; [now rewrite H | apply andb_false_r].
Qed.

Lemma positional_bits specs vals i set out set' out' j :
  Parse.positional specs vals i set out = inr (set', out') →
  (∀ k, (32 ≤ k)%nat → Z.testbit set (Z.of_nat k) = false) →
  Z.testbit set' (Z.of_nat j) = true ↔
  Z.testbit set (Z.of_nat j) = true ∨
  (i ≤ j < i + min (length vals) (length specs) ∧ j < 32)%nat.
Proof.
  revert specs i set out. induction vals as [|v vals IH]; intros specs i set out H Hhi.
  - simpl in H. simplify_eq. simpl. intuition lia.
  - destruct specs as [|s specs]; simpl in H.
    + simplify_eq. simpl. intuition lia.
    + destruct (Parse.parse_arg s v out) as [e|o]; [discriminate|].
      assert (Hb : ∀ k, Z.testbit (Z.lor set (Z.shiftl 1 (Z.of_nat i)) mod 2 ^ 32) (Z.of_nat k) = true
                   ↔ (k < 32)%nat ∧ (Z.testbit set (Z.of_nat k) = true ∨ k = i)).
      { intros k. destruct (decide (k < 32)%nat) as [Hk|Hk].
        - rewrite Z.mod_pow2_bits_low, Z.lor_spec, Z.shiftl_1_l, Z.pow2_bits_eqb by lia.
          rewrite orb_true_iff, Z.eqb_eq, Nat2Z.inj_iff.
          split; [intros [?|?]; auto | intros [_ [?|?]]; auto].
        - rewrite Z.mod_pow2_bits_high by lia. split; [discriminate | tauto]. }
      apply IH in H.
      2:{ intros k Hk. apply not_true_is_false. rewrite Hb. lia. }
      rewrite H, Hb. clear H Hb. cbn [length].
      destruct (decide (j < 32)%nat) as [Hj|Hj].
      * split.
        -- intros [[_ [?|?]]|[? _]]; [now left | right; lia | right; lia].
        -- intros [?|[? _]]; [left; auto|].
           destruct (decide (j = i)); [left; auto | right; lia].
      * rewrite (Hhi j) by lia. split.
        -- intros [[? _]|[_ ?]]; lia.
        -- intros [?|[_ ?]]; [discriminate | lia].
Qed.

Lemma positional_app sp1 sp2 v1 v2 i set out :
  length sp1 = length v1 →
  Parse.positional (sp1 ++ sp2) (v1 ++ v2) i set out =
  match Parse.positional sp1 v1 i set out with
  | inl e => inl e
  | inr (set', out') => Parse.positional sp2 v2 (i + length v1) set' out'
  end.
Proof.
  revert sp1 i set out. induction v1 as [|v v1 IH]; intros [|s sp1] i set out Hl;
    try discriminate; simpl.
  - now rewrite Nat.add_0_r.
  - destruct (Parse.parse_arg s v out); [reflexivity|].
    rewrite IH by (simpl in Hl; lia). now rewrite Nat.add_succ_r.
Qed.

Lemma positional_nil specs i set out :
  Parse.positional specs [] i set out = inr (set, out).
Proof. reflexivity. Qed.

Lemma positional_no_specs vals i set out :
  Parse.positional [] vals i set out = inr (set, out).
Proof. now destruct vals. Qed.

Section ParseArgs.
Context `{R : Parse.PyBytes}.

(** Once every keyword of the dict has been found, the loop is over. *)
Lemma keywords_done specs kwds size i set out :
  Parse.keywords specs kwds size i size set out = inr (size, out).
Proof. destruct specs; simpl; [reflexivity|]. now rewrite decide_True. Qed.

Lemma keywords_skip pre rest kwds size i c set out :
  (∀ s, s ∈ pre → kwds !! Parse.name s = None) →
  Parse.keywords (pre ++ rest) kwds size i c set out =
  Parse.keywords rest kwds size (i + length pre) c set out.
Proof.
  revert i. induction pre as [|s pre IH]; intros i Hp; simpl.
  - now rewrite Nat.add_0_r.
  - destruct (decide (c = size)) as [->|]; [now rewrite keywords_done|].
    rewrite (Hp s) by constructor. rewrite IH by (intros; apply Hp; now constructor).
    now rewrite Nat.add_succ_r.
Qed.

(** The keywords the dict has among those of the specs. *)
Lemma keywords_positional rest kwds size i c set set2 out :
  (∀ j, (i ≤ j)%nat → Z.testbit set (Z.of_nat j) = false) →
  size = (c + length (filter (λ s, is_Some (kwds !! Parse.name s)) rest))%nat →
  match Parse.positional rest (Parse.given kwds <$> rest) i set2 out with
  | inl e => Parse.keywords rest kwds size i c set out = inl e
  | inr (_, o) => Parse.keywords rest kwds size i c set out = inr (size, o)
  end.
Proof.
  revert i c set2 out. induction rest as [|s rest IH]; intros i c set2 out Hset Hsize.
  - simpl in *. f_equal. f_equal. lia.
  - cbn [fmap list_fmap Parse.positional Parse.keywords].
    rewrite filter_cons in Hsize. unfold Parse.given at 1.
    destruct (kwds !! Parse.name s) as [val|] eqn:Hk; cbn [default from_option id].
    + rewrite decide_True in Hsize by eauto. cbn [length] in Hsize.
      rewrite decide_False by lia.
      rewrite (proj2 (land_bit set i)) by (apply Hset; lia). cbn [Z.eqb negb].
      destruct (Parse.parse_arg s val out) as [e|o]; cbv beta iota; [reflexivity|].
      apply IH; [intros; apply Hset; lia | lia].
    + rewrite decide_False in Hsize by (intros []; discriminate).
      assert (Hn : Parse.parse_arg s Parse.VNone out = inr out) by reflexivity.
      rewrite Hn.
      specialize (IH (S i) c (Z.lor set2 (Z.shiftl 1 (Z.of_nat i)) mod 2 ^ 32) out
                    (λ j Hj, Hset j ltac:(lia)) Hsize).
      destruct (decide (c = size)) as [->|]; [|exact IH].
      rewrite keywords_done in IH.
      destruct (Parse.positional rest _ _ _ _) as [e|[s2 o]]; [discriminate|].
      now simplify_eq.
Qed.

Lemma NoDup_length_size (l : list string) (X : gset string) :
  NoDup l → (∀ x, x ∈ l → x ∈ X) → (length l ≤ size X)%nat.
Proof.
  intros Hnd Hin. rewrite <- (size_list_to_set (C := gset string) l) by exact Hnd.
  apply subseteq_size. intros x Hx. apply elem_of_list_to_set in Hx. auto.
Qed.

Lemma names_found_NoDup (kwds : gmap string Parse.pyval) specs :
  NoDup (Parse.names specs) →
  NoDup (Parse.names (filter (λ s, is_Some (kwds !! Parse.name s)) specs)).
Proof.
  intros H. eapply sublist_NoDup; [exact H|]. unfold Parse.names.
  apply fmap_sublist, sublist_filter.
Qed.

Lemma size_found (kwds : gmap string Parse.pyval) specs :
  NoDup (Parse.names specs) →
  (∀ k, is_Some (kwds !! k) → k ∈ Parse.names specs) →
  size kwds = length (filter (λ s, is_Some (kwds !! Parse.name s)) specs).
Proof.
  intros Hnd Hin.
  rewrite <- (length_fmap Parse.name), <- size_dom.
  rewrite <- (size_list_to_set (C := gset string)) by now apply names_found_NoDup.
  f_equal. apply set_eq. intros k.
  rewrite elem_of_dom, elem_of_list_to_set, list_elem_of_fmap. split.
  - intros Hk. pose proof (Hin k Hk) as Hs. apply list_elem_of_fmap in Hs as [s [-> Hs]].
    exists s. split; [reflexivity|]. now apply list_elem_of_filter.
  - intros [s [-> [Hs _]%list_elem_of_filter]]. exact Hs.
Qed.

(** The bits of [set] after the positional arguments. *)
Lemma positional_set specs vals out set out' j :
  Parse.positional specs vals 0 0 out = inr (set, out') →
  Z.testbit set (Z.of_nat j) = true ↔ (j < min (length vals) (length specs) ∧ j < 32)%nat.
Proof.
  intros H. rewrite (positional_bits _ _ _ _ _ _ _ j H) by (intros; apply Z.bits_0).
  rewrite Z.bits_0. split; [intros [?|?]; [discriminate | lia] | intros; right; lia].
Qed.

Lemma keywords_count rest kwds size i c set out c' o :
  Parse.keywords rest kwds size i c set out = inr (c', o) →
  (c' ≤ c + length (filter (λ s, is_Some (kwds !! Parse.name s)) rest))%nat.
Proof.
  revert i c out. induction rest as [|s rest IH]; intros i c out H; simpl in H.
  - simplify_eq. lia.
  - rewrite filter_cons.
    destruct (decide (c = size)); [simplify_eq; lia|].
    destruct (kwds !! Parse.name s) as [val|] eqn:Hk.
    + rewrite decide_True by eauto. cbn [length].
      destruct (negb _); [discriminate|].
      destruct (Parse.parse_arg s val out); [discriminate|].
      apply IH in H. lia.
    + rewrite decide_False by (intros []; discriminate). now apply IH in H.
Qed.

Lemma keywords_dup rest kwds size i set out n :
  size ≠ 0%nat →
  (∀ j, (j < n)%nat → Z.testbit set (Z.of_nat j) = true) →
  (∃ j s, rest !! j = Some s ∧ (i + j < n)%nat ∧ is_Some (kwds !! Parse.name s)) →
  ∃ e, Parse.keywords rest kwds size i 0 set out = inl e.
Proof.
  intros Hsize Hset. revert i.
  induction rest as [|s0 rest IH]; intros i (j & s & Hj & Hlt & Hs); [discriminate|].
  simpl. rewrite decide_False by auto.
  destruct (kwds !! Parse.name s0) as [val|] eqn:Hk.
  - assert (Hb : Z.land set (Z.shiftl 1 (Z.of_nat i)) ≠ 0).
    { rewrite land_bit, (Hset i) by lia. discriminate. }
    apply Z.eqb_neq in Hb. rewrite Hb. eauto.
  - destruct j as [|j]; simpl in Hj.
    + simplify_eq. rewrite Hk in Hs. now destruct Hs.
    + apply IH. exists j, s. repeat split; auto. lia.
Qed.

End ParseArgs.

Section ParseArgsProperties.
Context `{R : Parse.PyBytes}.

(** X15: arguments given by keyword are parsed as if they were given by position.  When
    every keyword of the call names a parameter beyond the positional arguments, and the
    keywords of the argspec are distinct, [parse_args] gives the result, or the error,
    of the call that passes the same objects by position, with [None] for the
    parameters the call leaves out. *)
Theorem parse_args_keywords valid spec args kwds out :
  let vals := default [] args in
  NoDup (Parse.names spec) →
  (∀ k, is_Some (kwds !! k) → k ∈ Parse.names (drop (length vals) spec)) →
  Parse.parse_args valid spec args (Some kwds) out =
  Parse.parse_args valid spec
    (Some (vals ++ (Parse.given kwds <$> drop (length vals) spec))) None out.
Proof.
  intros vals Hnd Hin. unfold Parse.parse_args.
  destruct valid; [|reflexivity]. cbn [negb].
  rewrite length_app, length_fmap, length_drop.
  destruct (decide (length spec < length vals)%nat) as [Hlt|Hle].
  { rewrite decide_True by lia. destruct args as [vs|]; [|simpl in Hlt; lia].
    cbn [default from_option id] in vals. subst vals. now rewrite decide_True by lia. }
  rewrite (decide_False (P := (length spec < _)%nat)) by lia.
  set (n := length vals) in *.
  assert (Hpos : match args with
                 | Some vs =>
                     if decide (length spec < length vs)%nat
                     then inl (type_error "too many positional arguments.")
                     else Parse.positional spec vs 0 0 out
                 | None => inr (0, out)
                 end = Parse.positional (take n spec) vals 0 0 out).
  { destruct args as [vs|]; cbn [default from_option id] in vals; subst vals.
    - rewrite decide_False by exact Hle.
      rewrite <- (take_drop n spec) at 1. rewrite <- (app_nil_r vs) at 1.
      rewrite positional_app by (rewrite length_take; subst n; lia).
      destruct (Parse.positional (take n spec) vs 0 0 out) as [e|[s1 o1]]; reflexivity.
    - now destruct (take n spec). }
  rewrite Hpos. clear Hpos.
  assert (Hr : ∀ pad, Parse.positional spec (vals ++ pad) 0 0 out =
                 Parse.positional (take n spec ++ drop n spec) (vals ++ pad) 0 0 out)
    by now rewrite take_drop.
  rewrite Hr. clear Hr.
  rewrite positional_app by (rewrite length_take; subst n; lia).
  destruct (Parse.positional (take n spec) vals 0 0 out) as [e|[set o1]] eqn:Hp;
    [reflexivity|].
  rewrite <- (take_drop n spec) in Hnd. unfold Parse.names in Hnd.
  rewrite fmap_app in Hnd. apply NoDup_app in Hnd as (_ & Hdisj & Hnd).
  assert (Hr : ∀ i c, Parse.keywords spec kwds (size kwds) i c set o1 =
                 Parse.keywords (take n spec ++ drop n spec) kwds (size kwds) i c set o1)
    by now rewrite take_drop.
  rewrite Hr. clear Hr. rewrite keywords_skip.
  2:{ intros s Hs. destruct (kwds !! Parse.name s) eqn:Hk; [|reflexivity].
      exfalso. apply (Hdisj (Parse.name s)); [now apply list_elem_of_fmap_2|].
      apply Hin. eauto. }
  rewrite length_take, Nat.min_l by (subst n; lia). cbn [Nat.add]. fold n.
  assert (Hset : ∀ j, (n ≤ j)%nat → Z.testbit set (Z.of_nat j) = false).
  { intros j Hj. apply not_true_is_false.
    rewrite (positional_set _ _ _ _ _ j Hp). fold n. lia. }
  pose proof (keywords_positional (drop n spec) kwds (size kwds) n 0 set set o1 Hset
                (size_found kwds _ Hnd Hin)) as Hk.
  destruct (Parse.positional (drop n spec) (Parse.given kwds <$> drop n spec) n set o1)
    as [e|[s2 o2]]; rewrite Hk; [reflexivity|].
  now rewrite decide_False by (intros Hne; now apply Hne).
Qed.

(** X16: a keyword that names no parameter is never ignored: if the dict of the
    keyword arguments has a key that is not a keyword of the argspec, whose keywords are
    distinct, [parse_args] fails. *)
Theorem parse_args_unknown_keyword valid spec args kwds out k :
  NoDup (Parse.names spec) →
  is_Some (kwds !! k) → k ∉ Parse.names spec →
  ∃ e, Parse.parse_args valid spec args (Some kwds) out = inl e.
Proof.
  intros Hnd Hk Hn. unfold Parse.parse_args.
  destruct valid; cbn [negb]; [|eauto].
  destruct (match args with Some _ => _ | None => _ end) as [e|[set o1]]; [eauto|].
  destruct (Parse.keywords spec kwds (size kwds) 0 0 set o1) as [e|[c o2]] eqn:Hkw;
    [eauto|].
  apply keywords_count in Hkw. simpl in Hkw.
  rewrite decide_True; [eauto|].
  rewrite <- (length_fmap Parse.name) in Hkw.
  pose proof (NoDup_length_size _ (dom kwds ∖ {[k]}) (names_found_NoDup kwds spec Hnd))
    as Hsz.
  assert (Hlt : (size (dom kwds ∖ {[k]}) < size kwds)%nat).
  { rewrite <- size_dom. apply subset_size. split.
    - intros x Hx. apply elem_of_difference in Hx. tauto.
    - intros Hsub. apply elem_of_dom in Hk. apply Hsub in Hk.
      apply elem_of_difference in Hk as [_ Hk]. apply Hk. now apply elem_of_singleton. }
  unfold Parse.names in Hsz. cut (length (Parse.name <$>
      filter (λ s, is_Some (kwds !! Parse.name s)) spec) ≤ size (dom kwds ∖ {[k]}))%nat;
    [lia|].
  apply Hsz. intros x Hx.
  apply list_elem_of_fmap in Hx as [s [-> [Hs Hin]%list_elem_of_filter]].
  apply elem_of_difference. split; [now apply elem_of_dom|].
  intros Heq%elem_of_singleton. apply Hn. rewrite <- Heq. now apply list_elem_of_fmap_2.
Qed.

(** X17: an argument given both by position and by keyword is an error: if the dict
    has the keyword of one of the parameters that the positional arguments cover,
    [parse_args] fails, for an argspec of at most 31 parameters. *)
Theorem parse_args_duplicate valid spec vals kwds out j s :
  (length spec ≤ 31)%nat →
  spec !! j = Some s → (j < length vals)%nat → is_Some (kwds !! Parse.name s) →
  ∃ e, Parse.parse_args valid spec (Some vals) (Some kwds) out = inl e.
Proof.
  intros Hlen Hj Hlt Hs. unfold Parse.parse_args.
  destruct valid; cbn [negb]; [|eauto].
  destruct (decide (length spec < length vals)%nat); [eauto|].
  destruct (Parse.positional spec vals 0 0 out) as [e|[set o1]] eqn:Hp; [eauto|].
  destruct (keywords_dup spec kwds (size kwds) 0 set o1 (length vals)) as [e He].
  - intros Hz. apply map_size_empty_iff in Hz. rewrite Hz, lookup_empty in Hs.
    now destruct Hs.
  - intros i Hi. rewrite (positional_set _ _ _ _ _ i Hp). lia.
  - exists j, s. auto.
  - rewrite He. eauto.
Qed.

(** X18: an integer argument is stored as it is or refused, never reduced: for a
    parameter of type [ARG_INT] or [ARG_SIZE], [parse_arg] on an integer [n] (a [bool]
    counts as 1 or 0) raises [TypeError] when [n] is negative or greater than [INT_MAX],
    respectively [SIZE_MAX], and stores exactly [n] otherwise. *)
Theorem parse_arg_int_range s v n out :
  Parse.a_type s = Parse.ARG_INT ∨ Parse.a_type s = Parse.ARG_SIZE →
  Parse.int_value v = Some n →
  Parse.parse_arg s v out =
  if decide (n < 0) then inl (type_error "Integer argument must be >= 0")
  else if decide (Parse.int_limit (Parse.a_type s) < n)
       then inl (type_error "Integer argument exceeds limit.")
       else inr (<[Parse.a_offset s := Parse.int_field (Parse.a_type s) n]> out).
Proof.
  intros Ht Hv. destruct s as [t id off]. cbn [Parse.a_type Parse.a_offset] in *.
  assert (Hnone : v ≠ Parse.VNone) by (intros ->; discriminate).
  assert (Hgen : Parse.parse_arg (Parse.mk_argspec t id off) v out =
                 match Parse.parse_ulong v (Parse.int_limit t) with
                 | inl e => inl e
                 | inr l => inr (<[off := Parse.int_field t
                                     (match t with
                                      | Parse.ARG_SIZE => l mod 2 ^ 64
                                      | _ => Parse.to_int l
                                      end)]> out)
                 end).
  { destruct Ht as [->| ->]; destruct v; try congruence; reflexivity. }
  rewrite Hgen. clear Hgen. unfold Parse.parse_ulong. rewrite Hv.
  destruct (decide (n < 0)) as [Hneg|Hneg];
    [now rewrite (proj2 (Z.leb_gt 0 n)) by lia|].
  rewrite (proj2 (Z.leb_le 0 n)) by lia. cbn [negb].
  destruct (decide (Parse.int_limit t < n)) as [Hbig|Hbig];
    [now rewrite (proj2 (Z.leb_gt n _)) by lia|].
  rewrite (proj2 (Z.leb_le n _)) by lia. cbn [negb].
  do 3 f_equal.
  destruct Ht as [->| ->]; cbn [Parse.int_limit] in Hbig;
    unfold Parse.INT_MAX, Parse.SIZE_MAX, Parse.to_int in *.
  - rewrite (Z.mod_small n) by lia. rewrite Z.mod_small by lia. lia.
  - rewrite Zmod_mod. apply Z.mod_small. lia.
Qed.

End ParseArgsProperties.

(** ** The [write] argument of [begin] *)

Section BeginWrite.
Context {K : lmdb_h} {E : Engine} `{R : Parse.PyBytes}.

Lemma env_begin_args_write v :
  env_begin_args (Some []) (Some {["write"%string := v]}) =
  Args (mk_begin_args (Some false) (Some (bool_decide (v = Parse.VTrue))) None).
Proof.
  unfold env_begin_args, Parse.parse_args, env_begin_argspec.
  rewrite map_size_singleton. cbn [negb length]. rewrite decide_False by lia.
  cbn [Parse.positional Parse.keywords Parse.name Parse.a_string_id].
  change (Parse.string_tbl Parse.BUFFERS_S) with "buffers"%string.
  change (Parse.string_tbl Parse.WRITE_S) with "write"%string.
  rewrite decide_False by lia.
  rewrite lookup_singleton_ne by discriminate.
  rewrite decide_False by lia. rewrite lookup_singleton_eq.
  destruct v; reflexivity.
Qed.

(** X19: [env.begin(write=v)] on a valid environment that is not read-only begins a
    write transaction only if [v] is the object [True]: for every other object, [1]
    included, the one call of the engine is [mdb_txn_begin] with [MDB_RDONLY]. *)
Theorem env_begin_write_only_True self o e t w v :
  heap w !! self = Some o → valid o = true → body o = BEnv e → e_readonly e = false →
  shape (heap w) t → NoDup (nodes t) → self ∈ nodes t →
  ∃ r w',
    env_begin self (env_begin_args (Some []) (Some {["write"%string := v]})) w = Done r w' ∧
    new_calls w w' =
      [mdb_txn_begin (e_env e) None (if decide (v = Parse.VTrue) then 0 else MDB_RDONLY)].
Proof.
  intros Ho Hv Hb Hro Hs Hnd Hin. rewrite env_begin_args_write.
  set (c := mdb_txn_begin (e_env e) None
              (if decide (v = Parse.VTrue) then 0 else MDB_RDONLY)).
  set (r := engine_reply (trace w) c).
  assert (Hbd : ∀ d, body o ≠ BDb d) by (intros d; rewrite Hb; discriminate).
  destruct (new_child_grafts w (trace w ++ [c]) self o
              (BTrans (mk_trans (Some self) (Some (out_ptr r)) false)) t)
    as (w' & Hrun & Htr & _); auto; try discriminate.
  assert (Hflags : (if bool_decide (v = Parse.VTrue) && true
                    then 0 else MDB_RDONLY)
                   = (if decide (v = Parse.VTrue) then 0 else MDB_RDONLY)).
  { rewrite andb_true_r.
    destruct (decide (v = Parse.VTrue)) as [->|Hne];
      [reflexivity | now rewrite bool_decide_eq_false_2]. }
  unfold env_begin, make_trans, parse_args.
  mgo; rewrite ?andb_false_r; rewrite ?Hflags; fold c; fold r.
  destruct (decide (rc r ≠ 0)).
  - eexists _, _. split; [reflexivity|]. apply new_calls_called.
  - unfold PyObject_New; simpl; fold c; fold r. rewrite Hrun.
    eexists _, _. split; [reflexivity|].
    unfold new_calls. rewrite Htr. now rewrite drop_app_length.
Qed.

End BeginWrite.

(** [begin(True, write=True)] parses as [begin(True, True, None)]. *)
Lemma parse_args_keywords_witness :
  Parse.parse_args (H := py_reads_chars) true env_begin_argspec (Some [Parse.VTrue])
    (Some {["write"%string := Parse.VTrue]}) env_begin_arg
  = Parse.parse_args (H := py_reads_chars) true env_begin_argspec
      (Some [Parse.VTrue; Parse.VTrue; Parse.VNone]) None env_begin_arg.
Proof.
  refine (eq_trans
            (parse_args_keywords (R := py_reads_chars) true env_begin_argspec
               (Some [Parse.VTrue]) {["write"%string := Parse.VTrue]} env_begin_arg _ _) _).
  3: vm_compute; reflexivity.
  - apply (bool_decide_unpack _). vm_compute. exact I.
  - intros k [x Hx]. apply lookup_singleton_Some in Hx as [<- _].
    apply (bool_decide_unpack _). vm_compute. exact I.
Defined.

(** [begin(writable=True)] is refused. *)
Lemma parse_args_unknown_keyword_witness :
  ∃ e, Parse.parse_args (H := py_reads_chars) true env_begin_argspec (Some [])
         (Some {["writable"%string := Parse.VTrue]}) env_begin_arg = inl e.
Proof.
  apply (parse_args_unknown_keyword (R := py_reads_chars) true env_begin_argspec (Some [])
           {["writable"%string := Parse.VTrue]} env_begin_arg "writable"%string).
  - apply (bool_decide_unpack _). vm_compute. exact I.
  - rewrite lookup_singleton_eq. eauto.
  - apply (bool_decide_unpack _). vm_compute. exact I.
Defined.

(** [begin(False, True, write=True)] is refused. *)
Lemma parse_args_duplicate_witness :
  ∃ e, Parse.parse_args (H := py_reads_chars) true env_begin_argspec
         (Some [Parse.VFalse; Parse.VTrue])
         (Some {["write"%string := Parse.VTrue]}) env_begin_arg = inl e.
Proof.
  apply (parse_args_duplicate (R := py_reads_chars) true env_begin_argspec
           [Parse.VFalse; Parse.VTrue] {["write"%string := Parse.VTrue]} env_begin_arg
           1%nat (Parse.mk_argspec Parse.ARG_BOOL Parse.WRITE_S 1)).
  - simpl. lia.
  - reflexivity.
  - simpl. lia.
  - rewrite lookup_singleton_eq. eauto.
Defined.

(** [2 ** 31] is no [int] argument. *)
Lemma parse_arg_int_range_witness :
  Parse.parse_arg (Parse.mk_argspec Parse.ARG_INT Parse.MODE_S 0) (Parse.VInt 2147483648)
    [Parse.FInt 0]
  = inl (type_error "Integer argument exceeds limit.").
Proof.
  apply (parse_arg_int_range (Parse.mk_argspec Parse.ARG_INT Parse.MODE_S 0)
           (Parse.VInt 2147483648) 2147483648 [Parse.FInt 0]).
  - left. reflexivity.
  - reflexivity.
Defined.

(** [env.begin(write=1)] begins a read-only transaction. *)
Lemma env_begin_write_only_True_witness :
  ∃ r w',
    env_begin (K := lmdb_0_9) (E := engine_ok) 0%nat
      (env_begin_args (H := py_reads_chars) (Some [])
         (Some {["write"%string := Parse.VInt 1]})) (w_open false) = Done r w' ∧
    new_calls (w_open false) w' =
      [mdb_txn_begin (Some 7%nat) None (MDB_RDONLY (lmdb_h := lmdb_0_9))].
Proof.
  apply (env_begin_write_only_True (K := lmdb_0_9) (E := engine_ok) (R := py_reads_chars)
           0%nat
           (mk_object list_head_null (mk_list_head None (Some 1%nat)) true
              (BEnv (mk_env (Some 7%nat) (Some 1%nat) false)))
           (mk_env (Some 7%nat) (Some 1%nat) false)
           (Node 0%nat [Node 1%nat []]) (w_open false) (Parse.VInt 1)).
  - vm_compute; reflexivity.
  - reflexivity.
  - reflexivity.
  - reflexivity.
  - simpl. unfold linked. simpl. by_computation.
  - apply (bool_decide_unpack _). vm_compute. exact I.
  - simpl. left.
Defined.

(** ** Opening a database *)

Lemma unlink_child_trace p c h tr tr' :
  unlink_child p c (mk_world h tr') =
  match unlink_child p c (mk_world h tr) with
  | Done a w => Done a (mk_world (heap w) tr')
  | Fault => Fault
  | OutOfFuel => OutOfFuel
  end.
Proof.
  unfold unlink_child. destruct p as [pa|]; [|reflexivity].
  cbv [bind load update ret]. simpl.
  repeat (match goal with
          | |- context [match ?x with _ => _ end] =>
              lazymatch x with
              | context [match _ with _ => _ end] => fail
              | _ => destruct x eqn:?; simpl; try reflexivity
              end
          end).
Qed.

Section OpenDb.
Context {K : lmdb_h} {E : Engine}.

Lemma open_db_flags_eq a :
  (let flags := 0 in
   let flags := if default false (oa_reverse_key a)
                then Z.lor flags MDB_REVERSEKEY else flags in
   let flags := if default false (oa_dupsort a)
                then Z.lor flags MDB_DUPSORT else flags in
   if default true (oa_create a) then Z.lor flags MDB_CREATE else flags)
  = open_db_flags a.
Proof.
  unfold open_db_flags. cbv zeta.
  destruct (default false (oa_reverse_key a)), (default false (oa_dupsort a)),
    (default true (oa_create a)); rewrite ?Z.lor_0_l, ?Z.lor_0_r; reflexivity.
Qed.

Lemma env_open_db_own_txn_spec self o e a l w :
  heap w !! self = Some o → body o = BEnv e → oa_txn a = None →
  dll (heap w) None (next (children o)) l → NoDup (self :: l) →
  let begin := mdb_txn_begin (e_env e) None
                 (if bool_decide (oa_name a = None) || e_readonly e
                  then MDB_RDONLY else 0) in
  let r0 := engine_reply (trace w) begin in
  let txn := Some (out_ptr r0) in
  let open := mdb_dbi_open txn (oa_name a) (open_db_flags a) in
  let r1 := engine_reply (trace w ++ [begin]) open in
  let commit := mdb_txn_commit txn in
  let r2 := engine_reply (trace w ++ [begin; open]) commit in
  let new := fresh (dom (heap w)) in
  ∃ res w',
    env_open_db self (Args a) w = Done res w' ∧
    if decide (rc r0 ≠ 0) then
      res = Raise (err_set "mdb_txn_begin" (rc r0)) ∧
      w' = mk_world (heap w) (trace w ++ [begin])
    else if decide (rc r1 ≠ 0) then
      res = Raise (err_set "mdb_dbi_open" (rc r1)) ∧
      w' = mk_world (heap w) (trace w ++ [begin; open; mdb_txn_abort txn])
    else if decide (rc r2 ≠ 0) then
      res = Raise (err_set "mdb_txn_commit" (rc r2)) ∧
      w' = mk_world (<[new := cleared_db (out_dbi r1)]> (heap w))
                    (trace w ++ [begin; open; commit])
    else
      res = Return (PyHandle new) ∧
      trace w' = trace w ++ [begin; open; commit] ∧
      ∃ o' on,
        heap w' !! self = Some o' ∧ valid o' = valid o ∧ body o' = body o ∧
        dll (heap w') None (next (children o')) (new :: l) ∧
        heap w' !! new = Some on ∧ valid on = true ∧
        body on = BDb (mk_db (Some self) (out_dbi r1)).
Proof.
  intros Ho Hb Htxn Hd Hnd begin r0 txn open r1 commit r2 new.
  pose proof (fresh_not_in_heap (heap w)) as Hnew. fold new in Hnew.
  assert (Hsn : self ≠ new) by (intros Heq; rewrite <- Heq in Hnew; congruence).
  assert (Hnl : new ∉ l).
  { intros Hin. destruct (dll_in_heap _ _ _ _ _ Hd Hin). congruence. }
  set (init := OBJECT_INIT (BDb (mk_db (Some self) (out_dbi r1)))).
  set (tr2 := (trace w ++ [begin]) ++ [open]).
  set (w1 := mk_world (<[new := init]> (heap w)) tr2).
  assert (Hd1 : dll (heap w1) None (next (children o)) l).
  { apply (dll_frame_siblings (heap w)); [|exact Hd]. intros x ox Hx Hox. exists ox.
    split; [|reflexivity]. simpl. rewrite lookup_insert_ne; [exact Hox|].
    intros <-. contradiction. }
  assert (Hnd1 : NoDup (self :: new :: l)).
  { apply NoDup_cons in Hnd as [Hsl Hnd]. apply NoDup_cons. split.
    - intros [Heq|Hin]%elem_of_cons; [contradiction | contradiction].
    - apply NoDup_cons. auto. }
  destruct (link_child_spec w1 self new o init l) as
    (w2 & o' & on & Hlink & Htr & Ho' & _ & (Hvo & Hbo) & Hdl & Hon & _ & Hrest); auto.
  { simpl. now rewrite lookup_insert_ne by congruence. }
  { simpl. apply lookup_insert_eq. }
  destruct (Hrest new init) as (on' & Hon' & _ & (Hvn & Hbn) & _);
    [simpl; apply lookup_insert_eq | congruence |].
  rewrite Hon in Hon'. injection Hon' as <-.
  pose proof (link_unlink_spec w1 self new o init l) as Hround.
  unfold bind in Hround. rewrite Hlink in Hround.
  specialize (Hround ltac:(simpl; now rewrite lookup_insert_ne by congruence)
                     ltac:(simpl; apply lookup_insert_eq) eq_refl Hd1 Hnd1).
  assert (Hun : ∀ tr, unlink_child (Some self) new (mk_world (heap w2) tr)
                      = Done tt (mk_world (heap w1) tr)).
  { intros tr. rewrite (unlink_child_trace _ _ _ (trace w2)).
    replace (mk_world (heap w2) (trace w2)) with w2 by now destruct w2.
    now rewrite Hround. }
  unfold env_open_db, parse_args. cbn [negb]. rewrite Htxn.
  rewrite open_db_flags_eq.
  unfold txn_db_from_name, db_from_name, db_clear, PyObject_New.
  mgo. fold begin r0.
  destruct (decide (rc r0 ≠ 0)) as [H0|H0]; [eexists _, _; split; [reflexivity|auto]|].
  mgo. fold txn open r1.
  destruct (decide (rc r1 ≠ 0)) as [H1|H1].
  { eexists _, _. split; [reflexivity|]. split; [reflexivity|].
    cbn [heap trace]. now rewrite <- !app_assoc. }
  mgo. fold new init tr2 w1. rewrite Hlink. mgo. fold commit.
  assert (Htr2 : tr2 = trace w ++ [begin; open])
    by (subst tr2; now rewrite <- app_assoc).
  assert (Hr2 : engine_reply tr2 commit = r2) by (subst r2; now rewrite Htr2).
  rewrite Hr2.
  destruct (decide (rc r2 ≠ 0)) as [H2|H2].
  - cbv beta. cbn [heap trace]. rewrite Hon. cbn [body init OBJECT_INIT] in Hbn. rewrite Hbn. cbn [d_env].
    rewrite Hun. subst w1. cbn [heap trace]. rewrite lookup_insert_eq.
    cbn [heap trace]. rewrite lookup_insert_eq.
    eexists _, _. split; [reflexivity|]. split; [reflexivity|].
    rewrite !insert_insert_eq. rewrite Htr2, <- app_assoc. reflexivity.
  - eexists _, _. split; [reflexivity|]. split; [reflexivity|]. cbn [heap trace].
    split; [now rewrite Htr2, <- app_assoc|].
    exists o', on. split; [exact Ho'|]. split; [exact Hvo|].
    split; [now rewrite Hbo|]. split; [exact Hdl|]. split; [exact Hon|].
    split; [exact Hvn | exact Hbn].
Qed.

(** X20: [env.open_db()] without a transaction runs in a transaction of its own, which
    is read-only exactly when no name is given or the environment is read-only, and
    never leaves it open: a refused [mdb_txn_begin] is raised; a failed [mdb_dbi_open]
    is raised after [mdb_txn_abort]; otherwise the transaction is committed.  When the
    commit fails the error is raised and the new handle is taken back: the handles that
    were there are as before, and the new object is cleared.  When it succeeds the new
    handle is valid, holds the [dbi] of the engine and is the first child of the
    environment.  The validity of the environment is not looked at. *)
Theorem env_open_db_own_txn self o e a l w :
  heap w !! self = Some o → body o = BEnv e → oa_txn a = None →
  dll (heap w) None (next (children o)) l → NoDup (self :: l) →
  let begin := mdb_txn_begin (e_env e) None
                 (if bool_decide (oa_name a = None) || e_readonly e
                  then MDB_RDONLY else 0) in
  let r0 := engine_reply (trace w) begin in
  let txn := Some (out_ptr r0) in
  let open := mdb_dbi_open txn (oa_name a) (open_db_flags a) in
  let r1 := engine_reply (trace w ++ [begin]) open in
  let commit := mdb_txn_commit txn in
  let r2 := engine_reply (trace w ++ [begin; open]) commit in
  let new := fresh (dom (heap w)) in
  ∃ res w',
    env_open_db self (Args a) w = Done res w' ∧
    if decide (rc r0 ≠ 0) then
      res = Raise (err_set "mdb_txn_begin" (rc r0)) ∧
      w' = mk_world (heap w) (trace w ++ [begin])
    else if decide (rc r1 ≠ 0) then
      res = Raise (err_set "mdb_dbi_open" (rc r1)) ∧
      w' = mk_world (heap w) (trace w ++ [begin; open; mdb_txn_abort txn])
    else if decide (rc r2 ≠ 0) then
      res = Raise (err_set "mdb_txn_commit" (rc r2)) ∧
      w' = mk_world (<[new := cleared_db (out_dbi r1)]> (heap w))
                    (trace w ++ [begin; open; commit])
    else
      res = Return (PyHandle new) ∧
      trace w' = trace w ++ [begin; open; commit] ∧
      ∃ o' on,
        heap w' !! self = Some o' ∧ valid o' = valid o ∧ body o' = body o ∧
        dll (heap w') None (next (children o')) (new :: l) ∧
        heap w' !! new = Some on ∧ valid on = true ∧
        body on = BDb (mk_db (Some self) (out_dbi r1)).
Proof. exact (env_open_db_own_txn_spec self o e a l w). Qed.

(** X21: [env.open_db(txn=t)] calls [mdb_dbi_open] in the transaction of [t], and calls
    nothing else: it does not begin, commit or abort a transaction, and looks neither
    at the validity of the environment nor at that of [t].  A failure is raised and
    leaves the handles as they are; otherwise the new handle is valid and is the first
    child of the environment. *)
Theorem env_open_db_in_txn self o a t ot tr l w :
  heap w !! self = Some o → oa_txn a = Some t →
  heap w !! t = Some ot → body ot = BTrans tr →
  dll (heap w) None (next (children o)) l → NoDup (self :: l) →
  let open := mdb_dbi_open (t_txn tr) (oa_name a) (open_db_flags a) in
  let r1 := engine_reply (trace w) open in
  let new := fresh (dom (heap w)) in
  ∃ res w',
    env_open_db self (Args a) w = Done res w' ∧ trace w' = trace w ++ [open] ∧
    if decide (rc r1 ≠ 0) then
      res = Raise (err_set "mdb_dbi_open" (rc r1)) ∧ heap w' = heap w
    else
      res = Return (PyHandle new) ∧
      ∃ o' on,
        heap w' !! self = Some o' ∧ valid o' = valid o ∧ body o' = body o ∧
        dll (heap w') None (next (children o')) (new :: l) ∧
        heap w' !! new = Some on ∧ valid on = true ∧
        body on = BDb (mk_db (Some self) (out_dbi r1)).
Proof.
  intros Ho Htxn Hot Hbt Hd Hnd open r1 new.
  pose proof (fresh_not_in_heap (heap w)) as Hnew. fold new in Hnew.
  assert (Hsn : self ≠ new) by (intros Heq; rewrite <- Heq in Hnew; congruence).
  assert (Hnl : new ∉ l).
  { intros Hin. destruct (dll_in_heap _ _ _ _ _ Hd Hin). congruence. }
  set (init := OBJECT_INIT (BDb (mk_db (Some self) (out_dbi r1)))).
  set (w1 := mk_world (<[new := init]> (heap w)) (trace w ++ [open])).
  assert (Hd1 : dll (heap w1) None (next (children o)) l).
  { apply (dll_frame_siblings (heap w)); [|exact Hd]. intros x ox Hx Hox. exists ox.
    split; [|reflexivity]. simpl. rewrite lookup_insert_ne; [exact Hox|].
    intros <-. contradiction. }
  assert (Hnd1 : NoDup (self :: new :: l)).
  { apply NoDup_cons in Hnd as [Hsl Hnd]. apply NoDup_cons. split.
    - intros [Heq|Hin]%elem_of_cons; [contradiction | contradiction].
    - apply NoDup_cons. auto. }
  destruct (link_child_spec w1 self new o init l) as
    (w2 & o' & on & Hlink & Htr & Ho' & _ & (Hvo & Hbo) & Hdl & Hon & _ & Hrest); auto.
  { simpl. now rewrite lookup_insert_ne by congruence. }
  { simpl. apply lookup_insert_eq. }
  destruct (Hrest new init) as (on' & Hon' & _ & (Hvn & Hbn) & _);
    [simpl; apply lookup_insert_eq | congruence |].
  rewrite Hon in Hon'. injection Hon' as <-.
  unfold env_open_db, parse_args. cbn [negb]. rewrite Htxn.
  rewrite open_db_flags_eq. unfold db_from_name, PyObject_New.
  cbv [bind load_trans load as_trans ret call]. rewrite Hot, Hbt. fold open r1.
  destruct (decide (rc r1 ≠ 0)) as [H1|H1].
  - eexists _, _. split; [reflexivity|]. auto.
  - cbn [heap trace]. fold new init w1. rewrite Hlink.
    eexists _, _. split; [reflexivity|]. split; [now rewrite Htr|].
    split; [reflexivity|]. exists o', on. auto 10.
Qed.

End OpenDb.

(** When the commit fails, [env.open_db('sub')] raises, and leaves the handles of
    [w_open] as they were, beside a cleared database object. *)
Lemma env_open_db_own_txn_witness :
  ∃ w',
    env_open_db (K := lmdb_0_9) (E := engine_commit_fails) 0%nat (Args open_db_sub)
      (w_open false) = Done (Raise (err_set "mdb_txn_commit" 5)) w' ∧
    heap w' = <[2%nat := cleared_db 2]> (heap (w_open false)).
Proof.
  destruct (env_open_db_own_txn (K := lmdb_0_9) (E := engine_commit_fails) 0%nat
              (mk_object list_head_null (mk_list_head None (Some 1%nat)) true
                 (BEnv (mk_env (Some 7%nat) (Some 1%nat) false)))
              (mk_env (Some 7%nat) (Some 1%nat) false)
              open_db_sub [1%nat] (w_open false))
    as (res & w' & Hrun & Hcase).
  - vm_compute; reflexivity.
  - reflexivity.
  - reflexivity.
  - simpl. by_computation.
  - apply (bool_decide_unpack _). vm_compute. exact I.
  - cbv zeta in Hcase.
    rewrite decide_False in Hcase by (vm_compute; intros Hne; now apply Hne).
    rewrite decide_False in Hcase by (vm_compute; intros Hne; now apply Hne).
    rewrite decide_True in Hcase by (vm_compute; discriminate).
    destruct Hcase as [-> ->]. eexists.
    split; [exact Hrun | vm_compute; reflexivity].
Defined.

(** [env.open_db('sub', txn=txn)] on [w_txn]. *)
Lemma env_open_db_in_txn_witness :
  ∃ w',
    env_open_db (K := lmdb_0_9) (E := engine_ok) 0%nat
      (Args (mk_open_db_args (Some "sub"%string) (Some 2%nat) None None None)) w_txn
      = Done (Return (PyHandle 3%nat)) w' ∧
    length (new_calls w_txn w') = 1%nat.
Proof.
  destruct (env_open_db_in_txn (K := lmdb_0_9) (E := engine_ok) 0%nat
              (mk_object list_head_null (mk_list_head None (Some 2%nat)) true
                 (BEnv (mk_env (Some 7%nat) (Some 1%nat) false)))
              (mk_open_db_args (Some "sub"%string) (Some 2%nat) None None None)
              2%nat
              (mk_object (mk_list_head None (Some 1%nat)) list_head_null true
                 (BTrans t_2))
              t_2 [2%nat; 1%nat] w_txn)
    as (res & w' & Hrun & Htr & Hcase).
  - vm_compute; reflexivity.
  - reflexivity.
  - vm_compute; reflexivity.
  - reflexivity.
  - simpl. by_computation.
  - apply (bool_decide_unpack _). vm_compute. exact I.
  - cbv zeta in Hcase.
    rewrite decide_False in Hcase by (vm_compute; intros Hne; now apply Hne).
    destruct Hcase as [-> _]. exists w'. split; [exact Hrun|].
    unfold new_calls. rewrite Htr, drop_app_length. reflexivity.
Defined.

(** ** What a cascade releases *)

Lemma grows_nothing w w' : grows (λ _, False) w w' → trace w' = trace w.
Proof.
  intros (l & -> & Hl). destruct l as [|c l]; [apply app_nil_r|].
  inversion Hl; contradiction.
Qed.

Lemma steps_silent_unlink_child p c : steps (grows (λ _, False)) (unlink_child p c).
Proof. unfold unlink_child. steps_tac. Qed.

Lemma unlink_child_silent p c w w' :
  unlink_child p c w = Done tt w' → trace w' = trace w.
Proof. intros H. apply grows_nothing. exact (steps_silent_unlink_child p c w tt w' H). Qed.

Lemma update_silent a f w w' : update a f w = Done tt w' → trace w' = trace w.
Proof. intros H. apply update_inv in H as (o & _ & ->). reflexivity. Qed.

Lemma steps_silent_db_clear c : steps (grows (λ _, False)) (db_clear c).
Proof. unfold db_clear, unlink_child. steps_tac. Qed.

Lemma db_clear_silent c w w' : db_clear c w = Done tt w' → trace w' = trace w.
Proof. intros H. apply grows_nothing. exact (steps_silent_db_clear c w tt w' H). Qed.

Lemma trans_clear_trace inv c w w' o :
  heap w !! c = Some o → trans_clear inv c w = Done tt w' →
  if valid o then
    ∃ w1 o1 t1, inv c w = Done tt w1 ∧ heap w1 !! c = Some o1 ∧ body o1 = BTrans t1 ∧
      trace w' = trace w1 ++ match t_txn t1 with
                             | Some _ => [mdb_txn_abort (t_txn t1)]
                             | None => []
                             end
  else trace w' = trace w.
Proof.
  intros Ho H. unfold trans_clear in H.
  apply bind_inv in H as (o' & w0 & Hl & H).
  apply load_inv in Hl as (? & [= <-] & Ho' & ->).
  apply bind_inv in H as ([] & wa & Hfirst & H).
  apply bind_inv in H as (t' & wb & Hl & H).
  apply load_trans_inv in Hl as (? & ob & [= <-] & Hob & Hbb & ->).
  apply bind_inv in H as ([] & wc & Hun & H).
  apply unlink_child_silent in Hun. apply update_silent in H.
  assert (Hend : trace w' = trace wa) by congruence. clear H Hun.
  assert (o' = o) as -> by congruence.
  destruct (valid o).
  - apply bind_inv in Hfirst as ([] & w1 & Hinv & H).
    apply bind_inv in H as (t1 & w2 & Hl & H).
    apply load_trans_inv in Hl as (? & o1 & [= <-] & Ho1 & Hb1 & ->).
    apply bind_inv in H as ([] & w3 & Hmid & H). apply update_silent in H.
    exists w1, o1, t1. split; [exact Hinv|]. split; [exact Ho1|].
    split; [exact Hb1|]. rewrite Hend, H.
    destruct (t_txn t1) as [tx|] eqn:Htx.
    + apply bind_inv in Hmid as ([] & w4 & Hc & Hu). apply call_void_inv in Hc.
      apply update_silent in Hu. rewrite Hu, Hc. reflexivity.
    + apply ret_inv in Hmid as [_ <-]. now rewrite app_nil_r.
  - apply ret_inv in Hfirst as [_ <-]. exact Hend.
Qed.

Lemma cursor_clear_trace inv c w w' o :
  heap w !! c = Some o → cursor_clear inv c w = Done tt w' →
  if valid o then
    ∃ w1 o1 c1 w2 o2 c2,
      inv c w = Done tt w1 ∧ heap w1 !! c = Some o1 ∧ body o1 = BCursor c1 ∧
      unlink_child (c_trans c1) c w1 = Done tt w2 ∧
      heap w2 !! c = Some o2 ∧ body o2 = BCursor c2 ∧
      trace w' = trace w1 ++ [mdb_cursor_close (c_curs c2)]
  else trace w' = trace w.
Proof.
  intros Ho H. unfold cursor_clear in H.
  apply bind_inv in H as (o' & w0 & Hl & H).
  apply load_inv in Hl as (? & [= <-] & Ho' & ->).
  apply bind_inv in H as ([] & wa & Hfirst & H). apply update_silent in H.
  assert (o' = o) as -> by congruence.
  destruct (valid o).
  - apply bind_inv in Hfirst as ([] & w1 & Hinv & Hr).
    apply bind_inv in Hr as (c1 & w1' & Hl & Hr).
    apply load_cursor_inv in Hl as (? & o1 & [= <-] & Ho1 & Hb1 & ->).
    apply bind_inv in Hr as ([] & w2 & Hun & Hr).
    apply bind_inv in Hr as (c2 & w2' & Hl & Hr).
    apply load_cursor_inv in Hl as (? & o2 & [= <-] & Ho2 & Hb2 & ->).
    apply bind_inv in Hr as ([] & w3 & Hc & Hu). apply call_void_inv in Hc.
    apply update_silent in Hu.
    exists w1, o1, c1, w2, o2, c2. split; [exact Hinv|].
    split; [exact Ho1|]. split; [exact Hb1|]. split; [exact Hun|].
    split; [exact Ho2|]. split; [exact Hb2|].
    rewrite H, Hu, Hc. cbn [trace]. f_equal.
    now apply unlink_child_silent in Hun.
  - apply ret_inv in Hfirst as [_ <-]. exact H.
Qed.

Lemma releases_frame h h' k :
  (∀ x, x ∈ nodes k →
     h' !! x = h !! x ∨ ∃ o, h !! x = Some o ∧ h' !! x = Some (set_siblings_prev None o)) →
  releases h' k = releases h k.
Proof.
  induction k as [c cks IH] using tree_ind'. intros Hf. cbn [releases].
  assert (Hkids : flat_map (releases h') cks = flat_map (releases h) cks).
  { rewrite Forall_forall in IH. clear -IH Hf.
    assert (Hall : ∀ k, k ∈ cks → releases h' k = releases h k).
    { intros k Hk. apply IH; [exact Hk|]. intros x Hx. apply Hf. simpl. right.
      apply elem_of_flat_map. eauto. }
    clear IH Hf. induction cks as [|k cks IHc]; [reflexivity|]. simpl.
    rewrite (Hall k) by left. f_equal. apply IHc. intros k' Hk'. apply Hall. now right. }
  rewrite Hkids.
  destruct (Hf c) as [-> | (o & -> & ->)]; [simpl; left | reflexivity | reflexivity].
Qed.

Lemma flat_map_releases_frame h h' ks :
  (∀ x, x ∈ flat_map nodes ks →
     h' !! x = h !! x ∨ ∃ o, h !! x = Some o ∧ h' !! x = Some (set_siblings_prev None o)) →
  flat_map (releases h') ks = flat_map (releases h) ks.
Proof.
  induction ks as [|k ks IH]; intros Hf; [reflexivity|]. simpl.
  rewrite (releases_frame h h' k), IH; [reflexivity | |].
  - intros x Hx. apply Hf. simpl. apply elem_of_app. now right.
  - intros x Hx. apply Hf. simpl. apply elem_of_app. now left.
Qed.

Lemma loop_trace_from_clear ks : Forall clear_trace ks → loop_trace ks.
Proof.
  induction 1 as [|k ks Hk _ IH]; intros fuel w a oa w' Hfuel Ha Hd Hks Hnd Hrun.
  - simpl in Hd. rewrite Hd in Hrun. simpl. rewrite app_nil_r.
    destruct fuel; apply ret_inv in Hrun as [_ <-]; reflexivity.
  - simpl in Hd. destruct Hd as (Hcur & oc & Hoc & Hprev & Hd). rewrite Hcur in Hrun.
    inversion Hks as [|? ? [Hl Hs] Hks']; subst.
    simpl in Hnd. apply NoDup_cons in Hnd as [Hanin Hnd].
    pose proof Hnd as Hnd0. apply NoDup_app in Hnd as (Hndk & Hdisj & Hndr).
    assert (Hank : a ∉ nodes k) by (intros Hin; apply Hanin, elem_of_app; now left).
    simpl in Hfuel. assert (Hsz : (1 ≤ tree_size k)%nat) by (destruct k; simpl; lia).
    destruct fuel as [|n]; [lia|].
    assert (Hfk : (list_sum (map tree_size (kids k)) ≤ n)%nat) by (destruct k; simpl in *; lia).
    set (nxt := next (siblings oc)) in *.
    assert (Hnxt : ∀ n', nxt = Some n' → (n' ∉ nodes k) ∧ n' ≠ a ∧ is_Some (heap w !! n')).
    { intros n' Hn'. rewrite Hn' in Hd. destruct ks as [|k2 ks2]; simpl in Hd; [discriminate|].
      destruct Hd as ([= ->] & o2 & Ho2 & _).
      assert (Hin : root k2 ∈ flat_map nodes (k2 :: ks2))
        by (simpl; apply elem_of_app; left; apply root_in_nodes).
      split; [intros Hk'; exact (Hdisj _ Hk' Hin)|].
      split; [intros Heq; apply Hanin; rewrite <- Heq; apply elem_of_app; now right | eauto]. }
    assert (Hsib : siblings oc = mk_list_head None nxt).
    { destruct (siblings oc) as [pv nx]; simpl in *; now subst. }
    assert (Hhead : ∃ op, heap w !! a = Some op ∧ next (children op) = Some (root k)).
    { exists oa. split; [exact Ha | exact Hcur]. }
    destruct (clear_spec_all k n w a nxt oc Hfk Hs Hndk Hl Hank Hoc Hsib Hhead Hnxt)
      as (w1 & Hrun1 & Hdead & Hpa & Hpn & Hfr).
    pose proof (Hk n w a nxt oc w1 Hfk Hs Hndk Hl Hank Hoc Hsib Hhead Hnxt Hrun1) as Htr1.
    destruct Hpa as (oa' & Hoa' & Ha1). assert (oa' = oa) as -> by congruence.
    assert (Hfr' : ∀ x, x ∈ flat_map nodes ks → nxt ≠ Some x → heap w1 !! x = heap w !! x).
    { intros x Hx Hxn. apply Hfr; [intros Hk'; exact (Hdisj _ Hk' Hx) | | exact Hxn].
      intros ->. apply Hanin, elem_of_app; now right. }
    destruct (kids_after_clear (heap w) (heap w1) a (root k) nxt ks Hd Hks' Hndr Hpn Hfr')
      as (Hd1 & Hks1).
    rewrite invalidate_from_S in Hrun.
    rewrite (bind_Done _ _ _ _ _ (load_Some _ _ _ Hoc)) in Hrun.
    rewrite (bind_Done _ _ _ _ _ Hrun1) in Hrun.
    apply (IH n w1 a (set_children_next nxt oa)) in Hrun;
      [ | lia | exact Ha1 | exact Hd1 | exact Hks1 | ].
    2:{ apply NoDup_cons. split; [|exact Hndr].
        intros Hin. apply Hanin, elem_of_app; now right. }
    rewrite Hrun, Htr1. simpl. rewrite <- app_assoc. do 2 f_equal.
    apply flat_map_releases_frame. intros x Hx.
    destruct (decide (nxt = Some x)) as [Hn|Hn]; [right; auto | left; auto].
Qed.

Lemma clear_trace_from_loop c cks : loop_trace cks → clear_trace (Node c cks).
Proof.
  intros Hloop fuel w p nxt oc w' Hfuel Hs Hnd Hl Hp Hoc Hsib (op & Hop & Hopc) Hnxt Hrun.
  simpl in Hoc, Hfuel, Hopc, Hrun.
  apply shape_unfold in Hs as [(oc' & Hoc' & Hd) Hks].
  assert (oc' = oc) as -> by congruence.
  destruct Hl as (oc' & Hoc'' & Hl). simpl in Hoc''. assert (oc' = oc) as -> by congruence.
  simpl in Hnd. pose proof Hnd as Hnd0. apply NoDup_cons in Hnd as [Hcnin Hndk].
  assert (Hpc : p ≠ c) by (intros ->; apply Hp; simpl; left).
  assert (Hnc : ∀ n, nxt = Some n → n ≠ c ∧ n ≠ p ∧ is_Some (heap w !! n)).
  { intros n Hn. destruct (Hnxt n Hn) as (Hnk & Hnp & Hsome).
    split; [intros ->; apply Hnk; simpl; now left | auto]. }
  assert (Hvalid :
    ∃ w1, invalidate fuel c w = Done tt w1 ∧
      head_child w1 p c nxt op (set_children_next None oc) ∧
      trace w1 = trace w ++ flat_map (releases (heap w)) cks).
  { destruct (loop_spec_all cks fuel w c oc Hfuel Hoc Hd Hks Hnd0)
      as (w1 & Hrun1 & Hdead & Hc1 & Hfr1).
    exists w1. split; [now rewrite (invalidate_unfold _ _ _ _ Hoc)|].
    split; [|exact (Hloop fuel w c oc w1 Hfuel Hoc Hd Hks Hnd0 Hrun1)].
    split; [exact Hc1|]. split; [exact Hsib|].
    split; [rewrite Hfr1; auto; intros Hin; apply Hp; simpl; now right|].
    split; [exact Hopc|]. split; [exact Hpc|].
    intros n Hn. destruct (Hnxt n Hn) as (Hnk & Hnp & Hsome).
    split; [intros ->; apply Hnk; simpl; now left|]. split; [exact Hnp|].
    rewrite Hfr1; [exact Hsome | intros Hin; apply Hnk; simpl; now right |].
    intros ->; apply Hnk; simpl; now left. }
  destruct Hvalid as (w1 & Hinv & Hh1 & Htr1).
  rewrite (tp_clear_unfold _ _ _ _ Hoc) in Hrun. cbn [releases]. rewrite Hoc.
  destruct (body oc) as [d|e|t|cu] eqn:Hb; [| contradiction | |].
  - destruct Hl as [_ Hk]. simpl in Hk. subst cks. apply db_clear_silent in Hrun.
    rewrite Hrun. destruct (valid oc); simpl; now rewrite app_nil_r.
  - pose proof (trans_clear_trace _ _ _ _ _ Hoc Hrun) as Ht.
    destruct (valid oc); [|now rewrite Ht, app_nil_r].
    destruct Ht as (w1' & o1 & t1 & Hinv' & Ho1 & Hb1 & Ht).
    assert (w1' = w1) as -> by congruence.
    destruct Hh1 as (Hc1 & _). rewrite Hc1 in Ho1. injection Ho1 as <-.
    simpl in Hb1. rewrite Hb in Hb1. injection Hb1 as <-.
    rewrite Ht, Htr1. now rewrite <- app_assoc.
  - destruct Hl as [Hct Hv]. rewrite Hv.
    pose proof (cursor_clear_trace _ _ _ _ _ Hoc Hrun) as Ht. rewrite Hv in Ht.
    destruct Ht as (w1' & o1 & c1 & w2 & o2 & c2 & Hinv' & Ho1 & Hb1 & Hun & Ho2 & Hb2 & Ht).
    assert (w1' = w1) as -> by congruence.
    destruct Hh1 as (Hc1 & Hs1 & Hp1 & Hpc1 & _ & Hn1).
    rewrite Hc1 in Ho1. injection Ho1 as <-.
    simpl in Hb1. rewrite Hb in Hb1. injection Hb1 as <-. rewrite Hct in Hun.
    destruct (unlink_head_spec w1 p c _ op nxt Hc1 Hs1 Hp1 Hpc1 Hpc Hn1)
      as (w2' & Hun' & _ & Hc2 & _).
    assert (w2' = w2) as -> by congruence.
    rewrite Hc2 in Ho2. injection Ho2 as <-.
    simpl in Hb2. rewrite Hb in Hb2. injection Hb2 as <-.
    rewrite Ht, Htr1. now rewrite <- app_assoc.
Qed.

Lemma clear_trace_all t : clear_trace t.
Proof.
  induction t as [a ks IH] using tree_ind'.
  apply clear_trace_from_loop, loop_trace_from_clear, IH.
Qed.

Lemma loop_trace_all ks : loop_trace ks.
Proof.
  apply loop_trace_from_clear. apply Forall_forall. intros k _. apply clear_trace_all.
Qed.

(** [invalidate] on the root of a tree. *)
Lemma invalidate_releases fuel t w :
  shape (heap w) t → NoDup (nodes t) → (tree_size t <= fuel)%nat →
  ∃ w1 o, invalidate fuel (root t) w = Done tt w1 ∧
    heap w !! (root t) = Some o ∧
    heap w1 !! (root t) = Some (set_children_next None o) ∧
    trace w1 = trace w ++ flat_map (releases (heap w)) (kids t).
Proof.
  destruct t as [a ks]. intros Hs Hnd Hf. apply shape_unfold in Hs as [(o & Ho & Hd) Hks].
  simpl in Hf.
  destruct (loop_spec_all ks fuel w a o) as (w1 & Hrun & _ & Ha & _); auto; [lia|].
  exists w1, o. simpl. rewrite (invalidate_unfold _ _ _ _ Ho).
  split; [exact Hrun|]. split; [exact Ho|]. split; [exact Ha|].
  apply (loop_trace_all ks fuel w a o w1); auto. lia.
Qed.

Section Releases.
Context {K : lmdb_h} {E : Engine}.

(** X22: [env.close()] on a valid environment releases what is below it before the
    environment itself: the calls it makes are, for the children in the order of the
    children list, [releases] of each (the cursors of a valid transaction are closed,
    each once, and then the transaction is aborted; handles that are not valid are
    passed over), and [mdb_env_close] last. *)
Theorem env_close_releases fuel t o e w :
  heap w !! root t = Some o → valid o = true → body o = BEnv e →
  shape (heap w) t → NoDup (nodes t) → (tree_size t <= fuel)%nat →
  ∃ w', env_close fuel (root t) w = Done (Return Py_None) w' ∧
    trace w' = trace w ++ flat_map (releases (heap w)) (kids t) ++
               [mdb_env_close (e_env e)].
Proof.
  intros Ho Hv Hb Hs Hnd Hf.
  destruct (invalidate_releases fuel t w Hs Hnd Hf) as (w1 & o' & Hinv & Ho' & Ho1 & Htr).
  assert (o' = o) as -> by congruence.
  destruct o as [sib ch vl bd]. simpl in Hv, Hb. subst vl bd.
  unfold env_close. mgo. unfold set_valid, set_e_env, set_children_next. simpl. mgo.
  eexists. split; [reflexivity|]. cbn [trace]. now rewrite <- app_assoc.
Qed.

(** X23: [txn.abort()] and [txn.commit()] on a valid transaction first release what is
    below the transaction, its cursors and what was linked below them, and call
    [mdb_txn_abort], respectively [mdb_txn_commit], last; [commit] raises the failure
    of [mdb_txn_commit] and the handle is spent in either case. *)
Theorem trans_end_releases fuel t o tr w :
  heap w !! root t = Some o → valid o = true → body o = BTrans tr →
  shape (heap w) t → NoDup (nodes t) → (tree_size t <= fuel)%nat →
  let below := flat_map (releases (heap w)) (kids t) in
  (∃ w', trans_abort fuel (root t) w = Done (Return Py_None) w' ∧
     trace w' = trace w ++ below ++ [mdb_txn_abort (t_txn tr)]) ∧
  (∃ w', trans_commit fuel (root t) w =
           Done (let r := engine_reply (trace w ++ below) (mdb_txn_commit (t_txn tr)) in
                 if decide (rc r ≠ 0) then Raise (err_set "mdb_txn_commit" (rc r))
                 else Return Py_None) w' ∧
     trace w' = trace w ++ below ++ [mdb_txn_commit (t_txn tr)]).
Proof.
  intros Ho Hv Hb Hs Hnd Hf below.
  destruct (invalidate_releases fuel t w Hs Hnd Hf) as (w1 & o' & Hinv & Ho' & Ho1 & Htr).
  assert (o' = o) as -> by congruence. fold below in Htr.
  destruct o as [sib ch vl bd]. simpl in Hv, Hb. subst vl bd.
  split.
  - unfold trans_abort. mgo. unfold set_valid, set_t_txn, set_children_next. simpl. mgo.
    eexists. split; [reflexivity|]. cbn [trace]. now rewrite <- app_assoc.
  - unfold trans_commit. mgo. unfold set_valid, set_t_txn, set_children_next. simpl. mgo.
    cbv zeta. case_decide; mgo; (eexists; split; [reflexivity|]); cbn [trace];
      now rewrite <- app_assoc.
Qed.

End Releases.

(** [env.close()] on [w_curs] closes the cursor, aborts the transaction and closes the
    environment, in this order. *)
Lemma env_close_releases_witness :
  ∃ w', env_close 10 0%nat w_curs = Done (Return Py_None) w' ∧
    new_calls w_curs w' =
      [mdb_cursor_close (Some 101%nat); mdb_txn_abort (Some 100%nat);
       mdb_env_close (Some 7%nat)].
Proof.
  destruct (env_close_releases 10 tree_0
              (mk_object list_head_null (mk_list_head None (Some 2%nat)) true
                 (BEnv (mk_env (Some 7%nat) (Some 1%nat) false)))
              (mk_env (Some 7%nat) (Some 1%nat) false) w_curs)
    as (w' & Hrun & Htr).
  - vm_compute; reflexivity.
  - reflexivity.
  - reflexivity.
  - simpl. unfold linked. simpl.
    repeat first [ split | eexists | reflexivity | (vm_compute; reflexivity)
                 | discriminate | exact I ].
  - apply (bool_decide_unpack _). vm_compute. exact I.
  - simpl. lia.
  - exists w'. split; [exact Hrun|]. unfold new_calls. rewrite Htr, drop_app_length.
    vm_compute. reflexivity.
Defined.

(** [txn.abort()] on [w_curs] closes the cursor and aborts the transaction. *)
Lemma trans_end_releases_witness :
  ∃ w', trans_abort 10 2%nat w_curs = Done (Return Py_None) w' ∧
    new_calls w_curs w' = [mdb_cursor_close (Some 101%nat); mdb_txn_abort (Some 100%nat)].
Proof.
  destruct (trans_end_releases (E := engine_ok) 10 tree_2
              (mk_object (mk_list_head None (Some 1%nat)) (mk_list_head None (Some 3%nat))
                 true (BTrans t_2))
              t_2 w_curs)
    as [(w' & Hrun & Htr) _].
  - vm_compute; reflexivity.
  - reflexivity.
  - reflexivity.
  - simpl. unfold linked. simpl.
    repeat first [ split | eexists | reflexivity | (vm_compute; reflexivity)
                 | discriminate | exact I ].
  - apply (bool_decide_unpack _). vm_compute. exact I.
  - simpl. lia.
  - exists w'. split; [exact Hrun|]. unfold new_calls. rewrite Htr, drop_app_length.
    vm_compute. reflexivity.
Defined.

(** ** The start of an iteration *)

Section IterStart.
Context {K : lmdb_h} {E : Engine}.

Lemma iter_next_fresh it c t w :
  live_cursor w (i_curs it) c t → i_started it = false →
  iter_next it w =
    Done (if c_positioned c
          then (Yield (projection (i_val_func it) (t_buffers t) (c_key c) (c_val c)),
                started it)
          else (StopIteration, it)) w.
Proof.
  intros Hl Hs. pose proof (val_func_live (i_val_func it) _ _ _ _ Hl) as Hval.
  pose proof Hl as (o & Ho & Hv & Hb & _).
  unfold iter_next. mgo. destruct (c_positioned c); mgo; reflexivity.
Qed.

Lemma iter_from_args_start_spec self c t a pos_op op w :
  live_cursor w self c t →
  let f := chosen_func a in
  let it := mk_iter self false op f in
  let call := mdb_cursor_get (c_curs c) (c_key c) (c_val c) pos_op in
  let r := engine_reply (trace w) call in
  if c_positioned c then
    iter_from_args self (Args a) pos_op op w = Done (Return (PyIterator it)) w ∧
    iter_next it w =
      Done (Yield (projection f (t_buffers t) (c_key c) (c_val c)), started it) w
  else
    ∃ w', trace w' = trace w ++ [call] ∧
      match get_c_status pos_op r with
      | Some e => iter_from_args self (Args a) pos_op op w = Done (Raise e) w'
      | None =>
          iter_from_args self (Args a) pos_op op w = Done (Return (PyIterator it)) w' ∧
          iter_next it w' = Done (first_step f (t_buffers t) r it) w'
      end.
Proof.
  intros Hl f it call r. pose proof Hl as (o & Ho & Hv & Hb & _).
  destruct (c_positioned c) eqn:Hp.
  - split.
    + unfold iter_from_args, parse_args. mgo. reflexivity.
    + rewrite (iter_next_fresh it c t w Hl eq_refl). now rewrite Hp.
  - destruct (_cursor_get_c_spec self c t pos_op w Hl)
      as (w' & c' & Hrun & Htr & Hl' & _ & Hpos & Hkv & _).
    fold call in Hrun, Htr. fold r in Hrun, Hpos, Hkv.
    exists w'. split; [exact Htr|].
    assert (Hfrom : iter_from_args self (Args a) pos_op op w =
                    match get_c_status pos_op r with
                    | Some e => Done (Raise e) w'
                    | None => Done (Return (PyIterator it)) w'
                    end).
    { unfold iter_from_args, parse_args. mgo.
      destruct (get_c_status pos_op r); reflexivity. }
    rewrite Hfrom. destruct (get_c_status pos_op r); [reflexivity|].
    split; [reflexivity|].
    rewrite (iter_next_fresh it c' t w' Hl' eq_refl). rewrite Hpos. unfold first_step.
    destruct (decide (rc r = 0)) as [Hz|Hz].
    + rewrite bool_decide_eq_true_2 by exact Hz. destruct (Hkv Hz) as [-> ->]. reflexivity.
    + now rewrite bool_decide_eq_false_2 by exact Hz.
Qed.

(** X24: where an iteration starts.  [iter_from_args] on a cursor that is positioned
    calls nothing, and the first step of the iterator yields the pair the cursor is on:
    the iteration goes on from the position and does not go back to the start.  On a
    cursor that is not positioned it makes one call, [mdb_cursor_get] with the
    positioning operator: an error of the engine is raised; otherwise the iterator is
    made, and its first step yields the pair the engine has found, without another
    call, or ends the iteration at once when the engine has found none.  The
    projection is the key, the value or the pair, as [keys] and [values] say. *)
Theorem iter_from_args_start self c t a pos_op op w :
  live_cursor w self c t →
  let f := chosen_func a in
  let it := mk_iter self false op f in
  let call := mdb_cursor_get (c_curs c) (c_key c) (c_val c) pos_op in
  let r := engine_reply (trace w) call in
  if c_positioned c then
    iter_from_args self (Args a) pos_op op w = Done (Return (PyIterator it)) w ∧
    iter_next it w =
      Done (Yield (projection f (t_buffers t) (c_key c) (c_val c)), started it) w
  else
    ∃ w', trace w' = trace w ++ [call] ∧
      match get_c_status pos_op r with
      | Some e => iter_from_args self (Args a) pos_op op w = Done (Raise e) w'
      | None =>
          iter_from_args self (Args a) pos_op op w = Done (Return (PyIterator it)) w' ∧
          iter_next it w' = Done (first_step f (t_buffers t) r it) w'
      end.
Proof. exact (iter_from_args_start_spec self c t a pos_op op w). Qed.

Lemma iter_next_started it c t w :
  live_cursor w (i_curs it) c t → i_started it = true → c_positioned c = true →
  let call := mdb_cursor_get (c_curs c) (c_key c) (c_val c) (i_op it) in
  let r := engine_reply (trace w) call in
  ∃ w' c',
    iter_next it w =
      Done (match get_c_status (i_op it) r with
            | Some e => IterRaise e
            | None =>
                if decide (rc r = 0)
                then Yield (projection (i_val_func it) (t_buffers t) (out_key r) (out_data r))
                else StopIteration
            end, it) w' ∧
    trace w' = trace w ++ [call] ∧ live_cursor w' (i_curs it) c' t ∧
    c_positioned c' = bool_decide (rc r = 0) ∧
    (rc r = 0 → c_key c' = out_key r ∧ c_val c' = out_data r).
Proof.
  intros Hl Hs Hp call r. pose proof Hl as (o & Ho & Hv & Hb & _).
  assert (Hit : started it = it) by (destruct it; simpl in *; now subst).
  destruct (_cursor_get_c_spec (i_curs it) c t (i_op it) w Hl)
    as (w' & c' & Hrun & Htr & Hl' & _ & Hpos & Hkv & _).
  fold call in Hrun, Htr, Hpos, Hkv. fold r in Hrun, Hpos, Hkv. clearbody r.
  exists w', c'. split; [|auto].
  pose proof Hl' as (o' & Ho' & Hv' & Hb' & _).
  pose proof (val_func_live (i_val_func it) _ _ _ _ Hl') as Hval.
  destruct (decide (rc r = 0)) as [Hz|Hz].
  - rewrite bool_decide_eq_true_2 in Hpos by exact Hz. destruct (Hkv Hz) as [Hk Hd].
    rewrite Hk, Hd in Hval.
    assert (Hst : get_c_status (i_op it) r = None)
      by (unfold get_c_status; now rewrite decide_True).
    rewrite Hst in *. unfold iter_next. mgo. fold (started it). now rewrite Hit.
  - rewrite bool_decide_eq_false_2 in Hpos by exact Hz.
    destruct (get_c_status (i_op it) r); unfold iter_next; mgo; reflexivity.
Qed.

(** C8: the steps of an iterator, from its construction on.
    [iter_from_args] on a cursor that is positioned calls nothing; on
    one that is not it makes one call, [mdb_cursor_get] with the
    positioning operator, and raises the error of the engine if there is
    one.  Otherwise it makes the iterator, with [started] unset and the
    operator fixed, and the first step of that iterator yields the
    projection of the pair the cursor is on after the construction,
    with no further call, or ends the sequence when the positioning
    call has found nothing.  A later step makes exactly one call,
    [mdb_cursor_get] with the operator of the iterator: when the engine
    finds a pair the step yields its projection; when it finds none the
    cursor is left not positioned and the sequence ends, with no
    exception; on any other failure the step raises the error of the
    engine and the cursor is left not positioned.  A step on a cursor
    that is not positioned ends the sequence, with no call and no
    exception. *)
Theorem iter_next_steps it c t w :
  status_ok K → live_cursor w (i_curs it) c t →
  (∀ a pos_op,
     let it0 := mk_iter (i_curs it) false (i_op it) (chosen_func a) in
     let call := mdb_cursor_get (c_curs c) (c_key c) (c_val c) pos_op in
     let r := engine_reply (trace w) call in
     if c_positioned c then
       iter_from_args (i_curs it) (Args a) pos_op (i_op it) w
         = Done (Return (PyIterator it0)) w ∧
       iter_next it0 w =
         Done (Yield (projection (chosen_func a) (t_buffers t) (c_key c) (c_val c)),
               started it0) w
     else
       ∃ w', new_calls w w' = [call] ∧
         if decide (rc r = 0) then
           iter_from_args (i_curs it) (Args a) pos_op (i_op it) w
             = Done (Return (PyIterator it0)) w' ∧
           iter_next it0 w' =
             Done (Yield (projection (chosen_func a) (t_buffers t) (out_key r) (out_data r)),
                   started it0) w'
         else if decide (rc r = MDB_NOTFOUND) then
           iter_from_args (i_curs it) (Args a) pos_op (i_op it) w
             = Done (Return (PyIterator it0)) w' ∧
           iter_next it0 w' = Done (StopIteration, it0) w'
         else if bool_decide (rc r = EINVAL) && bool_decide (pos_op = MDB_GET_CURRENT) then
           iter_from_args (i_curs it) (Args a) pos_op (i_op it) w
             = Done (Return (PyIterator it0)) w' ∧
           iter_next it0 w' = Done (StopIteration, it0) w'
         else
           iter_from_args (i_curs it) (Args a) pos_op (i_op it) w
             = Done (Raise (err_set "mdb_cursor_get" (rc r))) w') ∧
  (∀ self args pos_op op w0 it0 w0',
     iter_from_args self args pos_op op w0 = Done (Return (PyIterator it0)) w0' →
     i_curs it0 = self ∧ i_started it0 = false ∧ i_op it0 = op) ∧
  (i_started it = false → c_positioned c = true →
     iter_next it w =
       Done (Yield (projection (i_val_func it) (t_buffers t) (c_key c) (c_val c)), started it)
            w) ∧
  (i_started it = true → c_positioned c = true →
     let call := mdb_cursor_get (c_curs c) (c_key c) (c_val c) (i_op it) in
     let r := engine_reply (trace w) call in
     ∃ res w', iter_next it w = Done (res, it) w' ∧ new_calls w w' = [call] ∧
       (rc r = 0 →
          res = Yield (projection (i_val_func it) (t_buffers t) (out_key r) (out_data r)) ∧
          ∃ c', live_cursor w' (i_curs it) c' t ∧ c_positioned c' = true ∧
                c_key c' = out_key r ∧ c_val c' = out_data r) ∧
       (rc r = MDB_NOTFOUND →
          res = StopIteration ∧
          ∃ c', live_cursor w' (i_curs it) c' t ∧ c_positioned c' = false) ∧
       (rc r ≠ 0 → rc r ≠ MDB_NOTFOUND →
          ¬ (rc r = EINVAL ∧ i_op it = MDB_GET_CURRENT) →
          res = IterRaise (err_set "mdb_cursor_get" (rc r)) ∧
          ∃ c', live_cursor w' (i_curs it) c' t ∧ c_positioned c' = false) ∧
       (rc r ≠ 0 → rc r = EINVAL → i_op it = MDB_GET_CURRENT →
          res = StopIteration ∧
          ∃ c', live_cursor w' (i_curs it) c' t ∧ c_positioned c' = false)) ∧
  (c_positioned c = false → iter_next it w = Done (StopIteration, it) w).
Proof.
  intros [_ HNF] Hl.
  split; [|split; [|split; [|split]]].
  - intros a pos_op it0 call r.
    pose proof (iter_from_args_start_spec (i_curs it) c t a pos_op (i_op it) w Hl) as H.
    cbv zeta in H. fold it0 in H. fold call in H. fold r in H.
    destruct (c_positioned c); [exact H|].
    destruct H as (w' & Htr & H). exists w'. split; [now apply new_calls_app|].
    unfold get_c_status, first_step in H.
    destruct (decide (rc r = 0)) as [Hz|Hz]; [exact H|].
    destruct (decide (rc r = MDB_NOTFOUND)); [exact H|].
    destruct (bool_decide (rc r = EINVAL) && bool_decide (pos_op = MDB_GET_CURRENT));
      exact H.
  - apply iter_from_args_new.
  - intros Hs Hp. rewrite (iter_next_fresh it c t w Hl Hs). now rewrite Hp.
  - intros Hs Hp call r.
    destruct (iter_next_started it c t w Hl Hs Hp) as (w' & c' & Hrun & Htr & Hl' & Hpos & Hkv).
    fold call in Hrun, Htr, Hpos, Hkv. fold r in Hrun, Hpos, Hkv.
    eexists _, w'. split; [exact Hrun|]. split; [now apply new_calls_app|].
    clearbody r. unfold get_c_status.
    split; [|split; [|split]].
    + intros Hz. destruct (decide (rc r = 0)) as [_|?]; [|contradiction]. split; [reflexivity|].
      exists c'. rewrite bool_decide_eq_true_2 in Hpos by exact Hz.
      destruct (Hkv Hz) as [Hk Hd]. auto.
    + intros Hn. assert (Hz : rc r ≠ 0) by (rewrite Hn; exact HNF).
      destruct (decide (rc r = 0)) as [?|_]; [contradiction|]. rewrite decide_True by exact Hn.
      split; [reflexivity|].
      exists c'. rewrite bool_decide_eq_false_2 in Hpos by exact Hz. auto.
    + intros Hz Hn Hi. destruct (decide (rc r = 0)) as [?|_]; [contradiction|].
      rewrite decide_False by exact Hn.
      assert (Hb : bool_decide (rc r = EINVAL) && bool_decide (i_op it = MDB_GET_CURRENT)
                   = false).
      { destruct (decide (rc r = EINVAL)) as [He|He].
        - rewrite (bool_decide_eq_false_2 (i_op it = MDB_GET_CURRENT)) by tauto.
          apply andb_false_r.
        - now rewrite (bool_decide_eq_false_2 (rc r = EINVAL)) by exact He. }
      rewrite Hb. split; [reflexivity|].
      exists c'. rewrite bool_decide_eq_false_2 in Hpos by exact Hz. auto.
    + intros Hz He Ho. destruct (decide (rc r = 0)) as [?|_]; [contradiction|].
      split.
      * destruct (decide (rc r = MDB_NOTFOUND)); [reflexivity|].
        rewrite bool_decide_eq_true_2 by exact He.
        now rewrite bool_decide_eq_true_2 by exact Ho.
      * exists c'. rewrite bool_decide_eq_false_2 in Hpos by exact Hz. auto.
  - intros Hp. pose proof Hl as (o & Ho & Hv & Hb & _). unfold iter_next. mgo. reflexivity.
Qed.


(** X25: where [_iter_from] starts.  Forward with an empty key it asks for
    [MDB_FIRST]; in every other case it sets the key and asks for [MDB_SET_RANGE].  An
    error of the engine is raised.  In reverse, when that call has found nothing, it
    asks for [MDB_LAST] as well and starts from the last pair.  The iterator runs with
    [MDB_PREV] in reverse and [MDB_NEXT] otherwise, and its first step yields the pair
    the last call has found, or ends the iteration when it has found none. *)
Theorem cursor_iter_from_start self c t a w :
  live_cursor w self c t →
  let key := arg_buf (ifa_key a) in
  let reverse := default false (ifa_reverse a) in
  let whole := negb (bool_decide (mv_size key ≠ 0%nat)) && negb reverse in
  let op1 := if whole then MDB_FIRST else MDB_SET_RANGE in
  let call1 := mdb_cursor_get (c_curs c) (if whole then c_key c else key) (c_val c) op1 in
  let r1 := engine_reply (trace w) call1 in
  let it := mk_iter self false (if reverse then MDB_PREV else MDB_NEXT) cursor_item_f in
  match get_c_status op1 r1 with
  | Some e =>
      ∃ w', cursor_iter_from self (Args a) w = Done (Raise e) w' ∧
            trace w' = trace w ++ [call1]
  | None =>
      if reverse && negb (bool_decide (rc r1 = 0)) then
        ∃ k v w',
          let call2 := mdb_cursor_get (c_curs c) k v MDB_LAST in
          let r2 := engine_reply (trace w ++ [call1]) call2 in
          trace w' = trace w ++ [call1; call2] ∧
          match get_c_status MDB_LAST r2 with
          | Some e => cursor_iter_from self (Args a) w = Done (Raise e) w'
          | None =>
              cursor_iter_from self (Args a) w = Done (Return (PyIterator it)) w' ∧
              iter_next it w' = Done (first_step cursor_item_f (t_buffers t) r2 it) w'
          end
      else
        ∃ w', cursor_iter_from self (Args a) w = Done (Return (PyIterator it)) w' ∧
              trace w' = trace w ++ [call1] ∧
              iter_next it w' = Done (first_step cursor_item_f (t_buffers t) r1 it) w'
  end.
Proof.
  intros Hl key reverse whole op1 call1 r1 it. pose proof Hl as (o & Ho & Hv & Hb & _).
  assert (Hfirst : ∀ w1 c1 (r : reply),
            live_cursor w1 self c1 t → c_positioned c1 = bool_decide (rc r = 0) →
            (rc r = 0 → c_key c1 = out_key r ∧ c_val c1 = out_data r) →
            iter_next it w1 = Done (first_step cursor_item_f (t_buffers t) r it) w1).
  { intros w1 c1 r Hl1 Hpos Hkv. rewrite (iter_next_fresh it c1 t w1 Hl1 eq_refl).
    rewrite Hpos. unfold first_step. destruct (decide (rc r = 0)) as [Hz|Hz].
    - rewrite bool_decide_eq_true_2 by exact Hz. destruct (Hkv Hz) as [-> ->]. reflexivity.
    - now rewrite bool_decide_eq_false_2 by exact Hz. }
  assert (Hstep1 : ∃ w1 c1,
            (if whole then _cursor_get_c self MDB_FIRST
             else update self (set_c_key key) ;;; _cursor_get_c self MDB_SET_RANGE) w
            = Done (get_c_status op1 r1) w1 ∧
            trace w1 = trace w ++ [call1] ∧ live_cursor w1 self c1 t ∧
            c_curs c1 = c_curs c ∧ c_positioned c1 = bool_decide (rc r1 = 0) ∧
            (rc r1 = 0 → c_key c1 = out_key r1 ∧ c_val c1 = out_data r1)).
  { subst r1 call1 op1. destruct whole.
    - destruct (_cursor_get_c_spec self c t MDB_FIRST w Hl)
        as (w1 & c1 & Hrun & Htr & Hl1 & Hc1 & Hpos & Hkv & _).
      exists w1, c1. auto 10.
    - pose proof (live_cursor_set_key w self c t o key Hl Ho) as Hsk.
      destruct (_cursor_get_c_spec self _ t MDB_SET_RANGE _ Hsk)
        as (w1 & c1 & Hrun & Htr & Hl1 & Hc1 & Hpos & Hkv & _).
      exists w1, c1. split; [|auto 10].
      unfold bind. rewrite (update_Some _ _ _ _ Ho). exact Hrun. }
  destruct Hstep1 as (w1 & c1 & Hrun1 & Htr1 & Hl1 & Hc1 & Hpos1 & Hkv1).
  assert (Hunf : cursor_iter_from self (Args a) w =
    (e <- (if whole then _cursor_get_c self MDB_FIRST
           else update self (set_c_key key) ;;; _cursor_get_c self MDB_SET_RANGE) ;;
     match e with
     | Some err => ret (Raise err)
     | None =>
         e' <- (if reverse then
                  c <- load_cursor (Some self) ;;
                  if negb (c_positioned c) then _cursor_get_c self MDB_LAST
                  else ret None
                else ret None) ;;
         match e' with
         | Some err => ret (Raise err)
         | None =>
             let op := if reverse then MDB_PREV else MDB_NEXT in
             ret (Return (PyIterator (mk_iter self false op cursor_item_f)))
         end
     end) w).
  { unfold cursor_iter_from, parse_args.
    rewrite (bind_Done _ _ _ _ _ (load_Some _ _ _ Ho)). rewrite Hv. reflexivity. }
  rewrite Hunf. clear Hunf. rewrite (bind_Done _ _ _ _ _ Hrun1).
  destruct (get_c_status op1 r1) as [e|]; [exists w1; auto|].
  pose proof Hl1 as (o1 & Ho1 & Hv1 & Hb1 & _).
  destruct reverse; cbn [andb].
  - cbv [bind]. rewrite (load_cursor_Some _ _ _ _ Ho1 Hb1).
    rewrite Hpos1. destruct (bool_decide (rc r1 = 0)) eqn:Hz; cbn [negb].
    + exists w1. split; [reflexivity|]. split; [exact Htr1|].
      apply (Hfirst w1 c1 r1 Hl1); [now rewrite Hpos1 | exact Hkv1].
    + destruct (_cursor_get_c_spec self c1 t MDB_LAST w1 Hl1)
        as (w2 & c2 & Hrun2 & Htr2 & Hl2 & Hc2 & Hpos2 & Hkv2 & _).
      rewrite Htr1, Hc1 in *.
      exists (c_key c1), (c_val c1), w2. cbv zeta.
      split; [now rewrite Htr2, <- app_assoc|].
      rewrite Hrun2.
      destruct (get_c_status MDB_LAST _); [reflexivity|].
      split; [reflexivity|]. now apply (Hfirst w2 c2).
  - exists w1. split; [reflexivity|]. split; [exact Htr1|].
    now apply (Hfirst w1 c1 r1 Hl1).
Qed.

End IterStart.

(** [iter(curs)] on the cursor of [w_curs], which is not positioned, over the store
    [a -> 1], [b -> 2]: the construction makes one [MDB_FIRST] and leaves the state
    [w_first]; the first step yields [(a, 1)] and calls nothing; the second calls
    [MDB_NEXT] once and yields [(b, 2)]. *)
Lemma iter_next_steps_witness :
  status_ok lmdb_0_9 ∧
  live_cursor w_curs 3%nat (mk_cursor (Some 2%nat) false (Some 101%nat) val_null val_null) t_2 ∧
  live_cursor w_first 3%nat c_3 t_2 ∧
  iter_from_args (K := lmdb_0_9) (E := engine_a_b) 3%nat (Args (mk_iter_args None None))
    MDB_FIRST MDB_NEXT w_curs = Done (Return (PyIterator it_3)) w_first ∧
  new_calls w_curs w_first = [mdb_cursor_get (Some 101%nat) val_null val_null MDB_FIRST] ∧
  iter_next (K := lmdb_0_9) (E := engine_a_b) it_3 w_first
    = Done (Yield (PyTuple (PyBytes ["a"%byte]) (PyBytes ["1"%byte])), started it_3) w_first ∧
  ∃ res w', iter_next (K := lmdb_0_9) (E := engine_a_b) (started it_3) w_first
              = Done (res, started it_3) w' ∧
    new_calls w_first w' =
      [mdb_cursor_get (Some 101%nat) (val_from_buffer ["a"%byte]) (val_from_buffer ["1"%byte])
                      MDB_NEXT] ∧
    res = Yield (PyTuple (PyBytes ["b"%byte]) (PyBytes ["2"%byte])).
Proof.
  assert (Hl0 : live_cursor w_curs 3%nat
                  (mk_cursor (Some 2%nat) false (Some 101%nat) val_null val_null) t_2)
    by (unfold live_cursor; by_computation).
  split; [exact lmdb_0_9_status_ok|]. split; [exact Hl0|]. split; [exact w_first_live|].
  destruct (iter_next_steps (K := lmdb_0_9) (E := engine_a_b) it_3 _ t_2 w_curs
              lmdb_0_9_status_ok Hl0) as (Hmade & _).
  specialize (Hmade (mk_iter_args None None) MDB_FIRST).
  destruct Hmade as (w' & Hcalls & Hfrom & Hstep).
  assert (Hw : w' = w_first).
  { assert (Hrun : iter_from_args (K := lmdb_0_9) (E := engine_a_b) 3%nat
                     (Args (mk_iter_args None None)) MDB_FIRST MDB_NEXT w_curs
                   = Done (Return (PyIterator it_3)) w_first) by (vm_compute; reflexivity).
    simpl in Hfrom. rewrite Hrun in Hfrom. now injection Hfrom. }
  rewrite Hw in Hcalls, Hfrom, Hstep.
  split; [exact Hfrom|]. split; [exact Hcalls|]. split; [exact Hstep|].
  destruct (iter_next_steps (K := lmdb_0_9) (E := engine_a_b) (started it_3) c_3 t_2 w_first
              lmdb_0_9_status_ok w_first_live) as (_ & _ & _ & Hlater & _).
  destruct (Hlater eq_refl eq_refl) as (res & w'' & Hrun & Hcalls' & Hfound & _).
  exists res, w''. split; [exact Hrun|]. split; [exact Hcalls'|].
  exact (proj1 (Hfound eq_refl)).
Defined.

(** [iter(curs)] on the cursor of [w_curs], which is not positioned, over the store
    [a -> 1], [b -> 2]: one [MDB_FIRST], and the first step yields [(a, 1)]. *)
Lemma iter_from_args_start_witness :
  ∃ w',
    iter_from_args (K := lmdb_0_9) (E := engine_a_b) 3%nat (Args (mk_iter_args None None))
      MDB_FIRST MDB_NEXT w_curs = Done (Return (PyIterator it_3)) w' ∧
    iter_next (K := lmdb_0_9) (E := engine_a_b) it_3 w' =
      Done (Yield (PyTuple (PyBytes ["a"%byte]) (PyBytes ["1"%byte])), started it_3) w'.
Proof.
  pose proof (iter_from_args_start (K := lmdb_0_9) (E := engine_a_b) 3%nat
                (mk_cursor (Some 2%nat) false (Some 101%nat) val_null val_null) t_2
                (mk_iter_args None None) MDB_FIRST MDB_NEXT w_curs) as H.
  cbv zeta in H. cbn [c_positioned] in H. destruct H as (w' & _ & H).
  - unfold live_cursor. by_computation.
  - exists w'. exact H.
Defined.

(** [curs._iter_from(b'z', True)] on the cursor of [w_curs] over a store without
    data: [MDB_SET_RANGE] finds nothing, [MDB_LAST] is tried and finds nothing, and the
    iteration is empty. *)
Lemma cursor_iter_from_start_witness :
  ∃ w',
    cursor_iter_from (K := lmdb_0_9) (E := engine_no_data) 3%nat
      (Args (mk_iter_from_args (Some ["z"%byte]) (Some true))) w_curs
      = Done (Return (PyIterator (mk_iter 3%nat false MDB_PREV cursor_item_f))) w' ∧
    length (new_calls w_curs w') = 2%nat ∧
    iter_next (K := lmdb_0_9) (E := engine_no_data)
      (mk_iter 3%nat false MDB_PREV cursor_item_f) w'
      = Done (StopIteration, mk_iter 3%nat false MDB_PREV cursor_item_f) w'.
Proof.
  pose proof (cursor_iter_from_start (K := lmdb_0_9) (E := engine_no_data) 3%nat
                (mk_cursor (Some 2%nat) false (Some 101%nat) val_null val_null) t_2
                (mk_iter_from_args (Some ["z"%byte]) (Some true)) w_curs) as H.
  cbv zeta in H. destruct H as (k & v & w' & Htr & Hrun & Hnext).
  - unfold live_cursor. by_computation.
  - exists w'. split; [exact Hrun|]. split; [|exact Hnext].
    unfold new_calls. rewrite Htr, drop_app_length. reflexivity.
Defined.

(** ** Bytes in and out *)

Lemma string_from_val_from_buffer b : string_from_val (val_from_buffer b) = b.
Proof. unfold string_from_val, val_from_buffer. simpl. apply firstn_all. Qed.

Section RoundTrip.
Context {K : lmdb_h} {E : Engine}.

(** X26: the bytes of a value come back as they went in.  [txn.put(k, v)] hands the key
    and the value to [mdb_put] with their lengths, under the default flags, and when
    the engine stores the pair and answers [mdb_get] for [k] with what it was given,
    [txn.get(k)] after the put returns [v], as [bytes] or as a buffer; the two calls
    are all the engine sees. *)
Theorem trans_put_get_round_trip self t d k v w :
  active_trans w self None t d →
  let put := mdb_put (t_txn t) (d_dbi d) (val_from_buffer k) (val_from_buffer v)
               (put_flags false true false) in
  let get := mdb_get (t_txn t) (d_dbi d) (val_from_buffer k) in
  let r := engine_reply (trace w ++ [put]) get in
  rc (engine_reply (trace w) put) = 0 →
  rc r = 0 → out_data r = val_from_buffer v →
  (trans_put self (Args (put_k_v k v)) ;;; trans_get self (Args (get_k k))) w
  = Done (Return (if t_buffers t then PyBuffer v else PyBytes v)) (called get (called put w)).
Proof.
  intros (o & e & Ho & Hv & Hb & He & Hd) put get r Hput Hrc Hdata.
  apply load_env_inv in He as (ea & eo & Hea & Heo & Hbe & _).
  apply load_db_inv in Hd as (da & od & Hda & Hod & Hbd & _).
  unfold trans_put, trans_get, generic_put, generic_get, parse_args, put_k_v, get_k.
  mgo. change (Z.lor 0 MDB_NODUPDATA) with (put_flags false true false). fold put.
  rewrite decide_False by (rewrite Hput; auto).
  mgo. fold get. fold r. rewrite decide_False by (rewrite Hrc; auto).
  rewrite Hdata, string_from_val_from_buffer.
  unfold called. simpl. now destruct (t_buffers t).
Qed.

(** X27: [curs.put()] on a valid cursor makes one call, [mdb_cursor_put], and returns
    [True], [False] for [MDB_KEYEXIST], or raises; it writes no field of any handle.  The
    cursor object is not told where the engine has put the pair: its positioned flag, its
    engine cursor and the lengths of its key and of its value are as before, so that a
    cursor that was not positioned, with a key and a value of length zero, is not
    positioned afterwards either, and [key()], [value()] and [item()] show empty
    strings. *)
Theorem cursor_put_keeps_position self c t a w :
  live_cursor w self c t →
  let call := mdb_cursor_put (c_curs c) (arg_buf (cpa_key a)) (arg_buf (cpa_val a))
                (cursor_put_flags (default false (cpa_dupdata a))
                   (default true (cpa_overwrite a)) (default false (cpa_append a))) in
  let r := engine_reply (trace w) call in
  cursor_put self (Args a) w =
    Done (if decide (rc r = 0) then Return Py_True
          else if decide (rc r = MDB_KEYEXIST) then Return Py_False
          else Raise (err_set "mdb_put" (rc r))) (called call w) ∧
  (∃ c', live_cursor (called call w) self c' t ∧
     c_positioned c' = c_positioned c ∧ c_trans c' = c_trans c ∧ c_curs c' = c_curs c ∧
     mv_size (c_key c') = mv_size (c_key c) ∧ mv_size (c_val c') = mv_size (c_val c)) ∧
  (mv_size (c_key c) = 0%nat → mv_size (c_val c) = 0%nat →
   ∀ f, val_func f self (called call w) =
        Done (Return (projection f (t_buffers t) val_null val_null)) (called call w)).
Proof.
  intros Hl call r. pose proof Hl as (o & Ho & Hv & Hb & _).
  pose proof (live_cursor_called w self c t call Hl) as Hl'.
  split; [|split; [exists c; auto 10|]].
  - unfold cursor_put, parse_args. mgo. fold call. fold r. unfold called.
    destruct (decide (rc r ≠ 0)) as [Hrc|Hrc].
    + rewrite (decide_False (P := rc r = 0)) by exact Hrc.
      destruct (decide (rc r = MDB_KEYEXIST)); reflexivity.
    + rewrite (decide_True (P := rc r = 0)); [reflexivity|].
      destruct (decide (rc r = 0)); [assumption | contradiction].
  - intros Hk Hd f. rewrite (val_func_live f _ _ _ _ Hl').
    destruct (c_key c) as [ks kd], (c_val c) as [vs vd]. simpl in Hk, Hd. subst ks vs.
    reflexivity.
Qed.

End RoundTrip.

(** [txn.put(b'k', b'')] and then [txn.get(b'k')] on [w_txn], over a store that keeps
    the last pair: the empty value comes back. *)
Lemma trans_put_get_round_trip_witness :
  (trans_put (K := lmdb_0_9) (E := engine_last_put) 2%nat (Args (put_k_v ["k"%byte] [])) ;;;
   trans_get (K := lmdb_0_9) (E := engine_last_put) 2%nat (Args (get_k ["k"%byte]))) w_txn
  = Done (Return (PyBytes []))
      (called (mdb_get (Some 100%nat) 1 (val_from_buffer ["k"%byte]))
         (called (mdb_put (Some 100%nat) 1 (val_from_buffer ["k"%byte]) (val_from_buffer [])
                    (put_flags (K := lmdb_0_9) false true false)) w_txn)).
Proof.
  apply (trans_put_get_round_trip (K := lmdb_0_9) (E := engine_last_put) 2%nat t_2 d_1
           ["k"%byte] [] w_txn).
  - unfold active_trans. by_computation.
  - reflexivity.
  - vm_compute; reflexivity.
  - vm_compute; reflexivity.
Defined.

(** [curs.put(b'c', b'3')] on the cursor of [w_curs], which is not positioned: the
    cursor is not positioned afterwards, and still shows an empty key. *)
Lemma cursor_put_keeps_position_witness :
  ∃ w' c', cursor_put (K := lmdb_0_9) (E := engine_ok) 3%nat
             (Args (mk_cursor_put_args (Some ["c"%byte]) (Some ["3"%byte]) None None None))
             w_curs = Done (Return Py_True) w' ∧
           live_cursor w' 3%nat c' t_2 ∧ c_positioned c' = false ∧
           cursor_key 3%nat w' = Done (Return (PyBytes [])) w'.
Proof.
  destruct (cursor_put_keeps_position (K := lmdb_0_9) (E := engine_ok) 3%nat
              (mk_cursor (Some 2%nat) false (Some 101%nat) val_null val_null) t_2
              (mk_cursor_put_args (Some ["c"%byte]) (Some ["3"%byte]) None None None)
              w_curs) as (Hrun & (c' & Hl & Hpos & _) & Hval).
  - unfold live_cursor. by_computation.
  - eexists _, c'. split; [exact Hrun|]. split; [exact Hl|]. split; [exact Hpos|].
    exact (Hval eq_refl eq_refl cursor_key_f).
Defined.

(** ** Where a handle that is not valid is not refused (C1) *)

Section NotRefused.
Context {K : lmdb_h} {E : Engine}.

(** [trans_get], [trans_put] and [trans_delete] read [self->env->main_db] before
    anything is tested. *)
Lemma trans_reads_env self o w :
  heap w !! self = Some o → (∀ t, body o = BTrans t → t_env t = None) →
  (∀ a, trans_get self a w = Fault) ∧ (∀ a, trans_put self a w = Fault) ∧
  (∀ a, trans_delete self a w = Fault).
Proof.
  intros Ho Hb. unfold trans_get, trans_put, trans_delete.
  destruct (body o) as [d|e|t|c] eqn:Hbo; try (repeat split; intros a; mgo; reflexivity).
  pose proof (Hb t eq_refl) as He.
  repeat split; intros a; mgo; reflexivity.
Qed.

(** [trans_clear] ends with [Py_CLEAR(self->env)]. *)
Lemma trans_clear_env inv self w w' :
  trans_clear inv self w = Done tt w' →
  ∃ o, heap w' !! self = Some o ∧ ∀ t, body o = BTrans t → t_env t = None.
Proof.
  intros H. unfold trans_clear in H.
  apply bind_inv in H as (o & w1 & _ & H). apply bind_inv in H as (u & w2 & _ & H).
  apply bind_inv in H as (t' & w3 & _ & H). apply bind_inv in H as (u' & w4 & _ & H).
  apply update_inv in H as (o4 & Ho4 & ->). exists (set_t_env None o4). simpl.
  rewrite lookup_insert_eq. split; [reflexivity|].
  unfold set_t_env. destruct (body o4) as [d|e|t|c] eqn:Hb; simpl; rewrite ?Hb;
    intros t0 [= <-]; reflexivity.
Qed.

Lemma env_open_db_unchecked self o e a l w :
  heap w !! self = Some o → body o = BEnv e → oa_txn a = None →
  dll (heap w) None (next (children o)) l → NoDup (self :: l) →
  ∃ res w' rest,
    env_open_db self (Args a) w = Done res w' ∧ res ≠ Raise InvalidHandle ∧
    new_calls w w' =
      mdb_txn_begin (e_env e) None
        (if bool_decide (oa_name a = None) || e_readonly e then MDB_RDONLY else 0) :: rest.
Proof.
  intros Ho Hb Ha Hd Hnd.
  destruct (env_open_db_own_txn_spec self o e a l w Ho Hb Ha Hd Hnd)
    as (res & w' & Hrun & Hcase).
  cbv zeta in Hcase. exists res, w'.
  destruct (decide _) as [?|?] in Hcase; [|destruct (decide _) as [?|?] in Hcase;
    [|destruct (decide _) as [?|?] in Hcase]].
  - destruct Hcase as [-> ->]. eexists. split; [exact Hrun|]. split; [discriminate|].
    apply new_calls_app. reflexivity.
  - destruct Hcase as [-> ->]. eexists. split; [exact Hrun|]. split; [discriminate|].
    apply new_calls_app. reflexivity.
  - destruct Hcase as [-> ->]. eexists. split; [exact Hrun|]. split; [discriminate|].
    apply new_calls_app. reflexivity.
  - destruct Hcase as (-> & Htr & _). eexists. split; [exact Hrun|]. split; [discriminate|].
    apply new_calls_app. exact Htr.
Qed.

End NotRefused.

Section Nested.
Context {K : lmdb_h} {E : Engine}.

Lemma tree_size_nodes t : tree_size t = length (nodes t).
Proof.
  induction t as [a ks IH] using tree_ind'. simpl. f_equal.
  induction IH as [|k ks Hk _ IHks]; simpl; [reflexivity|].
  rewrite length_app. lia.
Qed.

Lemma sizes_nodes ks : list_sum (map tree_size ks) = length (flat_map nodes ks).
Proof.
  induction ks as [|k ks IH]; simpl; [reflexivity|].
  rewrite length_app, tree_size_nodes. lia.
Qed.

(** Linking a new object below [p] leaves every other object as it is, but for its
    links. *)
Lemma new_child_frame w tr p op b t :
  heap w !! p = Some op → valid op = true → (∀ d, body op ≠ BDb d) →
  owner (OBJECT_INIT b) = Some p → (∀ e, b ≠ BEnv e) →
  shape (heap w) t → NoDup (nodes t) → p ∈ nodes t →
  let new := fresh (dom (heap w)) in
  ∃ w', link_child p new (mk_world (<[new := OBJECT_INIT b]> (heap w)) tr) = Done tt w' ∧
    ∀ x o, heap w !! x = Some o → x ≠ p →
      ∃ o', heap w' !! x = Some o' ∧ children o' = children o ∧ same_but_links o o'.
Proof.
  intros Hp Hvp Hbp Hown Hbe Hs Hnd Hpt new.
  pose proof (fresh_not_in_heap (heap w)) as Hnew. fold new in Hnew.
  assert (Hnt : new ∉ nodes t).
  { intros Hin. destruct (shape_in_heap _ _ _ Hs Hin) as (? & ?). congruence. }
  assert (Hpn : p ≠ new) by (intros ->; congruence).
  set (w1 := mk_world (<[new := OBJECT_INIT b]> (heap w)) tr).
  assert (Hs1 : shape (heap w1) t).
  { apply (shape_frame (heap w)); [|exact Hs]. intros x Hx. simpl.
    apply lookup_insert_ne. intros <-. contradiction. }
  destruct (link_child_grafts w1 p new op (OBJECT_INIT b) t)
    as (w' & Hrun & _ & (Hoth & _) & _); auto.
  { simpl. now rewrite lookup_insert_ne by congruence. }
  { simpl. apply lookup_insert_eq. }
  exists w'. split; [exact Hrun|]. intros x ox Hx Hxp.
  assert (Hxn : x ≠ new) by (intros ->; congruence).
  destruct (Hoth x ox) as (o' & Ho' & Hc & Hsb & _); [|exact Hxp|eauto].
  simpl. now rewrite lookup_insert_ne by congruence.
Qed.

(** A transaction begun with a parent is linked below the environment, and the
    cascade from the parent does not reach it. *)
Lemma nested_outlives_parent fuel self o e p po pt a ks w :
  heap w !! self = Some o → valid o = true → body o = BEnv e →
  ba_parent a = Some p →
  heap w !! p = Some po → valid po = true → body po = BTrans pt →
  (e_readonly e = true → default false (ba_write a) = false) →
  rc (engine_reply (trace w)
        (mdb_txn_begin (e_env e) (t_txn pt)
           (if default false (ba_write a) then 0 else MDB_RDONLY))) = 0 →
  shape (heap w) (Node self ks) → NoDup (nodes (Node self ks)) →
  p ∈ flat_map nodes ks → (tree_size (Node self ks) <= fuel)%nat →
  ∃ child w1 w2,
    env_begin self (Args a) w = Done (Return (PyHandle child)) w1 ∧
    (∃ o1, heap w1 !! self = Some o1 ∧ next (children o1) = Some child) ∧
    is_valid w1 p ∧ is_valid w1 child ∧
    trans_abort fuel p w1 = Done (Return Py_None) w2 ∧
    is_invalid w2 p ∧ is_valid w2 child.
Proof.
  intros Ho Hv Hb Hpa Hpo Hvp Hbp Hro Hrc Hs Hnd Hp Hfuel.
  set (c := mdb_txn_begin (e_env e) (t_txn pt)
              (if default false (ba_write a) then 0 else MDB_RDONLY)) in *.
  set (r := engine_reply (trace w) c) in *.
  set (b := BTrans (mk_trans (Some self) (Some (out_ptr r)) (default false (ba_buffers a)))).
  set (new := fresh (dom (heap w))).
  assert (Hps : p ≠ self) by (intros ->; congruence).
  assert (Hbd : ∀ d, body o ≠ BDb d) by (intros d; rewrite Hb; discriminate).
  assert (Hself : self ∈ nodes (Node self ks)) by (simpl; left).
  destruct (new_child_grafts w (trace w ++ [c]) self o b (Node self ks))
    as (w1 & Hlink & Htr & Hnew & (on & Hon & Hvon & Hbon) & Hsh & Hnd'); auto;
    try (intros e0; unfold b; discriminate).
  destruct (new_child_frame w (trace w ++ [c]) self o b (Node self ks))
    as (w1' & Hlink' & Hframe); auto; try (intros e0; unfold b; discriminate).
  fold new in Hlink, Hlink', Hnew, Hon, Hsh, Hnd'.
  rewrite Hlink in Hlink'. injection Hlink' as <-.
  assert (Hrun : env_begin self (Args a) w = Done (Return (PyHandle new)) w1).
  { clear Hframe Hsh Hnd' Hon.
    assert (Hflags : (if default false (ba_write a) && negb (e_readonly e)
                      then 0 else MDB_RDONLY)
                     = (if default false (ba_write a) then 0 else MDB_RDONLY)).
    { destruct (default false (ba_write a)), (e_readonly e); try reflexivity.
      now specialize (Hro eq_refl). }
    assert (Hwr : default false (ba_write a) && e_readonly e = false).
    { destruct (default false (ba_write a)), (e_readonly e); try reflexivity.
      now specialize (Hro eq_refl). }
    unfold env_begin, make_trans, parse_args.
    mgo; rewrite ?Hflags; fold c; fold r;
      try (rewrite decide_False by (rewrite Hrc; auto)).
    unfold PyObject_New; simpl; fold c; fold r. fold new. fold b.
    rewrite Hlink; reflexivity. }
  destruct (Hframe p po Hpo Hps) as (po1 & Hpo1 & Hch1 & [Hv1 Hb1]).
  assert (Hnp : new ≠ p) by (intros Heq; rewrite Heq in Hnew; congruence).
  simpl in Hsh, Hnd'. rewrite decide_True in Hsh, Hnd' by reflexivity. simpl in Hsh, Hnd'.
  destruct Hsh as [(o1 & Ho1 & Hdll) Hkids].
  apply elem_of_flat_map in Hp as (k & Hk & Hpk).
  simpl in Hnd. apply NoDup_cons in Hnd as [Hsks Hndks].
  assert (Hndk : NoDup (nodes k)) by (eapply NoDup_kid; eauto).
  assert (Hsk : self ∉ nodes k).
  { intros Hin. apply Hsks. apply elem_of_flat_map. eauto. }
  assert (Hperm : nodes (graft self new k) ≡ₚ nodes k).
  { rewrite (nodes_graft self new k Hndk). now rewrite decide_False by exact Hsk. }
  assert (Hshk : shape (heap w) k).
  { apply shape_unfold in Hs as [_ Hall]. rewrite Forall_forall in Hall.
    apply (Hall k Hk). }
  assert (Hshk' : shape (heap w1) (graft self new k)).
  { assert (Hall : Forall (λ k, linked (heap w1) self k ∧ shape (heap w1) k)
                     (Node new [] :: map (graft self new) ks)).
    { apply (shape_unfold (heap w1) self (Node new [] :: map (graft self new) ks)).
      split; [eauto | exact Hkids]. }
    rewrite Forall_forall in Hall. apply Hall. right.
    apply list_elem_of_fmap. eauto. }
  destruct (shape_sub (heap w1) (graft self new k) p Hshk')
    as (ks' & Hsp & Hsub & Hndp); [rewrite Hperm; exact Hpk|].
  assert (Hndp' : NoDup (nodes (Node p ks'))) by (apply Hndp; now rewrite Hperm).
  assert (Hin_ks : ∀ x, x ∈ nodes (Node p ks') → x ∈ flat_map nodes ks).
  { intros x Hx. apply Hsub in Hx. rewrite Hperm in Hx. apply elem_of_flat_map. eauto. }
  assert (Hnew' : new ∉ nodes (Node p ks')).
  { intros Hin. apply Hsub in Hin. rewrite Hperm in Hin.
    destruct (shape_in_heap _ _ _ Hshk Hin) as (? & ?). congruence. }
  assert (Hlen : (list_sum (map tree_size ks') <= fuel)%nat).
  { pose proof (submseteq_length _ _ (NoDup_submseteq _ _ Hndp' Hin_ks)) as Hle.
    simpl in Hle, Hfuel. rewrite sizes_nodes in *. lia. }
  apply shape_unfold in Hsp as [(po1' & Hpo1' & Hdl) Hks'].
  assert (po1' = po1) as -> by congruence.
  destruct (loop_spec_all ks' fuel w1 p po1 Hlen Hpo1 Hdl Hks' Hndp')
    as (w2 & Hinv & _ & Hp2 & Hfr).
  assert (Hon2 : heap w2 !! new = Some on).
  { rewrite Hfr; [exact Hon | | exact Hnp]. intros Hin. apply Hnew'. simpl. now right. }
  eexists new, w1, _.
  split; [exact Hrun|].
  split; [exists o1; split; [exact Ho1 | apply Hdll]|].
  split; [exists po1; split; [exact Hpo1 | congruence]|].
  split; [exists on; auto|].
  assert (Hb2 : body (set_children_next None po1) = BTrans pt)
    by (simpl; congruence).
  assert (Hv1' : valid po1 = true) by congruence.
  clear Hframe Hfr Hdl Hks' Hkids Hdll.
  split.
  { unfold trans_abort. rewrite (bind_Done _ _ _ _ _ (load_Some _ _ _ Hpo1)).
    rewrite Hv1'. simpl.
    rewrite (bind_Done _ _ _ _ _ (eq_trans (invalidate_unfold fuel p w1 po1 Hpo1) Hinv)).
    rewrite (bind_Done _ _ _ _ _ (load_trans_Some _ _ _ _ Hp2 Hb2)).
    unfold call_void, bind, update. simpl. rewrite Hp2. simpl.
    rewrite lookup_insert_eq. reflexivity. }
  split.
  - eexists. simpl. rewrite lookup_insert_eq. split; reflexivity.
  - exists on. simpl. rewrite !lookup_insert_ne by congruence. auto.
Qed.

End Nested.

Section InvalidHandles.
Context {K : lmdb_h} {E : Engine}.

(** C1 fails in the code in three places, where an operation on a handle that has been
    invalidated is not refused with [InvalidHandle].
    [Environment.open_db] without a transaction, on an environment that is not valid:
    [parse_args] is called with [1] in the place of [self->valid], and the method goes on
    to the engine, with [mdb_txn_begin] on the environment pointer the object holds; it
    ends with the error of the engine or with a new handle, never with [InvalidHandle].
    [Transaction.get], [put] and [delete] on a transaction whose environment reference
    has been cleared: they read [self->env->main_db] before the handle is tested, a
    dereference of [NULL]; this is the state [trans_clear] leaves, which the cascade from
    the environment runs on every transaction.
    [env.begin(parent=p)]: the new transaction is linked to the environment, as its
    first child, and not to [p]; [p.abort()] then runs through and invalidates [p], and
    the new transaction is still valid. *)
Theorem invalid_handle_not_refused :
  (∀ self o e a l w,
     heap w !! self = Some o → valid o = false → body o = BEnv e → oa_txn a = None →
     dll (heap w) None (next (children o)) l → NoDup (self :: l) →
     ∃ res w' rest,
       env_open_db self (Args a) w = Done res w' ∧ res ≠ Raise InvalidHandle ∧
       new_calls w w' =
         mdb_txn_begin (e_env e) None
           (if bool_decide (oa_name a = None) || e_readonly e then MDB_RDONLY else 0)
         :: rest) ∧
  (∀ self o t w,
     heap w !! self = Some o → valid o = false → body o = BTrans t → t_env t = None →
     (∀ a, trans_get self a w = Fault) ∧ (∀ a, trans_put self a w = Fault) ∧
     (∀ a, trans_delete self a w = Fault)) ∧
  (∀ fuel self w w',
     trans_clear (invalidate fuel) self w = Done tt w' →
     (∀ a, trans_get self a w' = Fault) ∧ (∀ a, trans_put self a w' = Fault) ∧
     (∀ a, trans_delete self a w' = Fault)) ∧
  (∀ fuel self o e p po pt a ks w,
     heap w !! self = Some o → valid o = true → body o = BEnv e →
     ba_parent a = Some p →
     heap w !! p = Some po → valid po = true → body po = BTrans pt →
     (e_readonly e = true → default false (ba_write a) = false) →
     rc (engine_reply (trace w)
           (mdb_txn_begin (e_env e) (t_txn pt)
              (if default false (ba_write a) then 0 else MDB_RDONLY))) = 0 →
     shape (heap w) (Node self ks) → NoDup (nodes (Node self ks)) →
     p ∈ flat_map nodes ks → (tree_size (Node self ks) <= fuel)%nat →
     ∃ child w1 w2,
       env_begin self (Args a) w = Done (Return (PyHandle child)) w1 ∧
       (∃ o1, heap w1 !! self = Some o1 ∧ next (children o1) = Some child) ∧
       is_valid w1 p ∧ is_valid w1 child ∧
       trans_abort fuel p w1 = Done (Return Py_None) w2 ∧
       is_invalid w2 p ∧ is_valid w2 child).
Proof.
  split; [|split; [|split]].
  - intros self o e a l w Ho _ Hb Ha Hd Hnd. eapply env_open_db_unchecked; eauto.
  - intros self o t w Ho _ Hb He. apply (trans_reads_env self o w Ho).
    intros t0 Hb0. congruence.
  - intros fuel self w w' H. apply trans_clear_env in H as (o & Ho & He).
    exact (trans_reads_env self o w' Ho He).
  - intros fuel self o e p po pt a ks w. apply nested_outlives_parent.
Qed.

End InvalidHandles.

(** After [env.close()] on [w_curs]: [env.open_db()] goes to the engine, and
    [txn.get(b'b')], [txn.put(b'a', b'2', overwrite=False)] and [txn.delete(b'b')]
    dereference [NULL], as [txn.get(b'b')] does once [trans_clear] has run on the
    transaction of [w_curs].  After [child = env.begin(write=True, parent=txn)] on [w_txn],
    the child at address 3 is the first child of the environment, and still valid after
    [txn.abort()]. *)
Lemma invalid_handle_not_refused_witness :
  (is_invalid w_closed 0%nat ∧
   ∃ res w' rest,
     env_open_db (K := lmdb_0_9) (E := engine_ok) 0%nat
       (Args (mk_open_db_args None None None None None)) w_closed = Done res w' ∧
     res ≠ Raise InvalidHandle ∧
     new_calls w_closed w' = mdb_txn_begin None None 131072 :: rest) ∧
  (∃ w', trans_clear (invalidate 10) 2%nat w_curs = Done tt w' ∧
         trans_get (K := lmdb_0_9) (E := engine_ok) 2%nat (Args get_b) w' = Fault) ∧
  (is_invalid w_closed 2%nat ∧
   trans_get (K := lmdb_0_9) (E := engine_ok) 2%nat (Args get_b) w_closed = Fault ∧
   trans_put (K := lmdb_0_9) (E := engine_ok) 2%nat (Args put_a_2_no_overwrite) w_closed
     = Fault ∧
   trans_delete (K := lmdb_0_9) (E := engine_ok) 2%nat (Args delete_b) w_closed = Fault) ∧
  (env_begin (K := lmdb_0_9) (E := engine_ok) 0%nat
     (Args (mk_begin_args None (Some true) (Some 2%nat))) w_txn
     = Done (Return (PyHandle 3%nat)) w_nested ∧
   (∃ o1, heap w_nested !! 0%nat = Some o1 ∧ next (children o1) = Some 3%nat) ∧
   trans_abort 10 2%nat w_nested = Done (Return Py_None) w_nested_aborted ∧
   is_invalid w_nested_aborted 2%nat ∧ is_valid w_nested_aborted 3%nat).
Proof.
  pose proof (invalid_handle_not_refused (K := lmdb_0_9) (E := engine_ok))
    as (Hopen & Hreads & Hclear & Hnested).
  assert (Ho0 : heap w_closed !! 0%nat =
                Some (mk_object list_head_null list_head_null false
                        (BEnv (mk_env None (Some 1%nat) false))))
    by (vm_compute; reflexivity).
  assert (Ho2 : heap w_closed !! 2%nat =
                Some (mk_object list_head_null list_head_null false
                        (BTrans (mk_trans None None false))))
    by (vm_compute; reflexivity).
  split; [|split; [|split]].
  - split; [eexists; split; [exact Ho0 | reflexivity]|].
    destruct (Hopen 0%nat _ (mk_env None (Some 1%nat) false)
                (mk_open_db_args None None None None None) [] w_closed Ho0)
      as (res & w' & rest & Hrun & Hne & Hcalls); try reflexivity; [apply NoDup_singleton|].
    exists res, w', rest. split; [exact Hrun|]. split; [exact Hne|].
    refine (eq_trans Hcalls _). vm_compute. reflexivity.
  - exists (state_of (trans_clear (invalidate 10) 2%nat w_curs) w_curs).
    assert (Hrun : trans_clear (invalidate 10) 2%nat w_curs =
                   Done tt (state_of (trans_clear (invalidate 10) 2%nat w_curs) w_curs))
      by (vm_compute; reflexivity).
    split; [exact Hrun|]. apply (Hclear 10%nat 2%nat w_curs _ Hrun).
  - split; [eexists; split; [exact Ho2 | reflexivity]|].
    destruct (Hreads 2%nat _ (mk_trans None None false) w_closed Ho2 eq_refl eq_refl eq_refl) as (Hg & Hp & Hd).
    split; [apply Hg|]. split; [apply Hp | apply Hd].
  - destruct (Hnested 10%nat 0%nat
                (mk_object list_head_null (mk_list_head None (Some 2%nat)) true
                   (BEnv (mk_env (Some 7%nat) (Some 1%nat) false)))
                (mk_env (Some 7%nat) (Some 1%nat) false) 2%nat
                (mk_object (mk_list_head None (Some 1%nat)) list_head_null true (BTrans t_2))
                t_2 (mk_begin_args None (Some true) (Some 2%nat))
                [Node 2%nat []; Node 1%nat []] w_txn)
      as (child & w1 & w2 & Hrun & Hhead & _ & _ & Habort & Hinv & Hval);
      try (vm_compute; reflexivity).
    + discriminate.
    + simpl. unfold linked. simpl. by_computation.
    + apply (bool_decide_unpack _). vm_compute. exact I.
    + simpl. left.
    + simpl. lia.
    + assert (Hrun' : env_begin (K := lmdb_0_9) (E := engine_ok) 0%nat
                        (Args (mk_begin_args None (Some true) (Some 2%nat))) w_txn
                      = Done (Return (PyHandle 3%nat)) w_nested)
        by (vm_compute; reflexivity).
      rewrite Hrun' in Hrun. injection Hrun as <- <-.
      assert (Habort' : trans_abort 10 2%nat w_nested
                        = Done (Return Py_None) w_nested_aborted)
        by (vm_compute; reflexivity).
      rewrite Habort' in Habort. injection Habort as <-.
      auto.
Defined.
